(** * Verification of the FTMA and GW-DE cores

    A shallow embedding of
    - [ftma/core/field.h], [ftma/core/shamir.cpp], [ftma/core/protocol.cpp]
      (finite field modulo 2^61-1, Shamir sharing, masked aggregation),
    - [gwde/src/watermark.cpp] (dual-entropy text and image watermark), and
    - [line_word_count.c] (words per line of a file),
    followed by the properties proved about them.

    Conventions.  Unsigned machine integers are modelled in [Z] with the
    wrap-around written out ([wrap64], [wrap32]); [uint8_t] and [char] are
    [ascii] (eight bits, so the range is part of the type) read through
    [byte_val]; [std::vector] and [std::string] are lists; a C++ exception is
    an [Err] result, and an access outside a vector (undefined behaviour in
    the source) is the distinguished error [OutOfBounds]. *)

From Stdlib Require Import ZArith List Lia Ascii String QArith Znumtheory.
From Stdlib Require Import Zdiv Zcong.
From Stdlib Require Import DecimalString Zpow_facts.
From Stdlib Require Import Zmod.
From stdpp Require Import base list gmap.

Open Scope Z_scope.

(** ** Machine integers, bytes and results *)

Definition wrap64 (z : Z) : Z := z mod 2 ^ 64.
Definition wrap32 (z : Z) : Z := z mod 2 ^ 32.

Definition byte_val (c : ascii) : Z := Z.of_N (N_of_ascii c).
Definition to_byte (z : Z) : ascii := ascii_of_N (Z.to_N (z mod 256)).

Inductive error : Type :=
| InvalidArgument (msg : string)
| OutOfRange (msg : string)
| RuntimeError (msg : string)
| OutOfBounds.

Inductive result (A : Type) : Type :=
| Ok (a : A)
| Err (e : error).
Arguments Ok {A} a.
Arguments Err {A} e.

#[global] Instance result_ret : MRet result := fun A a => Ok a.
#[global] Instance result_bind : MBind result := fun A B k r =>
  match r with
  | Ok a => k a
  | Err e => Err e
  end.

(** Bounds-checked vector read: [v[i]]. *)
Definition read {A : Type} (v : list A) (i : nat) : result A :=
  match v !! i with
  | Some a => Ok a
  | None => Err OutOfBounds
  end.

(** ** [std::mt19937_64]

    The engine of the C++ standard library: state of 312 words, the
    recurrence [x(k+n) = x(k+m) xor twist(x(k), x(k+1))] and the tempering
    of each new word.  The state is kept as the window of the last 312
    words. *)
Module MT.

Definition n : nat := 312.
Definition m : nat := 156.
Definition a : Z := 0xb5026f5aa96619e9.
Definition upper_mask : Z := 0xFFFFFFFF80000000.
Definition lower_mask : Z := 0x7FFFFFFF.
Definition f : Z := 6364136223846793005.

Definition state : Type := list Z.

Fixpoint seed_words (fuel : nat) (i : Z) (prev : Z) : list Z :=
  match fuel with
  | O => []
  | S k =>
      let x := wrap64 (f * Z.lxor prev (Z.shiftr prev 62) + i) in
      x :: seed_words k (i + 1) x
  end.

Definition seed (s : Z) : state :=
  let x0 := wrap64 s in
  x0 :: seed_words (n - 1) 1 x0.

Definition temper (x : Z) : Z :=
  let z := Z.lxor x (Z.land (Z.shiftr x 29) 0x5555555555555555) in
  let z := Z.lxor z (Z.land (wrap64 (Z.shiftl z 17)) 0x71d67fffeda60000) in
  let z := Z.lxor z (Z.land (wrap64 (Z.shiftl z 37)) 0xfff7eee000000000) in
  Z.lxor z (Z.shiftr z 43).

(** One call of [rng()]. *)
Definition next (st : state) : Z * state :=
  let x0 := nth 0 st 0 in
  let x1 := nth 1 st 0 in
  let xm := nth m st 0 in
  let y := Z.lor (Z.land x0 upper_mask) (Z.land x1 lower_mask) in
  let xn := Z.lxor (Z.lxor xm (Z.shiftr y 1)) (if Z.odd y then a else 0) in
  (temper xn, tl st ++ [xn]).

Fixpoint discard (k : nat) (st : state) : state :=
  match k with
  | O => st
  | S k' => discard k' (snd (next st))
  end.

End MT.

(** ** GW-DE: [gwde/src/watermark.cpp] *)
Module Gwde.

Definition kZeroWidthZero : Z := 0x200B.
Definition kZeroWidthOne : Z := 0x200C.
Definition kZeroWidthMetaStart : Z := 0x2063.
Definition kZeroWidthMetaEnd : Z := 0x2064.

Definition kMetadataBytes : nat := 24.
Definition kMetadataRepeat : nat := 4.
Definition kMetadataBits : nat := kMetadataBytes * 8.
Definition kMetadataPayloadBits : nat := kMetadataBits * kMetadataRepeat.

Record Metadata : Type := mkMetadata {
  version : Z;
  state_seed : Z;
  key_hash : Z;
  fingerprint_length : Z
}.

(** [Metadata{}]: the member initialisers of the struct. *)
Definition Metadata_default : Metadata := mkMetadata 1 0 0 0.

Record ImagePayload : Type := mkImagePayload {
  bytes : list ascii;
  height : Z;
  width : Z;
  channels : Z
}.

Record ImageEmbedResult : Type := mkImageEmbedResult {
  ie_payload : ImagePayload;
  ie_metadata : Metadata;
  ie_fingerprint_bits : list Z
}.

Record TextEmbedResult : Type := mkTextEmbedResult {
  watermarked_text : list ascii;
  te_metadata : Metadata;
  te_fingerprint_bits : list Z
}.

(** The [double] fields.  [score] is the exact quotient that the source
    computes in floating point; the false-positive rate is either the
    literal [1.0] or the value [0.5 * erfc(z / sqrt 2)] computed from the
    two counters, kept symbolic. *)
Inductive fp_rate : Type :=
| FpOne
| FpErfc (matching total : Z).

Record DetectionResult : Type := mkDetectionResult {
  score : Q;
  false_positive_rate : fp_rate;
  total_bits : Z;
  matching_bits : Z;
  metadata_valid : bool
}.

Definition DetectionResult_default : DetectionResult :=
  mkDetectionResult 0 FpOne 0 0 false.

(** *** Hashing *)

Definition HashString64 (value : list ascii) : Z :=
  fold_left
    (fun hash c => wrap64 (Z.lxor hash (byte_val c) * 1099511628211))
    value 1469598103934665603.

Definition StableHash (value : list ascii) : Z := HashString64 value.

Definition StableHash64 (value : Z) : Z :=
  let value := Z.lxor value (Z.shiftr value 33) in
  let value := wrap64 (value * 0xff51afd7ed558ccd) in
  let value := Z.lxor value (Z.shiftr value 33) in
  let value := wrap64 (value * 0xc4ceb9fe1a85ec53) in
  Z.lxor value (Z.shiftr value 33).

(** *** Metadata packing *)

Definition write_u32 (value : Z) : list ascii :=
  [ to_byte (Z.land (Z.shiftr value 24) 0xFF);
    to_byte (Z.land (Z.shiftr value 16) 0xFF);
    to_byte (Z.land (Z.shiftr value 8) 0xFF);
    to_byte (Z.land value 0xFF) ].

Definition write_u64 (value : Z) : list ascii :=
  map (fun i : Z => to_byte (Z.land (Z.shiftr value (56 - i * 8)) 0xFF))
      [0; 1; 2; 3; 4; 5; 6; 7].

Definition PackMetadata (meta : Metadata) : list ascii :=
  write_u32 (version meta) ++ write_u64 (state_seed meta) ++
  write_u64 (key_hash meta) ++ write_u32 (fingerprint_length meta).

Definition src_at (src : list ascii) (i : nat) : Z :=
  byte_val (nth i src zero).

Definition read_u32 (src : list ascii) : Z :=
  Z.lor (Z.lor (Z.lor (wrap32 (Z.shiftl (src_at src 0) 24))
                      (wrap32 (Z.shiftl (src_at src 1) 16)))
               (wrap32 (Z.shiftl (src_at src 2) 8)))
        (src_at src 3).

Definition read_u64 (src : list ascii) : Z :=
  fold_left
    (fun value i => Z.lor (wrap64 (Z.shiftl value 8)) (src_at src i))
    (seq 0 8) 0.

Definition UnpackMetadata (bs : list ascii) : option Metadata :=
  if decide (length bs = 24%nat) then
    Some (mkMetadata (read_u32 bs) (read_u64 (drop 4 bs))
                     (read_u64 (drop 12 bs)) (read_u32 (drop 20 bs)))
  else None.

(** The bits of the packed bytes, most significant first. *)
Definition byte_bits (b : ascii) : list Z :=
  map (fun bit : Z => Z.land (Z.shiftr (byte_val b) bit) 1)
      [7; 6; 5; 4; 3; 2; 1; 0].

Definition bytes_to_bits (bs : list ascii) : list Z :=
  flat_map byte_bits bs.

(** [bytes[i / 8] <<= 1; bytes[i / 8] |= bits[i] & 0x1] for every [i]. *)
Definition shift_in (b : ascii) (bit : Z) : ascii :=
  let b1 := to_byte (Z.shiftl (byte_val b) 1) in
  to_byte (Z.lor (byte_val b1) (Z.land bit 1)).

Definition bits_to_bytes (bits : list Z) : list ascii :=
  fold_left
    (fun (bs : list ascii) (i : nat) =>
       let byte_index := (i / 8)%nat in
       <[byte_index := shift_in (nth byte_index bs zero) (nth i bits 0)]> bs)
    (seq 0 (length bits)) (replicate 24 zero).

(** *** Image watermark *)

(** [s *= ...] on [std::size_t]. *)
Definition total_pixels (p : ImagePayload) : Z :=
  wrap64 (wrap64 (height p * width p) * channels p).

Definition is_empty_payload (p : ImagePayload) : bool :=
  bool_decide (bytes p = []) ||
  (wrap64 (wrap64 (width p * height p) * channels p) =? 0).

(** [b &= 0xFE; b |= bit]. *)
Definition set_lsb (b : ascii) (bit : Z) : ascii :=
  let b1 := to_byte (Z.land (byte_val b) 0xFE) in
  to_byte (Z.lor (byte_val b1) bit).

Fixpoint combined_loop (bs : list ascii) (idxs : list nat) (rng : MT.state)
  : result (list Z) :=
  match idxs with
  | [] => Ok []
  | idx :: rest =>
      b ← read bs idx;
      let mix := Z.lxor (Z.shiftl (byte_val b) 32) (Z.of_nat idx) in
      let content_bit := Z.land (StableHash64 mix) 1 in
      let '(r, rng') := MT.next rng in
      let state_bit := Z.land r 1 in
      bits ← combined_loop bs rest rng';
      Ok (Z.land (Z.lxor content_bit state_bit) 1 :: bits)
  end.

Definition ImageComputeCombinedBits (p : ImagePayload) (skip_bits : nat)
    (seed key : Z) : result (list Z) :=
  let total := total_pixels p in
  if total <=? Z.of_nat skip_bits then Ok []
  else
    combined_loop (bytes p)
      (seq skip_bits (Z.to_nat total - skip_bits))
      (MT.seed (Z.lxor seed key)).

(** The slots in the order of the two nested loops of [InjectMetadata]. *)
Definition metadata_slots : list (nat * nat) :=
  bit_index ← seq 0 kMetadataBits;
  rep ← seq 0 kMetadataRepeat;
  [(bit_index, rep)].

Fixpoint inject_loop (bits : list Z) (slots : list (nat * nat))
    (bs : list ascii) : list ascii :=
  match slots with
  | [] => bs
  | (bit_index, rep) :: rest =>
      let slot := (bit_index * kMetadataRepeat + rep)%nat in
      if decide (length bs <= slot)%nat then bs
      else
        inject_loop bits rest
          (<[slot := set_lsb (nth slot bs zero) (nth bit_index bits 0)]> bs)
  end.

Definition InjectMetadata (p : ImagePayload) (meta : Metadata)
  : ImagePayload :=
  let bits := bytes_to_bits (PackMetadata meta) in
  mkImagePayload (inject_loop bits metadata_slots (bytes p))
                 (height p) (width p) (channels p).

(** The loop of [Embed] that writes the fingerprint into the samples
    after the metadata region. *)
Fixpoint write_fingerprint (fbits : list Z) (idxs : list nat)
    (bs : list ascii) : result (list ascii) :=
  match idxs with
  | [] => Ok bs
  | i :: rest =>
      let pixel_index := (i + kMetadataPayloadBits)%nat in
      bit ← read fbits i;
      b ← read bs pixel_index;
      write_fingerprint fbits rest (<[pixel_index := set_lsb b bit]> bs)
  end.

Definition ImageEmbed (payload : ImagePayload) (key : list ascii)
    (seed : Z) : result ImageEmbedResult :=
  if is_empty_payload payload then
    Err (InvalidArgument "Image payload is empty")
  else
    let key_hash := StableHash key in
    let total := total_pixels payload in
    let metadata_bits := kMetadataPayloadBits in
    if total <=? Z.of_nat metadata_bits then
      Err (InvalidArgument "Image too small for metadata encoding")
    else
      let fingerprint_bits := total - Z.of_nat metadata_bits in
      let meta := mkMetadata 1 seed key_hash (wrap32 fingerprint_bits) in
      fbits ← ImageComputeCombinedBits payload metadata_bits seed key_hash;
      let watermarked := InjectMetadata payload meta in
      bs ← write_fingerprint fbits (seq 0 (Z.to_nat fingerprint_bits))
                 (bytes watermarked);
      Ok (mkImageEmbedResult
            (mkImagePayload bs (height payload) (width payload)
                            (channels payload))
            meta fbits).

Definition majority_bit (bits : list Z) (bit : nat) : Z :=
  let ones :=
    fold_left
      (fun ones rep =>
         let slot := (bit * kMetadataRepeat + rep)%nat in
         if decide (slot < length bits)%nat
         then ones + Z.land (nth slot bits 0) 1
         else ones)
      (seq 0 kMetadataRepeat) 0 in
  if Z.of_nat (kMetadataRepeat / 2) <? ones then 1 else 0.

Definition ExtractMetadata (p : ImagePayload) : Metadata * bool :=
  let metadata_bits := kMetadataPayloadBits in
  if decide (length (bytes p) < metadata_bits)%nat then
    (Metadata_default, false)
  else
    let bits :=
      map (fun i => Z.land (byte_val (nth i (bytes p) zero)) 1)
          (seq 0 (Nat.min metadata_bits (length (bytes p)))) in
    let majority_bits := map (majority_bit bits) (seq 0 kMetadataBits) in
    match UnpackMetadata (bits_to_bytes majority_bits) with
    | Some meta => (meta, true)
    | None => (Metadata_default, false)
    end.

Fixpoint count_matching (xs ys : list Z) (total : nat) : Z :=
  match total, xs, ys with
  | S k, x :: xs', y :: ys' =>
      (if x =? y then 1 else 0) + count_matching xs' ys' k
  | _, _, _ => 0
  end.

(** The tail shared by both detectors: counters, score and
    false-positive rate. *)
Definition score_detection (d : DetectionResult) (extracted expected : list Z)
  : DetectionResult :=
  let total := Nat.min (length extracted) (length expected) in
  let matching := count_matching extracted expected total in
  if (total =? 0)%nat then
    mkDetectionResult 0 FpOne (Z.of_nat total) matching (metadata_valid d)
  else
    mkDetectionResult (matching # Pos.of_nat total)
                      (FpErfc matching (Z.of_nat total))
                      (Z.of_nat total) matching (metadata_valid d).

Fixpoint extract_lsbs (bs : list ascii) (idxs : list nat) : result (list Z) :=
  match idxs with
  | [] => Ok []
  | i :: rest =>
      b ← read bs (i + kMetadataPayloadBits)%nat;
      tl ← extract_lsbs bs rest;
      Ok (Z.land (byte_val b) 1 :: tl)
  end.

Definition ImageDetect (payload : ImagePayload) : result DetectionResult :=
  let detection := DetectionResult_default in
  if is_empty_payload payload then
    Ok (mkDetectionResult (score detection) (false_positive_rate detection)
          (total_bits detection) (matching_bits detection) false)
  else
    let '(meta, ok) := ExtractMetadata payload in
    if negb ok || negb (version meta =? 1) then
      Ok (mkDetectionResult (score detection) FpOne
            (total_bits detection) (matching_bits detection) false)
    else
      let detection :=
        mkDetectionResult (score detection) (false_positive_rate detection)
          (total_bits detection) (matching_bits detection) true in
      let total := total_pixels payload in
      let metadata_bits := kMetadataPayloadBits in
      if (total <=? Z.of_nat metadata_bits) ||
         (total - Z.of_nat metadata_bits <? fingerprint_length meta) then
        Ok (mkDetectionResult (score detection) FpOne
              (total_bits detection) (matching_bits detection)
              (metadata_valid detection))
      else
        expected ← ImageComputeCombinedBits payload metadata_bits
                         (state_seed meta) (key_hash meta);
        extracted ← extract_lsbs (bytes payload)
                          (seq 0 (Z.to_nat (fingerprint_length meta)));
        Ok (score_detection detection extracted expected).

(** *** Zero-width code points and UTF-8 *)

(** The UTF-8 writer at the end of [EncodeZeroWidthBits]. *)
Definition utf8_encode (code_point : Z) : list ascii :=
  if code_point <=? 0x7F then [to_byte code_point]
  else if code_point <=? 0x7FF then
    [ to_byte (Z.lor 0xC0 (Z.land (Z.shiftr code_point 6) 0x1F));
      to_byte (Z.lor 0x80 (Z.land code_point 0x3F)) ]
  else
    [ to_byte (Z.lor 0xE0 (Z.land (Z.shiftr code_point 12) 0x0F));
      to_byte (Z.lor 0x80 (Z.land (Z.shiftr code_point 6) 0x3F));
      to_byte (Z.lor 0x80 (Z.land code_point 0x3F)) ].

Definition EncodeZeroWidthBits (bits : list Z) (include_sentinels : bool)
  : list ascii :=
  let buffer :=
    (if include_sentinels then [kZeroWidthMetaStart] else []) ++
    map (fun bit => if bit =? 0 then kZeroWidthZero else kZeroWidthOne) bits ++
    (if include_sentinels then [kZeroWidthMetaEnd] else []) in
  flat_map utf8_encode buffer.

(** The decoding block that the source repeats in [DecodeZeroWidthBits],
    [StripZeroWidth] and [Detect].  [rest] is [payload[i..]]; the tests
    [i + 1 < payload.size()] and [i + 2 < payload.size()] ask for one or
    two more bytes after the first.  [None] is the final [else] of the
    block, which each caller treats in its own way. *)
Definition decode_cp (rest : list ascii) : option (Z * nat) :=
  match rest with
  | [] => None
  | first :: more =>
      let f := byte_val first in
      if f <? 0x80 then Some (f, 1%nat)
      else if (Z.land f 0xE0 =? 0xC0) && bool_decide (1 <= length more)%nat then
        Some (Z.lor (Z.shiftl (Z.land f 0x1F) 6)
                    (Z.land (byte_val (nth 0 more zero)) 0x3F), 2%nat)
      else if (Z.land f 0xF0 =? 0xE0) && bool_decide (2 <= length more)%nat then
        Some (Z.lor (Z.lor (Z.shiftl (Z.land f 0x0F) 12)
                           (Z.shiftl (Z.land (byte_val (nth 0 more zero)) 0x3F) 6))
                    (Z.land (byte_val (nth 1 more zero)) 0x3F), 3%nat)
      else None
  end.

(** The [while] loop of [DecodeZeroWidthBits]; returns the bits and the
    unread rest of the payload (the new [offset]). *)
Fixpoint zero_width_loop (fuel : nat) (with_sentinels : bool)
    (rest : list ascii) : list Z * list ascii :=
  match fuel with
  | O => ([], rest)
  | S fuel' =>
      match rest with
      | [] => ([], rest)
      | _ :: _ =>
          match decode_cp rest with
          | None => ([], rest)
          | Some (cp, consumed) =>
              if with_sentinels && (cp =? kZeroWidthMetaEnd) then
                ([], drop consumed rest)
              else if cp =? kZeroWidthZero then
                let '(bits, rest') :=
                  zero_width_loop fuel' with_sentinels (drop consumed rest) in
                (0 :: bits, rest')
              else if cp =? kZeroWidthOne then
                let '(bits, rest') :=
                  zero_width_loop fuel' with_sentinels (drop consumed rest) in
                (1 :: bits, rest')
              else if negb with_sentinels then ([], rest)
              else zero_width_loop fuel' with_sentinels (drop consumed rest)
          end
      end
  end.

(** [DecodeZeroWidthBits(payload, offset, with_sentinels)] called with
    [offset = 0].  On the early returns the offset is left where it was. *)
Definition DecodeZeroWidthBits (payload : list ascii) (with_sentinels : bool)
  : list Z * list ascii :=
  if with_sentinels then
    match payload with
    | [] => ([], payload)
    | _ :: _ =>
        let '(cp, consumed) :=
          match decode_cp payload with
          | Some r => r
          | None => (0, 0%nat)
          end in
        if negb (cp =? kZeroWidthMetaStart) then ([], payload)
        else zero_width_loop (length payload) true (drop consumed payload)
    end
  else zero_width_loop (length payload) false payload.

Definition is_zero_width (cp : Z) : bool :=
  (cp =? kZeroWidthZero) || (cp =? kZeroWidthOne) ||
  (cp =? kZeroWidthMetaStart) || (cp =? kZeroWidthMetaEnd).

(** The decoding block with the final [else] of [StripZeroWidth] and
    [Detect]: a single byte standing for itself. *)
Definition decode_or_byte (rest : list ascii) : Z * nat :=
  match decode_cp rest with
  | Some r => r
  | None => (byte_val (hd zero rest), 1%nat)
  end.

Fixpoint strip_loop (fuel : nat) (rest : list ascii) : list ascii :=
  match fuel with
  | O => []
  | S fuel' =>
      match rest with
      | [] => []
      | _ :: _ =>
          let '(cp, consumed) := decode_or_byte rest in
          (if is_zero_width cp then [] else take consumed rest) ++
          strip_loop fuel' (drop consumed rest)
      end
  end.

Definition StripZeroWidth (payload : list ascii) : list ascii :=
  strip_loop (length payload) payload.

(** [std::isspace] in the default locale. *)
Definition isspace (c : Z) : bool :=
  (c =? 32) || ((9 <=? c) && (c <=? 13)).

Fixpoint tokenize_loop (payload current : list ascii) : list (list ascii) :=
  match payload with
  | [] => match current with [] => [] | _ :: _ => [current] end
  | c :: rest =>
      if isspace (byte_val c) then
        match current with
        | [] => tokenize_loop rest []
        | _ :: _ => current :: tokenize_loop rest []
        end
      else tokenize_loop rest (current ++ [c])
  end.

Definition Tokenize (payload : list ascii) : list (list ascii) :=
  tokenize_loop payload [].

(** [std::to_string(idx)]. *)
Definition to_string (idx : nat) : list ascii :=
  list_ascii_of_string (NilZero.string_of_uint (Nat.to_uint idx)).

Fixpoint text_combined_loop (tokens : list (list ascii)) (idx : nat)
    (rng : MT.state) : list Z :=
  match tokens with
  | [] => []
  | token :: rest =>
      let content := StableHash (token ++ to_string idx) in
      let content_bit := Z.land content 1 in
      let '(r, rng') := MT.next rng in
      let state_bit := Z.land r 1 in
      Z.land (Z.lxor content_bit state_bit) 1 ::
      text_combined_loop rest (S idx) rng'
  end.

Definition TextComputeCombinedBits (tokens : list (list ascii))
    (seed key : Z) : list Z :=
  text_combined_loop tokens 0 (MT.seed (Z.lxor seed key)).

Definition EncodeMetadata (meta : Metadata) : list ascii :=
  EncodeZeroWidthBits (bytes_to_bits (PackMetadata meta)) true.

(** [DecodeMetadata]: the metadata, the rest of the payload after the
    framed run, and the [ok] flag. *)
Definition DecodeMetadata (payload : list ascii)
  : Metadata * list ascii * bool :=
  let '(bits, rest) := DecodeZeroWidthBits payload true in
  if negb (length bits =? 24 * 8)%nat then (Metadata_default, payload, false)
  else
    match UnpackMetadata (bits_to_bytes bits) with
    | None => (Metadata_default, payload, false)
    | Some meta => (meta, rest, true)
    end.

(** The bit written after a completed token. *)
Definition token_mark (fbits : list Z) (token_index : nat) : list ascii :=
  match fbits !! token_index with
  | Some bit => EncodeZeroWidthBits [bit] false
  | None => []
  end.

Fixpoint embed_loop (fbits : list Z) (cleaned : list ascii)
    (token_index : nat) (current_token builder : list ascii) : list ascii :=
  match cleaned with
  | [] =>
      match current_token with
      | [] => builder
      | _ :: _ => builder ++ current_token ++ token_mark fbits token_index
      end
  | c :: rest =>
      if isspace (byte_val c) then
        match current_token with
        | [] => embed_loop fbits rest token_index [] (builder ++ [c])
        | _ :: _ =>
            embed_loop fbits rest (S token_index) []
              (builder ++ current_token ++ token_mark fbits token_index ++ [c])
        end
      else embed_loop fbits rest token_index (current_token ++ [c]) builder
  end.

Definition TextEmbed (payload key : list ascii) (seed : Z)
  : TextEmbedResult :=
  let cleaned := StripZeroWidth payload in
  let tokens := Tokenize cleaned in
  let key_hash := StableHash key in
  let meta := mkMetadata 1 seed key_hash (wrap32 (Z.of_nat (length tokens))) in
  let fbits := TextComputeCombinedBits tokens seed key_hash in
  let encoded_meta := EncodeMetadata meta in
  mkTextEmbedResult (embed_loop fbits cleaned 0 [] encoded_meta) meta fbits.

(** The scanning loop of [Detect]; [ntokens] is [tokens.size()]. *)
Fixpoint detect_loop (fuel : nat) (ntokens : nat) (rest : list ascii)
    (token_index : nat) (current : list ascii) : list Z :=
  match fuel with
  | O => []
  | S fuel' =>
      match rest with
      | [] => []
      | first :: _ =>
          let '(cp, consumed) := decode_or_byte rest in
          let rest' := drop consumed rest in
          if isspace (byte_val first) then
            detect_loop fuel' ntokens rest' token_index []
          else if (cp =? kZeroWidthZero) || (cp =? kZeroWidthOne) then
            if decide (token_index < ntokens)%nat then
              (if cp =? kZeroWidthOne then 1 else 0) ::
              detect_loop fuel' ntokens rest' (S token_index) current
            else detect_loop fuel' ntokens rest' token_index current
          else if isspace (cp mod 256) then
            detect_loop fuel' ntokens rest' token_index current
          else
            detect_loop fuel' ntokens rest' token_index
              (current ++ [to_byte cp])
      end
  end.

Definition TextDetect (payload : list ascii) : DetectionResult :=
  let detection := DetectionResult_default in
  let '(meta, rest, meta_ok) := DecodeMetadata payload in
  if negb meta_ok || negb (version meta =? 1) then
    mkDetectionResult (score detection) FpOne
      (total_bits detection) (matching_bits detection) false
  else
    let detection :=
      mkDetectionResult (score detection) (false_positive_rate detection)
        (total_bits detection) (matching_bits detection) true in
    let stripped := StripZeroWidth rest in
    let tokens := Tokenize stripped in
    let expected :=
      TextComputeCombinedBits tokens (state_seed meta) (key_hash meta) in
    let extracted := detect_loop (length rest) (length tokens) rest 0 [] in
    score_detection detection expected extracted.

End Gwde.

(** ** FTMA: [ftma/core/field.h] *)
Module Field.

Definition kModulus : Z := 2305843009213693951.

(** [static_cast<int64_t>] of a 64-bit value. *)
Definition to_int64 (z : Z) : Z := (z + 2 ^ 63) mod 2 ^ 64 - 2 ^ 63.

(** The sums and products are formed in [unsigned __int128], where they
    cannot overflow for 64-bit operands; the remainder fits 64 bits. *)
Definition Add (a b : Z) : Z := (a + b) mod kModulus.

Definition Sub (a b : Z) : Z :=
  let base := kModulus + a in
  let diff := base - b mod kModulus in
  diff mod kModulus.

Definition Mul (a b : Z) : Z := (a * b) mod kModulus.

(** The [while (exp > 0)] loop of [Pow]; a 64-bit exponent is exhausted
    after at most 64 halvings. *)
Fixpoint pow_loop (fuel : nat) (result cur exp : Z) : Z :=
  match fuel with
  | O => result
  | S fuel' =>
      if 0 <? exp then
        let result' :=
          if negb (Z.land exp 1 =? 0) then Mul result cur else result in
        pow_loop fuel' result' (Mul cur cur) (Z.shiftr exp 1)
      else result
  end.

Definition Pow (base exp : Z) : Z := pow_loop 64 1 (base mod kModulus) exp.

Definition Inverse (value : Z) : Z :=
  if value =? 0 then 0 else Pow value (kModulus - 2).

Definition ToSigned (value : Z) : Z :=
  if kModulus / 2 <? value then to_int64 value - to_int64 kModulus
  else to_int64 value.

(** [%] on [int64_t] truncates towards zero: [Z.rem]. *)
Definition FromSigned (value : Z) : Z :=
  let mod_ := to_int64 kModulus in
  let adjusted := Z.rem (Z.rem value mod_ + mod_) mod_ in
  adjusted.

End Field.

(** ** FTMA: [ftma/core/shamir.cpp]

    [dist] is [std::uniform_int_distribution<uint64_t>(0, p - 1)] applied
    to the engine; the standard leaves its algorithm to the library, so it
    is a parameter. *)
Module Shamir.
Section with_dist.
Variable dist : MT.state -> Z * MT.state.

(** [n] successive draws [dist(prng)]. *)
Fixpoint draws (n : nat) (prng : MT.state) : list Z * MT.state :=
  match n with
  | O => ([], prng)
  | S n' =>
      let '(c, prng1) := dist prng in
      let '(cs, prng2) := draws n' prng1 in
      (c :: cs, prng2)
  end.

Definition BuildPolynomial (constant : Z) (degree : nat) (prng : MT.state)
  : list Z * MT.state :=
  let '(cs, prng') := draws degree prng in
  (constant :: cs, prng').

Definition Evaluate (coeffs : list Z) (x : Z) : Z :=
  fst (fold_left
         (fun '(result, power) c =>
            let term := Field.Mul c power in
            (Field.Add result term, Field.Mul power (x mod Field.kModulus)))
         coeffs (0, 1)).

(** [shares[participant][component] = value]. *)
Definition set_share (shares : list (list Z)) (participant component : nat)
    (value : Z) : list (list Z) :=
  <[participant := <[component := value]> (nth participant shares [])]> shares.

Definition share_component (num_participants threshold : nat)
    (st : list (list Z) * MT.state) (component : nat) (constant : Z)
  : list (list Z) * MT.state :=
  let '(shares, prng) := st in
  let '(coeffs, prng') := BuildPolynomial constant (threshold - 1) prng in
  (fold_left
     (fun shares participant =>
        let x := Z.of_nat (participant + 1) in
        set_share shares participant component (Evaluate coeffs x))
     (seq 0 num_participants) shares,
   prng').

Definition ShareVector (threshold num_participants : nat) (secret : list Z)
    (prng : MT.state) : result (list (list Z) * MT.state) :=
  if decide (threshold = 0%nat \/ (num_participants < threshold)%nat) then
    Err (InvalidArgument "Invalid Shamir threshold")
  else
    Ok (fold_left
          (fun st component =>
             share_component num_participants threshold st component
               (nth component secret 0))
          (seq 0 (length secret))
          (replicate num_participants (replicate (length secret) 0), prng)).

Definition lagrange (x_coords : list Z) (n i : nat) : Z :=
  let '(numerator, denominator) :=
    fold_left
      (fun '(numerator, denominator) j =>
         if decide (i = j) then (numerator, denominator)
         else
           let xi := nth i x_coords 0 mod Field.kModulus in
           let xj := nth j x_coords 0 mod Field.kModulus in
           (Field.Mul numerator (Field.Sub 0 xj),
            Field.Mul denominator (Field.Sub xi xj)))
      (seq 0 n) (1, 1) in
  Field.Mul numerator (Field.Inverse denominator).

Fixpoint reconstruct_value (x_coords : list Z) (shares : list (list Z))
    (comp : nat) (idxs : list nat) (value : Z) : result Z :=
  match idxs with
  | [] => Ok value
  | i :: rest =>
      row ← read shares i;
      share ← read row comp;
      reconstruct_value x_coords shares comp rest
        (Field.Add value
           (Field.Mul share (lagrange x_coords (length shares) i)))
  end.

Fixpoint reconstruct_components (x_coords : list Z) (shares : list (list Z))
    (comps : list nat) : result (list Z) :=
  match comps with
  | [] => Ok []
  | comp :: rest =>
      value ← reconstruct_value x_coords shares comp
                (seq 0 (length shares)) 0;
      secret ← reconstruct_components x_coords shares rest;
      Ok (value :: secret)
  end.

Definition Reconstruct (threshold : nat) (x_coords : list Z)
    (shares : list (list Z)) : result (list Z) :=
  if decide (length shares ≠ length x_coords) then
    Err (InvalidArgument "Share and coordinate sizes differ")
  else if decide (length shares < threshold)%nat then
    Err (InvalidArgument "Insufficient shares to reconstruct secret")
  else
    first ← read shares 0;
    reconstruct_components x_coords shares (seq 0 (length first)).

End with_dist.
End Shamir.

(** ** FTMA: [ftma/core/protocol.cpp]

    A [double] metric enters the protocol only through
    [static_cast<int64_t>(std::round(value * static_cast<double>(scale_)))],
    the parameter [round_scaled].

    The [double] results of [Finalize] are kept as the expressions that
    the source evaluates in floating point: the conversion of an integer
    by [static_cast<double>], the literal [0.0], and [/], [*], [-] and
    [std::max] on [double].  No rounding is modelled, so a result says
    from which integers and by which operations the source computes the
    number, not which [double] comes out. *)
Inductive dbl : Type :=
| dbl_of_int (value : Z)
| dbl_zero
| dbl_div (a b : dbl)
| dbl_mul (a b : dbl)
| dbl_sub (a b : dbl)
| dbl_max (a b : dbl).

Module Ftma.
Section with_environment.
Variable dist : MT.state -> Z * MT.state.
Variable double : Type.
Variable round_scaled : double -> Z -> Z.

Definition MixSeed (a b c : Z) : Z :=
  let '(a, b) := if b <? a then (b, a) else (a, b) in
  let seed := a in
  let seed :=
    Z.lxor seed
      (wrap64 (b + 0x9e3779b97f4a7c15 + wrap64 (Z.shiftl seed 6) +
               Z.shiftr seed 2)) in
  let seed :=
    Z.lxor seed
      (wrap64 (c + 0x9e3779b97f4a7c15 + wrap64 (Z.shiftl seed 6) +
               Z.shiftr seed 2)) in
  seed.

Record ClientState : Type := mkClientState {
  registered : bool;
  masked_payload : list Z;
  personal_mask : list Z;
  incoming_shares : gmap nat (list Z);
  pairwise_seeds : gmap nat Z;
  original_metrics : list double
}.

Definition ClientState_default : ClientState :=
  mkClientState false [] [] ∅ ∅ [].

Record Coordinator : Type := mkCoordinator {
  num_clients_ : nat;
  threshold_ : nat;
  metric_dimension_ : nat;
  vector_dimension_ : nat;
  scale_ : Z;
  prng_ : MT.state;
  clients_ : list ClientState
}.

Record AggregationResult : Type := mkAggregationResult {
  sum : list dbl;
  mean : list dbl;
  variance : list dbl;
  participants : nat;
  survivors : nat;
  threshold : nat
}.

(** The constructor; [rd] is the value drawn from [std::random_device]. *)
Definition FtmaCoordinator (num_clients threshold metric_dimension : nat)
    (scale rd : Z) : result Coordinator :=
  if decide (threshold = 0%nat \/ (num_clients < threshold)%nat) then
    Err (InvalidArgument "Threshold must be between 1 and num_clients")
  else if decide (metric_dimension = 0%nat) then
    Err (InvalidArgument "Metric dimension must be positive")
  else if scale =? 0 then
    Err (InvalidArgument "Scale must be non-zero")
  else
    Ok (mkCoordinator num_clients threshold metric_dimension
          (metric_dimension * 2) scale (MT.seed rd)
          (replicate num_clients ClientState_default)).

Definition GeneratePersonalMask (c : Coordinator) : list Z * MT.state :=
  Shamir.draws dist (vector_dimension_ c) (prng_ c).

Definition GeneratePairwiseMask (c : Coordinator) (seed : Z) : list Z :=
  fst (Shamir.draws dist (vector_dimension_ c) (MT.seed seed)).

(** A loop [for i < vector_dimension_: acc[i] = f(acc[i], v[i])]; it
    leaves the vectors when one of them is shorter. *)
Definition elementwise (f : Z -> Z -> Z) (n : nat) (acc v : list Z)
  : result (list Z) :=
  if decide (n <= length acc /\ n <= length v)%nat then
    Ok (zip_with f (take n acc) (take n v) ++ drop n acc)
  else Err OutOfBounds.

(** The first loop of [BuildPayload]: the scaled values and their
    squares. *)
Definition scaled_step (c : Coordinator) (metrics : list double)
    (scaled : list Z) (i : nat) : result (list Z) :=
  value ← read metrics i;
  let scaled_int := round_scaled value (scale_ c) in
  let field_value := Field.FromSigned scaled_int in
  if decide (length scaled <= i + metric_dimension_ c)%nat then
    Err OutOfBounds
  else
    let scaled := <[i := field_value]> scaled in
    let square_int := scaled_int * scaled_int in
    let modulus := Field.kModulus in
    let square_int := Z.rem square_int modulus in
    let square_int :=
      if square_int <? 0 then square_int + modulus else square_int in
    Ok (<[(i + metric_dimension_ c)%nat := square_int]> scaled).

Fixpoint scaled_loop (c : Coordinator) (metrics : list double)
    (idxs : list nat) (scaled : list Z) : result (list Z) :=
  match idxs with
  | [] => Ok scaled
  | i :: rest =>
      scaled' ← scaled_step c metrics scaled i;
      scaled_loop c metrics rest scaled'
  end.

(** [clients_[recipient].incoming_shares[client_id] = mask_shares[recipient]]
    for every other recipient. *)
Fixpoint distribute_shares (client_id : nat) (mask_shares : list (list Z))
    (recipients : list nat) (clients : list ClientState)
  : result (list ClientState) :=
  match recipients with
  | [] => Ok clients
  | recipient :: rest =>
      if decide (recipient = client_id) then
        distribute_shares client_id mask_shares rest clients
      else
        share ← read mask_shares recipient;
        state ← read clients recipient;
        let state' :=
          mkClientState (registered state) (masked_payload state)
            (personal_mask state)
            (<[client_id := share]> (incoming_shares state))
            (pairwise_seeds state) (original_metrics state) in
        distribute_shares client_id mask_shares rest
          (<[recipient := state']> clients)
  end.

(** The last loop of [BuildPayload]: pairwise masks, added towards larger
    ids and subtracted towards smaller ones. *)
Fixpoint pairwise_loop (c : Coordinator) (client_id : nat)
    (others : list nat) (seeds : gmap nat Z) (payload : list Z)
  : result (gmap nat Z * list Z) :=
  match others with
  | [] => Ok (seeds, payload)
  | other :: rest =>
      if decide (other = client_id) then
        pairwise_loop c client_id rest seeds payload
      else
        let seed := MixSeed (wrap64 (Z.of_nat (client_id + 1)))
                            (wrap64 (Z.of_nat (other + 1))) (scale_ c) in
        let seeds := <[other := seed]> seeds in
        let mask := GeneratePairwiseMask c seed in
        let client_smaller := bool_decide (client_id < other)%nat in
        payload' ← elementwise
                     (if client_smaller then Field.Add else Field.Sub)
                     (vector_dimension_ c) payload mask;
        pairwise_loop c client_id rest seeds payload'
  end.

(** [BuildPayload], writing the personal mask and the pairwise seeds into
    the state of [client_id] as the source does through its reference
    parameters. *)
Definition BuildPayload (c : Coordinator) (metrics : list double)
    (client_id : nat) : result (Coordinator * list Z) :=
  if decide (length metrics ≠ metric_dimension_ c) then
    Err (InvalidArgument "Metric vector dimension mismatch")
  else
    scaled ← scaled_loop c metrics (seq 0 (metric_dimension_ c))
               (replicate (vector_dimension_ c) 0);
    let '(mask, prng1) := GeneratePersonalMask c in
    '(mask_shares, prng2) ←
      Shamir.ShareVector dist (threshold_ c) (num_clients_ c) mask prng1;
    state ← read (clients_ c) client_id;
    let clients1 :=
      <[client_id :=
          mkClientState (registered state) (masked_payload state) mask
            (incoming_shares state) (pairwise_seeds state)
            (original_metrics state)]> (clients_ c) in
    clients2 ← distribute_shares client_id mask_shares
                 (seq 0 (num_clients_ c)) clients1;
    payload ← elementwise Field.Add (vector_dimension_ c) scaled mask;
    '(seeds, payload') ←
      pairwise_loop c client_id (seq 0 (num_clients_ c))
        (pairwise_seeds state) payload;
    state2 ← read clients2 client_id;
    let clients3 :=
      <[client_id :=
          mkClientState (registered state2) (masked_payload state2)
            (personal_mask state2) (incoming_shares state2) seeds
            (original_metrics state2)]> clients2 in
    Ok (mkCoordinator (num_clients_ c) (threshold_ c) (metric_dimension_ c)
          (vector_dimension_ c) (scale_ c) prng2 clients3,
        payload').

Definition RegisterClient (c : Coordinator) (client_id : nat)
    (metrics : list double) : result (Coordinator * list Z) :=
  if decide (num_clients_ c <= client_id)%nat then
    Err (OutOfRange "Client id out of range")
  else
    state ← read (clients_ c) client_id;
    if registered state then
      Err (RuntimeError "Client already registered")
    else
      let c1 :=
        mkCoordinator (num_clients_ c) (threshold_ c) (metric_dimension_ c)
          (vector_dimension_ c) (scale_ c) (prng_ c)
          (<[client_id :=
               mkClientState (registered state) (masked_payload state)
                 (personal_mask state) (incoming_shares state)
                 (pairwise_seeds state) metrics]> (clients_ c)) in
      '(c2, payload) ← BuildPayload c1 metrics client_id;
      state2 ← read (clients_ c2) client_id;
      Ok (mkCoordinator (num_clients_ c2) (threshold_ c2)
            (metric_dimension_ c2) (vector_dimension_ c2) (scale_ c2)
            (prng_ c2)
            (<[client_id :=
                 mkClientState true payload (personal_mask state2)
                   (incoming_shares state2) (pairwise_seeds state2)
                   (original_metrics state2)]> (clients_ c2)),
          payload).

(** *** [Finalize] *)

Definition client_registered (c : Coordinator) (id : nat) : bool :=
  match clients_ c !! id with
  | Some state => registered state
  | None => false
  end.

(** The first accumulation loop; returns the aggregate and the number of
    registered clients. *)
Fixpoint sum_payloads (c : Coordinator) (ids : list nat)
    (aggregate : list Z) (participants : nat) : result (list Z * nat) :=
  match ids with
  | [] => Ok (aggregate, participants)
  | id :: rest =>
      state ← read (clients_ c) id;
      if negb (registered state) then
        sum_payloads c rest aggregate participants
      else
        aggregate' ← elementwise Field.Add (vector_dimension_ c) aggregate
                       (masked_payload state);
        sum_payloads c rest aggregate' (S participants)
  end.

Fixpoint subtract_active_masks (c : Coordinator) (active : list nat)
    (aggregate : list Z) : result (list Z) :=
  match active with
  | [] => Ok aggregate
  | id :: rest =>
      state ← read (clients_ c) id;
      aggregate' ← elementwise Field.Sub (vector_dimension_ c) aggregate
                     (personal_mask state);
      subtract_active_masks c rest aggregate'
  end.

Fixpoint mark_active (active : list nat) (is_active : list bool)
  : result (list bool) :=
  match active with
  | [] => Ok is_active
  | id :: rest =>
      if decide (length is_active <= id)%nat then Err OutOfBounds
      else mark_active rest (<[id := true]> is_active)
  end.

(** The shares of [dropout]'s mask held by the active clients, with the
    abscissas of their holders, in the order of [active_clients]. *)
Fixpoint collect_shares (c : Coordinator) (dropout : nat)
    (active : list nat) : result (list (list Z) * list Z) :=
  match active with
  | [] => Ok ([], [])
  | id :: rest =>
      state ← read (clients_ c) id;
      '(collected, coords) ← collect_shares c dropout rest;
      match incoming_shares state !! dropout with
      | Some share =>
          Ok (share :: collected, wrap64 (Z.of_nat (id + 1)) :: coords)
      | None => Ok (collected, coords)
      end
  end.

Fixpoint recover_dropouts (c : Coordinator) (active : list nat)
    (is_active : list bool) (dropouts : list nat) (aggregate : list Z)
  : result (list Z) :=
  match dropouts with
  | [] => Ok aggregate
  | dropout :: rest =>
      flag ← read is_active dropout;
      state ← read (clients_ c) dropout;
      if flag || negb (registered state) then
        recover_dropouts c active is_active rest aggregate
      else
        '(collected, coords) ← collect_shares c dropout active;
        if decide (length collected < threshold_ c)%nat then
          Err (RuntimeError "Insufficient shares to reconstruct dropout mask")
        else
          let truncated := take (threshold_ c) collected in
          let coord_subset := take (threshold_ c) coords in
          mask ← Shamir.Reconstruct (threshold_ c) coord_subset truncated;
          aggregate' ← elementwise Field.Sub (vector_dimension_ c)
                         aggregate mask;
          recover_dropouts c active is_active rest aggregate'
  end.

Fixpoint cancel_missing_one (c : Coordinator) (missing : nat)
    (active : list nat) (aggregate : list Z) : result (list Z) :=
  match active with
  | [] => Ok aggregate
  | id :: rest =>
      state ← read (clients_ c) id;
      match pairwise_seeds state !! missing with
      | None => cancel_missing_one c missing rest aggregate
      | Some seed =>
          let mask_vec := GeneratePairwiseMask c seed in
          let survivor_smaller := bool_decide (id < missing)%nat in
          aggregate' ← elementwise
                         (if survivor_smaller then Field.Sub else Field.Add)
                         (vector_dimension_ c) aggregate mask_vec;
          cancel_missing_one c missing rest aggregate'
      end
  end.

Fixpoint cancel_missing (c : Coordinator) (active : list nat)
    (is_active : list bool) (missings : list nat) (aggregate : list Z)
  : result (list Z) :=
  match missings with
  | [] => Ok aggregate
  | missing :: rest =>
      state ← read (clients_ c) missing;
      flag ← read is_active missing;
      if registered state || flag then
        cancel_missing c active is_active rest aggregate
      else
        aggregate' ← cancel_missing_one c missing active aggregate;
        cancel_missing c active is_active rest aggregate'
  end.

Fixpoint decode_loop (c : Coordinator) (participants : nat)
    (aggregate : list Z) (idxs : list nat)
  : result (list dbl * list dbl * list dbl) :=
  match idxs with
  | [] => Ok ([], [], [])
  | i :: rest =>
      sum_component ← read aggregate i;
      sumsq_component ← read aggregate (i + metric_dimension_ c)%nat;
      let sum_value :=
        dbl_div (dbl_of_int (Field.ToSigned sum_component))
                (dbl_of_int (scale_ c)) in
      let sumsq_value :=
        dbl_div (dbl_of_int (Field.ToSigned sumsq_component))
                (dbl_mul (dbl_of_int (scale_ c)) (dbl_of_int (scale_ c))) in
      let mean := dbl_div sum_value (dbl_of_int (Z.of_nat participants)) in
      let variance :=
        dbl_max dbl_zero
          (dbl_sub (dbl_div sumsq_value (dbl_of_int (Z.of_nat participants)))
                   (dbl_mul mean mean)) in
      '(sums, means, variances) ← decode_loop c participants aggregate rest;
      Ok (sum_value :: sums, mean :: means, variance :: variances)
  end.

Definition Finalize (c : Coordinator) (active_clients : list nat)
  : result AggregationResult :=
  if decide (length active_clients < threshold_ c)%nat then
    Err (RuntimeError "Not enough active clients to satisfy threshold")
  else if negb (forallb
                  (fun id => bool_decide (id < num_clients_ c)%nat &&
                             client_registered c id)
                  active_clients) then
    Err (RuntimeError "Active client not registered")
  else
    '(aggregate, participants) ←
      sum_payloads c (seq 0 (num_clients_ c))
        (replicate (vector_dimension_ c) 0) 0;
    aggregate ← subtract_active_masks c active_clients aggregate;
    is_active ← mark_active active_clients (replicate (num_clients_ c) false);
    aggregate ← recover_dropouts c active_clients is_active
                  (seq 0 (num_clients_ c)) aggregate;
    aggregate ← cancel_missing c active_clients is_active
                  (seq 0 (num_clients_ c)) aggregate;
    if decide (participants = 0%nat) then
      Err (RuntimeError "No registered participants to aggregate")
    else
      '(sums, means, variances) ←
        decode_loop c participants aggregate (seq 0 (metric_dimension_ c));
      Ok (mkAggregationResult sums means variances participants
            (length active_clients) (threshold_ c)).

End with_environment.
End Ftma.

(** ** [line_word_count.c]

    A C string is the list of the bytes from the pointer on; running off
    the list before a terminator is an access outside the object.  The
    standard streams are the list of the texts written to them, the file
    system is the function [fopen] from a name to the content of a
    readable file, and reads do not fail.  [int] counters stay far below
    [INT_MAX]: a line has at most 1023 bytes and at most 1001 lines are
    read. *)
Module LineWordCount.

Definition MAX_LINE_LENGTH : nat := 1024.
Definition MAX_LINES : Z := 1000.

(** The test [*p == ' ' || *p == '\t' || ...] of [count_words]. *)
Definition is_blank (c : ascii) : bool :=
  let v := byte_val c in
  (v =? 32) || (v =? 9) || (v =? 10) || (v =? 13) || (v =? 12) || (v =? 11).

Fixpoint count_loop (p : list ascii) (count : Z) (in_word : bool)
  : result Z :=
  match p with
  | [] => Err OutOfBounds
  | c :: rest =>
      if byte_val c =? 0 then Ok count
      else if is_blank c then count_loop rest count false
      else if negb in_word then count_loop rest (count + 1) true
      else count_loop rest count in_word
  end.

Definition count_words (line : list ascii) : result Z :=
  count_loop line 0 false.

(** [fgets(line, size, file)] with [room = size - 1]: the bytes stored in
    front of the terminator and the rest of the stream.  It stops behind
    a newline, when the room is used up, or at the end of the file. *)
Fixpoint fgets (room : nat) (stream : list ascii)
  : list ascii * list ascii :=
  match room, stream with
  | O, _ => ([], stream)
  | S _, [] => ([], [])
  | S room', c :: rest =>
      if byte_val c =? 10 then ([c], rest)
      else let '(stored, stream') := fgets room' rest in
           (c :: stored, stream')
  end.

Inductive output : Type :=
| Stdout (text : list ascii)
| Stderr (text : list ascii).

(** [%d] *)
Definition decimal (z : Z) : list ascii :=
  list_ascii_of_string (NilZero.string_of_int (Z.to_int z)).

Definition newline : list ascii := [to_byte 10].

Definition line_report (line_number words : Z) : list ascii :=
  list_ascii_of_string "Line " ++ decimal line_number ++
  list_ascii_of_string ": " ++ decimal words ++
  list_ascii_of_string " words" ++ newline.

Definition limit_warning : list ascii :=
  list_ascii_of_string "Warning: maximum line limit (" ++ decimal MAX_LINES ++
  list_ascii_of_string ") reached; remaining lines skipped." ++ newline.

(** The [while (fgets(...))] loop of [main]; every pass takes at least
    one byte from the stream. *)
Fixpoint read_lines (fuel : nat) (stream : list ascii) (line_number : Z)
  : result (list output) :=
  match fuel with
  | O => Ok []
  | S fuel' =>
      match stream with
      | [] => Ok []
      | _ :: _ =>
          let '(stored, stream') := fgets (MAX_LINE_LENGTH - 1) stream in
          let line := stored ++ [zero] in
          let line_number := line_number + 1 in
          if MAX_LINES <? line_number then Ok [Stderr limit_warning]
          else
            words ← count_words line;
            rest ← read_lines fuel' stream' line_number;
            Ok (Stdout (line_report line_number words) :: rest)
      end
  end.

(** [main]: the exit status and what was written. *)
Definition main (argv : list (list ascii))
    (fopen : list ascii -> option (list ascii)) : result (Z * list output) :=
  if negb (length argv =? 2)%nat then
    Ok (1, [Stderr (list_ascii_of_string "Usage: " ++ nth 0 argv [] ++
                    list_ascii_of_string " <filename>" ++ newline)])
  else
    let filename := nth 1 argv [] in
    match fopen filename with
    | None =>
        Ok (1, [Stderr (list_ascii_of_string "Error: unable to open file " ++
                        filename ++ newline)])
    | Some content =>
        written ← read_lines (length content) content 0;
        Ok (0, written)
    end.

End LineWordCount.

(** * Properties *)

Import Field Gwde.

Lemma byte_val_range c : 0 <= byte_val c < 256.
Proof.
  unfold byte_val. pose proof (N_ascii_bounded c). lia.
Qed.

Lemma to_byte_val c : to_byte (byte_val c) = c.
Proof.
  unfold to_byte. pose proof (byte_val_range c).
  rewrite Z.mod_small by lia. unfold byte_val.
  rewrite N2Z.id. apply ascii_N_embedding.
Qed.

Lemma byte_val_to_byte z : 0 <= z < 256 -> byte_val (to_byte z) = z.
Proof.
  intros Hz. unfold byte_val, to_byte.
  rewrite Z.mod_small by lia.
  rewrite N_ascii_embedding by lia. lia.
Qed.

Lemma byte_val_to_byte_mod z : byte_val (to_byte z) = z mod 256.
Proof.
  unfold byte_val, to_byte.
  pose proof (Z.mod_pos_bound z 256 eq_refl).
  rewrite N_ascii_embedding by lia. lia.
Qed.

Definition is_bit (z : Z) : Prop := z = 0 \/ z = 1.

Lemma land_1_mod z : Z.land z 1 = z mod 2.
Proof. change 1 with (Z.ones 1). rewrite Z.land_ones by lia. reflexivity. Qed.

Lemma land_1_is_bit z : is_bit (Z.land z 1).
Proof.
  unfold is_bit. rewrite land_1_mod.
  pose proof (Z.mod_pos_bound z 2 eq_refl). lia.
Qed.

Ltac all_bytes b := destruct b as [[] [] [] [] [] [] [] []].

Lemma set_lsb_upper b bit :
  is_bit bit -> Z.shiftr (byte_val (set_lsb b bit)) 1 = Z.shiftr (byte_val b) 1.
Proof.
  intros [-> | ->]; all_bytes b; vm_compute; reflexivity.
Qed.

Lemma set_lsb_low b bit :
  is_bit bit -> Z.land (byte_val (set_lsb b bit)) 1 = bit.
Proof.
  intros [-> | ->]; all_bytes b; vm_compute; reflexivity.
Qed.

Lemma shift_in_byte_bits b :
  fold_left shift_in (byte_bits b) zero = b.
Proof. all_bytes b; vm_compute; reflexivity. Qed.

(** bits_to_bytes *)
Lemma nth_insert_eq {A} (l : list A) i x d :
  (i < length l)%nat -> nth i (<[i := x]> l) d = x.
Proof. intros. rewrite nth_lookup, list_lookup_insert_eq by done. done. Qed.

Lemma nth_insert_ne {A} (l : list A) i j x d :
  i <> j -> nth j (<[i := x]> l) d = nth j l d.
Proof. intros. rewrite !nth_lookup, list_lookup_insert_ne by done. done. Qed.

Definition pack_step (bits : list Z) (bs : list ascii) (i : nat) : list ascii :=
  <[(i / 8)%nat := shift_in (nth (i / 8) bs zero) (nth i bits 0)]> bs.

Lemma pack_step_length bits idxs bs :
  length (fold_left (pack_step bits) idxs bs) = length bs.
Proof.
  revert bs. induction idxs as [|i idxs IH]; intros bs; simpl; [done|].
  rewrite IH. unfold pack_step. by rewrite length_insert.
Qed.

Lemma pack_step_nth bits idxs bs k :
  (k < length bs)%nat ->
  nth k (fold_left (pack_step bits) idxs bs) zero =
  fold_left (fun b i => shift_in b (nth i bits 0))
            (filter (fun i => (i / 8)%nat = k) idxs) (nth k bs zero).
Proof.
  revert bs. induction idxs as [|i idxs IH]; intros bs Hk; simpl; [done|].
  rewrite IH by (unfold pack_step; by rewrite length_insert).
  rewrite filter_cons. unfold pack_step at 1. case_decide as Hi.
  - subst k. simpl. by rewrite nth_insert_eq.
  - by rewrite nth_insert_ne.
Qed.

Lemma filter_div8 k :
  (k < 24)%nat ->
  filter (fun i => (i / 8)%nat = k) (seq 0 192) = seq (8 * k) 8.
Proof.
  intros Hk.
  do 24 (destruct k as [|k]; [vm_compute; reflexivity|]). lia.
Qed.

Lemma byte_bits_length b : length (byte_bits b) = 8%nat.
Proof. reflexivity. Qed.

Lemma bytes_to_bits_cons b bs :
  bytes_to_bits (b :: bs) = byte_bits b ++ bytes_to_bits bs.
Proof. reflexivity. Qed.

Lemma bytes_to_bits_length bs : length (bytes_to_bits bs) = (8 * length bs)%nat.
Proof.
  induction bs as [|b bs IH]; [done|].
  rewrite bytes_to_bits_cons, length_app, IH, byte_bits_length.
  simpl length. lia.
Qed.

Lemma fold_shift_in_window bs k :
  (k < length bs)%nat ->
  fold_left (fun b i => shift_in b (nth i (bytes_to_bits bs) 0))
            (seq (8 * k) 8) zero = nth k bs zero.
Proof.
  revert k. induction bs as [|b bs IH]; intros k Hk; [simpl in Hk; lia|].
  destruct k as [|k].
  - change (bytes_to_bits (b :: bs)) with (byte_bits b ++ bytes_to_bits bs).
    cbn [seq fold_left Nat.mul Nat.add].
    rewrite !app_nth1 by (rewrite byte_bits_length; lia).
    apply (shift_in_byte_bits b).
  - simpl in Hk. change (nth (S k) (b :: bs) zero) with (nth k bs zero).
    rewrite <- (IH k) by lia.
    rewrite bytes_to_bits_cons.
    replace (8 * S k)%nat with (8 + 8 * k)%nat by lia.
    rewrite <- fmap_add_seq.
    generalize (seq (8 * k) 8) zero. intros l. induction l as [|i l IHl]; intros z0; [done|].
    rewrite fmap_cons. cbn [fold_left].
    rewrite app_nth2 by (rewrite byte_bits_length; lia).
    rewrite byte_bits_length.
    replace (8 + i - 8)%nat with i by lia. apply IHl.
Qed.

Lemma bits_to_bytes_to_bits bs :
  length bs = 24%nat -> bits_to_bytes (bytes_to_bits bs) = bs.
Proof.
  intros Hlen. unfold bits_to_bytes.
  change (fun (bs0 : list ascii) (i : nat) => _) with (pack_step (bytes_to_bits bs)).
  rewrite bytes_to_bits_length, Hlen. change (8 * 24)%nat with 192%nat.
  apply (nth_ext _ _ zero zero).
  - by rewrite pack_step_length, length_replicate.
  - intros k Hk. rewrite pack_step_length, length_replicate in Hk.
    rewrite pack_step_nth by (by rewrite length_replicate).
    rewrite filter_div8 by done.
    replace (nth k (replicate 24 zero) zero) with zero
      by (by rewrite nth_lookup, lookup_replicate_2).
    apply fold_shift_in_window. lia.
Qed.

(** Unpack/Pack *)
Ltac tb_step :=
  match goal with
  | |- context [Z.testbit (Z.lor ?a ?b) ?i] => rewrite (Z.lor_spec a b i)
  | |- context [Z.testbit (Z.land ?a ?b) ?i] => rewrite (Z.land_spec a b i)
  | |- context [Z.testbit ?a ?i] => rewrite (Z.testbit_neg_r a i) by lia
  | |- context [Z.testbit (?a mod 2 ^ ?k) ?i] =>
      rewrite (Z.testbit_mod_pow2 a k i) by lia
  | |- context [Z.testbit (Z.shiftl ?a ?k) ?i] =>
      rewrite (Z.shiftl_spec a k i) by lia
  | |- context [Z.testbit (Z.shiftr ?a ?k) ?i] =>
      rewrite (Z.shiftr_spec a k i) by lia
  | |- context [Z.testbit 0 ?i] => rewrite (Z.testbit_0_l i)
  end.

Ltac ltb_step :=
  match goal with
  | |- context [?a <? ?b] =>
      first [ rewrite (proj2 (Z.ltb_lt a b)) by lia
            | rewrite (proj2 (Z.ltb_ge a b)) by lia ]
  end.

Ltac tb_window :=
  repeat tb_step; repeat ltb_step; cbn [andb orb];
  rewrite ?andb_false_r, ?orb_false_r; cbn [andb orb];
  try reflexivity; try (f_equal; lia).

Lemma land_255 a : Z.land a 0xFF = a mod 2 ^ 8.
Proof. change 0xFF with (Z.ones 8). apply Z.land_ones. lia. Qed.

Lemma read_u32_write_u32 v rest :
  0 <= v < 2 ^ 32 -> read_u32 (write_u32 v ++ rest) = v.
Proof.
  intros Hv. unfold read_u32, write_u32, src_at, wrap32. cbn [nth app].
  rewrite !byte_val_to_byte_mod, !land_255. change 256 with (2 ^ 8).
  rewrite <- (Z.mod_small v (2 ^ 32)) at 5 by lia.
  apply Z.bits_inj'. intros n Hn.
  assert (n < 8 \/ 8 <= n < 16 \/ 16 <= n < 24 \/ 24 <= n < 32 \/ 32 <= n)
    as [H|[H|[H|[H|H]]]] by lia; tb_window.
Qed.

Lemma read_u64_write_u64 v rest :
  0 <= v < 2 ^ 64 -> read_u64 (write_u64 v ++ rest) = v.
Proof.
  intros Hv. unfold read_u64, write_u64, src_at, wrap64.
  cbn [nth app map seq fold_left].
  rewrite !byte_val_to_byte_mod, !land_255. change 256 with (2 ^ 8).
  change (56 - 0 * 8) with 56. change (56 - 1 * 8) with 48.
  change (56 - 2 * 8) with 40. change (56 - 3 * 8) with 32.
  change (56 - 4 * 8) with 24. change (56 - 5 * 8) with 16.
  change (56 - 6 * 8) with 8. change (56 - 7 * 8) with 0.
  rewrite <- (Z.mod_small v (2 ^ 64)) at 9 by lia.
  apply Z.bits_inj'. intros n Hn.
  assert (n < 8 \/ 8 <= n < 16 \/ 16 <= n < 24 \/ 24 <= n < 32 \/
          32 <= n < 40 \/ 40 <= n < 48 \/ 48 <= n < 56 \/ 56 <= n < 64 \/
          64 <= n)
    as [H|[H|[H|[H|[H|[H|[H|[H|H]]]]]]]] by lia; tb_window.
Qed.

Definition meta_wf (m : Metadata) : Prop :=
  0 <= version m < 2 ^ 32 /\ 0 <= state_seed m < 2 ^ 64 /\
  0 <= key_hash m < 2 ^ 64 /\ 0 <= fingerprint_length m < 2 ^ 32.

Lemma PackMetadata_length m : length (PackMetadata m) = 24%nat.
Proof. reflexivity. Qed.

Lemma UnpackMetadata_PackMetadata m :
  meta_wf m -> UnpackMetadata (PackMetadata m) = Some m.
Proof.
  intros (Hv & Hs & Hk & Hf). unfold UnpackMetadata.
  rewrite decide_True by apply PackMetadata_length.
  destruct m as [v s k f]; cbn [version state_seed key_hash fingerprint_length] in *.
  unfold PackMetadata; cbn [version state_seed key_hash fingerprint_length].
  change (drop 4 (write_u32 v ++ write_u64 s ++ write_u64 k ++ write_u32 f))
    with (write_u64 s ++ write_u64 k ++ write_u32 f).
  change (drop 12 (write_u32 v ++ write_u64 s ++ write_u64 k ++ write_u32 f))
    with (write_u64 k ++ write_u32 f).
  change (drop 20 (write_u32 v ++ write_u64 s ++ write_u64 k ++ write_u32 f))
    with (write_u32 f).
  rewrite (read_u32_write_u32 v), (read_u64_write_u64 s), (read_u64_write_u64 k) by done.
  rewrite <- (app_nil_r (write_u32 f)).
  by rewrite (read_u32_write_u32 f).
Qed.

Lemma wrap64_range z : 0 <= wrap64 z < 2 ^ 64.
Proof. apply Z.mod_pos_bound. lia. Qed.

Lemma wrap32_range z : 0 <= wrap32 z < 2 ^ 32.
Proof. apply Z.mod_pos_bound. lia. Qed.

Lemma StableHash_range key : 0 <= StableHash key < 2 ^ 64.
Proof.
  unfold StableHash, HashString64.
  generalize 1469598103934665603 (eq_refl : (0 <=? 1469598103934665603) && (1469598103934665603 <? 2 ^ 64) = true).
  induction key as [|c key IH]; intros h Hh; cbn [fold_left].
  - lia.
  - apply IH. pose proof (wrap64_range (Z.lxor h (byte_val c) * 1099511628211)). lia.
Qed.

(** Image *)
Definition slot_of (p : nat * nat) : nat := (p.1 * kMetadataRepeat + p.2)%nat.

Lemma metadata_slots_positions : map slot_of metadata_slots = seq 0 768.
Proof. vm_compute. reflexivity. Qed.

Lemma metadata_slots_rep : Forall (fun p : nat * nat => (p.2 < 4)%nat) metadata_slots.
Proof.
  apply Forall_forall. intros p Hp.
  assert (forallb (fun p : nat * nat => (p.2 <? 4)%nat) metadata_slots = true) as H
    by (vm_compute; reflexivity).
  rewrite forallb_forall in H. apply Nat.ltb_lt, H.
  by apply list_elem_of_In.
Qed.

Lemma inject_loop_spec bits sl bs :
  Forall is_bit bits ->
  Forall (fun p : nat * nat => (p.2 < 4)%nat /\ (slot_of p < length bs)%nat) sl ->
  let bs' := inject_loop bits sl bs in
  length bs' = length bs /\
  forall j,
    Z.shiftr (byte_val (nth j bs' zero)) 1 = Z.shiftr (byte_val (nth j bs zero)) 1 /\
    (In j (map slot_of sl) ->
       Z.land (byte_val (nth j bs' zero)) 1 = nth (j / 4) bits 0) /\
    (~ In j (map slot_of sl) -> nth j bs' zero = nth j bs zero).
Proof.
  intros Hbits. revert bs.
  assert (Hnth : forall i, is_bit (nth i bits 0)).
  { intros i. destruct (nth_in_or_default i bits 0) as [Hin | ->]; [|by left].
    rewrite Forall_forall in Hbits. apply Hbits. by apply list_elem_of_In. }
  induction sl as [|[bi rep] sl IH]; intros bs Hsl; cbn zeta.
  - split; [done|]. intros j. split_and!; [done | intros [] | done].
  - apply Forall_cons in Hsl as [[Hrep Hslot] Hsl]. cbn [inject_loop].
    unfold slot_of in Hslot. cbn [fst snd] in Hslot, Hrep.
    rewrite decide_False by lia.
    set (slot := (bi * kMetadataRepeat + rep)%nat) in *.
    set (bs1 := <[slot := set_lsb (nth slot bs zero) (nth bi bits 0)]> bs).
    assert (Hlen1 : length bs1 = length bs) by apply length_insert.
    destruct (IH bs1) as [Hlen Hj].
    { eapply Forall_impl; [exact Hsl|]. intros p [? ?]. split; [done|]. by rewrite Hlen1. }
    split; [by rewrite Hlen|].
    intros j. destruct (Hj j) as (Hup & Hin & Hout).
    assert (Hdiv : (slot / 4)%nat = bi).
    { unfold slot, kMetadataRepeat. symmetry. apply (Nat.div_unique _ 4 bi rep); lia. }
    destruct (decide (j = slot)) as [-> | Hne].
    + assert (Hs1 : nth slot bs1 zero = set_lsb (nth slot bs zero) (nth bi bits 0))
        by (unfold bs1; by rewrite nth_insert_eq).
      split_and!.
      * rewrite Hup, Hs1. by apply set_lsb_upper.
      * intros _. destruct (in_dec Nat.eq_dec slot (map slot_of sl)) as [Hi | Hni].
        -- by apply Hin.
        -- rewrite Hout, Hs1, Hdiv by done. by apply set_lsb_low.
      * intros Hni. exfalso. apply Hni. left. reflexivity.
    + assert (Hs1 : nth j bs1 zero = nth j bs zero)
        by (unfold bs1; by rewrite nth_insert_ne).
      split_and!.
      * by rewrite Hup, Hs1.
      * intros [Heq | Hi]; [unfold slot_of in Heq; cbn [fst snd] in Heq; by subst j|].
        by apply Hin.
      * intros Hni. rewrite Hout, Hs1; [done|]. intros Hi. apply Hni. by right.
Qed.

Lemma nth_is_bit bits i : Forall is_bit bits -> is_bit (nth i bits 0).
Proof.
  intros Hbits. destruct (nth_in_or_default i bits 0) as [Hin | ->]; [|by left].
  rewrite Forall_forall in Hbits. apply Hbits. by apply list_elem_of_In.
Qed.

Lemma read_Some {A} (v : list A) i d :
  (i < length v)%nat -> read v i = Ok (nth i v d).
Proof.
  intros Hi. unfold read. destruct (lookup_lt_is_Some_2 v i Hi) as [a Ha].
  rewrite Ha. f_equal. by rewrite nth_lookup, Ha.
Qed.

Lemma combined_loop_ok bs idxs rng :
  Forall (fun idx => (idx < length bs)%nat) idxs ->
  exists bits, combined_loop bs idxs rng = Ok bits /\
               length bits = length idxs /\ Forall is_bit bits.
Proof.
  revert rng. induction idxs as [|idx idxs IH]; intros rng Hidx.
  - exists []. by split_and!.
  - apply Forall_cons in Hidx as [Hi Hidx]. cbn [combined_loop].
    rewrite (read_Some bs idx zero Hi). cbn [mbind result_bind].
    destruct (MT.next rng) as [r rng'].
    destruct (IH rng' Hidx) as (bits & -> & Hlen & Hbits).
    eexists. split; [reflexivity|]. split; [simpl; by rewrite Hlen|].
    constructor; [apply land_1_is_bit|done].
Qed.

Lemma write_fingerprint_spec fbits idxs bs :
  Forall is_bit fbits ->
  Forall (fun i => (i < length fbits)%nat /\
                   (i + kMetadataPayloadBits < length bs)%nat) idxs ->
  exists bs', write_fingerprint fbits idxs bs = Ok bs' /\
    length bs' = length bs /\
    forall j,
      Z.shiftr (byte_val (nth j bs' zero)) 1 = Z.shiftr (byte_val (nth j bs zero)) 1 /\
      (forall i, In i idxs -> j = (i + kMetadataPayloadBits)%nat ->
         Z.land (byte_val (nth j bs' zero)) 1 = nth i fbits 0) /\
      (~ In j (map (fun i => (i + kMetadataPayloadBits)%nat) idxs) ->
         nth j bs' zero = nth j bs zero).
Proof.
  intros Hbits. revert bs.
  induction idxs as [|i idxs IH]; intros bs Hidx.
  - exists bs. split_and!; [done..|]. intros j. split_and!; [done | intros ? [] | done].
  - apply Forall_cons in Hidx as [[Hi Hpix] Hidx]. cbn [write_fingerprint].
    rewrite (read_Some fbits i 0 Hi), (read_Some bs _ zero Hpix).
    cbn [mbind result_bind].
    set (pix := (i + kMetadataPayloadBits)%nat) in *.
    set (bs1 := <[pix := set_lsb (nth pix bs zero) (nth i fbits 0)]> bs).
    assert (Hlen1 : length bs1 = length bs) by apply length_insert.
    destruct (IH bs1) as (bs' & Hw & Hlen & Hj).
    { eapply Forall_impl; [exact Hidx|]. intros p [? ?]. split; [done|]. by rewrite Hlen1. }
    exists bs'. split; [done|]. split; [by rewrite Hlen|].
    intros j. destruct (Hj j) as (Hup & Hin & Hout).
    destruct (decide (j = pix)) as [-> | Hne].
    + assert (Hs1 : nth pix bs1 zero = set_lsb (nth pix bs zero) (nth i fbits 0))
        by (unfold bs1; by rewrite nth_insert_eq).
      split_and!.
      * rewrite Hup, Hs1. apply set_lsb_upper. by apply nth_is_bit.
      * intros i' Hi' Heq.
        assert (i' = i) as -> by (unfold pix in Heq; lia).
        destruct (in_dec Nat.eq_dec i idxs) as [Hii | Hni].
        -- by apply Hin.
        -- rewrite Hout, Hs1.
           ++ apply set_lsb_low. by apply nth_is_bit.
           ++ rewrite in_map_iff. intros (i2 & Heq2 & Hi2). apply Hni.
              assert (i2 = i) as <- by (unfold pix in Heq2; lia). done.
      * intros Hni. exfalso. apply Hni. left. reflexivity.
    + assert (Hs1 : nth j bs1 zero = nth j bs zero)
        by (unfold bs1; by rewrite nth_insert_ne).
      split_and!.
      * by rewrite Hup, Hs1.
      * intros i' [<- | Hi'] Heq; [by subst j|]. by apply Hin.
      * intros Hni. rewrite Hout, Hs1; [done|]. intros Hi'. apply Hni. by right.
Qed.

Lemma is_empty_payload_false p :
  (0 < length (bytes p))%nat -> 0 < total_pixels p -> is_empty_payload p = false.
Proof.
  intros Hlen Htot. unfold is_empty_payload.
  rewrite bool_decide_eq_false_2 by (intros Heq; rewrite Heq in Hlen; simpl in Hlen; lia).
  cbn [orb]. apply Z.eqb_neq.
  unfold total_pixels, wrap64 in *.
  rewrite Z.mul_mod_idemp_l in * by lia.
  rewrite (Z.mul_comm (width p)). lia.
Qed.

Lemma bytes_to_bits_is_bit bs : Forall is_bit (bytes_to_bits bs).
Proof.
  induction bs as [|b bs IH]; [constructor|].
  rewrite bytes_to_bits_cons. apply Forall_app. split; [|done].
  unfold byte_bits. cbn [map].
  repeat (apply Forall_cons_2; [apply land_1_is_bit|]). apply Forall_nil_2.
Qed.

Section image_embed.
Variables (payload : ImagePayload) (key : list ascii) (seed : Z).
Hypothesis Htotal : Z.of_nat kMetadataPayloadBits < total_pixels payload.
Hypothesis Hbuffer : total_pixels payload <= Z.of_nat (length (bytes payload)).

Let meta := mkMetadata 1 seed (StableHash key)
              (wrap32 (total_pixels payload - Z.of_nat kMetadataPayloadBits)).
Let mbits := bytes_to_bits (PackMetadata meta).

Lemma ImageEmbed_spec :
  exists fbits bs',
    ImageEmbed payload key seed =
      Ok (mkImageEmbedResult
            (mkImagePayload bs' (height payload) (width payload) (channels payload))
            meta fbits) /\
    length bs' = length (bytes payload) /\
    length fbits = (Z.to_nat (total_pixels payload) - kMetadataPayloadBits)%nat /\
    Forall is_bit fbits /\
    forall j,
      Z.shiftr (byte_val (nth j bs' zero)) 1 =
        Z.shiftr (byte_val (nth j (bytes payload) zero)) 1 /\
      ((j < kMetadataPayloadBits)%nat ->
         Z.land (byte_val (nth j bs' zero)) 1 = nth (j / 4) mbits 0) /\
      ((kMetadataPayloadBits <= j < Z.to_nat (total_pixels payload))%nat ->
         Z.land (byte_val (nth j bs' zero)) 1 =
           nth (j - kMetadataPayloadBits) fbits 0) /\
      ((Z.to_nat (total_pixels payload) <= j)%nat ->
         nth j bs' zero = nth j (bytes payload) zero).
Proof.
  change kMetadataPayloadBits with 768%nat in *.
  unfold ImageEmbed.
  rewrite is_empty_payload_false by lia.
  change kMetadataPayloadBits with 768%nat in *.
  rewrite (proj2 (Z.leb_gt _ _)) by lia.
  unfold ImageComputeCombinedBits.
  rewrite (proj2 (Z.leb_gt _ _)) by lia.
  destruct (combined_loop_ok (bytes payload)
              (seq 768 (Z.to_nat (total_pixels payload) - 768))
              (MT.seed (Z.lxor seed (StableHash key))))
    as (fbits & Hc & Hflen & Hfbits).
  { apply Forall_forall. intros i Hi%elem_of_seq. lia. }
  rewrite Hc. cbn [mbind result_bind]. rewrite length_seq in Hflen.
  pose proof (inject_loop_spec mbits metadata_slots (bytes payload)
                (bytes_to_bits_is_bit _)) as Hinj.
  destruct Hinj as [Hilen Hij].
  { pose proof metadata_slots_rep as Hrep.
    apply Forall_forall. intros p Hp. split.
    - rewrite Forall_forall in Hrep. by apply Hrep.
    - assert (In (slot_of p) (map slot_of metadata_slots)) as Hin
        by (apply in_map; by apply list_elem_of_In).
      rewrite metadata_slots_positions in Hin. apply in_seq in Hin. lia. }
  cbn [InjectMetadata bytes]. fold meta. fold mbits.
  set (bs1 := inject_loop mbits metadata_slots (bytes payload)) in *.
  destruct (write_fingerprint_spec fbits
              (seq 0 (Z.to_nat (total_pixels payload - 768))) bs1 Hfbits)
    as (bs' & Hw & Hwlen & Hwj).
  { apply Forall_forall. intros i Hi%elem_of_seq.
    change kMetadataPayloadBits with 768%nat. lia. }
  change (Z.of_nat 768) with 768. rewrite Hw. cbn [mbind result_bind].
  exists fbits, bs'. split; [reflexivity|].
  split; [lia|]. split; [lia|]. split; [done|].
  intros j. destruct (Hwj j) as (Hup & Hin & Hout).
  destruct (Hij j) as (Hup1 & Hin1 & Hout1).
  change kMetadataPayloadBits with 768%nat in *.
  split_and!.
  - by rewrite Hup, Hup1.
  - intros Hj. rewrite Hout.
    + apply Hin1. rewrite metadata_slots_positions. apply in_seq. lia.
    + rewrite in_map_iff. intros (i & Heq & _). lia.
  - intros Hj. apply (Hin (j - 768)%nat); [|lia]. apply in_seq. lia.
  - intros Hj. rewrite Hout, Hout1; [done| |].
    + rewrite metadata_slots_positions, in_seq. lia.
    + rewrite in_map_iff. intros (i & Heq & Hi%in_seq). lia.
Qed.
End image_embed.

(** C8: for an image whose sample count (as [Embed] computes it) exceeds
    768 and whose buffer holds at least that many bytes, [Embed] succeeds;
    the returned buffer has the length of the input, the dimensions are
    unchanged, and every output byte agrees with the input byte above its
    least-significant bit. *)
Theorem image_embed_changes_only_lsb payload key seed :
  Z.of_nat kMetadataPayloadBits < total_pixels payload ->
  total_pixels payload <= Z.of_nat (length (bytes payload)) ->
  exists r,
    ImageEmbed payload key seed = Ok r /\
    length (bytes (ie_payload r)) = length (bytes payload) /\
    height (ie_payload r) = height payload /\
    width (ie_payload r) = width payload /\
    channels (ie_payload r) = channels payload /\
    forall (i : nat) (b b' : ascii),
      bytes payload !! i = Some b ->
      bytes (ie_payload r) !! i = Some b' ->
      Z.shiftr (byte_val b') 1 = Z.shiftr (byte_val b) 1.
Proof.
  intros Htotal Hbuffer.
  destruct (ImageEmbed_spec payload key seed Htotal Hbuffer)
    as (fbits & bs' & Hembed & Hlen & _ & _ & Hj).
  eexists. split; [exact Hembed|]. cbn [ie_payload bytes height width channels].
  split_and!; [done..|].
  intros i b b' Hb Hb'. destruct (Hj i) as [Hup _].
  by rewrite !nth_lookup, Hb, Hb' in Hup.
Qed.

Definition flip_lsb (bs : list ascii) (k : nat) : list ascii :=
  <[k := to_byte (Z.lxor (byte_val (nth k bs zero)) 1)]> bs.

Definition with_bytes (p : ImagePayload) (bs : list ascii) : ImagePayload :=
  mkImagePayload bs (height p) (width p) (channels p).

Lemma is_bit_land_1 v : is_bit v -> Z.land v 1 = v.
Proof. by intros [-> | ->]. Qed.

Lemma majority_bit_vote bits j k v :
  (4 * j + 3 < length bits)%nat ->
  Forall is_bit bits -> is_bit v ->
  (forall s, s <> k -> (s / 4)%nat = j -> nth s bits 0 = v) ->
  majority_bit bits j = v.
Proof.
  intros Hlen Hbits Hv Hs. unfold majority_bit, kMetadataRepeat.
  cbn [seq fold_left Nat.div Nat.divmod fst].
  rewrite !decide_True by lia.
  assert (Hx : forall i, (i < 4)%nat ->
             Z.land (nth (j * 4 + i) bits 0) 1 = v \/
             ((j * 4 + i)%nat = k /\ is_bit (Z.land (nth (j * 4 + i) bits 0) 1))).
  { intros i Hi. destruct (decide ((j * 4 + i)%nat = k)) as [Heq | Hne].
    - right. split; [done|]. apply land_1_is_bit.
    - left. rewrite Hs; [by apply is_bit_land_1 | done |].
      symmetry. apply (Nat.div_unique _ 4 j i); lia. }
  destruct (Hx 0%nat ltac:(lia)) as [H0 | [H0 H0']];
  destruct (Hx 1%nat ltac:(lia)) as [H1 | [H1 H1']];
  destruct (Hx 2%nat ltac:(lia)) as [H2 | [H2 H2']];
  destruct (Hx 3%nat ltac:(lia)) as [H3 | [H3 H3']];
  try lia;
  unfold is_bit in *;
  destruct (Z.ltb_spec (Z.of_nat 2) (0 + Z.land (nth (j * 4 + 0) bits 0) 1 +
     Z.land (nth (j * 4 + 1) bits 0) 1 + Z.land (nth (j * 4 + 2) bits 0) 1 +
     Z.land (nth (j * 4 + 3) bits 0) 1)); lia.
Qed.

Lemma nth_map_seq (f : nat -> Z) n s :
  (s < n)%nat -> nth s (map f (seq 0 n)) 0 = f s.
Proof.
  intros Hs. rewrite nth_lookup.
  change (map f (seq 0 n)) with (f <$> seq 0 n).
  rewrite list_lookup_fmap, lookup_seq_lt by done. reflexivity.
Qed.

Lemma ExtractMetadata_vote p meta k :
  meta_wf meta ->
  (kMetadataPayloadBits <= length (bytes p))%nat ->
  (forall s, (s < kMetadataPayloadBits)%nat -> s <> k ->
     Z.land (byte_val (nth s (bytes p) zero)) 1 =
       nth (s / 4) (bytes_to_bits (PackMetadata meta)) 0) ->
  ExtractMetadata p = (meta, true).
Proof.
  change kMetadataPayloadBits with 768%nat.
  intros Hwf Hlen Hs. unfold ExtractMetadata.
  change kMetadataPayloadBits with 768%nat.
  rewrite decide_False by lia.
  rewrite Nat.min_l by lia.
  set (bits := map _ (seq 0 768)).
  set (mbits := bytes_to_bits (PackMetadata meta)) in *.
  assert (Hmlen : length mbits = 192%nat)
    by (unfold mbits; by rewrite bytes_to_bits_length, PackMetadata_length).
  assert (Hmaj : map (majority_bit bits) (seq 0 kMetadataBits) = mbits).
  { change kMetadataBits with 192%nat.
    apply (nth_ext _ _ 0 0).
    - by rewrite length_map, length_seq, Hmlen.
    - intros j Hj. rewrite length_map, length_seq in Hj.
      rewrite nth_map_seq by done.
      apply (majority_bit_vote bits j k).
      + unfold bits. rewrite length_map, length_seq. lia.
      + unfold bits. apply Forall_forall. intros x Hx%list_elem_of_In.
        apply in_map_iff in Hx as (i & <- & _). apply land_1_is_bit.
      + apply nth_is_bit, bytes_to_bits_is_bit.
      + intros s Hne Hdiv.
        assert (s < 768)%nat.
        { pose proof (Nat.div_mod_eq s 4). pose proof (Nat.mod_upper_bound s 4). lia. }
        unfold bits. rewrite nth_map_seq by done.
        rewrite Hs by done. by rewrite Hdiv. }
  rewrite Hmaj. unfold mbits.
  rewrite bits_to_bytes_to_bits by apply PackMetadata_length.
  by rewrite UnpackMetadata_PackMetadata.
Qed.

Lemma extract_lsbs_ok bs idxs :
  Forall (fun i => (i + kMetadataPayloadBits < length bs)%nat) idxs ->
  exists bits, extract_lsbs bs idxs = Ok bits /\ length bits = length idxs /\
    forall n, (n < length idxs)%nat ->
      nth n bits 0 =
      Z.land (byte_val (nth (nth n idxs 0%nat + kMetadataPayloadBits) bs zero)) 1.
Proof.
  induction idxs as [|i idxs IH]; intros Hidx.
  - exists []. split_and!; [done..|]. intros n Hn. simpl in Hn. lia.
  - apply Forall_cons in Hidx as [Hi Hidx]. cbn [extract_lsbs].
    rewrite (read_Some bs _ zero Hi). cbn [mbind result_bind].
    destruct (IH Hidx) as (bits & -> & Hlen & Hn).
    eexists. split; [reflexivity|]. split; [simpl; by rewrite Hlen|].
    intros [|n] Hlt; [done|]. cbn [nth]. apply Hn. simpl in Hlt. lia.
Qed.

Lemma score_detection_valid d extracted expected :
  metadata_valid (score_detection d extracted expected) = metadata_valid d.
Proof. unfold score_detection. by destruct (_ =? _)%nat. Qed.

Lemma wrap32_le z : 0 <= z -> wrap32 z <= z.
Proof. intros Hz. unfold wrap32. apply Z.mod_le; lia. Qed.

(** Detect on a payload whose metadata region decodes to the metadata
    written by Embed. *)
Lemma ImageDetect_valid p meta :
  ExtractMetadata p = (meta, true) ->
  version meta = 1 ->
  Z.of_nat kMetadataPayloadBits < total_pixels p ->
  total_pixels p <= Z.of_nat (length (bytes p)) ->
  0 <= fingerprint_length meta <= total_pixels p - Z.of_nat kMetadataPayloadBits ->
  exists expected extracted,
    ImageComputeCombinedBits p kMetadataPayloadBits (state_seed meta) (key_hash meta)
      = Ok expected /\
    extract_lsbs (bytes p) (seq 0 (Z.to_nat (fingerprint_length meta))) = Ok extracted /\
    ImageDetect p =
      Ok (score_detection
            (mkDetectionResult 0 FpOne 0 0 true) extracted expected).
Proof.
  change kMetadataPayloadBits with 768%nat.
  intros Hex Hver Htot Hbuf Hfl. unfold ImageDetect.
  rewrite is_empty_payload_false by lia.
  rewrite Hex, Hver. cbn [negb orb Z.eqb Pos.eqb].
  change kMetadataPayloadBits with 768%nat.
  rewrite (proj2 (Z.leb_gt _ _)) by lia.
  rewrite (proj2 (Z.ltb_ge _ _)) by lia. cbn [orb].
  unfold ImageComputeCombinedBits.
  rewrite (proj2 (Z.leb_gt _ _)) by lia.
  destruct (combined_loop_ok (bytes p)
              (seq 768 (Z.to_nat (total_pixels p) - 768))
              (MT.seed (Z.lxor (state_seed meta) (key_hash meta))))
    as (expected & Hc & _ & _).
  { apply Forall_forall. intros i Hi%elem_of_seq. lia. }
  destruct (extract_lsbs_ok (bytes p) (seq 0 (Z.to_nat (fingerprint_length meta))))
    as (extracted & He & _).
  { apply Forall_forall. intros i Hi%elem_of_seq.
    change kMetadataPayloadBits with 768%nat. lia. }
  exists expected, extracted. rewrite Hc, He. by split_and!.
Qed.

Section flipped_metadata.
Variables (payload : ImagePayload) (key : list ascii) (seed : Z).
Hypothesis Hseed : 0 <= seed < 2 ^ 64.
Hypothesis Htotal : Z.of_nat kMetadataPayloadBits < total_pixels payload.
Hypothesis Hbuffer : total_pixels payload <= Z.of_nat (length (bytes payload)).

(** C9: after [Embed], flipping the least-significant bit of any one of
    the first 768 samples leaves [ExtractMetadata] returning the embedded
    metadata (version 1, the seed, the key hash and the fingerprint
    length), so [Detect] reports [metadata_valid = true]: the majority
    vote over each group of four absorbs the flip. *)
Theorem image_metadata_survives_one_flip :
  exists r,
    ImageEmbed payload key seed = Ok r /\
    ie_metadata r =
      mkMetadata 1 seed (StableHash key)
        (wrap32 (total_pixels payload - Z.of_nat kMetadataPayloadBits)) /\
    forall k, (k < kMetadataPayloadBits)%nat ->
      let flipped :=
        with_bytes (ie_payload r) (flip_lsb (bytes (ie_payload r)) k) in
      ExtractMetadata flipped = (ie_metadata r, true) /\
      exists d, ImageDetect flipped = Ok d /\ metadata_valid d = true.
Proof.
  destruct (ImageEmbed_spec payload key seed Htotal Hbuffer)
    as (fbits & bs' & Hembed & Hlen & _ & _ & Hj).
  eexists. split; [exact Hembed|].
  cbn [ie_metadata ie_payload bytes]. split; [reflexivity|].
  change kMetadataPayloadBits with 768%nat in *.
  change (Z.of_nat 768) with 768 in *.
  intros k Hk.
  set (flipped := with_bytes _ _).
  set (meta := mkMetadata _ _ _ _) in *.
  assert (Hwf : meta_wf meta).
  { unfold meta_wf, meta; cbn [version state_seed key_hash fingerprint_length].
    pose proof (StableHash_range key). pose proof (wrap32_range (total_pixels payload - 768)).
    lia. }
  assert (Hflen : length (bytes flipped) = length (bytes payload)).
  { unfold flipped, with_bytes, flip_lsb. cbn [bytes]. by rewrite length_insert. }
  assert (Hex : ExtractMetadata flipped = (meta, true)).
  { apply (ExtractMetadata_vote flipped meta k Hwf).
    - change kMetadataPayloadBits with 768%nat. lia.
    - change kMetadataPayloadBits with 768%nat. intros s Hs Hne.
      unfold flipped, with_bytes, flip_lsb. cbn [bytes].
      rewrite nth_insert_ne by done.
      destruct (Hj s) as (_ & Hin & _). by apply Hin. }
  split; [exact Hex|].
  destruct (ImageDetect_valid flipped meta Hex eq_refl) as (expected & extracted & _ & _ & Hd).
  - done.
  - rewrite Hflen. done.
  - unfold meta; cbn [fingerprint_length].
    change kMetadataPayloadBits with 768%nat. change (Z.of_nat 768) with 768.
    pose proof (wrap32_range (total_pixels payload - 768)).
    pose proof (wrap32_le (total_pixels payload - 768)).
    change (total_pixels flipped) with (total_pixels payload). lia.
  - eexists. split; [exact Hd|]. apply score_detection_valid.
Qed.
End flipped_metadata.

(** ** The field: primality of the modulus *)

Lemma kModulus_pos : 0 < kModulus.
Proof. reflexivity. Qed.

Lemma land_1_mod2 z : Z.land z 1 = z mod 2.
Proof. change 1 with (Z.ones 1). rewrite Z.land_ones by lia. reflexivity. Qed.

Lemma pow_loop_correct fuel result cur exp :
  0 <= exp < 2 ^ Z.of_nat fuel ->
  0 <= result < kModulus ->
  pow_loop fuel result cur exp = (result * cur ^ exp) mod kModulus.
Proof.
  revert result cur exp.
  induction fuel as [|fuel IH]; intros result cur exp Hexp Hres.
  - cbn [pow_loop]. change (2 ^ Z.of_nat 0) with 1 in Hexp.
    assert (exp = 0) as -> by lia. rewrite Z.pow_0_r, Z.mul_1_r.
    symmetry. apply Z.mod_small. lia.
  - cbn [pow_loop]. destruct (Z.ltb_spec 0 exp) as [Hpos | Hzero].
    + rewrite Nat2Z.inj_succ, Z.pow_succ_r in Hexp by lia.
      rewrite Z.shiftr_div_pow2 by lia. change (2 ^ 1) with 2.
      pose proof (Z.div_mod exp 2 ltac:(lia)) as Hdm.
      pose proof (Z.mod_pos_bound exp 2 ltac:(lia)) as Hm.
      rewrite land_1_mod2.
      assert (Hsq : forall r, (r * Mul cur cur ^ (exp / 2)) mod kModulus =
                              (r * (cur * cur) ^ (exp / 2)) mod kModulus).
      { intros r. unfold Mul.
        rewrite <- Z.mul_mod_idemp_r, Z.mod_pow_l, Z.mul_mod_idemp_r by (pose proof kModulus_pos; lia).
        reflexivity. }
      assert (Hcc : (cur * cur) ^ (exp / 2) = cur ^ (2 * (exp / 2))).
      { rewrite Z.pow_mul_r by lia. f_equal. lia. }
      rewrite IH.
      * rewrite Hsq, Hcc.
        destruct (Z.eqb_spec (exp mod 2) 0) as [H0 | H1]; cbn [negb].
        -- f_equal. f_equal. f_equal. lia.
        -- unfold Mul. rewrite Z.mul_mod_idemp_l by (pose proof kModulus_pos; lia).
           assert (Hpow : cur ^ exp = cur ^ (2 * (exp / 2)) * cur ^ 1).
           { rewrite <- Z.pow_add_r by lia. f_equal. lia. }
           rewrite Hpow, Z.pow_1_r. f_equal. ring.
      * split; [apply Z.div_pos; lia|]. apply Z.div_lt_upper_bound; lia.
      * destruct (negb _); [apply Z.mod_pos_bound, kModulus_pos|done].
    + assert (exp = 0) as -> by lia. rewrite Z.pow_0_r, Z.mul_1_r.
      symmetry. apply Z.mod_small. lia.
Qed.

Lemma Pow_correct base exp :
  0 <= exp < 2 ^ 64 -> Pow base exp = base ^ exp mod kModulus.
Proof.
  intros Hexp. unfold Pow. rewrite pow_loop_correct; [|done|done].
  rewrite Z.mul_1_l. apply Z.mod_pow_l.
Qed.

Definition no_divisor_below (n : Z) : bool :=
  forallb (fun d => negb (n mod d =? 0))
          (map Z.of_nat (seq 2 (Z.to_nat n - 2))).

Lemma no_divisor_below_prime n :
  1 < n -> no_divisor_below n = true -> Z.prime n.
Proof.
  intros Hn Hchk. split; [done|]. intros d Hd Hdiv.
  unfold no_divisor_below in Hchk. rewrite forallb_forall in Hchk.
  specialize (Hchk d).
  assert (Hmod : n mod d = 0) by (apply Z.mod_divide; [lia|done]).
  rewrite Hmod in Hchk. cbn in Hchk.
  assert (false = true); [|done].
  apply Hchk. apply in_map_iff. exists (Z.to_nat d). split; [lia|].
  apply in_seq. lia.
Qed.

Lemma prime_divisor_exists n : 1 < n -> exists r, Z.prime r /\ (r | n).
Proof.
  intros Hn. assert (Hn0 : 0 <= n) by lia. revert Hn. revert n Hn0.
  apply (Z_lt_induction (fun n => 1 < n -> exists r, Z.prime r /\ (r | n))).
  intros n IH Hn.
  destruct (prime_dec n) as [Hp | Hnp].
  - exists n. split; [by apply prime_alt|apply Z.divide_refl].
  - destruct (not_prime_divide n Hn Hnp) as (d & Hd & Hdiv).
    destruct (IH d ltac:(lia) ltac:(lia)) as (r & Hr & Hrd).
    exists r. split; [done|]. by apply (Z.divide_trans r d n).
Qed.

(** If [x^a] and [x^b] are 1 modulo [r], so is [x^gcd(a,b)]. *)
Lemma pow_gcd_one r x a b :
  1 < r -> 0 <= a -> 0 <= b ->
  x ^ a mod r = 1 -> x ^ b mod r = 1 -> x ^ Z.gcd a b mod r = 1.
Proof.
  intros Hr Ha Hb. revert a Ha. revert b Hb.
  apply (Z_lt_induction
    (fun b => forall a, 0 <= a -> x ^ a mod r = 1 -> x ^ b mod r = 1 ->
                        x ^ Z.gcd a b mod r = 1)).
  intros b IH a Ha Hxa Hxb.
  destruct (Z.eq_dec b 0) as [-> | Hb0].
  - by rewrite Z.gcd_0_r, Z.abs_eq.
  - assert (Hbpos : 0 < b).
    { destruct (Z.lt_trichotomy b 0) as [Hneg | [? | ?]]; [|done..].
      rewrite Z.pow_neg_r in Hxb by done. rewrite Z.mod_0_l in Hxb by lia. lia. }
    pose proof (Z.mod_pos_bound a b Hbpos) as Hm.
    replace (Z.gcd a b) with (Z.gcd b (a mod b))
      by (rewrite (Z.gcd_comm b), Z.gcd_mod by lia; apply Z.gcd_comm).
    apply IH; [lia|lia|done|].
    pose proof (Z.div_mod a b ltac:(lia)) as Hdm.
    assert (Hq : 0 <= a / b) by (apply Z.div_pos; lia).
    rewrite Hdm, Z.pow_add_r, Z.pow_mul_r in Hxa by lia.
    rewrite <- Z.mul_mod_idemp_l, <- Z.mod_pow_l, Hxb, Z.pow_1_l in Hxa by lia.
    rewrite Z.mod_1_l, Z.mul_1_l in Hxa by lia. done.
Qed.


Lemma prime_divides_product q l :
  Z.prime q -> (q | fold_right Z.mul 1 l) -> exists f, In f l /\ (q | f).
Proof.
  intros Hq. induction l as [|f l IH]; cbn [fold_right]; intros Hdiv.
  - exfalso. apply Z.divide_1_r in Hdiv. pose proof (Z.prime_ge_2 q Hq). lia.
  - apply (Z.divide_prime_mul _ _ _ Hq) in Hdiv as [Hf | Hl].
    + exists f. split; [by left|done].
    + destruct (IH Hl) as (f' & Hin & Hf'). exists f'. split; [by right|done].
Qed.

(** Lucas-Pocklington criterion: [n] is prime when some [g] has order
    exactly [n - 1] modulo every prime divisor of [n]. *)
Lemma lucas_criterion (n g : Z) (factors : list Z) :
  1 < n ->
  Forall Z.prime factors ->
  fold_right Z.mul 1 factors = n - 1 ->
  g ^ (n - 1) mod n = 1 ->
  Forall (fun q => Z.gcd (g ^ ((n - 1) / q) mod n - 1) n = 1) factors ->
  Z.prime n.
Proof.
  intros Hn Hprimes Hprod Hgn Hwit.
  destruct (prime_divisor_exists n Hn) as (r & Hr & Hrp).
  enough (r = n) by (by subst r).
  pose proof (Z.prime_ge_2 r Hr) as Hr2.
  assert (Hrle : r <= n) by (apply Z.divide_pos_le; [lia|done]).
  assert (Hg1 : g ^ (n - 1) mod r = 1).
  { rewrite <- (Z.mod_mod_divide _ n r), Hgn by done. apply Z.mod_1_l. lia. }
  assert (Hg0 : g mod r <> 0).
  { intros H0. rewrite <- Z.mod_pow_l, H0 in Hg1.
    rewrite Z.pow_0_l, Z.mod_0_l in Hg1 by lia. lia. }
  pose proof (Z.fermat_nz r g Hr Hg0) as Hfermat.
  set (e := Z.gcd (n - 1) (r - 1)).
  assert (He1 : g ^ e mod r = 1)
    by (apply pow_gcd_one; [lia|lia|lia|done|done]).
  assert (Hediv : (e | n - 1)) by apply Z.gcd_divide_l.
  assert (Hepos : 0 < e).
  { pose proof (Z.gcd_nonneg (n - 1) (r - 1)).
    destruct (Z.eq_dec e 0) as [He0 | ?]; [|lia].
    apply Z.gcd_eq_0_l in He0. lia. }
  destruct (Z.eq_dec e (n - 1)) as [Heq | Hne].
  - assert (Hdr : (n - 1 | r - 1)) by (rewrite <- Heq; apply Z.gcd_divide_r).
    apply Z.divide_pos_le in Hdr; lia.
  - exfalso. destruct Hediv as [k Hk].
    assert (Hk1 : 1 < k).
    { destruct (Z.lt_trichotomy k 1) as [Hlt | [Heq1 | Hgt]]; [|subst k; lia|done].
      assert (k * e <= 0) by (apply Z.mul_nonpos_nonneg; lia). lia. }
    destruct (prime_divisor_exists k Hk1) as (q & Hq & [m Hm]).
    assert (Hqdiv : (q | fold_right Z.mul 1 factors)).
    { rewrite Hprod, Hk, Hm. exists (m * e). ring. }
    destruct (prime_divides_product q _ Hq Hqdiv) as (f & Hin & Hqf).
    rewrite Forall_forall in Hprimes.
    apply list_elem_of_In in Hin.
    assert (q = f) as <- by (apply Z.divide_prime_prime; auto).
    rewrite Forall_forall in Hwit.
    specialize (Hwit q Hin).
    pose proof (Z.prime_ge_2 q Hq) as Hq2.
    assert (Hquot : (n - 1) / q = m * e).
    { rewrite Hk, Hm. replace (m * q * e) with (m * e * q) by ring.
      apply Z.div_mul. lia. }
    assert (Hm0 : 0 <= m).
    { destruct (Z.le_gt_cases 0 m) as [? | Hneg]; [done|].
      assert (m * q < 0) by (apply Z.mul_neg_pos; lia). lia. }
    assert (Hone : g ^ ((n - 1) / q) mod r = 1).
    { rewrite Hquot, (Z.mul_comm m e), Z.pow_mul_r by lia.
      rewrite <- Z.mod_pow_l, He1, Z.pow_1_l, Z.mod_1_l by lia. done. }
    assert (Hrdiv : (r | g ^ ((n - 1) / q) mod n - 1)).
    { apply Z.mod_divide; [lia|].
      rewrite <- Zminus_mod_idemp_l, Z.mod_mod_divide, Hone by done.
      change (1 - 1) with 0. apply Z.mod_0_l. lia. }
    assert (Hr1 : (r | 1)).
    { rewrite <- Hwit. apply Z.gcd_greatest; done. }
    apply Z.divide_1_r in Hr1. lia.
Qed.

Definition pm1_factors : list Z :=
  [2; 3; 3; 5; 5; 7; 11; 13; 31; 41; 61; 151; 331; 1321].

Definition pm1_check (q : Z) : bool :=
  (1 <? q) && no_divisor_below q &&
  (0 <=? (kModulus - 1) / q) && ((kModulus - 1) / q <? 2 ^ 64) &&
  (Z.gcd (Pow 37 ((kModulus - 1) / q) - 1) kModulus =? 1).

Lemma pm1_factors_checked : forallb pm1_check pm1_factors = true.
Proof. vm_compute. reflexivity. Qed.

Lemma kModulus_prime : Z.prime kModulus.
Proof.
  pose proof pm1_factors_checked as Hchk. rewrite forallb_forall in Hchk.
  apply (lucas_criterion kModulus 37 pm1_factors).
  - reflexivity.
  - apply Forall_forall. intros q Hq%list_elem_of_In.
    specialize (Hchk q Hq). unfold pm1_check in Hchk.
    repeat (apply andb_prop in Hchk as [Hchk ?]).
    apply no_divisor_below_prime; [by apply Z.ltb_lt|done].
  - reflexivity.
  - rewrite <- Pow_correct.
    + vm_compute. reflexivity.
    + split; [apply Z.leb_le|apply Z.ltb_lt]; reflexivity.
  - apply Forall_forall. intros q Hq%list_elem_of_In.
    specialize (Hchk q Hq). unfold pm1_check in Hchk.
    repeat (apply andb_prop in Hchk as [Hchk ?]).
    rewrite <- Pow_correct.
    + by apply Z.eqb_eq.
    + split; [by apply Z.leb_le|by apply Z.ltb_lt].
Qed.

Lemma fermat_inverse a :
  0 < a < kModulus -> (a * a ^ (kModulus - 2)) mod kModulus = 1.
Proof.
  intros Ha.
  replace (a * a ^ (kModulus - 2)) with (a ^ (kModulus - 1)).
  - apply Z.fermat_nz; [apply kModulus_prime|]. rewrite Z.mod_small; lia.
  - replace (kModulus - 1) with (Z.succ (kModulus - 2)) by lia.
    apply Z.pow_succ_r. apply Z.leb_le. reflexivity.
Qed.

Lemma Inverse_pow a :
  0 < a < kModulus -> Inverse a = a ^ (kModulus - 2) mod kModulus.
Proof.
  intros Ha. unfold Inverse. rewrite (proj2 (Z.eqb_neq a 0)) by lia.
  apply Pow_correct. split; [apply Z.leb_le|apply Z.ltb_lt]; reflexivity.
Qed.

(** C7: [Mul a (Inverse a) = 1] for every [a] with [0 < a < p], where
    [Inverse] is the square-and-multiply power [a^(p-2)]. *)
Theorem field_mul_inverse a :
  0 < a < kModulus -> Mul a (Inverse a) = 1.
Proof.
  intros Ha. rewrite Inverse_pow by done.
  unfold Mul. rewrite Z.mul_mod_idemp_r by (intros H; discriminate H).
  by apply fermat_inverse.
Qed.

(** Text *)
Lemma is_zero_width_bit13 cp : Z.testbit cp 13 = false -> is_zero_width cp = false.
Proof.
  intros Hb. unfold is_zero_width.
  repeat match goal with
  | |- context [cp =? ?k] =>
      destruct (Z.eqb_spec cp k) as [-> | _]; [vm_compute in Hb; discriminate|]
  end.
  reflexivity.
Qed.

Lemma is_zero_width_small cp : 0 <= cp < 0x800 -> is_zero_width cp = false.
Proof.
  intros Hcp. unfold is_zero_width, kZeroWidthZero, kZeroWidthOne,
    kZeroWidthMetaStart, kZeroWidthMetaEnd.
  repeat match goal with
  | |- context [cp =? ?k] => destruct (Z.eqb_spec cp k); [lia|]
  end.
  reflexivity.
Qed.

Lemma cp2_not_zero_width f x :
  is_zero_width (Z.lor (Z.shiftl (Z.land f 0x1F) 6) (Z.land x 0x3F)) = false.
Proof.
  apply is_zero_width_bit13.
  rewrite Z.lor_spec, Z.shiftl_spec, !Z.land_spec by lia.
  change (Z.testbit 31 (13 - 6)) with false. change (Z.testbit 63 13) with false.
  by rewrite !andb_false_r.
Qed.

Lemma decode_cp_consumed rest cp n :
  decode_cp rest = Some (cp, n) -> (1 <= n <= length rest)%nat.
Proof.
  destruct rest as [|first more]; [done|]. unfold decode_cp.
  repeat case_match; intros [= <- <-]; simpl;
  repeat match goal with
  | H : _ && bool_decide _ = true |- _ =>
      apply andb_prop in H as [_ H%bool_decide_eq_true]
  end; lia.
Qed.

Lemma decode_cp_prefix rest cp n suffix :
  decode_cp rest = Some (cp, n) ->
  decode_cp (take n rest ++ suffix) = Some (cp, n).
Proof.
  destruct rest as [|first more]; [done|]. unfold decode_cp.
  destruct (byte_val first <? 128) eqn:H1.
  { intros [= <- <-]. simpl. by rewrite H1. }
  destruct ((Z.land (byte_val first) 224 =? 192) && bool_decide (1 ≤ length more)%nat) eqn:H2.
  { intros [= <- <-]. apply andb_prop in H2 as [H2 Hl%bool_decide_eq_true].
    destruct more as [|x more]; [simpl in Hl; lia|].
    cbn [take app]. rewrite H1, H2. cbn [andb length].
    rewrite bool_decide_eq_true_2 by lia. reflexivity. }
  destruct ((Z.land (byte_val first) 240 =? 224) && bool_decide (2 ≤ length more)%nat) eqn:H3.
  { intros [= <- <-]. apply andb_prop in H3 as [H3 Hl%bool_decide_eq_true].
    destruct more as [|x [|y more]]; [simpl in Hl; lia..|].
    apply andb_false_iff in H2 as [H2 | H2];
      [|apply bool_decide_eq_false in H2; simpl in H2; lia].
    cbn [take app]. rewrite H1, H2, H3. cbn [andb length].
    rewrite bool_decide_eq_true_2 by lia. reflexivity. }
  done.
Qed.

Lemma decode_cp_None_shorter first more more' :
  decode_cp (first :: more) = None ->
  (length more' <= length more)%nat ->
  decode_cp (first :: more') = None.
Proof.
  unfold decode_cp.
  destruct (byte_val first <? 128); [done|].
  destruct (Z.land (byte_val first) 224 =? 192) eqn:H2; cbn [andb].
  { case_bool_decide; [done|]. intros _ Hl. rewrite bool_decide_eq_false_2 by lia.
    cbn [andb]. destruct (Z.land (byte_val first) 240 =? 224) eqn:H3; [|done].
    exfalso. 
    apply Z.eqb_eq in H2, H3. revert H2 H3. all_bytes first; vm_compute; congruence. }
  destruct (Z.land (byte_val first) 240 =? 224) eqn:H3; cbn [andb]; [|done].
  case_bool_decide; [done|]. intros _ Hl. by rewrite bool_decide_eq_false_2 by lia.
Qed.

Lemma strip_loop_length fuel rest :
  (length (strip_loop fuel rest) <= length rest)%nat.
Proof.
  revert rest. induction fuel as [|fuel IH]; intros rest; [simpl; lia|].
  destruct rest as [|first more]; [simpl; lia|].
  cbn [strip_loop]. destruct (decode_or_byte (first :: more)) as [cp consumed] eqn:Hd.
  rewrite length_app. specialize (IH (drop consumed (first :: more))).
  rewrite length_drop in IH.
  assert (1 <= consumed)%nat.
  { unfold decode_or_byte in Hd. destruct (decode_cp (first :: more)) as [[cp' n]|] eqn:Hc.
    - apply decode_cp_consumed in Hc. injection Hd as <- <-. lia.
    - injection Hd as <- <-. lia. }
  cbn [length] in *.
  destruct (is_zero_width cp); [cbn [length Nat.add]; lia|].
  rewrite length_take. cbn [length]. lia.
Qed.

Definition first_cp_not_start (s : list ascii) : Prop :=
  match decode_cp s with
  | Some (cp, _) => cp <> kZeroWidthMetaStart
  | None => True
  end.

Lemma strip_loop_first fuel rest : first_cp_not_start (strip_loop fuel rest).
Proof.
  revert rest. induction fuel as [|fuel IH]; intros rest; [done|].
  destruct rest as [|first more]; [done|].
  cbn [strip_loop]. destruct (decode_or_byte (first :: more)) as [cp consumed] eqn:Hd.
  destruct (is_zero_width cp) eqn:Hzw; [apply IH|].
  unfold decode_or_byte in Hd.
  destruct (decode_cp (first :: more)) as [[cp' n]|] eqn:Hc.
  - injection Hd as <- <-. unfold first_cp_not_start.
    rewrite (decode_cp_prefix _ _ _ _ Hc).
    intros ->. vm_compute in Hzw. discriminate.
  - injection Hd as <- <-. cbn [take app hd drop].
    unfold first_cp_not_start.
    rewrite (decode_cp_None_shorter first more); [done..|].
    apply strip_loop_length.
Qed.

Lemma TextDetect_no_start s :
  first_cp_not_start s ->
  TextDetect s = mkDetectionResult 0 FpOne 0 0 false.
Proof.
  intros Hs. unfold TextDetect, DecodeMetadata, DecodeZeroWidthBits.
  destruct s as [|first more]; [reflexivity|].
  unfold first_cp_not_start in Hs.
  destruct (decode_cp (first :: more)) as [[cp n]|].
  - apply Z.eqb_neq in Hs. rewrite Hs. reflexivity.
  - reflexivity.
Qed.

(** C6: [Detect] on the watermarked text with its zero-width code points
    stripped reports [metadata_valid = false] and a false-positive rate of
    1.0, for every payload, key and seed. *)
Theorem text_detect_after_strip payload key seed :
  let watermarked := watermarked_text (TextEmbed payload key seed) in
  let detection := TextDetect (StripZeroWidth watermarked) in
  metadata_valid detection = false /\
  false_positive_rate detection = FpOne.
Proof.
  intros watermarked detection. unfold detection, StripZeroWidth.
  rewrite TextDetect_no_start by apply strip_loop_first. done.
Qed.

(** ** Text round trip *)

Definition ascii7 (b : ascii) : bool := byte_val b <? 0x80.
Definition lead2 (b : ascii) : bool := Z.land (byte_val b) 0xE0 =? 0xC0.
Definition lead3 (b : ascii) : bool := Z.land (byte_val b) 0xF0 =? 0xE0.
Definition cont (b : ascii) : bool := Z.land (byte_val b) 0xC0 =? 0x80.

Definition cp3 (b x y : ascii) : Z :=
  Z.lor (Z.lor (Z.shiftl (Z.land (byte_val b) 0x0F) 12)
               (Z.shiftl (Z.land (byte_val x) 0x3F) 6))
        (Z.land (byte_val y) 0x3F).

Fixpoint utf8_aligned (l : list ascii) : bool :=
  match l with
  | [] => true
  | b :: t =>
      if ascii7 b then utf8_aligned t
      else if lead2 b then
        match t with
        | x :: t' => cont x && utf8_aligned t'
        | [] => false
        end
      else if lead3 b then
        match t with
        | x :: y :: t' => cont x && cont y && utf8_aligned t'
        | _ => false
        end
      else utf8_aligned t
  end.

Inductive clean : list ascii -> Prop :=
| clean_nil : clean []
| clean_ascii b t : ascii7 b = true -> clean t -> clean (b :: t)
| clean_two b x t :
    ascii7 b = false -> lead2 b = true -> cont x = true -> clean t ->
    clean (b :: x :: t)
| clean_three b x y t :
    ascii7 b = false -> lead2 b = false -> lead3 b = true ->
    cont x = true -> cont y = true ->
    is_zero_width (cp3 b x y) = false -> clean t ->
    clean (b :: x :: y :: t)
| clean_other b t :
    ascii7 b = false -> lead2 b = false -> lead3 b = false -> clean t ->
    clean (b :: t).

Lemma isspace_ascii7 b : isspace (byte_val b) = true -> ascii7 b = true.
Proof. all_bytes b; vm_compute; congruence. Qed.

Lemma cont_not_ascii7 b : cont b = true -> ascii7 b = false.
Proof. all_bytes b; vm_compute; congruence. Qed.

Lemma not_ascii7_not_space b : ascii7 b = false -> isspace (byte_val b) = false.
Proof. all_bytes b; vm_compute; congruence. Qed.

(** decode_cp on each kind of unit *)
Lemma decode_cp_ascii b t : ascii7 b = true -> decode_cp (b :: t) = Some (byte_val b, 1%nat).
Proof. unfold ascii7, decode_cp. by intros ->. Qed.

Lemma decode_cp_two b x t :
  ascii7 b = false -> lead2 b = true ->
  decode_cp (b :: x :: t) =
    Some (Z.lor (Z.shiftl (Z.land (byte_val b) 0x1F) 6) (Z.land (byte_val x) 0x3F), 2%nat).
Proof.
  unfold ascii7, lead2, decode_cp. intros -> ->. cbn [andb length nth].
  by rewrite bool_decide_eq_true_2 by lia.
Qed.

Lemma decode_cp_three b x y t :
  ascii7 b = false -> lead2 b = false -> lead3 b = true ->
  decode_cp (b :: x :: y :: t) = Some (cp3 b x y, 3%nat).
Proof.
  unfold ascii7, lead2, lead3, decode_cp. intros -> -> ->. cbn [andb length nth].
  by rewrite bool_decide_eq_true_2 by lia.
Qed.

Lemma decode_cp_other b t :
  ascii7 b = false -> lead2 b = false -> lead3 b = false ->
  decode_cp (b :: t) = None.
Proof. unfold ascii7, lead2, lead3, decode_cp. by intros -> -> ->. Qed.

(** strip steps *)
Lemma strip_loop_ascii fuel b t :
  ascii7 b = true -> strip_loop (S fuel) (b :: t) = b :: strip_loop fuel t.
Proof.
  intros Hb. cbn [strip_loop]. unfold decode_or_byte. rewrite decode_cp_ascii by done.
  rewrite is_zero_width_small; [done|].
  unfold ascii7 in Hb. pose proof (byte_val_range b). lia.
Qed.

Lemma strip_loop_two fuel b x t :
  ascii7 b = false -> lead2 b = true ->
  strip_loop (S fuel) (b :: x :: t) = b :: x :: strip_loop fuel t.
Proof.
  intros H1 H2. cbn [strip_loop]. unfold decode_or_byte. rewrite decode_cp_two by done.
  by rewrite cp2_not_zero_width.
Qed.

Lemma strip_loop_three fuel b x y t :
  ascii7 b = false -> lead2 b = false -> lead3 b = true ->
  strip_loop (S fuel) (b :: x :: y :: t) =
    (if is_zero_width (cp3 b x y) then [] else [b; x; y]) ++ strip_loop fuel t.
Proof.
  intros H1 H2 H3. cbn [strip_loop]. unfold decode_or_byte.
  by rewrite decode_cp_three by done.
Qed.

Lemma strip_loop_other fuel b t :
  ascii7 b = false -> lead2 b = false -> lead3 b = false ->
  strip_loop (S fuel) (b :: t) = b :: strip_loop fuel t.
Proof.
  intros H1 H2 H3. cbn [strip_loop]. unfold decode_or_byte.
  rewrite decode_cp_other by done. cbn [hd].
  rewrite is_zero_width_small; [done|]. pose proof (byte_val_range b). lia.
Qed.

Lemma strip_aligned_clean fuel l :
  (length l <= fuel)%nat -> utf8_aligned l = true -> clean (strip_loop fuel l).
Proof.
  revert l. induction fuel as [|fuel IH]; intros l Hlen Hal.
  { destruct l; [constructor|simpl in Hlen; lia]. }
  destruct l as [|b t]; [constructor|].
  cbn [utf8_aligned] in Hal. cbn [length] in Hlen.
  destruct (ascii7 b) eqn:H1.
  { rewrite strip_loop_ascii by done. apply clean_ascii; [done|]. apply IH; [lia|done]. }
  destruct (lead2 b) eqn:H2.
  { destruct t as [|x t]; [done|]. apply andb_prop in Hal as [Hx Hal].
    rewrite strip_loop_two by done. apply clean_two; [done..|].
    apply IH; [cbn [length] in Hlen; lia|done]. }
  destruct (lead3 b) eqn:H3.
  { destruct t as [|x [|y t]]; [done..|].
    apply andb_prop in Hal as [Hxy Hal]. apply andb_prop in Hxy as [Hx Hy].
    rewrite strip_loop_three by done.
    assert (clean (strip_loop fuel t)) by (apply IH; [cbn [length] in Hlen; lia|done]).
    destruct (is_zero_width (cp3 b x y)) eqn:Hzw; [done|].
    by apply clean_three. }
  rewrite strip_loop_other by done. apply clean_other; [done..|].
  apply IH; [lia|done].
Qed.

Definition in_token (current : list ascii) : bool :=
  match current with [] => false | _ :: _ => true end.

(** The body written by [embed_loop], as a stream. *)
Fixpoint weave (fbits : list Z) (c : list ascii) (ti : nat) (it : bool)
  : list ascii :=
  match c with
  | [] => if it then token_mark fbits ti else []
  | b :: rest =>
      if isspace (byte_val b) then
        if it then token_mark fbits ti ++ b :: weave fbits rest (S ti) false
        else b :: weave fbits rest ti false
      else b :: weave fbits rest ti true
  end.

Fixpoint token_ends (c : list ascii) (it : bool) : nat :=
  match c with
  | [] => if it then 1 else 0
  | b :: rest =>
      if isspace (byte_val b) then
        ((if it then 1 else 0) + token_ends rest false)%nat
      else token_ends rest true
  end.

Lemma in_token_snoc cur b : in_token (cur ++ [b]) = true.
Proof. by destruct cur. Qed.

Lemma embed_loop_weave fbits c ti cur builder :
  embed_loop fbits c ti cur builder =
    builder ++ cur ++ weave fbits c ti (in_token cur).
Proof.
  revert ti cur builder. induction c as [|b rest IH]; intros ti cur builder.
  - destruct cur; cbn [embed_loop weave in_token]; by rewrite ?app_nil_r.
  - cbn [embed_loop weave]. destruct (isspace (byte_val b)).
    + destruct cur as [|c0 cur]; rewrite IH; cbn [in_token app].
      * by rewrite <- app_assoc.
      * rewrite <- !app_assoc. cbn [app]. by rewrite <- !app_assoc.
    + rewrite IH, in_token_snoc. by rewrite <- !app_assoc.
Qed.

Lemma tokenize_loop_length c cur :
  length (tokenize_loop c cur) = token_ends c (in_token cur).
Proof.
  revert cur. induction c as [|b rest IH]; intros cur.
  - by destruct cur.
  - cbn [tokenize_loop token_ends]. destruct (isspace (byte_val b)).
    + destruct cur; cbn [in_token length]; by rewrite IH.
    + by rewrite IH, in_token_snoc.
Qed.

(** zero-width marks *)
Definition mark_bytes (bit : Z) : list ascii :=
  utf8_encode (if bit =? 0 then kZeroWidthZero else kZeroWidthOne).

Lemma token_mark_cases fbits ti :
  (exists bit, fbits !! ti = Some bit /\ token_mark fbits ti = mark_bytes bit) \/
  (fbits !! ti = None /\ token_mark fbits ti = []).
Proof.
  unfold token_mark. destruct (fbits !! ti) as [bit|] eqn:Hl; [left|right; done].
  exists bit. split; [done|]. unfold EncodeZeroWidthBits, mark_bytes. cbn.
  by rewrite app_nil_r.
Qed.

Lemma decode_cp_mark bit rest :
  decode_cp (mark_bytes bit ++ rest) =
    Some (if bit =? 0 then kZeroWidthZero else kZeroWidthOne, 3%nat).
Proof. unfold mark_bytes. destruct (bit =? 0); reflexivity. Qed.

Lemma mark_bytes_drop bit rest : drop 3 (mark_bytes bit ++ rest) = rest.
Proof. unfold mark_bytes. destruct (bit =? 0); reflexivity. Qed.

Lemma mark_bytes_length bit : length (mark_bytes bit) = 3%nat.
Proof. unfold mark_bytes. destruct (bit =? 0); reflexivity. Qed.

Lemma mark_bytes_head bit rest :
  exists m, mark_bytes bit ++ rest = to_byte 0xE2 :: m.
Proof. unfold mark_bytes. destruct (bit =? 0); eexists; reflexivity. Qed.

Lemma strip_loop_mark fuel bit rest :
  strip_loop (S fuel) (mark_bytes bit ++ rest) = strip_loop fuel rest.
Proof.
  destruct (mark_bytes_head bit rest) as [m Hm].
  cbn [strip_loop]. rewrite Hm at 1. unfold decode_or_byte.
  rewrite decode_cp_mark, mark_bytes_drop.
  by destruct (bit =? 0).
Qed.

Lemma strip_loop_fuel_ge fuel fuel' rest :
  (length rest <= fuel)%nat -> (length rest <= fuel')%nat ->
  strip_loop fuel rest = strip_loop fuel' rest.
Proof.
  revert fuel' rest. induction fuel as [|fuel IH]; intros fuel' rest H1 H2.
  - destruct rest; [by destruct fuel'|simpl in H1; lia].
  - destruct rest as [|b t]; [by destruct fuel'|].
    destruct fuel' as [|fuel']; [simpl in H2; lia|].
    cbn [strip_loop]. destruct (decode_or_byte (b :: t)) as [cp n] eqn:Hd.
    f_equal.
    assert (1 <= n)%nat.
    { unfold decode_or_byte in Hd. destruct (decode_cp (b :: t)) as [[cp' n']|] eqn:Hc.
      - injection Hd as <- <-. unfold decode_cp in Hc.
        repeat case_match; simplify_eq; lia.
      - injection Hd as <- <-. lia. }
    apply IH; rewrite length_drop; cbn [length] in *; lia.
Qed.

Lemma weave_length_ge fbits c ti it : (length c <= length (weave fbits c ti it))%nat.
Proof.
  revert ti it. induction c as [|b rest IH]; intros ti it; [simpl; lia|].
  cbn [weave]. destruct (isspace (byte_val b)).
  - destruct it.
    + rewrite length_app. cbn [length]. specialize (IH (S ti) false). lia.
    + cbn [length]. specialize (IH ti false). lia.
  - cbn [length]. specialize (IH ti true). lia.
Qed.

(** K1 : stripping the woven body gives back the cleaned text. *)
Lemma strip_weave fbits c :
  clean c ->
  forall fuel ti it,
    (length (weave fbits c ti it) <= fuel)%nat ->
    strip_loop fuel (weave fbits c ti it) = c.
Proof.
  induction 1 as [|b t Hb Hc IH|b x t H1 H2 Hx Hc IH
                  |b x y t H1 H2 H3 Hx Hy Hzw Hc IH|b t H1 H2 H3 Hc IH];
    intros fuel ti it Hfuel.
  - cbn [weave] in *. destruct it; [|by destruct fuel].
    destruct (token_mark_cases fbits ti) as [(bit & _ & Hm) | [_ Hm]];
      rewrite Hm in *; [|by destruct fuel].
    rewrite mark_bytes_length in Hfuel.
    destruct fuel as [|fuel]; [lia|].
    rewrite <- (app_nil_r (mark_bytes bit)), strip_loop_mark. by destruct fuel.
  - cbn [weave] in *. destruct (isspace (byte_val b)) eqn:Hsp.
    + destruct it.
      * destruct (token_mark_cases fbits ti) as [(bit & _ & Hm) | [_ Hm]];
          rewrite Hm in *.
        -- rewrite length_app, mark_bytes_length in Hfuel. cbn [length] in Hfuel.
           destruct fuel as [|[|fuel]]; [lia..|].
           rewrite strip_loop_mark, strip_loop_ascii by done.
           f_equal. apply IH. lia.
        -- cbn [app length] in *. destruct fuel as [|fuel]; [lia|].
           rewrite strip_loop_ascii by done. f_equal. apply IH. lia.
      * cbn [length] in Hfuel. destruct fuel as [|fuel]; [lia|].
        rewrite strip_loop_ascii by done. f_equal. apply IH. lia.
    + cbn [length] in Hfuel. destruct fuel as [|fuel]; [lia|].
      rewrite strip_loop_ascii by done. f_equal. apply IH. lia.
  - cbn [weave].
    rewrite (not_ascii7_not_space b), (not_ascii7_not_space x)
      by (done || by apply cont_not_ascii7).
    intros. cbn [weave length] in Hfuel.
    rewrite (not_ascii7_not_space b), (not_ascii7_not_space x) in Hfuel
      by (done || by apply cont_not_ascii7). cbn [length] in Hfuel.
    destruct fuel as [|fuel]; [lia|].
    rewrite strip_loop_two by done. do 2 f_equal. apply IH. lia.
  - cbn [weave] in *.
    rewrite (not_ascii7_not_space b), (not_ascii7_not_space x),
      (not_ascii7_not_space y) in * by (done || by apply cont_not_ascii7).
    cbn [length] in Hfuel.
    destruct fuel as [|fuel]; [lia|].
    rewrite strip_loop_three, Hzw by done. cbn [app]. do 3 f_equal. apply IH. lia.
  - cbn [weave] in *.
    rewrite (not_ascii7_not_space b) in * by done. cbn [length] in Hfuel.
    destruct fuel as [|fuel]; [lia|].
    rewrite strip_loop_other by done. f_equal. apply IH. lia.
Qed.

(** K2 : the scanning loop of Detect reads back the marks. *)
Lemma is_zero_or_one_small cp :
  0 <= cp < 0x800 -> (cp =? kZeroWidthZero) || (cp =? kZeroWidthOne) = false.
Proof.
  intros Hcp. unfold kZeroWidthZero, kZeroWidthOne.
  destruct (Z.eqb_spec cp 8203); [lia|]. destruct (Z.eqb_spec cp 8204); [lia|]. done.
Qed.

Lemma is_zero_or_one_zw cp :
  is_zero_width cp = false -> (cp =? kZeroWidthZero) || (cp =? kZeroWidthOne) = false.
Proof.
  unfold is_zero_width. intros H.
  apply orb_false_iff in H as [H _]. by apply orb_false_iff in H as [H _].
Qed.

Lemma detect_loop_mark fuel n bit rest ti cur :
  is_bit bit ->
  detect_loop (S fuel) n (mark_bytes bit ++ rest) ti cur =
    if decide (ti < n)%nat then bit :: detect_loop fuel n rest (S ti) cur
    else detect_loop fuel n rest ti cur.
Proof.
  intros Hbit. destruct (mark_bytes_head bit rest) as [m Hm].
  cbn [detect_loop]. rewrite Hm at 1. unfold decode_or_byte.
  rewrite decode_cp_mark, mark_bytes_drop.
  change (isspace (byte_val (to_byte 226))) with false. cbn iota.
  destruct Hbit as [-> | ->]; reflexivity.
Qed.

Lemma detect_loop_space fuel n b t ti cur :
  isspace (byte_val b) = true ->
  detect_loop (S fuel) n (b :: t) ti cur = detect_loop fuel n t ti [].
Proof.
  intros Hsp. cbn [detect_loop]. unfold decode_or_byte.
  rewrite decode_cp_ascii by (by apply isspace_ascii7). by rewrite Hsp.
Qed.

Lemma detect_loop_skip fuel n rest ti cur cp consumed b t :
  rest = b :: t ->
  decode_or_byte rest = (cp, consumed) ->
  isspace (byte_val b) = false ->
  (cp =? kZeroWidthZero) || (cp =? kZeroWidthOne) = false ->
  exists cur', detect_loop (S fuel) n rest ti cur =
               detect_loop fuel n (drop consumed rest) ti cur'.
Proof.
  intros -> Hd Hsp Hzw. cbn [detect_loop]. rewrite Hd, Hsp, Hzw.
  destruct (isspace (cp mod 256)); eauto.
Qed.

Lemma take_drop_step (fbits : list Z) ti e bit :
  fbits !! ti = Some bit ->
  take (S e) (drop ti fbits) = bit :: take e (drop (S ti) fbits).
Proof. intros H. by rewrite (drop_S _ _ _ H). Qed.

Lemma detect_weave fbits c :
  Forall is_bit fbits ->
  clean c ->
  forall fuel ti it cur,
    (length (weave fbits c ti it) <= fuel)%nat ->
    (ti + token_ends c it <= length fbits)%nat ->
    detect_loop fuel (length fbits) (weave fbits c ti it) ti cur =
      take (token_ends c it) (drop ti fbits).
Proof.
  intros Hbits.
  assert (Hmark : forall ti, (ti < length fbits)%nat ->
            exists bit, is_bit bit /\ fbits !! ti = Some bit /\
                        token_mark fbits ti = mark_bytes bit).
  { intros ti Hti. destruct (token_mark_cases fbits ti) as [(bit & Hl & Hm) | [Hl _]].
    - exists bit. split_and!; [|done..].
      rewrite Forall_forall in Hbits. apply Hbits. by eapply list_elem_of_lookup_2.
    - apply lookup_ge_None in Hl. lia. }
  induction 1 as [|b t Hb Hc IH|b x t H1 H2 Hx Hc IH
                  |b x y t H1 H2 H3 Hx Hy Hzw Hc IH|b t H1 H2 H3 Hc IH];
    intros fuel ti it cur Hfuel Hends.
  - cbn [weave token_ends] in *. destruct it; [|by destruct fuel].
    destruct (Hmark ti ltac:(lia)) as (bit & Hbit & Hl & Hm). rewrite Hm in *.
    rewrite mark_bytes_length in Hfuel. destruct fuel as [|fuel]; [lia|].
    rewrite <- (app_nil_r (mark_bytes bit)), detect_loop_mark by done.
    rewrite decide_True by lia. rewrite (take_drop_step _ _ _ _ Hl).
    f_equal. by destruct fuel.
  - cbn [weave token_ends] in *. destruct (isspace (byte_val b)) eqn:Hsp.
    + destruct it.
      * destruct (Hmark ti ltac:(lia)) as (bit & Hbit & Hl & Hm). rewrite Hm in *.
        rewrite length_app, mark_bytes_length in Hfuel. cbn [length] in Hfuel.
        destruct fuel as [|[|fuel]]; [lia..|].
        rewrite detect_loop_mark by done. rewrite decide_True by lia.
        rewrite detect_loop_space by done.
        cbn [Nat.add]. rewrite (take_drop_step _ _ _ _ Hl). f_equal.
        apply IH; lia.
      * cbn [length] in Hfuel. destruct fuel as [|fuel]; [lia|].
        rewrite detect_loop_space by done. cbn [Nat.add]. apply IH; lia.
    + cbn [length] in Hfuel. destruct fuel as [|fuel]; [lia|].
      edestruct (detect_loop_skip fuel (length fbits) (b :: weave fbits t ti true)
                  ti cur) as [cur' ->].
      * reflexivity.
      * unfold decode_or_byte. rewrite decode_cp_ascii by done. reflexivity.
      * done.
      * apply is_zero_or_one_small. unfold ascii7 in Hb.
        pose proof (byte_val_range b). lia.
      * cbn [drop]. apply IH; lia.
  - cbn [weave token_ends] in *.
    rewrite (not_ascii7_not_space b), (not_ascii7_not_space x) in *
      by (done || by apply cont_not_ascii7).
    cbn [length] in Hfuel. destruct fuel as [|fuel]; [lia|].
    edestruct (detect_loop_skip fuel (length fbits) (b :: x :: weave fbits t ti true)
                ti cur) as [cur' ->].
    + reflexivity.
    + unfold decode_or_byte. rewrite decode_cp_two by done. reflexivity.
    + by apply not_ascii7_not_space.
    + apply is_zero_or_one_zw, cp2_not_zero_width.
    + cbn [drop]. apply IH; lia.
  - cbn [weave token_ends] in *.
    rewrite (not_ascii7_not_space b), (not_ascii7_not_space x),
      (not_ascii7_not_space y) in * by (done || by apply cont_not_ascii7).
    cbn [length] in Hfuel. destruct fuel as [|fuel]; [lia|].
    edestruct (detect_loop_skip fuel (length fbits)
                (b :: x :: y :: weave fbits t ti true)
                ti cur) as [cur' ->].
    + reflexivity.
    + unfold decode_or_byte. rewrite decode_cp_three by done. reflexivity.
    + by apply not_ascii7_not_space.
    + by apply is_zero_or_one_zw.
    + cbn [drop]. apply IH; lia.
  - cbn [weave token_ends] in *.
    rewrite (not_ascii7_not_space b) in * by done.
    cbn [length] in Hfuel. destruct fuel as [|fuel]; [lia|].
    edestruct (detect_loop_skip fuel (length fbits) (b :: weave fbits t ti true)
                ti cur) as [cur' ->].
    + reflexivity.
    + unfold decode_or_byte. rewrite decode_cp_other by done. reflexivity.
    + by apply not_ascii7_not_space.
    + cbn [hd]. apply is_zero_or_one_small. pose proof (byte_val_range b). lia.
    + cbn [drop]. apply IH; lia.
Qed.

(** Metadata framing *)

Lemma EncodeZeroWidthBits_sentinels bits :
  EncodeZeroWidthBits bits true =
    utf8_encode kZeroWidthMetaStart ++ flat_map mark_bytes bits ++
    utf8_encode kZeroWidthMetaEnd.
Proof.
  unfold EncodeZeroWidthBits. rewrite !flat_map_app.
  change (flat_map utf8_encode [kZeroWidthMetaStart])
    with (utf8_encode kZeroWidthMetaStart).
  change (flat_map utf8_encode [kZeroWidthMetaEnd])
    with (utf8_encode kZeroWidthMetaEnd).
  do 2 f_equal.
  induction bits as [|bit bits IH]; [done|]. cbn [map flat_map]. by rewrite IH.
Qed.

Lemma zero_width_loop_marks bits body fuel :
  Forall is_bit bits ->
  (length bits < fuel)%nat ->
  zero_width_loop fuel true
    (flat_map mark_bytes bits ++ utf8_encode kZeroWidthMetaEnd ++ body) =
  (bits, body).
Proof.
  intros Hbits. revert fuel. induction Hbits as [|bit bits Hbit Hbits IH]; intros fuel Hfuel.
  - destruct fuel as [|fuel]; [simpl in Hfuel; lia|]. reflexivity.
  - destruct fuel as [|fuel]; [simpl in Hfuel; lia|].
    cbn [flat_map]. rewrite <- app_assoc.
    destruct (mark_bytes_head bit (flat_map mark_bytes bits ++
                utf8_encode kZeroWidthMetaEnd ++ body)) as [m Hm].
    cbn [zero_width_loop]. rewrite Hm at 1.
    rewrite decode_cp_mark, mark_bytes_drop, IH by (simpl in Hfuel; lia).
    destruct Hbit as [-> | ->]; reflexivity.
Qed.

Lemma DecodeMetadata_EncodeMetadata meta body :
  meta_wf meta ->
  DecodeMetadata (EncodeMetadata meta ++ body) = (meta, body, true).
Proof.
  intros Hwf. unfold DecodeMetadata, EncodeMetadata, DecodeZeroWidthBits.
  rewrite EncodeZeroWidthBits_sentinels.
  set (mbits := bytes_to_bits (PackMetadata meta)).
  assert (Hlen : length mbits = 192%nat)
    by (unfold mbits; by rewrite bytes_to_bits_length, PackMetadata_length).
  set (tail := flat_map mark_bytes mbits ++ utf8_encode kZeroWidthMetaEnd).
  change (utf8_encode kZeroWidthMetaStart ++ tail)
    with (to_byte 226 :: to_byte 129 :: to_byte 163 :: tail).
  cbn [app]. 
  change (decode_cp (to_byte 226 :: to_byte 129 :: to_byte 163 :: tail ++ body))
    with (Some (kZeroWidthMetaStart, 3%nat)).
  cbn [negb Z.eqb kZeroWidthMetaStart Pos.eqb drop]. 
  rewrite drop_0.
  replace (tail ++ body)
    with (flat_map mark_bytes mbits ++ utf8_encode kZeroWidthMetaEnd ++ body)
    by (unfold tail; by rewrite <- app_assoc).
  rewrite zero_width_loop_marks.
  - rewrite Hlen. cbn [Nat.eqb Nat.mul Nat.add negb].
    unfold mbits. rewrite bits_to_bytes_to_bits by apply PackMetadata_length.
    by rewrite UnpackMetadata_PackMetadata.
  - apply Forall_impl with (P := is_bit); [apply bytes_to_bits_is_bit|done].
  - rewrite Hlen. cbn [length]. rewrite !length_app.
    assert (length (flat_map mark_bytes mbits) = (3 * length mbits)%nat) as ->.
    { clear. induction mbits as [|b l IH]; [done|].
      cbn [flat_map]. rewrite length_app, mark_bytes_length, IH. cbn [length]. lia. }
    lia.
Qed.

Lemma text_combined_loop_spec tokens idx rng :
  length (text_combined_loop tokens idx rng) = length tokens /\
  Forall is_bit (text_combined_loop tokens idx rng).
Proof.
  revert idx rng. induction tokens as [|token tokens IH]; intros idx rng.
  - split; [done|constructor].
  - cbn [text_combined_loop]. destruct (MT.next rng) as [r rng'].
    destruct (IH (S idx) rng') as [Hlen Hbits].
    split; [cbn [length]; by rewrite Hlen|].
    apply Forall_cons_2; [apply land_1_is_bit|done].
Qed.

Lemma count_matching_refl xs n :
  (n <= length xs)%nat -> count_matching xs xs n = Z.of_nat n.
Proof.
  revert n. induction xs as [|x xs IH]; intros n Hn.
  - simpl in Hn. assert (n = 0%nat) as -> by lia. reflexivity.
  - destruct n as [|n]; [reflexivity|]. cbn [count_matching].
    rewrite Z.eqb_refl, IH by (simpl in Hn; lia). lia.
Qed.

Lemma score_detection_same d xs :
  let r := score_detection d xs xs in
  total_bits r = Z.of_nat (length xs) /\
  matching_bits r = total_bits r /\
  metadata_valid r = metadata_valid d /\
  (xs <> [] -> (score r == 1)%Q).
Proof.
  unfold score_detection. rewrite Nat.min_id, count_matching_refl by done.
  destruct xs as [|x xs]; [done|].
  cbn [length Nat.eqb total_bits matching_bits metadata_valid score].
  split_and!; [done..|]. intros _.
  unfold Qeq. cbn [Qnum Qden]. rewrite <- Pos.of_nat_succ, Zpos_P_of_succ_nat. lia.
Qed.

Definition text_round_trip (payload key : list ascii) (seed : Z) : Prop :=
  let r := TextEmbed payload key seed in
  let d := TextDetect (watermarked_text r) in
  let tokens := Tokenize (StripZeroWidth payload) in
  metadata_valid d = true /\
  total_bits d = Z.of_nat (length tokens) /\
  matching_bits d = total_bits d /\
  (tokens <> [] -> (score d == 1)%Q).

(** C5, as amended: for a payload in which every two-byte lead is followed
    by one continuation byte and every three-byte lead by two (all
    well-formed UTF-8 is of this kind), [Detect] on the unmodified output
    of [Embed] reports valid metadata, as many bits as the stripped
    payload has tokens, all of them matching, hence score 1 when there is
    a token. *)
Theorem text_embed_detect_round_trip payload key seed :
  utf8_aligned payload = true ->
  0 <= seed < 2 ^ 64 ->
  text_round_trip payload key seed.
Proof.
  intros Hal Hseed. unfold text_round_trip, TextEmbed.
  cbn [watermarked_text].
  set (cleaned := StripZeroWidth payload).
  set (tokens := Tokenize cleaned).
  set (meta := mkMetadata _ _ _ _).
  set (fbits := TextComputeCombinedBits tokens seed (StableHash key)).
  assert (Hclean : clean cleaned)
    by (apply strip_aligned_clean; [done|done]).
  assert (Hwf : meta_wf meta).
  { unfold meta_wf, meta; cbn [version state_seed key_hash fingerprint_length].
    pose proof (StableHash_range key).
    pose proof (wrap32_range (Z.of_nat (length tokens))). lia. }
  destruct (text_combined_loop_spec tokens 0
              (MT.seed (Z.lxor seed (StableHash key)))) as [Hflen Hfbits].
  fold (TextComputeCombinedBits tokens seed (StableHash key)) in Hflen, Hfbits.
  fold fbits in Hflen, Hfbits.
  assert (Hends : token_ends cleaned false = length tokens).
  { unfold tokens, Tokenize. by rewrite tokenize_loop_length. }
  rewrite embed_loop_weave. cbn [app in_token].
  set (body := weave fbits cleaned 0 false).
  unfold TextDetect. rewrite DecodeMetadata_EncodeMetadata by done.
  cbn [version meta negb orb Z.eqb Pos.eqb state_seed key_hash].
  assert (Hstrip : StripZeroWidth body = cleaned).
  { unfold StripZeroWidth, body. by apply strip_weave. }
  rewrite Hstrip. fold tokens. fold fbits.
  assert (Hext : detect_loop (length body) (length tokens) body 0 [] = fbits).
  { unfold body. rewrite <- Hflen. rewrite detect_weave; [|done..|lia].
    rewrite Hends, drop_0, <- Hflen. apply firstn_all. }
  rewrite Hext.
  destruct (score_detection_same
              (mkDetectionResult 0 FpOne 0 0 true) fbits) as (Ht & Hm & Hv & Hs).
  cbn [DetectionResult_default score false_positive_rate total_bits matching_bits].
  split_and!; [done | by rewrite Ht, Hflen | done |].
  intros Hne. apply Hs. intros Hf. apply Hne.
  apply length_zero_iff_nil. rewrite <- Hflen, Hf. done.
Qed.

(** C5, counterexample: the one-byte payload 0xC2 (a two-byte lead with
    nothing after it) is one token, but [Detect] decodes the lead together
    with the first byte of the mark that [Embed] put after it, finds no
    mark, and reports [total_bits = 0]. *)
Lemma text_round_trip_fails_on_truncated_utf8 :
  ~ text_round_trip [to_byte 0xC2] [] 0.
Proof.
  unfold text_round_trip. vm_compute. intros (_ & H & _). discriminate.
Qed.

(** *** Detect on a payload whose dimensions disagree with its metadata *)

(** What [ImageDetect] is claimed to return when the decoded metadata
    cannot fit the image. *)
Definition rejected_with_valid_metadata : DetectionResult :=
  mkDetectionResult 0 FpOne 0 0 true.

Definition oversized_length (p : ImagePayload) (meta : Metadata) : Prop :=
  total_pixels p <= Z.of_nat kMetadataPayloadBits \/
  total_pixels p - Z.of_nat kMetadataPayloadBits < fingerprint_length meta.

(** The statement of C10 as it is written, for one payload. *)
Definition detect_oversized_claim (p : ImagePayload) : Prop :=
  forall meta,
    ExtractMetadata p = (meta, true) -> version meta = 1 ->
    oversized_length p meta ->
    ImageDetect p = Ok rejected_with_valid_metadata.

(** 768 samples whose least-significant bits spell version 1 (bit 31 of
    the header, repeated in slots 124..127) and zeros elsewhere, declared
    with height 0. *)
Definition zero_height_payload : ImagePayload :=
  mkImagePayload
    (replicate 124 zero ++ replicate 4 (to_byte 1) ++ replicate 640 zero)
    0 768 1.

(** C10, counterexample: with a sample count of zero and a buffer that
    decodes to version 1, the empty-payload guard of [Detect] answers
    first and reports [metadata_valid = false]. *)
Lemma detect_oversized_claim_fails_on_zero_samples :
  ~ detect_oversized_claim zero_height_payload.
Proof.
  intros Hclaim.
  specialize (Hclaim (mkMetadata 1 0 0 0)).
  assert (Hd : ImageDetect zero_height_payload =
               Ok (mkDetectionResult 0 FpOne 0 0 false))
    by (vm_compute; reflexivity).
  rewrite Hd in Hclaim.
  assert (Ok (mkDetectionResult 0 FpOne 0 0 false) =
          Ok rejected_with_valid_metadata) as Heq; [|discriminate Heq].
  apply Hclaim.
  - vm_compute. reflexivity.
  - reflexivity.
  - left. vm_compute. discriminate.
Qed.

(** C10, as amended: for a payload that passes the empty-payload guard
    (a buffer and a non-zero sample count), whose first 768 LSBs decode
    to metadata of version 1, and whose sample count is at most 768 or
    smaller than the decoded fingerprint length plus 768, [Detect] returns
    normally with [metadata_valid = true], both counters 0, score 0 and
    false-positive rate 1.0; no sample outside the buffer is read. *)
Theorem image_detect_rejects_oversized_length p meta :
  is_empty_payload p = false ->
  ExtractMetadata p = (meta, true) ->
  version meta = 1 ->
  oversized_length p meta ->
  ImageDetect p = Ok rejected_with_valid_metadata.
Proof.
  intros Hne Hex Hver Hover. unfold ImageDetect.
  rewrite Hne, Hex, Hver. cbn [negb orb Z.eqb Pos.eqb].
  assert (((total_pixels p <=? Z.of_nat kMetadataPayloadBits)
           || (total_pixels p - Z.of_nat kMetadataPayloadBits
               <? fingerprint_length meta)) = true) as ->; [|reflexivity].
  apply orb_true_iff.
  destruct Hover as [H | H]; [left; by apply Z.leb_le|right; by apply Z.ltb_lt].
Qed.

(** A payload of one row of 768 samples carrying version 1. *)
Definition one_row_payload : ImagePayload :=
  mkImagePayload
    (replicate 124 zero ++ replicate 4 (to_byte 1) ++ replicate 640 zero)
    1 768 1.

Lemma image_detect_rejects_oversized_length_witness :
  ImageDetect one_row_payload = Ok rejected_with_valid_metadata.
Proof.
  apply (image_detect_rejects_oversized_length one_row_payload
           (mkMetadata 1 0 0 0)).
  - vm_compute. reflexivity.
  - vm_compute. reflexivity.
  - reflexivity.
  - left. vm_compute. discriminate.
Defined.

(** *** Embed followed by Detect *)

(** The engine agrees with the value the C++ standard prescribes for the
    10000th output of a default-seeded [mt19937_64]. *)
Example mt19937_64_conformance :
  fst (MT.next (MT.discard (Z.to_nat 9999) (MT.seed 5489)))
    = 9981545732273789042.
Proof. vm_compute. reflexivity. Qed.

(** One row of 772 zero samples: 768 for the metadata and 4 for the
    fingerprint. *)
Definition four_sample_image : ImagePayload :=
  mkImagePayload (replicate 772 zero) 1 772 1.

(** C1, at the failing input: [Embed] with the empty key and seed 0
    followed by [Detect] matches only 2 of the 4 fingerprint bits, so the
    score is 1/2 and not 1.  [Embed] derives each bit from the sample
    before its LSB is overwritten, [Detect] from the sample after. *)
Theorem image_embed_detect_mismatch :
  exists r d,
    ImageEmbed four_sample_image [] 0 = Ok r /\
    ImageDetect (ie_payload r) = Ok d /\
    metadata_valid d = true /\
    total_bits d = 4 /\ matching_bits d = 2 /\
    ~ (score d == 1)%Q.
Proof.
  eexists _, _.
  split; [vm_compute; reflexivity|].
  split; [vm_compute; reflexivity|].
  cbn [metadata_valid total_bits matching_bits score].
  split_and!; [reflexivity..|].
  intros H. vm_compute in H. discriminate H.
Qed.

(** ** Shamir sharing *)

(** ** Lagrange interpolation at 0 modulo a prime *)
Definition eqp (p a b : Z) : Prop := a mod p = b mod p.

#[global] Instance eqp_equivalence p : Equivalence (eqp p).
Proof. unfold eqp. split; congruence. Qed.
#[global] Instance eqp_add p : Proper (eqp p ==> eqp p ==> eqp p) Z.add.
Proof. apply Zplus_eqm. Qed.
#[global] Instance eqp_sub p : Proper (eqp p ==> eqp p ==> eqp p) Z.sub.
Proof. apply Zminus_eqm. Qed.
#[global] Instance eqp_mul p : Proper (eqp p ==> eqp p ==> eqp p) Z.mul.
Proof. apply Zmult_eqm. Qed.
#[global] Instance eqp_opp p : Proper (eqp p ==> eqp p) Z.opp.
Proof. apply Zopp_eqm. Qed.

Lemma eqp_mod p a : eqp p (a mod p) a.
Proof. apply Zmod_eqm. Qed.

Lemma eqp_eq p a b : a = b -> eqp p a b.
Proof. by intros ->. Qed.

(** *** Polynomials as coefficient lists *)

Definition peval (c : list Z) (x : Z) : Z :=
  fold_right (fun c0 acc => c0 + x * acc) 0 c.

(** Sums over an index range, peeled from the front. *)
Fixpoint zsum (n : nat) (f : nat -> Z) : Z :=
  match n with
  | O => 0
  | S n' => f 0%nat + zsum n' (fun i => f (S i))
  end.

(** *** Products over the abscissas *)

Definition prod_all (f : Z -> Z) (xs : list Z) : Z :=
  fold_right (fun x acc => f x * acc) 1 xs.

(** The product of [f] over all entries but the one at index [i]. *)
Fixpoint prod_except (f : Z -> Z) (xs : list Z) (i : nat) : Z :=
  match xs with
  | [] => 1
  | x :: xs' =>
      match i with
      | O => prod_all f xs'
      | S i' => f x * prod_except f xs' i'
      end
  end.

Definition num (xs : list Z) (i : nat) : Z :=
  prod_except (fun xj => - xj) xs i.
Definition den (xs : list Z) (i : nat) : Z :=
  prod_except (fun xj => nth i xs 0 - xj) xs i.

Section interpolation.
Variable p : Z.
Hypothesis Hp : Z.prime p.

Local Notation "a ≅ b" := (eqp p a b) (at level 70, no associativity).

Lemma p_ge_2 : 2 <= p.
Proof. apply Z.prime_ge_2, Hp. Qed.

Lemma eqp_0_divide a : a ≅ 0 <-> (p | a).
Proof.
  pose proof p_ge_2. unfold eqp. rewrite Z.mod_0_l by lia.
  apply Z.mod_divide. lia.
Qed.

Lemma eqp_mul_nonzero a b : ~ a ≅ 0 -> ~ b ≅ 0 -> ~ a * b ≅ 0.
Proof.
  rewrite !eqp_0_divide. intros Ha Hb Hab.
  apply (Z.divide_prime_mul _ _ _ Hp) in Hab as [? | ?]; auto.
Qed.

Lemma eqp_cancel a b c : ~ c ≅ 0 -> a * c ≅ b * c -> a ≅ b.
Proof.
  intros Hc Hab.
  assert (H0 : (a - b) * c ≅ 0).
  { rewrite Z.mul_sub_distr_r, Hab. unfold eqp. f_equal. ring. }
  apply eqp_0_divide in H0.
  apply (Z.divide_prime_mul _ _ _ Hp) in H0 as [Hd | Hd].
  - apply eqp_0_divide in Hd.
    replace a with ((a - b) + b) by ring. rewrite Hd. unfold eqp. f_equal.
  - exfalso. by apply Hc, eqp_0_divide.
Qed.

Lemma eqp_1_nonzero : ~ 1 ≅ 0.
Proof.
  pose proof p_ge_2. unfold eqp. rewrite Z.mod_1_l, Z.mod_0_l by lia. lia.
Qed.

(** An inverse for every non-zero residue. *)
Definition inv (a : Z) : Z := Z.invmod a p.

Lemma inv_spec a : ~ a ≅ 0 -> inv a * a ≅ 1.
Proof.
  pose proof p_ge_2. intros Ha. unfold eqp, inv.
  rewrite Z.invmod_prime; [|done|].
  - symmetry. apply Z.mod_1_l. lia.
  - intros H0. apply Ha. unfold eqp. rewrite H0. symmetry. apply Z.mod_0_l. lia.
Qed.

(** The quotient of [c] by [x - a]. *)
Fixpoint pquot (a : Z) (c : list Z) : list Z :=
  match c with
  | [] => []
  | _ :: c' =>
      match c' with
      | [] => []
      | _ :: _ => peval c' a :: pquot a c'
      end
  end.

Lemma pquot_spec a c x :
  peval c x = peval c a + (x - a) * peval (pquot a c) x.
Proof.
  induction c as [|c0 c' IH]; [cbn; ring|].
  destruct c' as [|c1 c'']; [cbn; ring|].
  change (peval (c0 :: c1 :: c'') x) with (c0 + x * peval (c1 :: c'') x).
  change (peval (c0 :: c1 :: c'') a) with (c0 + a * peval (c1 :: c'') a).
  change (pquot a (c0 :: c1 :: c''))
    with (peval (c1 :: c'') a :: pquot a (c1 :: c'')).
  change (peval (peval (c1 :: c'') a :: pquot a (c1 :: c'')) x)
    with (peval (c1 :: c'') a + x * peval (pquot a (c1 :: c'')) x).
  rewrite IH. ring.
Qed.

Lemma pquot_length a c : length (pquot a c) = (length c - 1)%nat.
Proof.
  induction c as [|c0 c' IH]; [done|].
  destruct c' as [|c1 c'']; [done|].
  change (pquot a (c0 :: c1 :: c''))
    with (peval (c1 :: c'') a :: pquot a (c1 :: c'')).
  cbn [length] in *. rewrite IH. lia.
Qed.

Definition padd_head (c0 : Z) (c : list Z) : list Z :=
  match c with
  | [] => [c0]
  | c1 :: c' => (c0 + c1) :: c'
  end.

Lemma padd_head_spec c0 c x : peval (padd_head c0 c) x = c0 + peval c x.
Proof. destruct c; cbn; ring. Qed.

Lemma padd_head_length c0 c : (length (padd_head c0 c) <= Nat.max 1 (length c))%nat.
Proof. destruct c; cbn [padd_head length]; lia. Qed.

(** The coefficients of [(x - x1) * c]. *)
Fixpoint pmul_linear (x1 : Z) (c : list Z) : list Z :=
  match c with
  | [] => []
  | c0 :: c' => (- x1 * c0) :: padd_head c0 (pmul_linear x1 c')
  end.

Lemma pmul_linear_spec x1 c x :
  peval (pmul_linear x1 c) x = (x - x1) * peval c x.
Proof.
  induction c as [|c0 c' IH]; [cbn; ring|].
  cbn [pmul_linear].
  change (peval (- x1 * c0 :: padd_head c0 (pmul_linear x1 c')) x)
    with (- x1 * c0 + x * peval (padd_head c0 (pmul_linear x1 c')) x).
  change (peval (c0 :: c') x) with (c0 + x * peval c' x).
  rewrite padd_head_spec, IH. ring.
Qed.

Lemma pmul_linear_length x1 c : (length (pmul_linear x1 c) <= S (length c))%nat.
Proof.
  induction c as [|c0 c' IH]; [cbn; lia|].
  cbn [pmul_linear length].
  pose proof (padd_head_length c0 (pmul_linear x1 c')). lia.
Qed.

Definition distinct (xs : list Z) : Prop :=
  forall i j, (i < length xs)%nat -> (j < length xs)%nat -> i <> j ->
    ~ nth i xs 0 ≅ nth j xs 0.

Lemma distinct_tail a xs : distinct (a :: xs) -> distinct xs.
Proof.
  intros Hd i j Hi Hj Hne. apply (Hd (S i) (S j)); cbn [length]; lia.
Qed.

Lemma distinct_head a xs j :
  distinct (a :: xs) -> (j < length xs)%nat -> ~ a - nth j xs 0 ≅ 0.
Proof.
  intros Hd Hj H0. apply (Hd 0%nat (S j)); cbn [length]; [lia..|].
  cbn [nth]. replace a with ((a - nth j xs 0) + nth j xs 0) by ring.
  rewrite H0. unfold eqp. f_equal.
Qed.

Lemma prod_all_nonzero f xs :
  (forall j, (j < length xs)%nat -> ~ f (nth j xs 0) ≅ 0) ->
  ~ prod_all f xs ≅ 0.
Proof.
  induction xs as [|x xs IH]; intros Hf; cbn [prod_all fold_right].
  - apply eqp_1_nonzero.
  - apply eqp_mul_nonzero.
    + apply (Hf 0%nat). cbn [length]. lia.
    + apply IH. intros j Hj. apply (Hf (S j)). cbn [length]. lia.
Qed.

Lemma prod_except_nonzero f xs i :
  (forall j, (j < length xs)%nat -> j <> i -> ~ f (nth j xs 0) ≅ 0) ->
  ~ prod_except f xs i ≅ 0.
Proof.
  revert i. induction xs as [|x xs IH]; intros i Hf; cbn [prod_except].
  - apply eqp_1_nonzero.
  - destruct i as [|i].
    + apply prod_all_nonzero. intros j Hj. apply (Hf (S j)); cbn [length]; lia.
    + apply eqp_mul_nonzero.
      * apply (Hf 0%nat); cbn [length]; lia.
      * apply IH. intros j Hj Hne. apply (Hf (S j)); cbn [length]; lia.
Qed.

Lemma den_nonzero xs i :
  distinct xs -> (i < length xs)%nat -> ~ den xs i ≅ 0.
Proof.
  intros Hd Hi. apply prod_except_nonzero. intros j Hj Hne H0.
  apply (Hd i j Hi Hj); [done|].
  replace (nth i xs 0) with ((nth i xs 0 - nth j xs 0) + nth j xs 0) by ring.
  rewrite H0. unfold eqp. f_equal.
Qed.

Lemma prod_all_ext f g xs :
  (forall x, f x = g x) -> prod_all f xs = prod_all g xs.
Proof.
  intros Hfg. induction xs as [|x xs IH]; [done|].
  cbn [prod_all fold_right]. fold (prod_all f xs). fold (prod_all g xs).
  by rewrite Hfg, IH.
Qed.

Lemma prod_all_root v xs :
  In v xs -> prod_all (fun xj => v - xj) xs = 0.
Proof.
  induction xs as [|x xs IH]; [done|].
  cbn [prod_all fold_right]. fold (prod_all (fun xj => v - xj) xs).
  intros [-> | Hin]; [ring|]. rewrite IH by done. ring.
Qed.

(** The canonical Lagrange weight at 0. *)
Definition lw (xs : list Z) (i : nat) : Z := num xs i * inv (den xs i).

Lemma lw_spec xs i :
  distinct xs -> (i < length xs)%nat -> lw xs i * den xs i ≅ num xs i.
Proof.
  intros Hd Hi. unfold lw.
  rewrite <- Z.mul_assoc, inv_spec by (by apply den_nonzero). unfold eqp. f_equal. ring.
Qed.

Lemma lw_unique xs i l :
  distinct xs -> (i < length xs)%nat -> l * den xs i ≅ num xs i -> l ≅ lw xs i.
Proof.
  intros Hd Hi Hl. apply (eqp_cancel _ _ (den xs i)); [by apply den_nonzero|].
  by rewrite Hl, lw_spec.
Qed.

Lemma zsum_eqp n f g :
  (forall i, (i < n)%nat -> f i ≅ g i) -> zsum n f ≅ zsum n g.
Proof.
  revert f g. induction n as [|n IH]; intros f g Hfg; cbn [zsum]; [done|].
  rewrite (Hfg 0%nat) by lia. rewrite (IH (fun i => f (S i)) (fun i => g (S i))); [done|].
  intros i Hi. apply Hfg. lia.
Qed.

Lemma zsum_add n f g : zsum n (fun i => f i + g i) = zsum n f + zsum n g.
Proof.
  revert f g. induction n as [|n IH]; intros f g; cbn [zsum]; [done|].
  rewrite IH. ring.
Qed.

Lemma zsum_scale n k f : zsum n (fun i => k * f i) = k * zsum n f.
Proof.
  revert f. induction n as [|n IH]; intros f; cbn [zsum]; [ring|].
  rewrite IH. ring.
Qed.

(** The quotient of [prod (x - xj)] by [x - a], as a coefficient list. *)
Fixpoint rpoly (a : Z) (xs : list Z) : list Z :=
  match xs with
  | [] => []
  | x1 :: rest =>
      padd_head (prod_all (fun xj => a - xj) rest)
                (pmul_linear x1 (rpoly a rest))
  end.

Lemma rpoly_spec a xs x :
  prod_all (fun xj => x - xj) xs =
    prod_all (fun xj => a - xj) xs + (x - a) * peval (rpoly a xs) x.
Proof.
  induction xs as [|x1 rest IH]; [cbn; ring|].
  cbn [rpoly prod_all fold_right].
  fold (prod_all (fun xj => x - xj) rest). fold (prod_all (fun xj => a - xj) rest).
  rewrite padd_head_spec, pmul_linear_spec, IH. ring.
Qed.

Lemma rpoly_length a xs : (length (rpoly a xs) <= length xs)%nat.
Proof.
  induction xs as [|x1 rest IH]; [done|].
  cbn [rpoly length].
  pose proof (padd_head_length (prod_all (fun xj => a - xj) rest)
                (pmul_linear x1 (rpoly a rest))).
  pose proof (pmul_linear_length x1 (rpoly a rest)). lia.
Qed.

Lemma lw_tail a xs i :
  distinct (a :: xs) -> (i < length xs)%nat ->
  (nth i xs 0 - a) * lw (a :: xs) (S i) ≅ (- a) * lw xs i.
Proof.
  intros Hd Hi. pose proof (distinct_tail _ _ Hd) as Hd'.
  apply (eqp_cancel _ _ (den xs i)); [by apply den_nonzero|].
  assert (Hden : den (a :: xs) (S i) = (nth i xs 0 - a) * den xs i) by reflexivity.
  assert (Hnum : num (a :: xs) (S i) = (- a) * num xs i) by reflexivity.
  transitivity (lw (a :: xs) (S i) * den (a :: xs) (S i)).
  { rewrite Hden. unfold eqp. f_equal. ring. }
  rewrite lw_spec by (done || cbn [length]; lia).
  rewrite Hnum, <- (lw_spec xs i) by done. unfold eqp. f_equal. ring.
Qed.

Lemma lw_head a xs :
  distinct (a :: xs) ->
  lw (a :: xs) 0 * prod_all (fun xj => a - xj) xs ≅ prod_all (fun xj => 0 - xj) xs.
Proof.
  intros Hd.
  assert (Hden : den (a :: xs) 0 = prod_all (fun xj => a - xj) xs) by reflexivity.
  assert (Hnum : num (a :: xs) 0 = prod_all (fun xj => 0 - xj) xs).
  { unfold num. cbn [prod_except]. apply prod_all_ext. intros x. ring. }
  rewrite <- Hden, <- Hnum. apply lw_spec; [done|cbn [length]; lia].
Qed.

Theorem lagrange_at_zero xs :
  distinct xs ->
  forall c, (length c <= length xs)%nat ->
    zsum (length xs) (fun i => peval c (nth i xs 0) * lw xs i) ≅ peval c 0.
Proof.
  induction xs as [|a xs IH]; intros Hd c Hc.
  { destruct c; [done|cbn [length] in Hc; lia]. }
  pose proof (distinct_tail _ _ Hd) as Hd'. specialize (IH Hd').
  set (Wa := prod_all (fun xj => a - xj) xs).
  assert (HWa : ~ Wa ≅ 0).
  { apply prod_all_nonzero. intros j Hj. by apply distinct_head. }
  (* the weights sum to one *)
  assert (HU : lw (a :: xs) 0 + zsum (length xs) (fun i => lw (a :: xs) (S i)) ≅ 1).
  { apply (eqp_cancel _ _ Wa); [done|].
    rewrite Z.mul_add_distr_r. unfold Wa at 1. rewrite lw_head by done.
    rewrite (Z.mul_comm (zsum _ _)), <- zsum_scale.
    rewrite (zsum_eqp (length xs) _ (fun i => a * (peval (rpoly a xs) (nth i xs 0) * lw xs i))).
    - rewrite zsum_scale, (IH (rpoly a xs)) by apply rpoly_length.
      rewrite (rpoly_spec a xs 0). fold Wa. unfold eqp. f_equal. ring.
    - intros i Hi.
      pose proof (rpoly_spec a xs (nth i xs 0)) as Hr.
      rewrite prod_all_root in Hr by (apply nth_In; done). fold Wa in Hr.
      assert (Wa = - ((nth i xs 0 - a) * peval (rpoly a xs) (nth i xs 0))) as -> by lia.
      transitivity (- (peval (rpoly a xs) (nth i xs 0) *
                       ((nth i xs 0 - a) * lw (a :: xs) (S i)))).
      { unfold eqp. f_equal. ring. }
      rewrite lw_tail by done. unfold eqp. f_equal. ring. }
  cbn [length zsum nth].
  rewrite (zsum_eqp (length xs) _
             (fun i => peval c a * lw (a :: xs) (S i) +
                       (- a) * (peval (pquot a c) (nth i xs 0) * lw xs i))).
  - rewrite zsum_add, !zsum_scale.
    rewrite (IH (pquot a c)) by (rewrite pquot_length; cbn [length] in Hc; lia).
    transitivity (peval c a * (lw (a :: xs) 0 + zsum (length xs) (fun i => lw (a :: xs) (S i)))
                  + - a * peval (pquot a c) 0).
    { unfold eqp. f_equal. ring. }
    rewrite HU, (pquot_spec a c 0). unfold eqp. f_equal. ring.
  - intros i Hi. rewrite (pquot_spec a c (nth i xs 0)).
    transitivity (peval c a * lw (a :: xs) (S i) +
                  peval (pquot a c) (nth i xs 0) *
                    ((nth i xs 0 - a) * lw (a :: xs) (S i))).
    { unfold eqp. f_equal. ring. }
    rewrite lw_tail by done. unfold eqp. f_equal. ring.
Qed.
End interpolation.

(** ** Shamir sharing *)

Local Notation "a ≅ b" := (eqp kModulus a b) (at level 70, no associativity).

Lemma kModulus_neq_0 : kModulus <> 0.
Proof. discriminate. Qed.

Lemma mod_kModulus_range a : 0 <= a mod kModulus < kModulus.
Proof. apply Z.mod_pos_bound. reflexivity. Qed.

Definition canonical (a : Z) : Prop := 0 <= a < kModulus.

Lemma canonical_eq a b : canonical a -> canonical b -> a ≅ b -> a = b.
Proof.
  unfold canonical, eqp. intros Ha Hb H.
  by rewrite (Z.mod_small a), (Z.mod_small b) in H.
Qed.

Lemma Add_spec a b : Add a b ≅ a + b.
Proof. apply eqp_mod. Qed.
Lemma Add_canonical a b : canonical (Add a b).
Proof. apply mod_kModulus_range. Qed.

Lemma Mul_spec a b : Mul a b ≅ a * b.
Proof. apply eqp_mod. Qed.
Lemma Mul_canonical a b : canonical (Mul a b).
Proof. apply mod_kModulus_range. Qed.

Lemma Sub_spec a b : Sub a b ≅ a - b.
Proof.
  unfold Sub. rewrite eqp_mod, eqp_mod.
  unfold eqp. rewrite <- (Z.mod_add (a - b) 1 kModulus) by apply kModulus_neq_0.
  f_equal. ring.
Qed.
Lemma Sub_canonical a b : canonical (Sub a b).
Proof. apply mod_kModulus_range. Qed.

Lemma Inverse_spec a : canonical a -> ~ a ≅ 0 -> Inverse a * a ≅ 1.
Proof.
  intros Ha Hnz.
  assert (0 < a < kModulus).
  { unfold canonical in Ha. destruct (Z.eq_dec a 0) as [-> | ?]; [|lia].
    exfalso. by apply Hnz. }
  rewrite Inverse_pow by done. unfold eqp.
  rewrite Z.mul_mod_idemp_l, Z.mul_comm by (intros E; discriminate E).
  by rewrite fermat_inverse.
Qed.

Lemma Evaluate_fold coeffs x result power :
  fst (fold_left
         (fun '(result, power) c =>
            let term := Mul c power in
            (Add result term, Mul power (x mod kModulus)))
         coeffs (result, power)) ≅ result + power * peval coeffs x
  /\ (canonical result ->
      canonical (fst (fold_left
         (fun '(result, power) c =>
            let term := Mul c power in
            (Add result term, Mul power (x mod kModulus)))
         coeffs (result, power)))).
Proof.
  revert result power. induction coeffs as [|c coeffs IH]; intros result power.
  - cbn [fold_left fst peval fold_right]. split; [|done].
    unfold eqp. f_equal. ring.
  - cbn [fold_left]. destruct (IH (Add result (Mul c power))
                                  (Mul power (x mod kModulus))) as [IH1 IH2].
    split.
    + rewrite IH1. rewrite Add_spec, !Mul_spec, eqp_mod.
      change (peval (c :: coeffs) x) with (c + x * peval coeffs x).
      unfold eqp. f_equal. ring.
    + intros _. apply IH2, Add_canonical.
Qed.

Lemma Evaluate_spec coeffs x :
  Shamir.Evaluate coeffs x ≅ peval coeffs x /\ canonical (Shamir.Evaluate coeffs x).
Proof.
  unfold Shamir.Evaluate. destruct (Evaluate_fold coeffs x 0 1) as [H1 H2].
  split.
  - rewrite H1. unfold eqp. f_equal. ring.
  - apply H2. split; [done|reflexivity].
Qed.

(** Products and sums over index lists, as the loops of [Reconstruct]
    run them. *)
Definition prodi (g : nat -> Z) (idxs : list nat) (i : nat) : Z :=
  fold_right (fun j acc => (if decide (i = j) then 1 else g j) * acc) 1 idxs.

Definition lsum (g : nat -> Z) (idxs : list nat) : Z :=
  fold_right (fun j acc => g j + acc) 0 idxs.

Lemma prodi_map_S_0 g l :
  prodi g (map S l) 0 = fold_right (fun j acc => g (S j) * acc) 1 l.
Proof.
  induction l as [|j l IH]; [done|].
  cbn [map prodi fold_right]. rewrite decide_False by lia.
  fold (prodi g (map S l) 0). by rewrite IH.
Qed.

Lemma prodi_map_S_S g l i :
  prodi g (map S l) (S i) = prodi (fun j => g (S j)) l i.
Proof.
  induction l as [|j l IH]; [done|].
  cbn [map prodi fold_right].
  fold (prodi g (map S l) (S i)). fold (prodi (fun j => g (S j)) l i).
  rewrite IH. destruct (decide (i = j)) as [-> | Hne].
  - by rewrite decide_True.
  - by rewrite decide_False by lia.
Qed.

Lemma prod_all_seq f xs :
  fold_right (fun j acc => f (nth j xs 0) * acc) 1 (seq 0 (length xs)) =
  prod_all f xs.
Proof.
  induction xs as [|x xs IH]; [done|].
  cbn [length seq fold_right prod_all nth]. fold (prod_all f xs).
  rewrite <- seq_shift, <- IH. f_equal.
  generalize (seq 0 (length xs)). intros l.
  induction l as [|j l IHl]; [done|]. cbn [map fold_right nth]. by rewrite IHl.
Qed.

Lemma prodi_seq f xs i :
  (i < length xs)%nat ->
  prodi (fun j => f (nth j xs 0)) (seq 0 (length xs)) i = prod_except f xs i.
Proof.
  revert i. induction xs as [|x xs IH]; intros i Hi; [cbn [length] in Hi; lia|].
  cbn [length seq]. rewrite <- seq_shift.
  cbn [prodi fold_right].
  fold (prodi (fun j => f (nth j (x :: xs) 0)) (map S (seq 0 (length xs))) i).
  destruct i as [|i].
  - rewrite decide_True by done. rewrite prodi_map_S_0. cbn [nth prod_except].
    rewrite prod_all_seq. ring.
  - rewrite decide_False by lia. rewrite prodi_map_S_S. cbn [nth prod_except].
    rewrite IH by (cbn [length] in Hi; lia). done.
Qed.

Lemma lsum_seq g n : lsum g (seq 0 n) = zsum n g.
Proof.
  revert g. induction n as [|n IH]; intros g; [done|].
  cbn [seq lsum fold_right zsum]. rewrite <- seq_shift.
  rewrite <- (IH (fun i => g (S i))). f_equal.
  generalize (seq 0 n). intros l. induction l as [|j l IHl]; [done|].
  cbn [map fold_right lsum]. fold (lsum (fun i => g (S i)) l). by rewrite IHl.
Qed.

Lemma lsum_eqp g h idxs :
  (forall i, In i idxs -> g i ≅ h i) -> lsum g idxs ≅ lsum h idxs.
Proof.
  induction idxs as [|i idxs IH]; intros Hgh; [done|].
  cbn [lsum fold_right]. fold (lsum g idxs). fold (lsum h idxs).
  rewrite (Hgh i) by (by left). rewrite IH; [done|].
  intros j Hj. apply Hgh. by right.
Qed.

Definition lagrange_step (x_coords : list Z) (i : nat) :=
  fun '(numerator, denominator) (j : nat) =>
    if decide (i = j) then (numerator, denominator)
    else
      let xi := nth i x_coords 0 mod kModulus in
      let xj := nth j x_coords 0 mod kModulus in
      (Mul numerator (Sub 0 xj), Mul denominator (Sub xi xj)).

Lemma lagrange_fold x_coords i idxs n0 d0 :
  canonical n0 -> canonical d0 ->
  let r := fold_left (lagrange_step x_coords i) idxs (n0, d0) in
  canonical r.1 /\ canonical r.2 /\
  r.1 ≅ n0 * prodi (fun j => - nth j x_coords 0) idxs i /\
  r.2 ≅ d0 * prodi (fun j => nth i x_coords 0 - nth j x_coords 0) idxs i.
Proof.
  revert n0 d0. induction idxs as [|j idxs IH]; intros n0 d0 Hn Hd r.
  - subst r. cbn [fold_left fst snd prodi fold_right].
    split_and!; [done..| |]; unfold eqp; f_equal; ring.
  - subst r. cbn [fold_left prodi fold_right].
    fold (prodi (fun j => - nth j x_coords 0) idxs i).
    fold (prodi (fun j => nth i x_coords 0 - nth j x_coords 0) idxs i).
    assert (Hstep : lagrange_step x_coords i (n0, d0) j =
              if decide (i = j) then (n0, d0)
              else (Mul n0 (Sub 0 (nth j x_coords 0 mod kModulus)),
                    Mul d0 (Sub (nth i x_coords 0 mod kModulus)
                                (nth j x_coords 0 mod kModulus))))
      by reflexivity.
    rewrite Hstep. clear Hstep. destruct (decide (i = j)) as [Heq | Hne].
    + destruct (IH n0 d0 Hn Hd) as (H1 & H2 & H3 & H4).
      split_and!; [done..| |].
      * rewrite H3. unfold eqp. f_equal. ring.
      * rewrite H4. unfold eqp. f_equal. ring.
    + destruct (IH (Mul n0 (Sub 0 (nth j x_coords 0 mod kModulus)))
                   (Mul d0 (Sub (nth i x_coords 0 mod kModulus)
                                (nth j x_coords 0 mod kModulus))))
        as (H1 & H2 & H3 & H4); [apply Mul_canonical..|].
      split_and!; [done..| |].
      * rewrite H3, Mul_spec, Sub_spec, eqp_mod. unfold eqp. f_equal. ring.
      * rewrite H4, Mul_spec, Sub_spec, !eqp_mod. unfold eqp. f_equal. ring.
Qed.

Lemma canonical_1 : canonical 1.
Proof. split; [done|reflexivity]. Qed.

Lemma lagrange_spec x_coords i :
  distinct kModulus x_coords -> (i < length x_coords)%nat ->
  Shamir.lagrange x_coords (length x_coords) i ≅ lw kModulus x_coords i.
Proof.
  intros Hd Hi. unfold Shamir.lagrange.
  change (fun '(numerator, denominator) (j : nat) => _)
    with (lagrange_step x_coords i).
  destruct (lagrange_fold x_coords i (seq 0 (length x_coords)) 1 1
              canonical_1 canonical_1) as (Hc1 & Hc2 & H1 & H2).
  destruct (fold_left _ _ _) as [n1 d1]. cbn [fst snd] in *.
  rewrite (prodi_seq (fun xj => - xj)) in H1 by done.
  rewrite (prodi_seq (fun xj => nth i x_coords 0 - xj)) in H2 by done.
  rewrite !Z.mul_1_l in *. fold (num x_coords i) in H1. fold (den x_coords i) in H2.
  pose proof (den_nonzero kModulus kModulus_prime x_coords i Hd Hi) as Hnz.
  apply (lw_unique kModulus kModulus_prime); [done..|].
  rewrite Mul_spec, <- H2, <- H1.
  rewrite <- Z.mul_assoc, Inverse_spec; [unfold eqp; f_equal; ring|done|].
  by rewrite H2.
Qed.

Lemma lsum_cons g i idxs : lsum g (i :: idxs) = g i + lsum g idxs.
Proof. reflexivity. Qed.

Lemma reconstruct_value_spec x_coords shares comp idxs v0 :
  canonical v0 ->
  Forall (fun i => (i < length shares)%nat /\
                   (comp < length (nth i shares []))%nat) idxs ->
  exists v1,
    Shamir.reconstruct_value x_coords shares comp idxs v0 = Ok v1 /\
    canonical v1 /\
    v1 ≅ v0 + lsum (fun i => nth comp (nth i shares []) 0 *
                             Shamir.lagrange x_coords (length shares) i) idxs.
Proof.
  revert v0. induction idxs as [|i idxs IH]; intros v0 Hv0 Hidx.
  - exists v0. split_and!; [done..|]. cbn [lsum fold_right]. unfold eqp. f_equal. ring.
  - apply Forall_cons in Hidx as [[Hi Hcomp] Hidx].
    cbn [Shamir.reconstruct_value].
    rewrite (read_Some shares i [] Hi). cbn [mbind result_bind].
    rewrite (read_Some (nth i shares []) comp 0 Hcomp). cbn [mbind result_bind].
    destruct (IH (Add v0 (Mul (nth comp (nth i shares []) 0)
                              (Shamir.lagrange x_coords (length shares) i))))
      as (v1 & Hr & Hc & Hv1); [apply Add_canonical|done|].
    exists v1. split_and!; [done..|].
    rewrite Hv1, Add_spec, Mul_spec, lsum_cons.
    unfold eqp. f_equal. ring.
Qed.

Lemma draws_length dist n prng : length (Shamir.draws dist n prng).1 = n.
Proof.
  revert prng. induction n as [|n IH]; intros prng; [done|].
  cbn [Shamir.draws]. destruct (dist prng) as [c prng1].
  specialize (IH prng1). destruct (Shamir.draws dist n prng1) as [cs prng2].
  cbn [fst length] in *. by rewrite IH.
Qed.

(** The grid written by the inner loop of [ShareVector]. *)
Lemma set_share_column comp (f : nat -> Z) parts shares :
  Forall (fun i => (i < length shares)%nat) parts ->
  let shares' :=
    fold_left (fun shares participant =>
                 Shamir.set_share shares participant comp (f participant))
              parts shares in
  length shares' = length shares /\
  forall i,
    length (nth i shares' []) = length (nth i shares []) /\
    (forall c', c' <> comp ->
       nth c' (nth i shares' []) 0 = nth c' (nth i shares []) 0) /\
    (In i parts -> (comp < length (nth i shares []))%nat ->
       nth comp (nth i shares' []) 0 = f i) /\
    (~ In i parts -> nth i shares' [] = nth i shares []).
Proof.
  revert shares. induction parts as [|k parts IH]; intros shares Hparts shares'.
  - subst shares'. cbn [fold_left]. split; [done|]. intros i.
    split_and!; [done|done|intros []|done].
  - apply Forall_cons in Hparts as [Hk Hparts]. subst shares'. cbn [fold_left].
    set (s1 := Shamir.set_share shares k comp (f k)).
    assert (Hlen1 : length s1 = length shares)
      by (unfold s1, Shamir.set_share; by rewrite length_insert).
    assert (Hk1 : nth k s1 [] = <[comp := f k]> (nth k shares []))
      by (unfold s1, Shamir.set_share; by rewrite nth_insert_eq).
    assert (Hne1 : forall i, i <> k -> nth i s1 [] = nth i shares [])
      by (intros i Hne; unfold s1, Shamir.set_share; by rewrite nth_insert_ne).
    destruct (IH s1) as [Hlen Hi].
    { eapply Forall_impl; [exact Hparts|]. intros i ?. by rewrite Hlen1. }
    split; [by rewrite Hlen|]. intros i.
    destruct (Hi i) as (Hl & Hother & Hin & Hout).
    destruct (decide (i = k)) as [-> | Hne].
    + split_and!.
      * by rewrite Hl, Hk1, length_insert.
      * intros c' Hc'. by rewrite Hother, Hk1, nth_insert_ne.
      * intros _ Hcomp. destruct (in_dec Nat.eq_dec k parts) as [Hkin | Hkout].
        -- apply Hin; [done|]. by rewrite Hk1, length_insert.
        -- by rewrite Hout, Hk1, nth_insert_eq.
      * intros Hnot. exfalso. apply Hnot. by left.
    + split_and!.
      * by rewrite Hl, Hne1.
      * intros c' Hc'. by rewrite Hother, Hne1.
      * intros [? | Hin'] Hcomp; [by subst|]. apply Hin; [done|]. by rewrite Hne1.
      * intros Hnot. rewrite Hout, Hne1; [done..|]. intros ?. apply Hnot. by right.
Qed.

Section share_vector.
Variable dist : MT.state -> Z * MT.state.
Variables (threshold num_participants : nat) (secret : list Z).
Hypothesis Hthreshold : (1 <= threshold)%nat.

(** Column [c] of the grid holds the values of one polynomial of
    [threshold] coefficients whose constant term is [secret[c]]. *)
Definition column_shared (shares : list (list Z)) (c : nat) : Prop :=
  exists poly,
    length poly = threshold /\ hd 0 poly = nth c secret 0 /\
    forall i, (i < num_participants)%nat ->
      nth c (nth i shares []) 0 = Shamir.Evaluate poly (Z.of_nat (i + 1)).

Definition grid_shape (shares : list (list Z)) : Prop :=
  length shares = num_participants /\
  forall i, (i < num_participants)%nat ->
    length (nth i shares []) = length secret.

Lemma share_component_spec shares prng c :
  grid_shape shares -> (c < length secret)%nat ->
  let st' := Shamir.share_component dist num_participants threshold
               (shares, prng) c (nth c secret 0) in
  grid_shape st'.1 /\ column_shared st'.1 c /\
  forall c' i, c' <> c -> nth c' (nth i st'.1 []) 0 = nth c' (nth i shares []) 0.
Proof.
  intros [Hlen Hrows] Hc st'. subst st'. unfold Shamir.share_component.
  unfold Shamir.BuildPolynomial.
  pose proof (draws_length dist (threshold - 1) prng) as Hdl.
  destruct (Shamir.draws dist (threshold - 1) prng) as [cs prng'].
  cbn [fst] in *.
  set (poly := nth c secret 0 :: cs).
  destruct (set_share_column c
              (fun participant => Shamir.Evaluate poly (Z.of_nat (participant + 1)))
              (seq 0 num_participants) shares) as [Hlen' Hi].
  { apply Forall_forall. intros i Hin%elem_of_seq. lia. }
  split_and!.
  - split; [by rewrite Hlen'|]. intros i Hlt.
    destruct (Hi i) as (Hl & _). rewrite Hl. by apply Hrows.
  - exists poly. split_and!; [unfold poly; cbn [length]; lia|done|].
    intros i Hlt. destruct (Hi i) as (_ & _ & Hin & _).
    apply Hin; [apply in_seq; lia|]. rewrite Hrows by done. done.
  - intros c' i Hne. destruct (Hi i) as (_ & Hother & _). by apply Hother.
Qed.

Lemma share_components_spec cs shares prng :
  grid_shape shares -> Forall (fun c => (c < length secret)%nat) cs ->
  let st' :=
    fold_left
      (fun st component =>
         Shamir.share_component dist num_participants threshold st component
           (nth component secret 0))
      cs (shares, prng) in
  grid_shape st'.1 /\
  (forall c, In c cs -> column_shared st'.1 c) /\
  (forall c i, ~ In c cs -> nth c (nth i st'.1 []) 0 = nth c (nth i shares []) 0).
Proof.
  revert shares prng. induction cs as [|c cs IH]; intros shares prng Hshape Hcs st'.
  - subst st'. cbn [fold_left fst]. split_and!; [done|intros ? []|done].
  - apply Forall_cons in Hcs as [Hc Hcs]. subst st'. cbn [fold_left].
    destruct (share_component_spec shares prng c Hshape Hc) as (Hs1 & Hcol1 & Hoth1).
    destruct (Shamir.share_component dist num_participants threshold
                (shares, prng) c (nth c secret 0)) as [s1 prng1].
    cbn [fst] in *.
    destruct (IH s1 prng1 Hs1 Hcs) as (Hs' & Hcol' & Hoth').
    split_and!; [done| |].
    + intros c0 [<- | Hin].
      * destruct (in_dec Nat.eq_dec c cs) as [Hin | Hout]; [by apply Hcol'|].
        destruct Hcol1 as (poly & Hpl & Hhd & Hev).
        exists poly. split_and!; [done..|]. intros i Hi.
        rewrite Hoth' by done. by apply Hev.
      * by apply Hcol'.
    + intros c0 i Hnot. rewrite Hoth', Hoth1; [done| |].
      * intros ->. apply Hnot. by left.
      * intros ?. apply Hnot. by right.
Qed.

Lemma ShareVector_spec prng :
  (threshold <= num_participants)%nat ->
  exists shares prng',
    Shamir.ShareVector dist threshold num_participants secret prng =
      Ok (shares, prng') /\
    grid_shape shares /\
    forall c, (c < length secret)%nat -> column_shared shares c.
Proof.
  intros Hle. unfold Shamir.ShareVector. rewrite decide_False by lia.
  destruct (share_components_spec (seq 0 (length secret))
              (replicate num_participants (replicate (length secret) 0)) prng)
    as (Hshape & Hcol & _).
  { split; [by rewrite length_replicate|]. intros i Hi.
    rewrite nth_lookup, lookup_replicate_2 by done. simpl.
    by rewrite length_replicate. }
  { apply Forall_forall. intros c Hc%elem_of_seq. lia. }
  destruct (fold_left _ _ _) as [shares prng'] eqn:Hfold. cbn [fst] in *.
  exists shares, prng'. split_and!; [done..|].
  intros c Hc. apply Hcol, in_seq. lia.
Qed.
End share_vector.

Lemma reconstruct_components_spec x_coords shares comps (g : nat -> Z) :
  (forall comp, In comp comps ->
     Shamir.reconstruct_value x_coords shares comp (seq 0 (length shares)) 0
       = Ok (g comp)) ->
  Shamir.reconstruct_components x_coords shares comps = Ok (map g comps).
Proof.
  induction comps as [|comp comps IH]; intros Hv; [done|].
  cbn [Shamir.reconstruct_components]. rewrite Hv by (by left).
  cbn [mbind result_bind]. rewrite IH; [done|]. intros c Hc. apply Hv. by right.
Qed.

Lemma peval_0 c : peval c 0 = hd 0 c.
Proof. destruct c as [|c0 c]; [done|]. cbn [peval fold_right hd]. ring. Qed.

Lemma map_nth_seq (f : Z -> Z) (l : list Z) :
  map (fun c => f (nth c l 0)) (seq 0 (length l)) = map f l.
Proof.
  induction l as [|x l IH]; [done|].
  cbn [length seq map nth]. f_equal.
  rewrite <- seq_shift, map_map. exact IH.
Qed.

Lemma map_mod_canonical (l : list Z) :
  Forall canonical l -> map (fun s => s mod kModulus) l = l.
Proof.
  induction 1 as [|x l Hx _ IH]; [done|].
  cbn [map]. rewrite IH, Z.mod_small; done.
Qed.

Section reconstruct.
Variables (threshold num_participants : nat) (secret : list Z).
Variable shares : list (list Z).
Hypothesis Hthreshold : (1 <= threshold)%nat.
Hypothesis Hfield : Z.of_nat num_participants < kModulus.
Hypothesis Hshape : grid_shape num_participants secret shares.
Hypothesis Hcolumns :
  forall c, (c < length secret)%nat ->
    column_shared threshold num_participants secret shares c.

Variable holders : list nat.
Hypothesis Hnodup : NoDup holders.
Hypothesis Hrange : Forall (fun i => (i < num_participants)%nat) holders.
Hypothesis Henough : (threshold <= length holders)%nat.

Let x_coords := map (fun i => Z.of_nat (i + 1)) holders.
Let rows := map (fun i => nth i shares []) holders.

Lemma holders_nth k : (k < length holders)%nat -> (nth k holders 0 < num_participants)%nat.
Proof.
  intros Hk. rewrite Forall_forall in Hrange. apply Hrange.
  apply list_elem_of_In, nth_In. done.
Qed.

Lemma x_coords_nth k :
  (k < length holders)%nat ->
  nth k x_coords 0 = Z.of_nat (nth k holders 0%nat + 1).
Proof.
  intros Hk. unfold x_coords.
  rewrite nth_lookup. change (map ?f ?l) with (f <$> l).
  rewrite list_lookup_fmap. destruct (lookup_lt_is_Some_2 holders k Hk) as [h Hh].
  rewrite Hh. cbn. by rewrite (nth_lookup holders), Hh.
Qed.

Lemma rows_nth k :
  (k < length holders)%nat ->
  nth k rows [] = nth (nth k holders 0%nat) shares [].
Proof.
  intros Hk. unfold rows.
  rewrite nth_lookup. change (map ?f ?l) with (f <$> l).
  rewrite list_lookup_fmap. destruct (lookup_lt_is_Some_2 holders k Hk) as [h Hh].
  rewrite Hh. cbn. by rewrite (nth_lookup holders), Hh.
Qed.

Lemma x_coords_distinct : distinct kModulus x_coords.
Proof.
  intros i j Hi Hj Hne Heq. unfold x_coords in Hi, Hj.
  rewrite length_map in Hi, Hj.
  rewrite !x_coords_nth in Heq by done.
  pose proof (holders_nth i Hi). pose proof (holders_nth j Hj).
  unfold eqp in Heq. rewrite !Z.mod_small in Heq by lia.
  apply Hne. apply (NoDup_nth holders 0%nat); [|done..|lia].
  by apply NoDup_ListNoDup.
Qed.

Lemma Reconstruct_shared :
  Shamir.Reconstruct threshold x_coords rows
    = Ok (map (fun s => s mod kModulus) secret).
Proof.
  assert (Hxl : length x_coords = length holders) by apply length_map.
  assert (Hrl : length rows = length holders) by apply length_map.
  unfold Shamir.Reconstruct.
  rewrite decide_False by (rewrite Hxl, Hrl; lia).
  rewrite decide_False by lia.
  assert (H0 : (0 < length holders)%nat) by lia.
  rewrite (read_Some rows 0 []) by lia. cbn [mbind result_bind].
  destruct Hshape as [Hslen Hrowlen].
  rewrite rows_nth, Hrowlen by (done || by apply holders_nth).
  rewrite (reconstruct_components_spec _ _ _
             (fun c => nth c secret 0 mod kModulus)).
  { by rewrite (map_nth_seq (fun s => s mod kModulus)). }
  intros comp Hcomp%in_seq.
  destruct (reconstruct_value_spec x_coords rows comp (seq 0 (length rows)) 0)
    as (v & Hv & Hcan & Hsum).
  { split; [done|reflexivity]. }
  { apply Forall_forall. intros k Hk%elem_of_seq.
    split; [lia|]. rewrite rows_nth, Hrowlen by (lia || apply holders_nth; lia). lia. }
  rewrite Hv. f_equal.
  destruct (Hcolumns comp ltac:(lia)) as (poly & Hpl & Hhd & Hev).
  apply canonical_eq; [done|apply mod_kModulus_range|].
  rewrite eqp_mod.
  rewrite Hsum, Z.add_0_l, lsum_seq, <- Hhd, <- peval_0.
  rewrite <- (lagrange_at_zero kModulus kModulus_prime x_coords x_coords_distinct poly)
    by (rewrite Hxl; lia).
  rewrite Hrl, Hxl. apply zsum_eqp. intros k Hk.
  rewrite rows_nth, Hev by (done || by apply holders_nth).
  rewrite <- x_coords_nth by done.
  pose proof (proj1 (Evaluate_spec poly (nth k x_coords 0))) as Hev'.
  rewrite Hev'.
  rewrite <- Hxl, lagrange_spec by (apply x_coords_distinct || lia). done.
Qed.
End reconstruct.

(** C4: sharing a secret vector with [ShareVector] and handing
    [Reconstruct] the rows of any duplicate-free list of at least
    [threshold] participants, with x-coordinates [i + 1], returns the
    secret vector.  The participant count is the number of rows of the
    share grid, so it is below the field modulus. *)
Theorem shamir_share_reconstruct
    (dist : MT.state -> Z * MT.state)
    (threshold num_participants : nat) (secret : list Z) (prng : MT.state)
    (holders : list nat) :
  (1 <= threshold <= num_participants)%nat ->
  Z.of_nat num_participants < kModulus ->
  Forall (fun s => 0 <= s < kModulus) secret ->
  NoDup holders ->
  Forall (fun i => (i < num_participants)%nat) holders ->
  (threshold <= length holders)%nat ->
  exists shares prng',
    Shamir.ShareVector dist threshold num_participants secret prng
      = Ok (shares, prng') /\
    Shamir.Reconstruct threshold
      (map (fun i => Z.of_nat (i + 1)) holders)
      (map (fun i => nth i shares []) holders) = Ok secret.
Proof.
  intros [Ht HtN] HN Hsecret Hnodup Hrange Henough.
  destruct (ShareVector_spec dist threshold num_participants secret Ht prng HtN)
    as (shares & prng' & Hshare & Hshape & Hcols).
  exists shares, prng'. split; [done|].
  rewrite (Reconstruct_shared threshold num_participants secret shares)
    by done.
  by rewrite map_mod_canonical.
Qed.

(** ** FTMA: exact aggregate *)

Lemma lsum_app g l1 l2 : lsum g (l1 ++ l2) = lsum g l1 + lsum g l2.
Proof.
  induction l1 as [|i l1 IH]; [done|].
  cbn [app]. rewrite !lsum_cons, IH. ring.
Qed.

Lemma lsum_add g h l : lsum (fun i => g i + h i) l = lsum g l + lsum h l.
Proof.
  induction l as [|i l IH]; [done|]. rewrite !lsum_cons, IH. ring.
Qed.

Lemma lsum_zero l : lsum (fun _ => 0) l = 0.
Proof. induction l as [|i l IH]; [done|]. by rewrite lsum_cons, IH. Qed.

Lemma lsum_ext g h l :
  (forall i, In i l -> g i = h i) -> lsum g l = lsum h l.
Proof.
  induction l as [|i l IH]; intros Hgh; [done|].
  rewrite !lsum_cons, Hgh, IH; [done| |by left].
  intros j Hj. apply Hgh. by right.
Qed.

Lemma lsum_perm g l1 l2 : l1 ≡ₚ l2 -> lsum g l1 = lsum g l2.
Proof.
  induction 1 as [|x l l' _ IH|x y l|l l' l'' _ IH1 _ IH2].
  - done.
  - by rewrite !lsum_cons, IH.
  - rewrite !lsum_cons. ring.
  - by rewrite IH1.
Qed.

(** A double sum of antisymmetric terms vanishes. *)
Lemma lsum_antisymmetric (T : nat -> nat -> Z) n :
  (forall a, T a a = 0) -> (forall a b, T a b = - T b a) ->
  lsum (fun a => lsum (T a) (seq 0 n)) (seq 0 n) = 0.
Proof.
  intros Hdiag Hanti. induction n as [|n IH]; [done|].
  rewrite seq_S, lsum_app. cbn [Nat.add].
  rewrite (lsum_ext _ (fun a => lsum (T a) (seq 0 n) + T a n)).
  2:{ intros a _. rewrite lsum_app, !lsum_cons. cbn [lsum fold_right]. ring. }
  rewrite lsum_add, IH, lsum_cons, lsum_app, lsum_cons, Hdiag.
  cbn [lsum fold_right]. fold (lsum (T n) (seq 0 n)).
  rewrite (lsum_ext (T n) (fun b => - T b n)) by (intros; apply Hanti).
  fold (lsum (fun a => T a n) (seq 0 n)).
  assert (forall l, lsum (fun b => - T b n) l = - lsum (fun a => T a n) l) as ->.
  { intros l. induction l as [|i l IHl]; [done|]. rewrite !lsum_cons, IHl. ring. }
  ring.
Qed.

Lemma lsum_sub g h l : lsum (fun i => g i - h i) l = lsum g l - lsum h l.
Proof.
  induction l as [|i l IH]; [done|]. rewrite !lsum_cons, IH. ring.
Qed.

Lemma lsum_swap (T : nat -> nat -> Z) l1 l2 :
  lsum (fun a => lsum (T a) l2) l1 = lsum (fun b => lsum (fun a => T a b) l1) l2.
Proof.
  induction l1 as [|a l1 IH].
  - cbn [lsum fold_right]. symmetry. apply lsum_zero.
  - rewrite lsum_cons, IH, <- lsum_add. apply lsum_ext. intros b _.
    by rewrite lsum_cons.
Qed.

Lemma lsum_single n x (v : Z) :
  (x < n)%nat -> lsum (fun y => if Nat.eqb y x then v else 0) (seq 0 n) = v.
Proof.
  induction n as [|n IH]; intros Hx; [lia|].
  rewrite seq_S, lsum_app, lsum_cons. cbn [Nat.add lsum fold_right].
  destruct (Nat.eqb_spec n x) as [-> | Hne].
  - rewrite (lsum_ext _ (fun _ => 0)), lsum_zero; [ring|].
    intros y Hy%in_seq. destruct (Nat.eqb_spec y x); [lia|done].
  - rewrite IH by lia. ring.
Qed.

Definition in_list (l : list nat) (x : nat) : bool :=
  if in_dec Nat.eq_dec x l then true else false.

Lemma in_list_cons x l y :
  in_list (x :: l) y = Nat.eqb y x || in_list l y.
Proof.
  unfold in_list.
  destruct (in_dec Nat.eq_dec y (x :: l)) as [Hin | Hout],
    (Nat.eqb_spec y x) as [Heq | Hne], (in_dec Nat.eq_dec y l) as [Hl | Hl];
    try reflexivity.
  - destruct Hin as [Hin | Hin]; [congruence|done].
  - exfalso. apply Hout. left. congruence.
  - exfalso. apply Hout. left. congruence.
  - exfalso. apply Hout. by right.
Qed.

(** A sum over a duplicate-free list of indices below [n] is a sum over
    all indices below [n], restricted to the list. *)
Lemma lsum_in_list f l n :
  NoDup l -> Forall (fun x => (x < n)%nat) l ->
  lsum f l = lsum (fun x => if in_list l x then f x else 0) (seq 0 n).
Proof.
  induction 1 as [|x l Hx Hnodup IH]; intros Hl.
  - cbn [lsum fold_right]. symmetry. apply lsum_zero.
  - apply Forall_cons in Hl as [Hxn Hl].
    rewrite lsum_cons, (IH Hl), <- (lsum_single n x (f x) Hxn), <- lsum_add.
    apply lsum_ext. intros y _. rewrite in_list_cons.
    destruct (Nat.eqb_spec y x) as [-> | Hne]; cbn [orb].
    + unfold in_list. destruct (in_dec Nat.eq_dec x l) as [Hin|]; [|ring].
      exfalso. apply Hx. by apply list_elem_of_In.
    + ring.
Qed.

Lemma MixSeed_sym a b c : Ftma.MixSeed a b c = Ftma.MixSeed b a c.
Proof.
  unfold Ftma.MixSeed.
  destruct (Z.ltb_spec b a), (Z.ltb_spec a b); try reflexivity; try lia.
  by replace b with a by lia.
Qed.

Lemma FromSigned_spec v : FromSigned v ≅ v /\ canonical (FromSigned v).
Proof.
  unfold FromSigned. change (to_int64 kModulus) with kModulus.
  pose proof (Z.rem_bound_abs v kModulus kModulus_neq_0) as Hb.
  change (Z.abs kModulus) with kModulus in Hb.
  rewrite (Z.rem_mod_nonneg (Z.rem v kModulus + kModulus)) by (lia || done).
  split; [|apply mod_kModulus_range].
  rewrite eqp_mod. unfold eqp.
  pose proof (Z.quot_rem' v kModulus) as Hq.
  replace (Z.rem v kModulus + kModulus)
    with (v + (1 - Z.quot v kModulus) * kModulus) by lia.
  by rewrite Z.mod_add.
Qed.

Lemma ToSigned_centered v s :
  canonical v -> v ≅ s -> - (kModulus / 2) <= s <= kModulus / 2 ->
  ToSigned v = s.
Proof.
  intros Hv Hvs Hs. unfold canonical in Hv.
  change (kModulus / 2) with 1152921504606846975 in *.
  assert (Hk : kModulus = 2305843009213693951) by reflexivity.
  assert (Hi : forall z, 0 <= z < kModulus + 1 -> to_int64 z = z).
  { intros z Hz. unfold to_int64.
    rewrite Z.mod_small; [lia|]. rewrite Hk in Hz.
    change (2 ^ 63) with 9223372036854775808.
    change (2 ^ 64) with 18446744073709551616. lia. }
  unfold ToSigned. change (kModulus / 2) with 1152921504606846975.
  rewrite !Hi by lia.
  unfold eqp in Hvs. rewrite (Z.mod_small v) in Hvs by done.
  destruct (Z.ltb_spec 1152921504606846975 v) as [Hlt | Hle].
  - destruct (Z.le_gt_cases 0 s) as [Hs0 | Hs0].
    + rewrite Z.mod_small in Hvs by lia. lia.
    + rewrite <- (Z.mod_add s 1), Z.mod_small in Hvs by lia. lia.
  - destruct (Z.le_gt_cases 0 s) as [Hs0 | Hs0].
    + rewrite Z.mod_small in Hvs by lia. lia.
    + rewrite <- (Z.mod_add s 1), Z.mod_small in Hvs by lia. lia.
Qed.

Lemma read_lookup {A} (v : list A) i a : v !! i = Some a -> read v i = Ok a.
Proof. intros H. unfold read. by rewrite H. Qed.

Lemma elementwise_spec f n acc v :
  length acc = n -> length v = n ->
  exists r, Ftma.elementwise f n acc v = Ok r /\ length r = n /\
    forall i, (i < n)%nat -> nth i r 0 = f (nth i acc 0) (nth i v 0).
Proof.
  intros Ha Hv. unfold Ftma.elementwise.
  rewrite decide_True by lia.
  rewrite !firstn_all2, skipn_all2, app_nil_r by lia.
  eexists. split; [reflexivity|]. split.
  - rewrite length_zip_with. lia.
  - intros i Hi. rewrite !nth_lookup, lookup_zip_with.
    destruct (lookup_lt_is_Some_2 acc i ltac:(lia)) as [a ->].
    destruct (lookup_lt_is_Some_2 v i ltac:(lia)) as [b ->]. done.
Qed.

Section aggregation.
Variable dist : MT.state -> Z * MT.state.
Variable double : Type.
Variable round_scaled : double -> Z -> Z.
Variables (N t D : nat) (scale : Z).
Hypothesis Hthreshold : (1 <= t <= N)%nat.


(** The integer a client contributes in component [i]. *)
Definition scaled_value (metrics : list double) (i : nat) : Z :=
  match metrics !! i with
  | Some value => round_scaled value scale
  | None => 0
  end.

(** The seed and the pairwise mask of two clients. *)
Definition pair_seed (a b : nat) : Z :=
  Ftma.MixSeed (wrap64 (Z.of_nat (a + 1))) (wrap64 (Z.of_nat (b + 1))) scale.

Definition pair_mask (a b : nat) : list Z :=
  fst (Shamir.draws dist (D * 2) (MT.seed (pair_seed a b))).

(** What client [id] adds to component [i] of its payload on account of
    client [other]. *)
Definition pair_term (i id other : nat) : Z :=
  if decide (other = id) then 0
  else if bool_decide (id < other)%nat then nth i (pair_mask id other) 0
  else - nth i (pair_mask id other) 0.

Lemma pair_mask_sym a b : pair_mask a b = pair_mask b a.
Proof. unfold pair_mask, pair_seed. by rewrite MixSeed_sym. Qed.

Lemma pair_mask_length a b : length (pair_mask a b) = (D * 2)%nat.
Proof. apply draws_length. Qed.

Lemma pair_term_diag i a : pair_term i a a = 0.
Proof. unfold pair_term. by rewrite decide_True. Qed.

Lemma pair_term_anti i a b : pair_term i a b = - pair_term i b a.
Proof.
  unfold pair_term. destruct (decide (b = a)) as [-> | Hne].
  - by rewrite decide_True.
  - rewrite (decide_False (P := a = b)) by congruence.
    rewrite (pair_mask_sym b a).
    destruct (bool_decide_reflect (a < b)%nat), (bool_decide_reflect (b < a)%nat);
      lia.
Qed.

Definition wf (c : Ftma.Coordinator double) : Prop :=
  Ftma.num_clients_ double c = N /\ Ftma.threshold_ double c = t /\
  Ftma.metric_dimension_ double c = D /\
  Ftma.vector_dimension_ double c = (D * 2)%nat /\
  Ftma.scale_ double c = scale /\
  length (Ftma.clients_ double c) = N.

(** The part of a client's state that [Finalize] adds up. *)
Definition core (s : Ftma.ClientState double) : bool * list Z * list Z :=
  (Ftma.registered double s, Ftma.masked_payload double s,
   Ftma.personal_mask double s).

Lemma scaled_loop_spec c metrics idxs :
  wf c -> length metrics = D ->
  forall done scaled,
    length scaled = (D * 2)%nat ->
    Forall (fun i => (i < D)%nat) idxs ->
    (forall i, In i done -> (i < D)%nat ->
       nth i scaled 0 = FromSigned (scaled_value metrics i)) ->
    exists scaled',
      Ftma.scaled_loop double round_scaled c metrics idxs scaled = Ok scaled' /\
      length scaled' = (D * 2)%nat /\
      forall i, In i (done ++ idxs) -> (i < D)%nat ->
        nth i scaled' 0 = FromSigned (scaled_value metrics i).
Proof.
  intros (_ & _ & HD & _ & Hs & _) Hm.
  induction idxs as [|j idxs IH]; intros done scaled Hlen Hidx Hdone.
  - exists scaled. rewrite app_nil_r. done.
  - apply Forall_cons in Hidx as [Hj Hidx].
    cbn [Ftma.scaled_loop]. unfold Ftma.scaled_step.
    destruct (lookup_lt_is_Some_2 metrics j ltac:(lia)) as [value Hvalue].
    unfold read. rewrite Hvalue. cbn [mbind result_bind].
    rewrite HD, Hs, decide_False by lia.
    set (scaled1 := <[(j + D)%nat := _]> _).
    destruct (IH (done ++ [j]) scaled1) as (scaled' & Hrun & Hlen' & Hval).
    + unfold scaled1. by rewrite !length_insert.
    + done.
    + intros i Hi HiD. unfold scaled1.
      rewrite nth_insert_ne by lia.
      apply in_app_or in Hi as [Hi | [<- | []]].
      * destruct (decide (j = i)) as [<- | Hne].
        -- rewrite nth_insert_eq by lia. unfold scaled_value. by rewrite Hvalue.
        -- rewrite nth_insert_ne by done. by apply Hdone.
      * rewrite nth_insert_eq by lia. unfold scaled_value. by rewrite Hvalue.
    + exists scaled'. split; [done|]. split; [done|].
      intros i Hi. apply Hval. rewrite <- app_assoc. done.
Qed.

Lemma pairwise_loop_spec c id others :
  wf c ->
  forall seeds payload,
    length payload = (D * 2)%nat ->
    exists seeds' payload',
      Ftma.pairwise_loop dist double c id others seeds payload
        = Ok (seeds', payload') /\
      length payload' = (D * 2)%nat /\
      (forall i, (i < D * 2)%nat ->
         nth i payload' 0 ≅ nth i payload 0 + lsum (pair_term i id) others) /\
      (forall o, In o others -> o <> id ->
         seeds' !! o = Some (pair_seed id o)) /\
      (forall o, seeds !! o = Some (pair_seed id o) ->
         seeds' !! o = Some (pair_seed id o)).
Proof.
  intros (_ & _ & _ & HV & Hs & _).
  induction others as [|other others IH]; intros seeds payload Hlen.
  - exists seeds, payload. split; [done|]. split; [done|].
    split; [|split; [by intros o []|done]].
    intros i _. cbn [lsum fold_right]. by rewrite Z.add_0_r.
  - cbn [Ftma.pairwise_loop].
    destruct (decide (other = id)) as [-> | Hne].
    + destruct (IH seeds payload Hlen)
        as (seeds' & payload' & Hrun & Hlen' & Hval & Hnew & Hold).
      exists seeds', payload'. split; [done|]. split; [done|].
      split; [|split; [|done]].
      * intros i Hi. rewrite lsum_cons, pair_term_diag, Z.add_0_l.
        by apply Hval.
      * intros o [<- | Ho] Hoid; [done|by apply Hnew].
    + unfold Ftma.GeneratePairwiseMask. rewrite HV, Hs.
      fold (pair_seed id other). fold (pair_mask id other).
      destruct (elementwise_spec
                  (if bool_decide (id < other)%nat then Add else Sub)
                  (D * 2) payload (pair_mask id other) Hlen
                  (pair_mask_length id other)) as (p1 & -> & Hlen1 & Hval1).
      cbn [mbind result_bind].
      destruct (IH (<[other := pair_seed id other]> seeds) p1 Hlen1)
        as (seeds' & payload' & Hrun & Hlen' & Hval & Hnew & Hold).
      exists seeds', payload'. split; [done|]. split; [done|].
      split; [|split].
      * intros i Hi. rewrite Hval, Hval1, lsum_cons by done.
        unfold pair_term at 2. rewrite decide_False by done.
        destruct (bool_decide (id < other)%nat).
        -- rewrite Add_spec. unfold eqp. f_equal. ring.
        -- rewrite Sub_spec. unfold eqp. f_equal. ring.
      * intros o [<- | Ho] Hoid; [|by apply Hnew].
        apply Hold. apply lookup_insert_eq.
      * intros o Ho. apply Hold.
        destruct (decide (other = o)) as [-> | Hneo].
        -- apply lookup_insert_eq.
        -- by rewrite lookup_insert_ne.
Qed.

(** What [distribute_shares] leaves of a client's state and what it
    adds. *)
Definition received (id : nat) (share : list Z)
    (s s' : Ftma.ClientState double) : Prop :=
  core s' = core s /\
  Ftma.pairwise_seeds double s' = Ftma.pairwise_seeds double s /\
  Ftma.incoming_shares double s' = <[id := share]> (Ftma.incoming_shares double s).

Lemma distribute_shares_spec id mask_shares recipients :
  forall clients,
    Forall (fun r => (r < length mask_shares)%nat /\ (r < length clients)%nat)
      recipients ->
    exists clients',
      Ftma.distribute_shares double id mask_shares recipients clients
        = Ok clients' /\
      length clients' = length clients /\
      clients' !! id = clients !! id /\
      forall j s, j <> id -> clients !! j = Some s ->
        exists s', clients' !! j = Some s' /\
          (In j recipients -> received id (nth j mask_shares []) s s') /\
          (~ In j recipients -> s' = s).
Proof.
  induction recipients as [|r recipients IH]; intros clients Hr.
  - exists clients. split; [done|]. split; [done|]. split; [done|].
    intros j s _ Hs. exists s. split; [done|]. split; [intros []|done].
  - apply Forall_cons in Hr as [[Hr1 Hr2] Hr].
    cbn [Ftma.distribute_shares].
    destruct (decide (r = id)) as [-> | Hne].
    + destruct (IH clients Hr) as (clients' & Hrun & Hlen & Hid & Hothers).
      exists clients'. split; [done|]. split; [done|]. split; [done|].
      intros j s Hj Hs. destruct (Hothers j s Hj Hs) as (s' & Hs' & Hin & Hout).
      exists s'. split; [done|]. split.
      * intros [Heq | Hin']; [congruence|by apply Hin].
      * intros Hn. apply Hout. intros Hin'. apply Hn. by right.
    + rewrite (read_Some mask_shares r []) by done.
      destruct (lookup_lt_is_Some_2 clients r Hr2) as [state Hstate].
      rewrite (read_lookup _ _ _ Hstate). cbn [mbind result_bind].
      set (state' := Ftma.mkClientState _ _ _ _ _ _ _).
      destruct (IH (<[r := state']> clients))
        as (clients' & Hrun & Hlen & Hid & Hothers).
      { rewrite length_insert. done. }
      exists clients'. split; [done|]. rewrite Hlen, Hid, length_insert.
      split; [done|]. split; [by rewrite list_lookup_insert_ne|].
      intros j s Hj Hs.
      destruct (decide (r = j)) as [-> | Hrj].
      * destruct (Hothers j state') as (s' & Hs' & Hin & Hout); [done| |].
        { apply list_lookup_insert_eq. done. }
        exists s'. split; [done|].
        assert (s = state) as -> by congruence.
        assert (Hfirst : received id (nth j mask_shares []) state state')
          by (split; [|split]; reflexivity).
        split; [|intros Hn; exfalso; apply Hn; by left].
        intros _.
        destruct (in_dec Nat.eq_dec j recipients) as [Hjin | Hjout].
        -- destruct (Hin Hjin) as (Hc & Hp & Hi).
           destruct Hfirst as (Hc1 & Hp1 & Hi1).
           split; [congruence|]. split; [congruence|].
           rewrite Hi, Hi1. apply insert_insert_eq.
        -- by rewrite (Hout Hjout).
      * destruct (Hothers j s) as (s' & Hs' & Hin & Hout); [done| |].
        { by rewrite list_lookup_insert_ne. }
        exists s'. split; [done|]. split.
        -- intros [Heq | Hin']; [congruence|by apply Hin].
        -- intros Hn. apply Hout. intros Hin'. apply Hn. by right.
Qed.

(** The payload a client with metrics [metrics] and personal mask [mask]
    submits. *)
Definition payload_ok (id : nat) (metrics : list double)
    (mask payload : list Z) : Prop :=
  length mask = (D * 2)%nat /\ length payload = (D * 2)%nat /\
  forall i, (i < D)%nat ->
    nth i payload 0 ≅ scaled_value metrics i + nth i mask 0 +
                      lsum (pair_term i id) (seq 0 N).

(** [grid] holds the Shamir shares of [secret], one row per client. *)
Definition shared_grid (secret : list Z) (grid : list (list Z)) : Prop :=
  grid_shape N secret grid /\
  forall k, (k < length secret)%nat -> column_shared t N secret grid k.

Definition seeds_ok (id : nat) (s : Ftma.ClientState double) : Prop :=
  forall o, (o < N)%nat -> o <> id ->
    Ftma.pairwise_seeds double s !! o = Some (pair_seed id o).

Lemma BuildPayload_spec c metrics id state :
  wf c -> Ftma.clients_ double c !! id = Some state -> length metrics = D ->
  exists c' payload state' grid,
    Ftma.BuildPayload dist double round_scaled c metrics id = Ok (c', payload) /\
    wf c' /\
    Ftma.clients_ double c' !! id = Some state' /\
    Ftma.registered double state' = Ftma.registered double state /\
    Ftma.incoming_shares double state' = Ftma.incoming_shares double state /\
    seeds_ok id state' /\
    payload_ok id metrics (Ftma.personal_mask double state') payload /\
    shared_grid (Ftma.personal_mask double state') grid /\
    forall j s, j <> id -> Ftma.clients_ double c !! j = Some s ->
      exists s', Ftma.clients_ double c' !! j = Some s' /\
                 received id (nth j grid []) s s'.
Proof.
  intros Hwf Hstate Hm.
  pose proof Hwf as (HN & Ht & HD & HV & Hs & Hlen).
  assert (Hid : (id < N)%nat) by (rewrite <- Hlen; by eapply lookup_lt_Some).
  unfold Ftma.BuildPayload.
  rewrite HD, decide_False by lia.
  destruct (scaled_loop_spec c metrics (seq 0 D) Hwf Hm [] (replicate (D * 2) 0))
    as (scaled & Hscaled & Hslen & Hsval).
  { by rewrite length_replicate. }
  { apply Forall_forall. intros i Hi%elem_of_seq. lia. }
  { intros i []. }
  rewrite HV, Hscaled. cbn [mbind result_bind].
  unfold Ftma.GeneratePersonalMask. rewrite HV.
  pose proof (draws_length dist (D * 2) (Ftma.prng_ double c)) as Hmlen.
  destruct (Shamir.draws dist (D * 2) (Ftma.prng_ double c)) as [mask prng1].
  cbn [fst] in Hmlen.
  rewrite Ht, HN.
  destruct (ShareVector_spec dist t N mask (proj1 Hthreshold) prng1
              (proj2 Hthreshold))
    as (mask_shares & prng2 & -> & Hshape & Hcolumns).
  pose proof Hshape as [Hshlen _].
  cbn [mbind result_bind].
  rewrite (read_lookup _ _ _ Hstate). cbn [mbind result_bind].
  set (state1 := Ftma.mkClientState _ _ _ mask _ _ _).
  destruct (distribute_shares_spec id mask_shares (seq 0 N)
              (<[id := state1]> (Ftma.clients_ double c)))
    as (clients2 & -> & Hlen2 & Hid2 & Hothers2).
  { apply Forall_forall. intros r Hr%elem_of_seq.
    rewrite length_insert. lia. }
  cbn [mbind result_bind].
  rewrite length_insert in Hlen2.
  rewrite list_lookup_insert_eq in Hid2 by lia.
  destruct (elementwise_spec Add (D * 2) scaled mask Hslen Hmlen)
    as (payload & -> & Hplen & Hpval).
  cbn [mbind result_bind].
  destruct (pairwise_loop_spec c id (seq 0 N) Hwf
              (Ftma.pairwise_seeds double state) payload Hplen)
    as (seeds & payload' & -> & Hplen' & Hpval' & Hseeds & _).
  cbn [mbind result_bind].
  rewrite (read_lookup _ _ _ Hid2). cbn [mbind result_bind].
  eexists _, payload', _, mask_shares. split; [reflexivity|].
  cbn [Ftma.clients_].
  split; [|split; [|split; [|split; [|split; [|split; [|split]]]]]].
  - unfold wf. cbn [Ftma.num_clients_ Ftma.threshold_ Ftma.metric_dimension_
      Ftma.vector_dimension_ Ftma.scale_ Ftma.clients_].
    rewrite length_insert, Hlen2. auto 10.
  - apply list_lookup_insert_eq. lia.
  - reflexivity.
  - reflexivity.
  - intros o Ho Hoid. cbn [Ftma.pairwise_seeds].
    apply Hseeds; [apply in_seq; lia|done].
  - cbn [Ftma.personal_mask state1]. split; [done|]. split; [done|].
    intros i Hi. rewrite Hpval', Hpval, Add_spec by lia.
    rewrite Hsval by (done || apply in_seq; lia).
    by rewrite (proj1 (FromSigned_spec _)).
  - cbn [Ftma.personal_mask state1]. split; [done|]. exact Hcolumns.
  - intros j s Hj Hsj. rewrite list_lookup_insert_ne by done.
    destruct (Hothers2 j s Hj) as (s' & Hs' & Hrel & _).
    { by rewrite list_lookup_insert_ne. }
    exists s'. split; [done|].
    assert (Hjn : (j < N)%nat) by (rewrite <- Hlen; by eapply lookup_lt_Some).
    apply Hrel. apply in_seq. lia.
Qed.

Variable metrics : nat -> list double.

Definition client_ok (id : nat) (s : Ftma.ClientState double) : Prop :=
  Ftma.registered double s = true /\
  payload_ok id (metrics id) (Ftma.personal_mask double s)
    (Ftma.masked_payload double s) /\
  seeds_ok id s.

(** The shares of client [d]'s personal mask lie with the other
    clients. *)
Definition shares_held (c : Ftma.Coordinator double) (d : nat) : Prop :=
  exists mask grid,
    Ftma.personal_mask double <$> Ftma.clients_ double c !! d = Some mask /\
    shared_grid mask grid /\
    forall j s, j <> d -> Ftma.clients_ double c !! j = Some s ->
      Ftma.incoming_shares double s !! d = Some (nth j grid []).

(** The coordinator after the clients in [R] have registered. *)
Definition registered_inv (R : list nat) (c : Ftma.Coordinator double) : Prop :=
  wf c /\
  (forall id s, Ftma.clients_ double c !! id = Some s ->
     (In id R -> client_ok id s) /\
     (~ In id R -> Ftma.registered double s = false)) /\
  (forall d, In d R -> shares_held c d).

Lemma client_ok_received id j share s s' :
  received j share s s' -> client_ok id s -> client_ok id s'.
Proof.
  unfold received, core, client_ok, seeds_ok.
  intros ([= Hr Hp Hm] & Hseeds & _). by rewrite Hr, Hp, Hm, Hseeds.
Qed.

Lemma RegisterClient_inv c id R :
  registered_inv R c -> (id < N)%nat -> ~ In id R -> length (metrics id) = D ->
  exists c' payload,
    Ftma.RegisterClient dist double round_scaled c id (metrics id)
      = Ok (c', payload) /\
    registered_inv (id :: R) c'.
Proof.
  intros (Hwf & Hinv & Hheld) Hid HR Hm.
  pose proof Hwf as (HN & Ht & HD & HV & Hs & Hlen).
  unfold Ftma.RegisterClient. rewrite HN, decide_False by lia.
  destruct (lookup_lt_is_Some_2 (Ftma.clients_ double c) id ltac:(lia))
    as [state Hstate].
  rewrite (read_lookup _ _ _ Hstate). cbn [mbind result_bind].
  destruct (Hinv id state Hstate) as [_ Hunreg]. rewrite (Hunreg HR).
  set (state0 := Ftma.mkClientState _ _ _ _ _ _ _).
  set (c1 := Ftma.mkCoordinator _ _ _ _ _ _ _ _).
  assert (Hwf1 : wf c1).
  { unfold wf, c1. cbn [Ftma.num_clients_ Ftma.threshold_ Ftma.metric_dimension_
      Ftma.vector_dimension_ Ftma.scale_ Ftma.clients_].
    rewrite length_insert. auto 10. }
  assert (Hstate1 : Ftma.clients_ double c1 !! id = Some state0).
  { unfold c1. cbn [Ftma.clients_]. apply list_lookup_insert_eq. lia. }
  destruct (BuildPayload_spec c1 (metrics id) id state0 Hwf1 Hstate1 Hm)
    as (c2 & payload & state2 & grid & -> & Hwf2 & Hstate2 & Hreg2 & Hinc2
        & Hseeds2 & Hpayload & Hgrid & Hothers).
  cbn [mbind result_bind].
  rewrite (read_lookup _ _ _ Hstate2). cbn [mbind result_bind].
  eexists _, payload. split; [reflexivity|].
  pose proof Hwf2 as (HN2 & Ht2 & HD2 & HV2 & Hs2 & Hlen2).
  assert (Hother : forall j s, j <> id -> Ftma.clients_ double c !! j = Some s ->
            exists s', Ftma.clients_ double c2 !! j = Some s' /\
                       received id (nth j grid []) s s').
  { intros j s Hj Hsj. apply Hothers; [done|].
    unfold c1. cbn [Ftma.clients_]. by rewrite list_lookup_insert_ne. }
  split; [|split].
  - unfold wf. cbn [Ftma.num_clients_ Ftma.threshold_ Ftma.metric_dimension_
      Ftma.vector_dimension_ Ftma.scale_ Ftma.clients_].
    rewrite length_insert. auto 10.
  - cbn [Ftma.clients_]. intros j s Hj.
    destruct (decide (j = id)) as [-> | Hne].
    + rewrite list_lookup_insert_eq in Hj by lia. injection Hj as <-.
      split; [|intros Hn; exfalso; apply Hn; by left].
      intros _. split; [reflexivity|]. split; [exact Hpayload|exact Hseeds2].
    + rewrite list_lookup_insert_ne in Hj by done.
      assert (Hjn : (j < N)%nat) by (rewrite <- Hlen2; by eapply lookup_lt_Some).
      destruct (lookup_lt_is_Some_2 (Ftma.clients_ double c) j ltac:(lia))
        as [s0 Hs0].
      destruct (Hother j s0 Hne Hs0) as (s' & Hs' & Hrel).
      assert (s' = s) as -> by congruence.
      destruct (Hinv j s0 Hs0) as [Hin Hout]. split.
      * intros [Heq | Hin']; [congruence|].
        eapply (client_ok_received j id _ s0); [exact Hrel|by apply Hin].
      * intros Hn. destruct Hrel as (Hcore & _). unfold core in Hcore.
        injection Hcore as -> _ _.
        apply Hout. intros Hin'. apply Hn. by right.
  - unfold shares_held. cbn [Ftma.clients_]. intros d [<- | Hd].
    + exists (Ftma.personal_mask double state2), grid.
      rewrite list_lookup_insert_eq by lia. split; [done|]. split; [done|].
      intros j s Hj Hsj. rewrite list_lookup_insert_ne in Hsj by done.
      assert (Hjn : (j < N)%nat) by (rewrite <- Hlen2; by eapply lookup_lt_Some).
      destruct (lookup_lt_is_Some_2 (Ftma.clients_ double c) j ltac:(lia))
        as [s0 Hs0].
      destruct (Hother j s0 ltac:(done) Hs0) as (s' & Hs' & _ & _ & Hinc).
      assert (s' = s) as -> by congruence.
      rewrite Hinc. apply lookup_insert_eq.
    + assert (Hdid : d <> id) by (intros ->; done).
      destruct (Hheld d Hd) as (mask & gridd & Hmask & Hgridd & Hshares).
      exists mask, gridd. split; [|split; [done|]].
      * rewrite list_lookup_insert_ne by done.
        destruct (Ftma.clients_ double c !! d) as [sd|] eqn:Hsd; [|done].
        destruct (Hother d sd Hdid Hsd) as (sd' & -> & Hcore & _).
        unfold core in Hcore. injection Hcore as _ _ Hpm.
        cbn in Hmask |- *. congruence.
      * intros j s Hj Hsj.
        destruct (decide (j = id)) as [-> | Hne].
        -- rewrite list_lookup_insert_eq in Hsj by lia. injection Hsj as <-.
           cbn [Ftma.incoming_shares]. rewrite Hinc2.
           apply (Hshares id state Hj Hstate).
        -- rewrite list_lookup_insert_ne in Hsj by done.
           assert (Hjn : (j < N)%nat)
             by (rewrite <- Hlen2; by eapply lookup_lt_Some).
           destruct (lookup_lt_is_Some_2 (Ftma.clients_ double c) j ltac:(lia))
             as [s0 Hs0].
           destruct (Hother j s0 Hne Hs0) as (s' & Hs' & _ & _ & Hinc).
           assert (s' = s) as -> by congruence.
           rewrite Hinc, lookup_insert_ne by done.
           by apply (Hshares j s0).
Qed.

(** Registering the clients of [order] one after the other. *)
Fixpoint register_all (c : Ftma.Coordinator double) (order : list nat)
  : result (Ftma.Coordinator double) :=
  match order with
  | [] => Ok c
  | id :: rest =>
      '(c', _) ← Ftma.RegisterClient dist double round_scaled c id (metrics id);
      register_all c' rest
  end.

Lemma registered_inv_ext R R' c :
  (forall id, In id R <-> In id R') -> registered_inv R c -> registered_inv R' c.
Proof.
  intros Heq (Hwf & Hinv & Hheld). split; [done|]. split.
  - intros id s Hs. destruct (Hinv id s Hs) as [Hin Hout].
    split; intros H; [apply Hin|apply Hout]; by rewrite Heq.
  - intros d Hd. apply Hheld. by rewrite Heq.
Qed.

Lemma register_all_inv order :
  NoDup order ->
  Forall (fun id => (id < N)%nat /\ length (metrics id) = D) order ->
  forall R c,
    registered_inv R c -> (forall id, In id order -> ~ In id R) ->
    exists c', register_all c order = Ok c' /\ registered_inv (order ++ R) c'.
Proof.
  induction 1 as [|id order Hnotin Hnodup IH]; intros Hall R c Hinv Hfresh.
  - by exists c.
  - apply Forall_cons in Hall as [[Hid Hm] Hall].
    cbn [register_all].
    destruct (RegisterClient_inv c id R Hinv Hid) as (c1 & payload & -> & Hinv1);
      [apply Hfresh; by left|done|].
    cbn [mbind result_bind].
    destruct (IH Hall (id :: R) c1 Hinv1) as (c' & Hrun & Hinv').
    + intros j Hj [<- | Hin].
      * apply Hnotin. by apply list_elem_of_In.
      * apply (Hfresh j); [by right|done].
    + exists c'. split; [done|].
      apply (registered_inv_ext (order ++ id :: R)); [|done].
      intros j. cbn [app In]. rewrite !in_app_iff. cbn [In]. tauto.
Qed.

Lemma FtmaCoordinator_inv rd :
  (0 < D)%nat -> scale <> 0 ->
  exists c, Ftma.FtmaCoordinator double N t D scale rd = Ok c /\ registered_inv [] c.
Proof.
  intros HD Hscale. unfold Ftma.FtmaCoordinator.
  rewrite decide_False by lia. rewrite decide_False by lia.
  rewrite (proj2 (Z.eqb_neq scale 0)) by done.
  eexists. split; [reflexivity|]. split; [|split].
  - unfold wf. cbn. rewrite length_replicate. auto 10.
  - cbn [Ftma.clients_]. intros id s Hs.
    apply lookup_replicate in Hs as [-> _]. split; [intros []|done].
  - intros d [].
Qed.

Definition payload_of (c : Ftma.Coordinator double) (id : nat) : list Z :=
  match Ftma.clients_ double c !! id with
  | Some s => Ftma.masked_payload double s
  | None => []
  end.

Definition mask_of (c : Ftma.Coordinator double) (id : nat) : list Z :=
  match Ftma.clients_ double c !! id with
  | Some s => Ftma.personal_mask double s
  | None => []
  end.

(** Every client has registered. *)
Definition all_registered (c : Ftma.Coordinator double) : Prop :=
  wf c /\
  forall id, (id < N)%nat ->
    exists s, Ftma.clients_ double c !! id = Some s /\ client_ok id s.

Definition canonical_vector (v : list Z) : Prop :=
  forall i, (i < length v)%nat -> canonical (nth i v 0).

Lemma sum_payloads_spec c ids :
  all_registered c ->
  Forall (fun id => (id < N)%nat) ids ->
  forall aggregate participants,
    length aggregate = (D * 2)%nat -> canonical_vector aggregate ->
    exists aggregate',
      Ftma.sum_payloads double c ids aggregate participants
        = Ok (aggregate', (participants + length ids)%nat) /\
      length aggregate' = (D * 2)%nat /\ canonical_vector aggregate' /\
      forall i, (i < D * 2)%nat ->
        nth i aggregate' 0 ≅
          nth i aggregate 0 + lsum (fun id => nth i (payload_of c id) 0) ids.
Proof.
  intros [Hwf Hall]. pose proof Hwf as (HN & Ht & HD & HV & Hs & Hlen).
  induction ids as [|id ids IH]; intros Hids aggregate participants Hagg Hcan.
  - exists aggregate. cbn [Ftma.sum_payloads length lsum fold_right].
    rewrite Nat.add_0_r. split; [done|]. split; [done|]. split; [done|].
    intros i _. by rewrite Z.add_0_r.
  - apply Forall_cons in Hids as [Hid Hids].
    destruct (Hall id Hid) as (s & Hs' & Hreg & (Hmask & Hpay & _) & _).
    cbn [Ftma.sum_payloads]. rewrite (read_lookup _ _ _ Hs'), HV.
    cbn [mbind result_bind]. rewrite Hreg. cbn [negb].
    destruct (elementwise_spec Add (D * 2) aggregate
                (Ftma.masked_payload double s) Hagg Hpay)
      as (agg1 & -> & Hlen1 & Hval1).
    cbn [mbind result_bind].
    destruct (IH Hids agg1 (S participants) Hlen1)
      as (agg' & Hrun & Hlen' & Hcan' & Hval').
    { intros i Hi. rewrite Hval1 by lia. apply Add_canonical. }
    exists agg'. rewrite Hrun. cbn [length].
    replace (S participants + length ids)%nat
      with (participants + S (length ids))%nat by lia.
    split; [done|]. split; [done|]. split; [done|].
    intros i Hi. rewrite Hval', Hval1, Add_spec, lsum_cons by done.
    unfold payload_of at 2. rewrite Hs'. unfold eqp. f_equal. ring.
Qed.

Lemma subtract_active_masks_spec c active :
  all_registered c ->
  Forall (fun id => (id < N)%nat) active ->
  forall aggregate,
    length aggregate = (D * 2)%nat -> canonical_vector aggregate ->
    exists aggregate',
      Ftma.subtract_active_masks double c active aggregate = Ok aggregate' /\
      length aggregate' = (D * 2)%nat /\ canonical_vector aggregate' /\
      forall i, (i < D * 2)%nat ->
        nth i aggregate' 0 ≅
          nth i aggregate 0 - lsum (fun id => nth i (mask_of c id) 0) active.
Proof.
  intros [Hwf Hall]. pose proof Hwf as (HN & Ht & HD & HV & Hs & Hlen).
  induction active as [|id active IH]; intros Hids aggregate Hagg Hcan.
  - exists aggregate. cbn [Ftma.subtract_active_masks lsum fold_right].
    split; [done|]. split; [done|]. split; [done|].
    intros i _. by rewrite Z.sub_0_r.
  - apply Forall_cons in Hids as [Hid Hids].
    destruct (Hall id Hid) as (s & Hs' & Hreg & (Hmask & Hpay & _) & _).
    cbn [Ftma.subtract_active_masks]. rewrite (read_lookup _ _ _ Hs'), HV.
    cbn [mbind result_bind].
    destruct (elementwise_spec Sub (D * 2) aggregate
                (Ftma.personal_mask double s) Hagg Hmask)
      as (agg1 & -> & Hlen1 & Hval1).
    cbn [mbind result_bind].
    destruct (IH Hids agg1 Hlen1) as (agg' & Hrun & Hlen' & Hcan' & Hval').
    { intros i Hi. rewrite Hval1 by lia. apply Sub_canonical. }
    exists agg'. split; [done|]. split; [done|]. split; [done|].
    intros i Hi. rewrite Hval', Hval1, Sub_spec, lsum_cons by done.
    unfold mask_of at 2. rewrite Hs'. unfold eqp. f_equal. ring.
Qed.

Lemma mark_active_spec active :
  forall is_active,
    Forall (fun id => (id < length is_active)%nat) active ->
    exists marked,
      Ftma.mark_active active is_active = Ok marked /\
      length marked = length is_active /\
      forall j, In j active \/ is_active !! j = Some true ->
        marked !! j = Some true.
Proof.
  induction active as [|id active IH]; intros is_active Hids.
  - exists is_active. split; [done|]. split; [done|]. by intros j [[] | Hj].
  - apply Forall_cons in Hids as [Hid Hids].
    cbn [Ftma.mark_active]. rewrite decide_False by lia.
    destruct (IH (<[id := true]> is_active)) as (marked & -> & Hlen & Hval).
    { by rewrite length_insert. }
    exists marked. rewrite length_insert in Hlen.
    split; [done|]. split; [done|].
    intros j Hj. apply Hval.
    destruct (decide (id = j)) as [-> | Hne].
    + right. by apply list_lookup_insert_eq.
    + rewrite list_lookup_insert_ne by done.
      destruct Hj as [[Heq | Hin] | Hj]; [done|by left|by right].
Qed.

(** With every client active and registered, the two recovery loops of
    [Finalize] find nothing to do. *)
Lemma recover_dropouts_all_active c active is_active dropouts aggregate :
  Forall (fun d => is_active !! d = Some true /\
                   (d < length (Ftma.clients_ double c))%nat) dropouts ->
  Ftma.recover_dropouts double c active is_active dropouts aggregate
    = Ok aggregate.
Proof.
  induction dropouts as [|d dropouts IH]; intros Hd; [done|].
  apply Forall_cons in Hd as [[Hflag Hlt] Hd].
  cbn [Ftma.recover_dropouts]. rewrite (read_lookup _ _ _ Hflag).
  destruct (lookup_lt_is_Some_2 _ d Hlt) as [s Hs].
  rewrite (read_lookup _ _ _ Hs). cbn [mbind result_bind orb]. by apply IH.
Qed.

Lemma cancel_missing_all_registered c active is_active missings aggregate :
  Forall (fun m => (m < length is_active)%nat /\
                   exists s, Ftma.clients_ double c !! m = Some s /\
                             Ftma.registered double s = true) missings ->
  Ftma.cancel_missing dist double c active is_active missings aggregate
    = Ok aggregate.
Proof.
  induction missings as [|m missings IH]; intros Hm; [done|].
  apply Forall_cons in Hm as [[Hlt (s & Hs & Hreg)] Hm].
  cbn [Ftma.cancel_missing]. rewrite (read_lookup _ _ _ Hs).
  destruct (lookup_lt_is_Some_2 _ m Hlt) as [flag Hflag].
  rewrite (read_lookup _ _ _ Hflag). cbn [mbind result_bind].
  rewrite Hreg. cbn [orb]. by apply IH.
Qed.

Lemma decode_loop_sums c participants aggregate idxs :
  wf c -> length aggregate = (D * 2)%nat ->
  Forall (fun i => (i < D)%nat) idxs ->
  exists sums means variances,
    Ftma.decode_loop double c participants aggregate idxs
      = Ok (sums, means, variances) /\
    sums = map (fun i => dbl_div (dbl_of_int (ToSigned (nth i aggregate 0)))
                                 (dbl_of_int scale)) idxs.
Proof.
  intros (HN & Ht & HD & HV & Hs & Hlen) Hagg.
  induction idxs as [|i idxs IH]; intros Hidx.
  - by exists [], [], [].
  - apply Forall_cons in Hidx as [Hi Hidx].
    destruct (IH Hidx) as (sums & means & variances & Hrun & ->).
    cbn [Ftma.decode_loop].
    rewrite (read_Some aggregate i 0), HD by lia.
    rewrite (read_Some aggregate (i + D) 0) by lia.
    cbn [mbind result_bind]. rewrite Hrun. cbn [mbind result_bind].
    rewrite Hs. eexists _, _, _. split; reflexivity.
Qed.

(** The exact integer sum of component [i] over all clients. *)
Definition total (i : nat) : Z :=
  lsum (fun id => scaled_value (metrics id) i) (seq 0 N).

Lemma payloads_minus_masks c i :
  all_registered c -> (i < D)%nat ->
  lsum (fun id => nth i (payload_of c id) 0) (seq 0 N)
    - lsum (fun id => nth i (mask_of c id) 0) (seq 0 N) ≅ total i.
Proof.
  intros [Hwf Hall] Hi.
  rewrite (lsum_eqp (fun id => nth i (payload_of c id) 0)
             (fun id => (scaled_value (metrics id) i + nth i (mask_of c id) 0)
                        + lsum (pair_term i id) (seq 0 N))).
  - rewrite !lsum_add, lsum_antisymmetric
      by (intros; apply pair_term_diag || apply pair_term_anti).
    unfold total, eqp. f_equal. ring.
  - intros id Hid%in_seq.
    destruct (Hall id ltac:(lia)) as (s & Hs & _ & (_ & _ & Hval) & _).
    unfold payload_of, mask_of. rewrite Hs. by apply Hval.
Qed.

Lemma Finalize_all_active c active :
  all_registered c -> active ≡ₚ seq 0 N ->
  (forall i, (i < D)%nat -> - (kModulus / 2) <= total i <= kModulus / 2) ->
  exists r,
    Ftma.Finalize dist double c active = Ok r /\
    Ftma.sum r = map (fun i => dbl_div (dbl_of_int (total i))
                                       (dbl_of_int scale)) (seq 0 D) /\
    Ftma.participants r = N /\ Ftma.survivors r = N.
Proof.
  intros Hall Hperm Hrange.
  pose proof Hall as [Hwf Hclients].
  pose proof Hwf as (HN & Ht & HD & HV & Hs & Hlen).
  assert (Hactive : Forall (fun id => (id < N)%nat) active).
  { apply Forall_forall. intros id Hid. rewrite Hperm in Hid.
    apply elem_of_seq in Hid. lia. }
  assert (Hseq : Forall (fun id => (id < N)%nat) (seq 0 N)).
  { apply Forall_forall. intros id Hid%elem_of_seq. lia. }
  assert (Hlen_active : length active = N).
  { rewrite Hperm. apply length_seq. }
  unfold Ftma.Finalize. rewrite Ht, HN, HV, HD.
  rewrite decide_False by lia.
  assert (forallb (fun id => bool_decide (id < N)%nat &&
                             Ftma.client_registered double c id) active = true)
    as ->.
  { apply forallb_forall. intros id Hid%list_elem_of_In.
    rewrite Forall_forall in Hactive. specialize (Hactive id Hid).
    rewrite bool_decide_eq_true_2 by done.
    destruct (Hclients id Hactive) as (s & Hs' & Hreg & _).
    unfold Ftma.client_registered. by rewrite Hs'. }
  cbn [negb].
  destruct (sum_payloads_spec c (seq 0 N) Hall Hseq (replicate (D * 2) 0) 0)
    as (agg1 & -> & Hlen1 & Hcan1 & Hval1).
  { apply length_replicate. }
  { intros i Hi. rewrite length_replicate in Hi.
    rewrite nth_lookup, lookup_replicate_2 by done. split; [done|reflexivity]. }
  cbn [mbind result_bind].
  destruct (subtract_active_masks_spec c active Hall Hactive agg1 Hlen1 Hcan1)
    as (agg2 & -> & Hlen2 & Hcan2 & Hval2).
  cbn [mbind result_bind].
  destruct (mark_active_spec active (replicate N false))
    as (is_active & -> & Hlen_flags & Hflags).
  { by rewrite length_replicate. }
  rewrite length_replicate in Hlen_flags.
  cbn [mbind result_bind].
  rewrite recover_dropouts_all_active.
  2:{ apply Forall_forall. intros d Hd. split.
      - apply Hflags. left. apply list_elem_of_In. by rewrite Hperm.
      - apply elem_of_seq in Hd. lia. }
  cbn [mbind result_bind].
  rewrite cancel_missing_all_registered.
  2:{ apply Forall_forall. intros m Hm%elem_of_seq. split; [lia|].
      destruct (Hclients m ltac:(lia)) as (s & Hs' & Hreg & _). eauto. }
  cbn [mbind result_bind].
  rewrite length_seq, Nat.add_0_l, decide_False by lia.
  destruct (decode_loop_sums c N agg2 (seq 0 D) Hwf Hlen2)
    as (sums & means & variances & -> & ->).
  { apply Forall_forall. intros i Hi%elem_of_seq. lia. }
  cbn [mbind result_bind].
  eexists. split; [reflexivity|]. cbn [Ftma.sum Ftma.participants Ftma.survivors].
  split; [|done].
  apply map_ext_in. intros i Hi%in_seq. f_equal. f_equal.
  apply ToSigned_centered; [apply Hcan2; lia| |apply Hrange; lia].
  rewrite Hval2, Hval1 by lia.
  rewrite nth_lookup, lookup_replicate_2 by lia. cbn [default].
  rewrite (lsum_perm _ active (seq 0 N)) by done.
  rewrite Z.add_0_l. apply payloads_minus_masks; [done|lia].
Qed.

(** *** [Finalize] in general: dropouts and clients that never registered *)

Definition is_registered (c : Ftma.Coordinator double) (id : nat) : bool :=
  Ftma.client_registered double c id.

Lemma registered_inv_lookup R c id :
  registered_inv R c -> (id < N)%nat ->
  exists s, Ftma.clients_ double c !! id = Some s /\
    is_registered c id = Ftma.registered double s /\
    (Ftma.registered double s = true -> In id R /\ client_ok id s) /\
    (In id R -> Ftma.registered double s = true).
Proof.
  intros (Hwf & Hinv & _) Hid.
  destruct Hwf as (_ & _ & _ & _ & _ & Hlen).
  destruct (lookup_lt_is_Some_2 (Ftma.clients_ double c) id ltac:(lia))
    as [s Hs].
  exists s. split; [done|]. split.
  { unfold is_registered, Ftma.client_registered. by rewrite Hs. }
  destruct (Hinv id s Hs) as [Hin Hout]. split.
  - intros Hreg. destruct (in_dec Nat.eq_dec id R) as [HR | HR].
    + split; [done|by apply Hin].
    + rewrite (Hout HR) in Hreg. discriminate.
  - intros HR. by apply Hin.
Qed.

Lemma registered_inv_range R c d : registered_inv R c -> In d R -> (d < N)%nat.
Proof.
  intros (Hwf & _ & Hheld) Hd.
  destruct Hwf as (_ & _ & _ & _ & _ & Hlen).
  destruct (Hheld d Hd) as (mask & _ & Hmask & _).
  destruct (Ftma.clients_ double c !! d) as [s|] eqn:Hs; [|done].
  rewrite <- Hlen. by eapply lookup_lt_Some.
Qed.

Lemma sum_payloads_registered R c ids :
  registered_inv R c ->
  Forall (fun id => (id < N)%nat) ids ->
  forall aggregate participants,
    length aggregate = (D * 2)%nat -> canonical_vector aggregate ->
    exists aggregate',
      Ftma.sum_payloads double c ids aggregate participants
        = Ok (aggregate',
              (participants + length (List.filter (is_registered c) ids))%nat) /\
      length aggregate' = (D * 2)%nat /\ canonical_vector aggregate' /\
      forall i, (i < D * 2)%nat ->
        nth i aggregate' 0 ≅
          nth i aggregate 0 +
          lsum (fun id => if is_registered c id
                          then nth i (payload_of c id) 0 else 0) ids.
Proof.
  intros Hinv. pose proof Hinv as (Hwf & _).
  pose proof Hwf as (HN & Ht & HD & HV & Hs & Hlen).
  induction ids as [|id ids IH]; intros Hids aggregate participants Hagg Hcan.
  - exists aggregate. cbn [Ftma.sum_payloads List.filter length lsum fold_right].
    rewrite Nat.add_0_r. split; [done|]. split; [done|]. split; [done|].
    intros i _. by rewrite Z.add_0_r.
  - apply Forall_cons in Hids as [Hid Hids].
    destruct (registered_inv_lookup R c id Hinv Hid)
      as (s & Hs' & Hreg & Hok & _).
    cbn [Ftma.sum_payloads List.filter]. rewrite (read_lookup _ _ _ Hs').
    cbn [mbind result_bind]. rewrite Hreg.
    destruct (Ftma.registered double s) eqn:Hregs; cbn [negb].
    + destruct (Hok eq_refl) as (_ & _ & (Hmask & Hpay & _) & _).
      rewrite HV.
      destruct (elementwise_spec Add (D * 2) aggregate
                  (Ftma.masked_payload double s) Hagg Hpay)
        as (agg1 & -> & Hlen1 & Hval1).
      cbn [mbind result_bind].
      destruct (IH Hids agg1 (S participants) Hlen1)
        as (agg' & Hrun & Hlen' & Hcan' & Hval').
      { intros i Hi. rewrite Hval1 by lia. apply Add_canonical. }
      exists agg'. rewrite Hrun. cbn [length].
      replace (S participants + length (List.filter (is_registered c) ids))%nat
        with (participants + S (length (List.filter (is_registered c) ids)))%nat
        by lia.
      split; [done|]. split; [done|]. split; [done|].
      intros i Hi. rewrite Hval', Hval1, Add_spec, lsum_cons, Hreg by done.
      unfold payload_of at 2. rewrite Hs'. unfold eqp. f_equal. ring.
    + destruct (IH Hids aggregate participants Hagg Hcan)
        as (agg' & Hrun & Hlen' & Hcan' & Hval').
      exists agg'. split; [done|]. split; [done|]. split; [done|].
      intros i Hi. rewrite Hval', lsum_cons, Hreg by done.
      apply eqp_eq. ring.
Qed.

Lemma subtract_active_masks_registered R c active :
  registered_inv R c ->
  Forall (fun id => In id R) active ->
  forall aggregate,
    length aggregate = (D * 2)%nat -> canonical_vector aggregate ->
    exists aggregate',
      Ftma.subtract_active_masks double c active aggregate = Ok aggregate' /\
      length aggregate' = (D * 2)%nat /\ canonical_vector aggregate' /\
      forall i, (i < D * 2)%nat ->
        nth i aggregate' 0 ≅
          nth i aggregate 0 - lsum (fun id => nth i (mask_of c id) 0) active.
Proof.
  intros Hinv. pose proof Hinv as (Hwf & _).
  pose proof Hwf as (HN & Ht & HD & HV & Hs & Hlen).
  induction active as [|id active IH]; intros Hids aggregate Hagg Hcan.
  - exists aggregate. cbn [Ftma.subtract_active_masks lsum fold_right].
    split; [done|]. split; [done|]. split; [done|].
    intros i _. by rewrite Z.sub_0_r.
  - apply Forall_cons in Hids as [Hid Hids].
    destruct (registered_inv_lookup R c id Hinv
                (registered_inv_range R c id Hinv Hid))
      as (s & Hs' & _ & Hok & Hin).
    destruct (Hok (Hin Hid)) as (_ & _ & (Hmask & Hpay & _) & _).
    cbn [Ftma.subtract_active_masks]. rewrite (read_lookup _ _ _ Hs'), HV.
    cbn [mbind result_bind].
    destruct (elementwise_spec Sub (D * 2) aggregate
                (Ftma.personal_mask double s) Hagg Hmask)
      as (agg1 & -> & Hlen1 & Hval1).
    cbn [mbind result_bind].
    destruct (IH Hids agg1 Hlen1) as (agg' & Hrun & Hlen' & Hcan' & Hval').
    { intros i Hi. rewrite Hval1 by lia. apply Sub_canonical. }
    exists agg'. split; [done|]. split; [done|]. split; [done|].
    intros i Hi. rewrite Hval', Hval1, Sub_spec, lsum_cons by done.
    unfold mask_of at 2. rewrite Hs'. unfold eqp. f_equal. ring.
Qed.

(** The flags [mark_active] sets, exactly. *)
Lemma mark_active_flags active :
  forall is_active,
    Forall (fun id => (id < length is_active)%nat) active ->
    exists marked,
      Ftma.mark_active active is_active = Ok marked /\
      length marked = length is_active /\
      (forall j, In j active -> marked !! j = Some true) /\
      (forall j, ~ In j active -> marked !! j = is_active !! j).
Proof.
  induction active as [|id active IH]; intros is_active Hids.
  - exists is_active. split; [done|]. split; [done|]. split; [by intros j []|done].
  - apply Forall_cons in Hids as [Hid Hids].
    cbn [Ftma.mark_active]. rewrite decide_False by lia.
    destruct (IH (<[id := true]> is_active))
      as (marked & -> & Hlen & Hin & Hout).
    { by rewrite length_insert. }
    exists marked. rewrite length_insert in Hlen.
    split; [done|]. split; [done|]. split.
    + intros j [<- | Hj]; [|by apply Hin].
      destruct (in_dec Nat.eq_dec id active) as [Hia | Hia]; [by apply Hin|].
      rewrite (Hout id Hia). by apply list_lookup_insert_eq.
    + intros j Hj. rewrite Hout by (intros Hin'; apply Hj; by right).
      apply list_lookup_insert_ne. intros ->. apply Hj. by left.
Qed.

Lemma collect_shares_spec c d grid active :
  (forall j s, j <> d -> Ftma.clients_ double c !! j = Some s ->
     Ftma.incoming_shares double s !! d = Some (nth j grid [])) ->
  Forall (fun id => id <> d /\ (id < length (Ftma.clients_ double c))%nat)
    active ->
  Ftma.collect_shares double c d active
    = Ok (map (fun id => nth id grid []) active,
          map (fun id => wrap64 (Z.of_nat (id + 1))) active).
Proof.
  intros Hshares. induction active as [|id active IH]; intros Hids; [done|].
  apply Forall_cons in Hids as [[Hne Hlt] Hids].
  destruct (lookup_lt_is_Some_2 _ id Hlt) as [s Hs].
  cbn [Ftma.collect_shares]. rewrite (read_lookup _ _ _ Hs), (IH Hids).
  cbn [mbind result_bind]. by rewrite (Hshares id s Hne Hs).
Qed.

Lemma nth_map_mod (l : list Z) i :
  nth i (map (fun s => s mod kModulus) l) 0 ≅ nth i l 0.
Proof.
  change 0 with ((fun s => s mod kModulus) 0) at 1.
  rewrite map_nth. apply eqp_mod.
Qed.

(** The flags of [Finalize] for the active list [active]. *)
Definition flags_of (active : list nat) (is_active : list bool) : Prop :=
  length is_active = N /\
  (forall j, In j active -> is_active !! j = Some true) /\
  (forall j, (j < N)%nat -> ~ In j active -> is_active !! j = Some false).

Lemma flags_of_lookup active is_active j :
  flags_of active is_active -> (j < N)%nat ->
  is_active !! j = Some (in_list active j).
Proof.
  intros (_ & Hin & Hout) Hj. unfold in_list.
  destruct (in_dec Nat.eq_dec j active); [by apply Hin|by apply Hout].
Qed.

Section finalize.
Variable R : list nat.
Variable c : Ftma.Coordinator double.
Variables (active : list nat) (is_active : list bool).
Hypothesis Hinv : registered_inv R c.
Hypothesis Hnodup : NoDup active.
Hypothesis Hactive : Forall (fun id => In id R) active.
Hypothesis Henough : (t <= length active)%nat.
Hypothesis Hfield : Z.of_nat N < kModulus.
Hypothesis Hflags : flags_of active is_active.

Lemma recover_dropouts_spec dropouts :
  Forall (fun d => (d < N)%nat) dropouts ->
  forall aggregate,
    length aggregate = (D * 2)%nat -> canonical_vector aggregate ->
    exists aggregate',
      Ftma.recover_dropouts double c active is_active dropouts aggregate
        = Ok aggregate' /\
      length aggregate' = (D * 2)%nat /\ canonical_vector aggregate' /\
      forall i, (i < D * 2)%nat ->
        nth i aggregate' 0 ≅
          nth i aggregate 0 -
          lsum (fun d => if in_list active d || negb (is_registered c d)
                         then 0 else nth i (mask_of c d) 0) dropouts.
Proof.
  pose proof Hinv as (Hwf & _ & Hheld).
  pose proof Hwf as (HN & Ht & HD & HV & Hs & Hlen).
  induction dropouts as [|d dropouts IH]; intros Hds aggregate Hagg Hcan.
  - exists aggregate. cbn [Ftma.recover_dropouts lsum fold_right].
    split; [done|]. split; [done|]. split; [done|].
    intros i _. by rewrite Z.sub_0_r.
  - apply Forall_cons in Hds as [Hd Hds].
    cbn [Ftma.recover_dropouts].
    rewrite (read_lookup _ _ _ (flags_of_lookup active is_active d Hflags Hd)).
    destruct (registered_inv_lookup R c d Hinv Hd)
      as (s & Hs' & Hreg & Hok & _).
    rewrite (read_lookup _ _ _ Hs'). cbn [mbind result_bind].
    rewrite <- Hreg.
    destruct (in_list active d || negb (is_registered c d)) eqn:Hskip.
    + destruct (IH Hds aggregate Hagg Hcan)
        as (agg' & Hrun & Hlen' & Hcan' & Hval').
      exists agg'. split; [done|]. split; [done|]. split; [done|].
      intros i Hi. rewrite Hval', lsum_cons, Hskip by done.
      apply eqp_eq. ring.
    + apply orb_false_iff in Hskip as [Hnot Hregd].
      apply negb_false_iff in Hregd. rewrite Hreg in Hregd.
      destruct (Hok Hregd) as (HdR & _ & (Hmlen & _) & _).
      destruct (Hheld d HdR) as (mask & grid & Hmask & [Hshape Hcols] & Hshares).
      rewrite Hs' in Hmask. injection Hmask as <-.
      assert (Hdactive : ~ In d active).
      { unfold in_list in Hnot. by destruct (in_dec Nat.eq_dec d active). }
      rewrite (collect_shares_spec c d grid active Hshares).
      2:{ apply Forall_forall. intros id Hid%list_elem_of_In. split.
          - intros ->. done.
          - rewrite Hlen. apply (registered_inv_range R c id Hinv).
            rewrite Forall_forall in Hactive. apply Hactive.
            by apply list_elem_of_In. }
      cbn [mbind result_bind].
      rewrite length_map, Ht, decide_False by lia.
      rewrite !firstn_map.
      assert (Hholders : Forall (fun i => (i < N)%nat) (take t active)).
      { apply Forall_take. apply Forall_forall. intros id Hid.
        apply (registered_inv_range R c id Hinv).
        rewrite Forall_forall in Hactive. by apply Hactive. }
      rewrite (map_ext_in (fun id => wrap64 (Z.of_nat (id + 1)))
                 (fun id => Z.of_nat (id + 1))).
      2:{ intros id Hid. rewrite Forall_forall in Hholders.
          specialize (Hholders id (proj2 (list_elem_of_In _ _) Hid)).
          apply Z.mod_small.
          assert (kModulus < 2 ^ 64) by reflexivity. lia. }
      rewrite (Reconstruct_shared t N (Ftma.personal_mask double s) grid
                 (proj1 Hthreshold) Hfield Hshape Hcols (take t active)).
      2:{ pose proof Hnodup as Hnd. rewrite <- (take_drop t active) in Hnd.
          by apply NoDup_app in Hnd as [Hnd _]. }
      2:{ done. }
      2:{ rewrite length_take. lia. }
      cbn [mbind result_bind]. rewrite HV.
      destruct (elementwise_spec Sub (D * 2) aggregate
                  (map (fun s => s mod kModulus) (Ftma.personal_mask double s))
                  Hagg) as (agg1 & -> & Hlen1 & Hval1).
      { by rewrite length_map. }
      cbn [mbind result_bind].
      destruct (IH Hds agg1 Hlen1) as (agg' & Hrun & Hlen' & Hcan' & Hval').
      { intros i Hi. rewrite Hval1 by lia. apply Sub_canonical. }
      exists agg'. split; [done|]. split; [done|]. split; [done|].
      intros i Hi. rewrite Hval', Hval1, Sub_spec, lsum_cons by done.
      rewrite nth_map_mod.
      replace (in_list active d || negb (is_registered c d)) with false.
      2:{ symmetry. apply orb_false_iff. split; [done|].
          apply negb_false_iff. by rewrite Hreg. }
      unfold mask_of at 2. rewrite Hs'. apply eqp_eq. ring.
Qed.

Lemma cancel_missing_one_spec missing survivors :
  (missing < N)%nat ->
  Forall (fun id => In id R /\ id <> missing) survivors ->
  forall aggregate,
    length aggregate = (D * 2)%nat -> canonical_vector aggregate ->
    exists aggregate',
      Ftma.cancel_missing_one dist double c missing survivors aggregate
        = Ok aggregate' /\
      length aggregate' = (D * 2)%nat /\ canonical_vector aggregate' /\
      forall i, (i < D * 2)%nat ->
        nth i aggregate' 0 ≅
          nth i aggregate 0 - lsum (fun id => pair_term i id missing) survivors.
Proof.
  pose proof Hinv as (Hwf & _ & _).
  pose proof Hwf as (HN & Ht & HD & HV & Hs & Hlen).
  intros Hmlt.
  induction survivors as [|id survivors IH]; intros Hids aggregate Hagg Hcan.
  - exists aggregate. cbn [Ftma.cancel_missing_one lsum fold_right].
    split; [done|]. split; [done|]. split; [done|].
    intros i _. by rewrite Z.sub_0_r.
  - apply Forall_cons in Hids as [[HidR Hne] Hids].
    destruct (registered_inv_lookup R c id Hinv
                (registered_inv_range R c id Hinv HidR))
      as (s & Hs' & _ & Hok & Hin).
    destruct (Hok (Hin HidR)) as (_ & _ & _ & Hseeds).
    cbn [Ftma.cancel_missing_one]. rewrite (read_lookup _ _ _ Hs').
    cbn [mbind result_bind].
    rewrite (Hseeds missing Hmlt ltac:(congruence)).
    unfold Ftma.GeneratePairwiseMask. rewrite HV.
    fold (pair_mask id missing).
    destruct (elementwise_spec
                (if bool_decide (id < missing)%nat then Sub else Add)
                (D * 2) aggregate (pair_mask id missing) Hagg
                (pair_mask_length id missing)) as (agg1 & -> & Hlen1 & Hval1).
    cbn [mbind result_bind].
    destruct (IH Hids agg1 Hlen1) as (agg' & Hrun & Hlen' & Hcan' & Hval').
    { intros i Hi. rewrite Hval1 by lia.
      destruct (bool_decide (id < missing)%nat);
        [apply Sub_canonical|apply Add_canonical]. }
    exists agg'. split; [done|]. split; [done|]. split; [done|].
    intros i Hi. rewrite Hval', Hval1, lsum_cons by done.
    unfold pair_term at 2. rewrite decide_False by congruence.
    destruct (bool_decide (id < missing)%nat).
    + rewrite Sub_spec. apply eqp_eq. ring.
    + rewrite Add_spec. apply eqp_eq. ring.
Qed.

Lemma cancel_missing_spec missings :
  Forall (fun m => (m < N)%nat) missings ->
  forall aggregate,
    length aggregate = (D * 2)%nat -> canonical_vector aggregate ->
    exists aggregate',
      Ftma.cancel_missing dist double c active is_active missings aggregate
        = Ok aggregate' /\
      length aggregate' = (D * 2)%nat /\ canonical_vector aggregate' /\
      forall i, (i < D * 2)%nat ->
        nth i aggregate' 0 ≅
          nth i aggregate 0 -
          lsum (fun m => if is_registered c m then 0
                         else lsum (fun id => pair_term i id m) active)
            missings.
Proof.
  induction missings as [|m missings IH]; intros Hms aggregate Hagg Hcan.
  - exists aggregate. cbn [Ftma.cancel_missing lsum fold_right].
    split; [done|]. split; [done|]. split; [done|].
    intros i _. by rewrite Z.sub_0_r.
  - apply Forall_cons in Hms as [Hm Hms].
    cbn [Ftma.cancel_missing].
    destruct (registered_inv_lookup R c m Hinv Hm)
      as (s & Hs' & Hreg & _ & Hin).
    rewrite (read_lookup _ _ _ Hs').
    rewrite (read_lookup _ _ _ (flags_of_lookup active is_active m Hflags Hm)).
    cbn [mbind result_bind]. rewrite <- Hreg.
    destruct (is_registered c m) eqn:Hregm; cbn [orb].
    + destruct (IH Hms aggregate Hagg Hcan)
        as (agg' & Hrun & Hlen' & Hcan' & Hval').
      exists agg'. split; [done|]. split; [done|]. split; [done|].
      intros i Hi. rewrite Hval', lsum_cons, Hregm by done.
      apply eqp_eq. ring.
    + assert (HmR : ~ In m R).
      { intros HmR. pose proof (Hin HmR). congruence. }
      assert (Hma : in_list active m = false).
      { unfold in_list. destruct (in_dec Nat.eq_dec m active) as [Hma|]; [|done].
        exfalso. apply HmR. rewrite Forall_forall in Hactive.
        apply Hactive. by apply list_elem_of_In. }
      rewrite Hma.
      destruct (cancel_missing_one_spec m active Hm) with (aggregate := aggregate)
        as (agg1 & -> & Hlen1 & Hcan1 & Hval1); [|done|done|].
      { apply Forall_forall. intros id Hid. split.
        - rewrite Forall_forall in Hactive. by apply Hactive.
        - intros ->. apply HmR. rewrite Forall_forall in Hactive.
          by apply Hactive. }
      cbn [mbind result_bind].
      destruct (IH Hms agg1 Hlen1 Hcan1) as (agg' & Hrun & Hlen' & Hcan' & Hval').
      exists agg'. split; [done|]. split; [done|]. split; [done|].
      intros i Hi. rewrite Hval', Hval1, lsum_cons, Hregm by done.
      apply eqp_eq. ring.
Qed.

(** The integer sum of component [i] over the registered clients. *)
Definition registered_total (i : nat) : Z :=
  lsum (fun id => if is_registered c id then scaled_value (metrics id) i else 0)
    (seq 0 N).

(** What client [d] added to component [i] on account of the clients
    that never registered. *)
Definition unmatched (i d : nat) : Z :=
  lsum (fun m => if is_registered c m then 0 else pair_term i d m) (seq 0 N).

(** The pairwise masks between a registered client that is not active
    and a client that never registered. *)
Definition residual (i : nat) : Z :=
  lsum (fun d => if is_registered c d && negb (in_list active d)
                 then unmatched i d else 0) (seq 0 N).

Lemma active_registered id :
  (id < N)%nat -> in_list active id = true -> is_registered c id = true.
Proof.
  intros Hid Hin. unfold in_list in Hin.
  destruct (in_dec Nat.eq_dec id active) as [Ha|]; [|done].
  rewrite Forall_forall in Hactive.
  destruct (registered_inv_lookup R c id Hinv Hid) as (s & _ & -> & _ & HR).
  apply HR, Hactive. by apply list_elem_of_In.
Qed.

Lemma active_range : Forall (fun id => (id < N)%nat) active.
Proof.
  apply Forall_forall. intros id Hid.
  apply (registered_inv_range R c id Hinv).
  rewrite Forall_forall in Hactive. by apply Hactive.
Qed.

Lemma matched_pairs_cancel i :
  lsum (fun id => if is_registered c id
                  then lsum (fun o => if is_registered c o
                                      then pair_term i id o else 0) (seq 0 N)
                  else 0) (seq 0 N) = 0.
Proof.
  transitivity
    (lsum (fun a => lsum (fun b => if is_registered c a && is_registered c b
                                   then pair_term i a b else 0) (seq 0 N))
       (seq 0 N)).
  - apply lsum_ext. intros id _.
    destruct (is_registered c id); cbn [andb].
    + done.
    + symmetry. apply lsum_zero.
  - apply (lsum_antisymmetric
             (fun a b => if is_registered c a && is_registered c b
                         then pair_term i a b else 0)).
    + intros a. rewrite pair_term_diag. by destruct (_ && _).
    + intros a b.
      rewrite (pair_term_anti i a b), (andb_comm (is_registered c b)).
      destruct (_ && _); ring.
Qed.

Lemma aggregate_algebra i :
  (i < D)%nat ->
  lsum (fun id => if is_registered c id then nth i (payload_of c id) 0 else 0)
    (seq 0 N)
  - lsum (fun id => nth i (mask_of c id) 0) active
  - lsum (fun d => if in_list active d || negb (is_registered c d)
                   then 0 else nth i (mask_of c d) 0) (seq 0 N)
  - lsum (fun m => if is_registered c m then 0
                   else lsum (fun id => pair_term i id m) active) (seq 0 N)
  ≅ registered_total i + residual i.
Proof.
  intros Hi.
  rewrite (lsum_eqp
             (fun id => if is_registered c id
                        then nth i (payload_of c id) 0 else 0)
             (fun id => if is_registered c id
                        then scaled_value (metrics id) i
                             + nth i (mask_of c id) 0
                             + lsum (pair_term i id) (seq 0 N)
                        else 0)).
  2:{ intros id Hid%in_seq.
      destruct (registered_inv_lookup R c id Hinv ltac:(lia))
        as (s & Hs & Hreg & Hok & _).
      rewrite Hreg. destruct (Ftma.registered double s); [|done].
      destruct (Hok eq_refl) as (_ & _ & (_ & _ & Hval) & _).
      unfold payload_of, mask_of. rewrite Hs. by apply Hval. }
  apply eqp_eq.
  rewrite (lsum_in_list (fun id => nth i (mask_of c id) 0) active N Hnodup
             active_range).
  rewrite (lsum_ext
             (fun m => if is_registered c m then 0
                       else lsum (fun id => pair_term i id m) active)
             (fun m => lsum (fun id => if in_list active id
                                       then if is_registered c m then 0
                                            else pair_term i id m
                                       else 0) (seq 0 N))).
  2:{ intros m _. destruct (is_registered c m).
      - rewrite (lsum_ext _ (fun _ => 0)), lsum_zero; [done|].
        intros id _. by destruct (in_list active id).
      - apply (lsum_in_list _ active N Hnodup active_range). }
  rewrite (lsum_swap
             (fun m id => if in_list active id
                          then if is_registered c m then 0
                               else pair_term i id m
                          else 0)).
  rewrite (lsum_ext
             (fun id => lsum (fun m => if in_list active id
                                       then if is_registered c m then 0
                                            else pair_term i id m
                                       else 0) (seq 0 N))
             (fun id => if in_list active id then unmatched i id else 0)).
  2:{ intros id _. unfold unmatched. destruct (in_list active id); [done|].
      apply lsum_zero. }
  rewrite (lsum_ext
             (fun id => if is_registered c id
                        then scaled_value (metrics id) i
                             + nth i (mask_of c id) 0
                             + lsum (pair_term i id) (seq 0 N)
                        else 0)
             (fun id => (if is_registered c id
                         then scaled_value (metrics id) i
                              + nth i (mask_of c id) 0 + unmatched i id
                         else 0)
                        + (if is_registered c id
                           then lsum (fun o => if is_registered c o
                                               then pair_term i id o else 0)
                                  (seq 0 N)
                           else 0))).
  2:{ intros id _. destruct (is_registered c id); [|done].
      unfold unmatched.
      rewrite (lsum_ext (pair_term i id)
                 (fun o => (if is_registered c o then 0 else pair_term i id o)
                           + (if is_registered c o
                              then pair_term i id o else 0))).
      - rewrite lsum_add. ring.
      - intros o _. destruct (is_registered c o); ring. }
  rewrite lsum_add, matched_pairs_cancel.
  unfold registered_total, residual.
  rewrite Z.add_0_r, <- !lsum_sub, <- lsum_add.
  apply lsum_ext. intros id Hid%in_seq.
  pose proof (active_registered id ltac:(lia)) as Har.
  destruct (in_list active id), (is_registered c id); cbn [orb andb negb];
    try ring.
  discriminate (Har eq_refl).
Qed.
End finalize.

(** [Finalize] on any duplicate-free list of at least [t] registered
    clients: the decoded aggregate is the sum over the registered
    clients plus the residual. *)
Lemma Finalize_registered R c active :
  registered_inv R c -> NoDup active -> Forall (fun id => In id R) active ->
  (t <= length active)%nat -> Z.of_nat N < kModulus ->
  exists r,
    Ftma.Finalize dist double c active = Ok r /\
    Ftma.participants r = length (List.filter (is_registered c) (seq 0 N)) /\
    Ftma.survivors r = length active /\
    Ftma.sum r =
      map (fun i =>
             dbl_div
               (dbl_of_int
                  (ToSigned ((registered_total c i + residual c active i)
                             mod kModulus)))
               (dbl_of_int scale))
        (seq 0 D).
Proof.
  intros Hinv Hnodup Hactive Henough Hfield.
  pose proof Hinv as (Hwf & _).
  pose proof Hwf as (HN & Ht & HD & HV & Hs & Hlen).
  pose proof (active_range R c active Hinv Hactive) as Hrange.
  assert (Hseq : Forall (fun id => (id < N)%nat) (seq 0 N)).
  { apply Forall_forall. intros id Hid%elem_of_seq. lia. }
  assert (Hreg : forall id, In id active -> is_registered c id = true).
  { intros id Hid. rewrite Forall_forall in Hactive, Hrange.
    apply list_elem_of_In in Hid.
    destruct (registered_inv_lookup R c id Hinv (Hrange id Hid))
      as (s & _ & -> & _ & HR). by apply HR, Hactive. }
  unfold Ftma.Finalize. rewrite Ht, HN, HV, HD.
  rewrite decide_False by lia.
  assert (forallb (fun id => bool_decide (id < N)%nat &&
                             Ftma.client_registered double c id) active = true)
    as ->.
  { apply forallb_forall. intros id Hid.
    rewrite (Hreg id Hid : Ftma.client_registered double c id = true).
    rewrite Forall_forall in Hrange.
    rewrite bool_decide_eq_true_2; [done|].
    apply Hrange. by apply list_elem_of_In. }
  cbn [negb].
  destruct (sum_payloads_registered R c (seq 0 N) Hinv Hseq
              (replicate (D * 2) 0) 0)
    as (agg1 & -> & Hlen1 & Hcan1 & Hval1).
  { apply length_replicate. }
  { intros i Hi. rewrite length_replicate in Hi.
    rewrite nth_lookup, lookup_replicate_2 by done. split; [done|reflexivity]. }
  cbn [mbind result_bind].
  destruct (subtract_active_masks_registered R c active Hinv Hactive
              agg1 Hlen1 Hcan1) as (agg2 & -> & Hlen2 & Hcan2 & Hval2).
  cbn [mbind result_bind].
  destruct (mark_active_flags active (replicate N false))
    as (is_active & -> & Hlen_flags & Hflag_in & Hflag_out).
  { rewrite length_replicate. done. }
  rewrite length_replicate in Hlen_flags.
  assert (Hflags : flags_of active is_active).
  { split; [done|]. split; [done|]. intros j Hj Hout.
    rewrite Hflag_out by done. by apply lookup_replicate_2. }
  cbn [mbind result_bind].
  destruct (recover_dropouts_spec R c active is_active Hinv Hnodup Hactive
              Henough Hfield Hflags (seq 0 N) Hseq agg2 Hlen2 Hcan2)
    as (agg3 & -> & Hlen3 & Hcan3 & Hval3).
  cbn [mbind result_bind].
  destruct (cancel_missing_spec R c active is_active Hinv Hactive Henough
              Hflags (seq 0 N) Hseq agg3 Hlen3 Hcan3)
    as (agg4 & -> & Hlen4 & Hcan4 & Hval4).
  cbn [mbind result_bind].
  rewrite Nat.add_0_l.
  rewrite decide_False.
  2:{ destruct active as [|id0 active']; [cbn [length] in Henough; lia|].
      assert (Hin0 : In id0 (List.filter (is_registered c) (seq 0 N))).
      { apply filter_In. split.
        - apply in_seq. apply Forall_cons in Hrange as [H0 _]. lia.
        - apply Hreg. by left. }
      destruct (List.filter (is_registered c) (seq 0 N)); [destruct Hin0|].
      discriminate. }
  destruct (decode_loop_sums c
              (length (List.filter (is_registered c) (seq 0 N))) agg4
              (seq 0 D) Hwf Hlen4)
    as (sums & means & variances & -> & ->).
  { apply Forall_forall. intros i Hi%elem_of_seq. lia. }
  cbn [mbind result_bind].
  eexists. split; [reflexivity|].
  cbn [Ftma.sum Ftma.participants Ftma.survivors].
  split; [done|]. split; [done|].
  apply map_ext_in. intros i Hi%in_seq. f_equal. f_equal. f_equal.
  apply canonical_eq; [apply Hcan4; lia|apply mod_kModulus_range|].
  rewrite eqp_mod.
  rewrite Hval4, Hval3, Hval2, Hval1 by lia.
  rewrite nth_lookup, lookup_replicate_2 by lia. cbn [default].
  rewrite Z.add_0_l.
  apply (aggregate_algebra R c active Hinv Hnodup Hactive Henough). lia.
Qed.

Lemma is_registered_in_list R c id :
  registered_inv R c -> (id < N)%nat -> is_registered c id = in_list R id.
Proof.
  intros Hinv Hid.
  destruct (registered_inv_lookup R c id Hinv Hid) as (s & _ & -> & Hok & HR).
  unfold in_list. destruct (in_dec Nat.eq_dec id R) as [Hin | Hout].
  - by apply HR.
  - destruct (Ftma.registered double s); [|done].
    destruct (Hok eq_refl) as [Hin _]. done.
Qed.

(** The sum and the residual in terms of the list [R] of registered
    clients. *)
Definition total_of (R : list nat) (i : nat) : Z :=
  lsum (fun id => if in_list R id then scaled_value (metrics id) i else 0)
    (seq 0 N).

Definition residual_of (R active : list nat) (i : nat) : Z :=
  lsum (fun d =>
          if in_list R d && negb (in_list active d)
          then lsum (fun m => if in_list R m then 0 else pair_term i d m)
                 (seq 0 N)
          else 0) (seq 0 N).

Lemma registered_total_of R c i :
  registered_inv R c -> registered_total c i = total_of R i.
Proof.
  intros Hinv. apply lsum_ext. intros id Hid%in_seq.
  by rewrite (is_registered_in_list R c id Hinv) by lia.
Qed.

Lemma residual_residual_of R c active i :
  registered_inv R c -> residual c active i = residual_of R active i.
Proof.
  intros Hinv. apply lsum_ext. intros d Hd%in_seq.
  rewrite (is_registered_in_list R c d Hinv) by lia.
  destruct (_ && _); [|done].
  apply lsum_ext. intros m Hm%in_seq.
  by rewrite (is_registered_in_list R c m Hinv) by lia.
Qed.

Lemma total_of_all R i :
  (forall id, (id < N)%nat -> In id R) -> total_of R i = total i.
Proof.
  intros Hall. apply lsum_ext. intros id Hid%in_seq.
  unfold in_list. destruct (in_dec Nat.eq_dec id R) as [|Hout]; [done|].
  exfalso. apply Hout, Hall. lia.
Qed.

Lemma residual_of_all R active i :
  (forall id, (id < N)%nat -> In id R) -> residual_of R active i = 0.
Proof.
  intros Hall. unfold residual_of.
  rewrite (lsum_ext _ (fun _ => 0)), lsum_zero; [done|].
  intros d _. destruct (_ && _); [|done].
  rewrite (lsum_ext _ (fun _ => 0)), lsum_zero; [done|].
  intros m Hm%in_seq.
  unfold in_list. destruct (in_dec Nat.eq_dec m R) as [|Hout]; [done|].
  exfalso. apply Hout, Hall. lia.
Qed.

Lemma registered_count R c :
  registered_inv R c -> NoDup R ->
  length (List.filter (is_registered c) (seq 0 N)) = length R.
Proof.
  intros Hinv HR. apply Permutation_length. apply NoDup_Permutation.
  - apply NoDup_ListNoDup, List.NoDup_filter, NoDup_ListNoDup, NoDup_seq.
  - done.
  - intros id. rewrite !list_elem_of_In, filter_In, in_seq. split.
    + intros [Hid Hreg].
      rewrite (is_registered_in_list R c id Hinv) in Hreg by lia.
      unfold in_list in Hreg. by destruct (in_dec Nat.eq_dec id R).
    + intros Hin. pose proof (registered_inv_range R c id Hinv Hin).
      split; [lia|]. rewrite (is_registered_in_list R c id Hinv) by lia.
      unfold in_list. by destruct (in_dec Nat.eq_dec id R).
Qed.
End aggregation.

(** C2: when all [N] clients register (in any order) and all are passed
    as active, [Finalize] returns in every component [i < D] the exact
    integer sum of the clients' rounded scaled values, divided by the
    scale, provided that sum lies within [floor(p/2)] of zero: the
    integer that [Finalize] decodes is that sum, every mask has cancelled,
    and the [sum] field is the [double] quotient of its conversion and
    the conversion of the scale. *)
Theorem ftma_all_active_exact
    (dist : MT.state -> Z * MT.state) (double : Type)
    (round_scaled : double -> Z -> Z)
    (N t D : nat) (scale rd : Z) (metrics : nat -> list double)
    (order active : list nat) :
  (1 <= t <= N)%nat -> (0 < D)%nat -> scale <> 0 ->
  order ≡ₚ seq 0 N -> active ≡ₚ seq 0 N ->
  (forall id, (id < N)%nat -> length (metrics id) = D) ->
  (forall i, (i < D)%nat ->
     - (kModulus / 2) <= total double round_scaled N scale metrics i
                      <= kModulus / 2) ->
  exists c0 c r,
    Ftma.FtmaCoordinator double N t D scale rd = Ok c0 /\
    register_all dist double round_scaled metrics c0 order = Ok c /\
    Ftma.Finalize dist double c active = Ok r /\
    Ftma.sum r =
      map (fun i =>
             dbl_div
               (dbl_of_int (total double round_scaled N scale metrics i))
               (dbl_of_int scale)) (seq 0 D) /\
    Ftma.participants r = N /\ Ftma.survivors r = N.
Proof.
  intros Ht HD Hscale Horder Hactive Hmetrics Hrange.
  destruct (FtmaCoordinator_inv dist double round_scaled N t D scale Ht metrics
              rd HD Hscale) as (c0 & Hc0 & Hinv0).
  destruct (register_all_inv dist double round_scaled N t D scale Ht metrics
              order) with (R := @nil nat) (c := c0) as (c & Hc & Hinv);
    [| |done|by intros id _ []|].
  { rewrite Horder. apply NoDup_seq. }
  { apply Forall_forall. intros id Hid. rewrite Horder in Hid.
    apply elem_of_seq in Hid. split; [lia|apply Hmetrics; lia]. }
  assert (Hall : all_registered dist double round_scaled N t D scale metrics c).
  { destruct Hinv as (Hwf & Hinv & _). split; [done|]. intros id Hid.
    destruct Hwf as (_ & _ & _ & _ & _ & Hlen).
    destruct (lookup_lt_is_Some_2 (Ftma.clients_ double c) id ltac:(lia))
      as [s Hs].
    exists s. split; [done|]. apply (Hinv id s Hs).
    rewrite app_nil_r.
    apply list_elem_of_In. rewrite Horder. apply elem_of_seq. lia. }
  destruct (Finalize_all_active dist double round_scaled N t D scale Ht metrics
              c active Hall Hactive Hrange) as (r & Hr & Hsum).
  by exists c0, c, r.
Qed.

(** The coordinator after construction and the registration of the
    clients of [order]. *)
Lemma registered_run
    (dist : MT.state -> Z * MT.state) (double : Type)
    (round_scaled : double -> Z -> Z)
    (N t D : nat) (scale rd : Z) (metrics : nat -> list double)
    (order : list nat) :
  (1 <= t <= N)%nat -> (0 < D)%nat -> scale <> 0 ->
  NoDup order -> Forall (fun id => (id < N)%nat) order ->
  (forall id, (id < N)%nat -> length (metrics id) = D) ->
  exists c0 c,
    Ftma.FtmaCoordinator double N t D scale rd = Ok c0 /\
    register_all dist double round_scaled metrics c0 order = Ok c /\
    registered_inv dist double round_scaled N t D scale metrics order c.
Proof.
  intros Ht HD Hscale Hnodup Horder Hmetrics.
  destruct (FtmaCoordinator_inv dist double round_scaled N t D scale Ht metrics
              rd HD Hscale) as (c0 & Hc0 & Hinv0).
  destruct (register_all_inv dist double round_scaled N t D scale Ht metrics
              order) with (R := @nil nat) (c := c0) as (c & Hc & Hinv);
    [done| |done|by intros id _ []|].
  { apply Forall_forall. intros id Hid. rewrite Forall_forall in Horder.
    split; [by apply Horder|apply Hmetrics; by apply Horder]. }
  rewrite app_nil_r in Hinv. by exists c0, c.
Qed.

(** [Finalize] on the coordinator of [registered_run]. *)
Lemma registered_run_finalize
    (dist : MT.state -> Z * MT.state) (double : Type)
    (round_scaled : double -> Z -> Z)
    (N t D : nat) (scale : Z) (metrics : nat -> list double)
    (order active : list nat) (c : Ftma.Coordinator double) :
  (1 <= t <= N)%nat -> Z.of_nat N < kModulus ->
  NoDup order ->
  NoDup active -> Forall (fun id => In id order) active ->
  (t <= length active)%nat ->
  registered_inv dist double round_scaled N t D scale metrics order c ->
  exists r,
    Ftma.Finalize dist double c active = Ok r /\
    Ftma.participants r = length order /\
    Ftma.survivors r = length active /\
    Ftma.sum r =
      map (fun i =>
             dbl_div
               (dbl_of_int
                  (ToSigned
                     ((total_of double round_scaled N scale metrics order i +
                       residual_of dist N D scale order active i)
                      mod kModulus)))
               (dbl_of_int scale)) (seq 0 D).
Proof.
  intros Ht Hfield Hnodup Hnodup_active Hactive Henough Hinv.
  destruct (Finalize_registered dist double round_scaled N t D scale Ht metrics
              order c active Hinv Hnodup_active Hactive Henough Hfield)
    as (r & Hr & Hpart & Hsurv & Hsum).
  exists r. split; [done|]. split; [|split; [done|]].
  - rewrite Hpart. eapply registered_count; eassumption.
  - rewrite Hsum. apply map_ext. intros i.
    rewrite (registered_total_of dist double round_scaled N t D scale Ht
               metrics order c i Hinv).
    by rewrite (residual_residual_of dist double round_scaled N t D scale Ht
                  metrics order c active i Hinv).
Qed.

(** X24.  [Finalize] after the clients of [order] have registered, for a
    duplicate-free list [active] of at least [t] of them: every component
    of the returned sum is the sum of the registered clients' scaled
    values plus the pairwise masks between the registered clients that
    are not active and the clients that never registered, reduced modulo
    [p] and decoded by [ToSigned]; the [sum] field is the [double]
    quotient of the conversion of that integer and the conversion of the
    scale. *)
Theorem ftma_finalize_aggregate
    (dist : MT.state -> Z * MT.state) (double : Type)
    (round_scaled : double -> Z -> Z)
    (N t D : nat) (scale rd : Z) (metrics : nat -> list double)
    (order active : list nat) :
  (1 <= t <= N)%nat -> (0 < D)%nat -> scale <> 0 ->
  Z.of_nat N < kModulus ->
  NoDup order -> Forall (fun id => (id < N)%nat) order ->
  NoDup active -> Forall (fun id => In id order) active ->
  (t <= length active)%nat ->
  (forall id, (id < N)%nat -> length (metrics id) = D) ->
  exists c0 c r,
    Ftma.FtmaCoordinator double N t D scale rd = Ok c0 /\
    register_all dist double round_scaled metrics c0 order = Ok c /\
    Ftma.Finalize dist double c active = Ok r /\
    Ftma.participants r = length order /\
    Ftma.survivors r = length active /\
    Ftma.sum r =
      map (fun i =>
             dbl_div
               (dbl_of_int
                  (ToSigned
                     ((total_of double round_scaled N scale metrics order i +
                       residual_of dist N D scale order active i)
                      mod kModulus)))
               (dbl_of_int scale)) (seq 0 D).
Proof.
  intros Ht HD Hscale Hfield Hnodup Horder Hnodup_active Hactive Henough
    Hmetrics.
  destruct (registered_run dist double round_scaled N t D scale rd metrics
              order Ht HD Hscale Hnodup Horder Hmetrics)
    as (c0 & c & Hc0 & Hc & Hinv).
  destruct (registered_run_finalize dist double round_scaled N t D scale
              metrics order active c Ht Hfield Hnodup Hnodup_active Hactive
              Henough Hinv) as (r & Hr & Hrest).
  by exists c0, c, r.
Qed.

(** X25.  When every client has registered, any duplicate-free list of at
    least [t] active clients gives the exact sum: the personal masks of
    the clients that dropped out are reconstructed from the shares the
    active clients hold, the integer that [Finalize] decodes is the sum
    over all clients, and the [sum] field is the [double] quotient of its
    conversion and the conversion of the scale. *)
Theorem ftma_dropout_recovery_exact
    (dist : MT.state -> Z * MT.state) (double : Type)
    (round_scaled : double -> Z -> Z)
    (N t D : nat) (scale rd : Z) (metrics : nat -> list double)
    (order active : list nat) :
  (1 <= t <= N)%nat -> (0 < D)%nat -> scale <> 0 ->
  Z.of_nat N < kModulus ->
  order ≡ₚ seq 0 N ->
  NoDup active -> Forall (fun id => (id < N)%nat) active ->
  (t <= length active)%nat ->
  (forall id, (id < N)%nat -> length (metrics id) = D) ->
  (forall i, (i < D)%nat ->
     - (kModulus / 2) <= total double round_scaled N scale metrics i
                      <= kModulus / 2) ->
  exists c0 c r,
    Ftma.FtmaCoordinator double N t D scale rd = Ok c0 /\
    register_all dist double round_scaled metrics c0 order = Ok c /\
    Ftma.Finalize dist double c active = Ok r /\
    Ftma.participants r = N /\
    Ftma.survivors r = length active /\
    Ftma.sum r =
      map (fun i =>
             dbl_div
               (dbl_of_int (total double round_scaled N scale metrics i))
               (dbl_of_int scale)) (seq 0 D).
Proof.
  intros Ht HD Hscale Hfield Horder Hnodup Hactive Henough Hmetrics Hrange.
  assert (Hall : forall id, (id < N)%nat -> In id order).
  { intros id Hid. apply list_elem_of_In. rewrite Horder.
    apply elem_of_seq. lia. }
  assert (Hnodup_order : NoDup order) by (rewrite Horder; apply NoDup_seq).
  destruct (registered_run dist double round_scaled N t D scale rd metrics
              order Ht HD Hscale Hnodup_order)
    as (c0 & c & Hc0 & Hc & Hinv); [|done|].
  { apply Forall_forall. intros id Hid. rewrite Horder in Hid.
    apply elem_of_seq in Hid. lia. }
  destruct (registered_run_finalize dist double round_scaled N t D scale
              metrics order active c Ht Hfield Hnodup_order Hnodup)
    as (r & Hr & Hpart & Hsurv & Hsum); [|done|done|].
  { apply Forall_forall. intros id Hid. rewrite Forall_forall in Hactive.
    by apply Hall, Hactive. }
  exists c0, c, r. split; [done|]. split; [done|]. split; [done|].
  split; [|split; [done|]].
  - rewrite Hpart, Horder. apply length_seq.
  - rewrite Hsum. apply map_ext_in. intros i Hi%in_seq. f_equal. f_equal.
    rewrite (total_of_all double round_scaled N t scale Ht metrics order i
               Hall).
    rewrite (residual_of_all dist N t D scale Ht order active i Hall).
    rewrite Z.add_0_r.
    apply ToSigned_centered;
      [apply mod_kModulus_range|apply eqp_mod|apply Hrange; lia].
Qed.

(** ** A client that drops out while another never registered *)

(** A distribution to run the protocol with: the engine's next output
    reduced modulo [p]. *)
Definition sample_dist (st : MT.state) : Z * MT.state :=
  let '(r, st') := MT.next st in (r mod kModulus, st').

(** Metrics that are whole numbers, for which [std::round] is exact. *)
Definition whole_round (value scale : Z) : Z := value * scale.

(** Client [id] reports the single metric [id + 1]. *)
Definition sample_metrics (id : nat) : list Z := [Z.of_nat id + 1].

(** Three clients with threshold 2, all registered with the metrics 1, 2
    and 3; client 2 drops out.  The sum over the registered clients is
    recovered. *)
Example dropout_of_registered_client_recovered :
  exists c0 c r,
    Ftma.FtmaCoordinator Z 3 2 1 1000 12345 = Ok c0 /\
    register_all sample_dist Z whole_round sample_metrics c0 [0; 1; 2]%nat
      = Ok c /\
    Ftma.Finalize sample_dist Z c [0; 1]%nat = Ok r /\
    Ftma.participants r = 3%nat /\ Ftma.survivors r = 2%nat /\
    Ftma.sum r = [dbl_div (dbl_of_int 6000) (dbl_of_int 1000)].
Proof.
  destruct (ftma_dropout_recovery_exact sample_dist Z whole_round 3 2 1 1000
              12345 sample_metrics [0; 1; 2]%nat [0; 1]%nat)
    as (c0 & c & r & Hc0 & Hc & Hr & Hpart & Hsurv & Hsum).
  - lia.
  - lia.
  - discriminate.
  - reflexivity.
  - reflexivity.
  - apply (bool_decide_unpack _). vm_compute. exact I.
  - repeat (apply Forall_cons_2; [lia|]). apply Forall_nil_2.
  - cbn [length]. lia.
  - intros id _. reflexivity.
  - intros i Hi. assert (i = 0%nat) as -> by lia.
    vm_compute. split; discriminate.
  - exists c0, c, r. split; [done|]. split; [done|]. split; [done|].
    split; [done|]. split; [done|]. rewrite Hsum. reflexivity.
Defined.

(** Four clients with threshold 2 and one metric at scale 1000.  Clients
    0, 1 and 2 register the metrics 1, 2 and 3, client 3 never registers,
    and client 2 drops out.  Whatever the distribution and the seed of
    the coordinator's engine, the aggregate [Finalize] decodes is 6000
    plus the pairwise mask of clients 2 and 3. *)
Lemma finalize_dropout_residual (dist : MT.state -> Z * MT.state) (rd : Z) :
  exists c0 c r,
    Ftma.FtmaCoordinator Z 4 2 1 1000 rd = Ok c0 /\
    register_all dist Z whole_round sample_metrics c0 [0; 1; 2]%nat = Ok c /\
    Ftma.Finalize dist Z c [0; 1]%nat = Ok r /\
    Ftma.participants r = 3%nat /\ Ftma.survivors r = 2%nat /\
    Ftma.sum r =
      [dbl_div
         (dbl_of_int
            (ToSigned ((6000 + nth 0 (pair_mask dist 1 1000 2 3) 0)
                       mod kModulus)))
         (dbl_of_int 1000)].
Proof.
  assert (Hnodup : NoDup [0; 1; 2]%nat)
    by (apply (bool_decide_unpack _); vm_compute; exact I).
  destruct (registered_run dist Z whole_round 4 2 1 1000 rd sample_metrics
              [0; 1; 2]%nat) as (c0 & c & Hc0 & Hc & Hinv).
  { lia. }
  { lia. }
  { discriminate. }
  { done. }
  { repeat (apply Forall_cons_2; [lia|]). apply Forall_nil_2. }
  { intros id _. reflexivity. }
  destruct (registered_run_finalize dist Z whole_round 4 2 1 1000
              sample_metrics [0; 1; 2]%nat [0; 1]%nat c)
    as (r & Hr & Hpart & Hsurv & Hsum).
  - lia.
  - reflexivity.
  - done.
  - apply (bool_decide_unpack _). vm_compute. exact I.
  - repeat (apply Forall_cons_2; [cbn; tauto|]). apply Forall_nil_2.
  - cbn [length]. lia.
  - done.
  - exists c0, c, r. split; [done|]. split; [done|]. split; [done|].
    split; [done|]. split; [done|].
    assert (Htotal : total_of Z whole_round 4 1000 sample_metrics
                       [0; 1; 2]%nat 0 = 6000) by (vm_compute; reflexivity).
    assert (Hresidual : residual_of dist 4 1 1000 [0; 1; 2]%nat [0; 1]%nat 0
                        = nth 0 (pair_mask dist 1 1000 2 3) 0).
    { unfold residual_of. cbn [seq lsum fold_right].
      repeat match goal with
      | |- context [in_list ?l ?x] =>
          let b := eval vm_compute in (in_list l x) in
          change (in_list l x) with b
      end.
      cbn [andb negb]. unfold pair_term.
      rewrite decide_False by lia. rewrite bool_decide_eq_true_2 by lia. ring. }
    rewrite Hsum. cbn [seq map]. by rewrite Htotal, Hresidual.
Qed.

(** C3, at the failing input: four clients with threshold 2 and one
    metric at scale 1000.  Clients 0, 1 and 2 register the metrics 1, 2
    and 3; client 3 never registers; client 2 drops out, so [Finalize]
    runs on the active clients 0 and 1, both of which hold a share of
    client 2's mask.  The scaled metrics of the registered clients add up
    to 6000, but the returned sum is 6000 plus the pairwise mask of
    clients 2 and 3, which client 2 added to its payload and which none
    of the loops of [Finalize] takes out again. *)
Example finalize_keeps_mask_of_dropout_and_unregistered :
  exists c0 c r,
    Ftma.FtmaCoordinator Z 4 2 1 1000 12345 = Ok c0 /\
    register_all sample_dist Z whole_round sample_metrics c0 [0; 1; 2]%nat
      = Ok c /\
    Ftma.Finalize sample_dist Z c [0; 1]%nat = Ok r /\
    Ftma.participants r = 3%nat /\ Ftma.survivors r = 2%nat /\
    total_of Z whole_round 4 1000 sample_metrics [0; 1; 2]%nat 0 = 6000 /\
    Ftma.sum r =
      [dbl_div (dbl_of_int 1134101475730572299) (dbl_of_int 1000)] /\
    1134101475730572299 =
      6000 + nth 0 (pair_mask sample_dist 1 1000 2 3) 0.
Proof.
  eexists _, _, _. split; [vm_compute; reflexivity|].
  split; [vm_compute; reflexivity|].
  split; [vm_compute; reflexivity|].
  repeat split; vm_compute; reflexivity.
Qed.

(** ** Instances of the theorems above *)

Lemma field_mul_inverse_witness : Mul 5 (Inverse 5) = 1.
Proof.
  apply (field_mul_inverse 5). split; reflexivity.
Defined.

Definition one_fingerprint_sample : ImagePayload :=
  mkImagePayload (replicate 769 zero) 1 769 1.

Lemma image_embed_changes_only_lsb_witness :
  exists r,
    ImageEmbed one_fingerprint_sample [] 7 = Ok r /\
    length (bytes (ie_payload r)) = length (bytes one_fingerprint_sample) /\
    height (ie_payload r) = height one_fingerprint_sample /\
    width (ie_payload r) = width one_fingerprint_sample /\
    channels (ie_payload r) = channels one_fingerprint_sample /\
    forall (i : nat) (b b' : ascii),
      bytes one_fingerprint_sample !! i = Some b ->
      bytes (ie_payload r) !! i = Some b' ->
      Z.shiftr (byte_val b') 1 = Z.shiftr (byte_val b) 1.
Proof.
  apply (image_embed_changes_only_lsb one_fingerprint_sample [] 7).
  - vm_compute. reflexivity.
  - vm_compute. discriminate.
Defined.

Lemma image_metadata_survives_one_flip_witness :
  exists r,
    ImageEmbed one_fingerprint_sample [] 7 = Ok r /\
    ie_metadata r =
      mkMetadata 1 7 (StableHash [])
        (wrap32 (total_pixels one_fingerprint_sample
                 - Z.of_nat kMetadataPayloadBits)) /\
    forall k, (k < kMetadataPayloadBits)%nat ->
      let flipped :=
        with_bytes (ie_payload r) (flip_lsb (bytes (ie_payload r)) k) in
      ExtractMetadata flipped = (ie_metadata r, true) /\
      exists d, ImageDetect flipped = Ok d /\ metadata_valid d = true.
Proof.
  apply (image_metadata_survives_one_flip one_fingerprint_sample [] 7).
  - split; [discriminate|reflexivity].
  - vm_compute. reflexivity.
  - vm_compute. discriminate.
Defined.

Lemma text_embed_detect_round_trip_witness :
  text_round_trip (list_ascii_of_string "two words") [] 7.
Proof.
  apply (text_embed_detect_round_trip (list_ascii_of_string "two words") [] 7).
  - vm_compute. reflexivity.
  - split; [discriminate|reflexivity].
Defined.

Lemma shamir_share_reconstruct_witness :
  exists shares prng',
    Shamir.ShareVector sample_dist 2 3 [5; 7] (MT.seed 1)
      = Ok (shares, prng') /\
    Shamir.Reconstruct 2
      (map (fun i => Z.of_nat (i + 1)) [2; 0]%nat)
      (map (fun i => nth i shares []) [2; 0]%nat) = Ok [5; 7].
Proof.
  apply (shamir_share_reconstruct sample_dist 2 3 [5; 7] (MT.seed 1)
           [2; 0]%nat).
  - lia.
  - reflexivity.
  - repeat (apply Forall_cons_2; [split; [discriminate|reflexivity]|]).
    apply Forall_nil_2.
  - apply (bool_decide_unpack _). vm_compute. exact I.
  - repeat (apply Forall_cons_2; [lia|]). apply Forall_nil_2.
  - cbn [length]. lia.
Defined.

Lemma ftma_all_active_exact_witness :
  exists c0 c r,
    Ftma.FtmaCoordinator Z 3 2 1 1000 12345 = Ok c0 /\
    register_all sample_dist Z whole_round sample_metrics c0 [2; 0; 1]%nat
      = Ok c /\
    Ftma.Finalize sample_dist Z c [1; 2; 0]%nat = Ok r /\
    Ftma.sum r =
      map (fun i =>
             dbl_div (dbl_of_int (total Z whole_round 3 1000 sample_metrics i))
                     (dbl_of_int 1000)) (seq 0 1) /\
    Ftma.participants r = 3%nat /\ Ftma.survivors r = 3%nat.
Proof.
  apply (ftma_all_active_exact sample_dist Z whole_round 3 2 1 1000 12345
           sample_metrics [2; 0; 1]%nat [1; 2; 0]%nat).
  - lia.
  - lia.
  - discriminate.
  - exact (Permutation_cons_append [0; 1]%nat 2%nat).
  - symmetry. exact (Permutation_cons_append [1; 2]%nat 0%nat).
  - intros id _. reflexivity.
  - intros i Hi. assert (i = 0%nat) as -> by lia.
    vm_compute. split; discriminate.
Defined.

(** * Further properties

    The zero-width codec, stripping and tokens, the outcomes of the
    image functions, the field representatives, the share grid,
    registration and [Finalize], and the word counter. *)

(** ** Metadata packing *)

Lemma testbit_byte_high x n : 0 <= x < 256 -> 8 <= n -> Z.testbit x n = false.
Proof.
  intros Hx Hn. rewrite <- (Z.mod_small x (2 ^ 8)) by (change (2 ^ 8) with 256; lia).
  rewrite Z.testbit_mod_pow2 by lia.
  by rewrite (proj2 (Z.ltb_ge n 8)) by lia.
Qed.

Ltac byte_high :=
  repeat match goal with
  | |- context [Z.testbit (byte_val ?b) ?i] =>
      rewrite (testbit_byte_high (byte_val b) i (byte_val_range b)) by lia
  end.

(** The byte at offset [k] (from the least-significant end) of a word
    assembled from bytes. *)
Lemma byte_of_word w k x :
  0 <= k ->
  (forall n, 0 <= n < 8 -> Z.testbit w (n + k) = Z.testbit (byte_val x) n) ->
  to_byte (Z.land (Z.shiftr w k) 0xFF) = x.
Proof.
  intros Hk Hbits. transitivity (to_byte (byte_val x)); [|apply to_byte_val].
  f_equal.
  rewrite land_255. apply Z.bits_inj'. intros n Hn.
  rewrite Z.testbit_mod_pow2 by lia.
  destruct (Z.ltb_spec n 8) as [Hlt | Hge].
  - rewrite Z.shiftr_spec by lia. by apply Hbits.
  - by rewrite (testbit_byte_high (byte_val x) n (byte_val_range x)).
Qed.

Ltac word_byte :=
  let n := fresh "n" in
  let Hn := fresh "Hn" in
  apply byte_of_word; [lia|]; intros n Hn;
  repeat tb_step; repeat ltb_step; byte_high;
  cbn [andb orb]; rewrite ?orb_false_r, ?andb_false_r; cbn [andb orb];
  try reflexivity; try (f_equal; lia).

Lemma write_u32_read_u32 (a b c d : ascii) :
  write_u32 (read_u32 [a; b; c; d]) = [a; b; c; d].
Proof.
  unfold write_u32, read_u32, src_at, wrap32. cbn [nth].
  repeat f_equal; try word_byte.
  rewrite <- (Z.shiftr_0_r (Z.lor _ _)). word_byte.
Qed.

Lemma write_u64_read_u64 (a b c d e f g h : ascii) :
  write_u64 (read_u64 [a; b; c; d; e; f; g; h]) = [a; b; c; d; e; f; g; h].
Proof.
  unfold write_u64, read_u64, src_at, wrap64.
  cbn [nth map seq fold_left].
  change (56 - 0 * 8) with 56. change (56 - 1 * 8) with 48.
  change (56 - 2 * 8) with 40. change (56 - 3 * 8) with 32.
  change (56 - 4 * 8) with 24. change (56 - 5 * 8) with 16.
  change (56 - 6 * 8) with 8. change (56 - 7 * 8) with 0.
  repeat f_equal; word_byte.
Qed.

Lemma testbit_above k x n :
  0 <= k -> 0 <= x < 2 ^ k -> k <= n -> Z.testbit x n = false.
Proof.
  intros Hk Hx Hn. rewrite <- (Z.mod_small x (2 ^ k)) by lia.
  rewrite Z.testbit_mod_pow2 by lia. by rewrite (proj2 (Z.ltb_ge n k)).
Qed.

Lemma lor_range k x y :
  0 <= k -> 0 <= x < 2 ^ k -> 0 <= y < 2 ^ k -> 0 <= Z.lor x y < 2 ^ k.
Proof.
  intros Hk Hx Hy.
  assert (Z.lor x y = Z.lor x y mod 2 ^ k) as ->.
  { apply Z.bits_inj'. intros n Hn. rewrite Z.testbit_mod_pow2 by lia.
    destruct (Z.ltb_spec n k) as [Hlt | Hge]; [done|].
    by rewrite Z.lor_spec, (testbit_above k x n), (testbit_above k y n). }
  apply Z.mod_pos_bound. lia.
Qed.

Lemma read_u32_range bs : 0 <= read_u32 bs < 2 ^ 32.
Proof.
  unfold read_u32.
  pose proof (wrap32_range (Z.shiftl (src_at bs 0) 24)).
  pose proof (wrap32_range (Z.shiftl (src_at bs 1) 16)).
  pose proof (wrap32_range (Z.shiftl (src_at bs 2) 8)).
  pose proof (byte_val_range (nth 3 bs zero)). fold (src_at bs 3) in *.
  repeat apply lor_range; lia.
Qed.

Lemma read_u64_range bs : 0 <= read_u64 bs < 2 ^ 64.
Proof.
  unfold read_u64. cbn [seq fold_left].
  pose proof (byte_val_range (nth 7 bs zero)). fold (src_at bs 7) in *.
  apply lor_range; [lia|apply wrap64_range|lia].
Qed.

Lemma read_u32_prefix a b c d rest :
  read_u32 (a :: b :: c :: d :: rest) = read_u32 [a; b; c; d].
Proof. unfold read_u32, src_at. cbn [nth]. reflexivity. Qed.

Lemma read_u64_prefix a b c d e f g h rest :
  read_u64 (a :: b :: c :: d :: e :: f :: g :: h :: rest)
    = read_u64 [a; b; c; d; e; f; g; h].
Proof. unfold read_u64, src_at. cbn [seq fold_left nth]. reflexivity. Qed.

(** X1.  [UnpackMetadata] accepts exactly the vectors of 24 bytes, the fields
    it reads fit their types, and packing them again gives the vector
    back. *)
Theorem unpack_metadata_inverts_pack bs :
  match UnpackMetadata bs with
  | Some meta =>
      length bs = 24%nat /\ meta_wf meta /\ PackMetadata meta = bs
  | None => length bs <> 24%nat
  end.
Proof.
  unfold UnpackMetadata. destruct (decide (length bs = 24%nat)) as [Hlen | Hlen];
    [|done].
  split; [done|]. split.
  { unfold meta_wf. cbn [version state_seed key_hash fingerprint_length].
    repeat split; apply read_u32_range || apply read_u64_range. }
  do 24 (destruct bs as [|? bs]; [discriminate Hlen|]).
  destruct bs; [|discriminate Hlen].
  unfold PackMetadata. cbn [version state_seed key_hash fingerprint_length drop].
  rewrite !(read_u32_prefix _ _ _ _ (_ :: _)).
  rewrite !(read_u64_prefix _ _ _ _ _ _ _ _ (_ :: _)).
  by rewrite !write_u32_read_u32, !write_u64_read_u64.
Qed.

(** X2.  Packing metadata whose fields fit their types and unpacking the 24
    bytes returns the metadata. *)
Theorem pack_metadata_round_trip meta :
  0 <= version meta < 2 ^ 32 -> 0 <= state_seed meta < 2 ^ 64 ->
  0 <= key_hash meta < 2 ^ 64 -> 0 <= fingerprint_length meta < 2 ^ 32 ->
  length (PackMetadata meta) = 24%nat /\
  UnpackMetadata (PackMetadata meta) = Some meta.
Proof.
  intros Hv Hs Hk Hf. split; [apply PackMetadata_length|].
  apply UnpackMetadata_PackMetadata. unfold meta_wf. auto.
Qed.

Lemma pack_metadata_round_trip_witness :
  length (PackMetadata (mkMetadata 1 7 99 12)) = 24%nat /\
  UnpackMetadata (PackMetadata (mkMetadata 1 7 99 12))
    = Some (mkMetadata 1 7 99 12).
Proof.
  apply (pack_metadata_round_trip (mkMetadata 1 7 99 12));
    cbn [version state_seed key_hash fingerprint_length]; lia.
Defined.

(** ** UTF-8 *)

(** Checking a property of small numbers case by case. *)
Fixpoint all_below (n : nat) (P : Z -> bool) : bool :=
  match n with
  | O => true
  | S k => P (Z.of_nat k) && all_below k P
  end.

Lemma all_below_spec n P z :
  all_below n P = true -> 0 <= z < Z.of_nat n -> P z = true.
Proof.
  induction n as [|n IH]; intros Hall Hz; [lia|].
  cbn [all_below] in Hall. apply andb_prop in Hall as [Hn Hall].
  destruct (Z.eq_dec z (Z.of_nat n)) as [-> | Hne]; [done|].
  apply IH; [done|lia].
Qed.

Definition lead2_ok (h : Z) : bool :=
  let f := byte_val (to_byte (Z.lor 0xC0 h)) in
  negb (f <? 0x80) && (Z.land f 0xE0 =? 0xC0) && (Z.land f 0x1F =? h).

Definition lead3_ok (h : Z) : bool :=
  let f := byte_val (to_byte (Z.lor 0xE0 h)) in
  negb (f <? 0x80) && negb (Z.land f 0xE0 =? 0xC0) &&
  (Z.land f 0xF0 =? 0xE0) && (Z.land f 0x0F =? h).

Definition cont_ok (l : Z) : bool :=
  Z.land (byte_val (to_byte (Z.lor 0x80 l))) 0x3F =? l.

Lemma land_ones_mod a k : 0 <= k -> Z.land a (Z.ones k) = a mod 2 ^ k.
Proof. apply Z.land_ones. Qed.

Lemma two_byte_value cp :
  0 <= cp < 0x800 ->
  Z.lor (Z.shiftl (Z.land (Z.shiftr cp 6) 0x1F) 6) (Z.land cp 0x3F) = cp.
Proof.
  intros Hcp. change 0x1F with (Z.ones 5). change 0x3F with (Z.ones 6).
  rewrite !land_ones_mod by lia.
  apply Z.bits_inj'. intros n Hn.
  assert (n < 6 \/ 6 <= n < 11 \/ 11 <= n) as [H | [H | H]] by lia; tb_window.
  symmetry. apply (testbit_above 11); lia.
Qed.

Lemma three_byte_value cp :
  0 <= cp < 0x10000 ->
  Z.lor (Z.lor (Z.shiftl (Z.land (Z.shiftr cp 12) 0x0F) 12)
               (Z.shiftl (Z.land (Z.shiftr cp 6) 0x3F) 6))
        (Z.land cp 0x3F) = cp.
Proof.
  intros Hcp. change 0x0F with (Z.ones 4). change 0x3F with (Z.ones 6).
  rewrite !land_ones_mod by lia.
  apply Z.bits_inj'. intros n Hn.
  assert (n < 6 \/ 6 <= n < 12 \/ 12 <= n < 16 \/ 16 <= n)
    as [H | [H | [H | H]]] by lia; tb_window.
  symmetry. apply (testbit_above 16); lia.
Qed.

Lemma land_ones_range a k : 0 <= k -> 0 <= Z.land a (Z.ones k) < 2 ^ k.
Proof. intros Hk. rewrite land_ones_mod by done. apply Z.mod_pos_bound. lia. Qed.

Lemma lead2_facts h :
  0 <= h < 32 ->
  let f := byte_val (to_byte (Z.lor 0xC0 h)) in
  (f <? 0x80) = false /\ (Z.land f 0xE0 =? 0xC0) = true /\ Z.land f 0x1F = h.
Proof.
  intros Hh f.
  pose proof (all_below_spec 32 lead2_ok h eq_refl ltac:(lia)) as H.
  unfold lead2_ok in H. fold f in H.
  apply andb_prop in H as [H H3]. apply andb_prop in H as [H1 H2].
  apply negb_true_iff in H1. apply Z.eqb_eq in H3. done.
Qed.

Lemma lead3_facts h :
  0 <= h < 16 ->
  let f := byte_val (to_byte (Z.lor 0xE0 h)) in
  (f <? 0x80) = false /\ (Z.land f 0xE0 =? 0xC0) = false /\
  (Z.land f 0xF0 =? 0xE0) = true /\ Z.land f 0x0F = h.
Proof.
  intros Hh f.
  pose proof (all_below_spec 16 lead3_ok h eq_refl ltac:(lia)) as H.
  unfold lead3_ok in H. fold f in H.
  apply andb_prop in H as [H H4]. apply andb_prop in H as [H H3].
  apply andb_prop in H as [H1 H2].
  apply negb_true_iff in H1, H2. apply Z.eqb_eq in H4. done.
Qed.

Lemma cont_facts l :
  0 <= l < 64 -> Z.land (byte_val (to_byte (Z.lor 0x80 l))) 0x3F = l.
Proof.
  intros Hl.
  pose proof (all_below_spec 64 cont_ok l eq_refl ltac:(lia)) as H.
  unfold cont_ok in H. by apply Z.eqb_eq in H.
Qed.

(** X3.  Every code point of the basic plane is read back by the decoding
    block of [DecodeZeroWidthBits], [StripZeroWidth] and [Detect] from the
    bytes that the writer of [EncodeZeroWidthBits] produces for it, whatever
    follows, and the block consumes exactly those bytes. *)
Theorem utf8_decode_encode cp rest :
  0 <= cp < 0x10000 ->
  decode_cp (utf8_encode cp ++ rest) = Some (cp, length (utf8_encode cp)).
Proof.
  intros Hcp. unfold utf8_encode.
  destruct (Z.leb_spec cp 0x7F) as [H1 | H1].
  - cbn [app length decode_cp].
    rewrite byte_val_to_byte_mod, Z.mod_small by lia.
    destruct (Z.ltb_spec cp 0x80); [done|lia].
  - destruct (Z.leb_spec cp 0x7FF) as [H2 | H2].
    + pose proof (land_ones_range (Z.shiftr cp 6) 5 ltac:(lia)) as Hh.
      pose proof (land_ones_range cp 6 ltac:(lia)) as Hl.
      change (Z.ones 5) with 0x1F in Hh. change (Z.ones 6) with 0x3F in Hl.
      change (2 ^ 5) with 32 in Hh. change (2 ^ 6) with 64 in Hl.
      destruct (lead2_facts _ Hh) as (F1 & F2 & F3).
      pose proof (cont_facts _ Hl) as F4.
      cbn [app length decode_cp nth].
      rewrite F1, F2, F3, F4.
      rewrite bool_decide_eq_true_2 by lia. cbn [andb].
      rewrite two_byte_value by lia. done.
    + pose proof (land_ones_range (Z.shiftr cp 12) 4 ltac:(lia)) as Hh.
      pose proof (land_ones_range (Z.shiftr cp 6) 6 ltac:(lia)) as Hm.
      pose proof (land_ones_range cp 6 ltac:(lia)) as Hl.
      change (Z.ones 4) with 0x0F in Hh. change (Z.ones 6) with 0x3F in Hm, Hl.
      change (2 ^ 4) with 16 in Hh. change (2 ^ 6) with 64 in Hm, Hl.
      destruct (lead3_facts _ Hh) as (F1 & F2 & F3 & F4).
      pose proof (cont_facts _ Hm) as F5.
      pose proof (cont_facts _ Hl) as F6.
      cbn [app length decode_cp nth].
      rewrite F1, F2, F3, F4, F5, F6.
      rewrite bool_decide_eq_true_2 by lia. cbn [andb].
      rewrite three_byte_value by lia. done.
Qed.

Lemma utf8_decode_encode_witness :
  decode_cp (utf8_encode 0x20AC ++ []) = Some (0x20AC, length (utf8_encode 0x20AC)).
Proof. apply (utf8_decode_encode 0x20AC []). lia. Defined.

(** ** Zero-width bit runs *)

Lemma mark_bytes_normal bit :
  mark_bytes (if bit =? 0 then 0 else 1) = mark_bytes bit.
Proof. unfold mark_bytes. by destruct (bit =? 0). Qed.

Lemma flat_map_mark_bytes_normal bits :
  flat_map mark_bytes (map (fun bit => if bit =? 0 then 0 else 1) bits)
    = flat_map mark_bytes bits.
Proof.
  induction bits as [|bit bits IH]; [done|].
  cbn [map flat_map]. by rewrite IH, mark_bytes_normal.
Qed.

Lemma normal_bits_are_bits bits :
  Forall is_bit (map (fun bit => if bit =? 0 then 0 else 1) bits).
Proof.
  apply Forall_forall. intros b (bit & -> & _)%list_elem_of_fmap.
  destruct (bit =? 0); [by left|by right].
Qed.

Lemma flat_map_mark_bytes_length bits :
  length (flat_map mark_bytes bits) = (3 * length bits)%nat.
Proof.
  induction bits as [|b l IH]; [done|].
  cbn [flat_map]. rewrite length_app, mark_bytes_length, IH. cbn [length]. lia.
Qed.

Lemma EncodeZeroWidthBits_marks bits :
  EncodeZeroWidthBits bits false = flat_map mark_bytes bits.
Proof.
  unfold EncodeZeroWidthBits. cbn [app]. rewrite app_nil_r.
  induction bits as [|bit bits IH]; [done|]. cbn [map flat_map]. by rewrite IH.
Qed.

(** X4.  A run of bits written between the two sentinels is read back,
    each bit as 0 or 1 by the test [bit == 0] of the writer, and the
    offset is left just behind the closing sentinel. *)
Theorem zero_width_bits_round_trip bits body :
  DecodeZeroWidthBits (EncodeZeroWidthBits bits true ++ body) true =
    (map (fun bit => if bit =? 0 then 0 else 1) bits, body).
Proof.
  unfold DecodeZeroWidthBits. rewrite EncodeZeroWidthBits_sentinels.
  set (tail := flat_map mark_bytes bits ++ utf8_encode kZeroWidthMetaEnd).
  change (utf8_encode kZeroWidthMetaStart ++ tail)
    with (to_byte 226 :: to_byte 129 :: to_byte 163 :: tail).
  cbn [app].
  change (decode_cp (to_byte 226 :: to_byte 129 :: to_byte 163 :: tail ++ body))
    with (Some (kZeroWidthMetaStart, 3%nat)).
  cbn [negb Z.eqb kZeroWidthMetaStart Pos.eqb drop]. rewrite drop_0.
  unfold tail. rewrite <- app_assoc, <- flat_map_mark_bytes_normal.
  apply zero_width_loop_marks; [apply normal_bits_are_bits|].
  rewrite length_map. cbn [length]. rewrite !length_app.
  rewrite flat_map_mark_bytes_normal, flat_map_mark_bytes_length. lia.
Qed.

Definition not_a_mark (body : list ascii) : Prop :=
  match decode_cp body with
  | Some (cp, _) => cp <> kZeroWidthZero /\ cp <> kZeroWidthOne
  | None => True
  end.

Lemma zero_width_loop_unframed bits body fuel :
  not_a_mark body ->
  (length bits <= fuel)%nat ->
  zero_width_loop fuel false (flat_map mark_bytes bits ++ body) =
    (map (fun bit => if bit =? 0 then 0 else 1) bits, body).
Proof.
  intros Hbody. revert fuel. induction bits as [|bit bits IH]; intros fuel Hfuel.
  - cbn [flat_map app map]. destruct fuel as [|fuel]; [done|].
    cbn [zero_width_loop]. destruct body as [|b body]; [done|].
    unfold not_a_mark in Hbody.
    destruct (decode_cp (b :: body)) as [[cp n]|]; [|done].
    destruct Hbody as [H0 H1]. apply Z.eqb_neq in H0, H1.
    cbn [andb]. by rewrite H0, H1.
  - destruct fuel as [|fuel]; [simpl in Hfuel; lia|].
    cbn [flat_map map]. rewrite <- app_assoc.
    destruct (mark_bytes_head bit (flat_map mark_bytes bits ++ body)) as [m Hm].
    cbn [zero_width_loop]. rewrite Hm at 1.
    rewrite decode_cp_mark, mark_bytes_drop, IH by (simpl in Hfuel; lia).
    by destruct (bit =? 0).
Qed.

(** X5.  Without sentinels a run of bits is read back up to the first code
    point that is neither of the two marks, and the offset is left on that
    code point. *)
Theorem zero_width_bits_round_trip_unframed bits body :
  not_a_mark body ->
  DecodeZeroWidthBits (EncodeZeroWidthBits bits false ++ body) false =
    (map (fun bit => if bit =? 0 then 0 else 1) bits, body).
Proof.
  intros Hbody. unfold DecodeZeroWidthBits. rewrite EncodeZeroWidthBits_marks.
  apply zero_width_loop_unframed; [done|].
  rewrite length_app, flat_map_mark_bytes_length. lia.
Qed.

Lemma zero_width_bits_round_trip_unframed_witness :
  DecodeZeroWidthBits
    (EncodeZeroWidthBits [1; 0; 1] false ++ [to_byte 0x61; to_byte 0x62]) false
    = (map (fun bit => if bit =? 0 then 0 else 1) [1; 0; 1],
       [to_byte 0x61; to_byte 0x62]).
Proof.
  apply (zero_width_bits_round_trip_unframed [1; 0; 1]
           [to_byte 0x61; to_byte 0x62]).
  vm_compute. split; discriminate.
Defined.

Lemma decode_cp_mark_consumed rest cp n :
  decode_cp rest = Some (cp, n) ->
  cp = kZeroWidthZero \/ cp = kZeroWidthOne -> n = 3%nat.
Proof.
  destruct rest as [|first more]; [done|]. unfold decode_cp.
  destruct (byte_val first <? 128) eqn:H1.
  { intros [= <- <-] Hcp. apply Z.ltb_lt in H1.
    unfold kZeroWidthZero, kZeroWidthOne in Hcp. lia. }
  destruct (_ && _).
  { intros [= <- <-] Hcp.
    pose proof (cp2_not_zero_width (byte_val first) (byte_val (nth 0 more zero)))
      as Hzw.
    destruct Hcp as [Hcp | Hcp]; rewrite Hcp in Hzw; vm_compute in Hzw;
      discriminate. }
  destruct (_ && _); [|done]. by intros [= <- <-].
Qed.

Lemma zero_width_loop_invariants fuel ws rest :
  let '(bits, rest') := zero_width_loop fuel ws rest in
  Forall is_bit bits /\
  exists pre, rest = pre ++ rest' /\ (3 * length bits <= length pre)%nat.
Proof.
  revert rest. induction fuel as [|fuel IH]; intros rest.
  { cbn [zero_width_loop]. split; [constructor|]. by exists []. }
  cbn [zero_width_loop]. destruct rest as [|b t].
  { split; [constructor|]. by exists []. }
  destruct (decode_cp (b :: t)) as [[cp n]|] eqn:Hd.
  2:{ split; [constructor|]. by exists []. }
  pose proof (decode_cp_consumed _ _ _ Hd) as Hn.
  assert (Hsplit : b :: t = take n (b :: t) ++ drop n (b :: t))
    by (by rewrite take_drop).
  assert (Hpre : length (take n (b :: t)) = n)
    by (rewrite length_take; lia).
  destruct (ws && (cp =? kZeroWidthMetaEnd)).
  { split; [constructor|]. exists (take n (b :: t)). split; [done|].
    cbn [length]. lia. }
  destruct (Z.eqb_spec cp kZeroWidthZero) as [Hz | Hz].
  { specialize (IH (drop n (b :: t))).
    destruct (zero_width_loop fuel ws (drop n (b :: t))) as [bits rest'].
    destruct IH as (Hbits & pre & Hrest & Hlen).
    split; [apply Forall_cons_2; [by left|done]|].
    exists (take n (b :: t) ++ pre). split.
    - rewrite <- app_assoc, <- Hrest. done.
    - rewrite length_app, Hpre.
      rewrite (decode_cp_mark_consumed _ _ _ Hd) by auto. cbn [length]. lia. }
  destruct (Z.eqb_spec cp kZeroWidthOne) as [Ho | Ho].
  { specialize (IH (drop n (b :: t))).
    destruct (zero_width_loop fuel ws (drop n (b :: t))) as [bits rest'].
    destruct IH as (Hbits & pre & Hrest & Hlen).
    split; [apply Forall_cons_2; [by right|done]|].
    exists (take n (b :: t) ++ pre). split.
    - rewrite <- app_assoc, <- Hrest. done.
    - rewrite length_app, Hpre.
      rewrite (decode_cp_mark_consumed _ _ _ Hd) by auto. cbn [length]. lia. }
  destruct (negb ws).
  { split; [constructor|]. by exists []. }
  specialize (IH (drop n (b :: t))).
  destruct (zero_width_loop fuel ws (drop n (b :: t))) as [bits rest'].
  destruct IH as (Hbits & pre & Hrest & Hlen).
  split; [done|].
  exists (take n (b :: t) ++ pre). split.
  - rewrite <- app_assoc, <- Hrest. done.
  - rewrite length_app. lia.
Qed.

(** X6.  Whatever the payload, the bits [DecodeZeroWidthBits] returns are
    0 or 1, the offset it leaves marks a suffix of the payload, and every
    bit accounts for three bytes of what was consumed. *)
Theorem decode_zero_width_bits_invariants payload with_sentinels :
  let '(bits, rest) := DecodeZeroWidthBits payload with_sentinels in
  Forall is_bit bits /\
  exists consumed,
    payload = consumed ++ rest /\ (3 * length bits <= length consumed)%nat.
Proof.
  assert (Hnone : Forall is_bit [] /\ exists consumed : list ascii,
             payload = consumed ++ payload /\
             (3 * length (@nil Z) <= length consumed)%nat).
  { split; [constructor|]. by exists []. }
  unfold DecodeZeroWidthBits. destruct with_sentinels.
  2:{ apply zero_width_loop_invariants. }
  destruct payload as [|b t]; [done|].
  destruct (decode_cp (b :: t)) as [[cp n]|] eqn:Hd.
  2:{ done. }
  destruct (negb (cp =? kZeroWidthMetaStart)); [done|].
  pose proof (zero_width_loop_invariants (length (b :: t)) true
                (drop n (b :: t))) as H.
  destruct (zero_width_loop (length (b :: t)) true (drop n (b :: t)))
    as [bits rest'].
  destruct H as (Hbits & pre & Hrest & Hlen).
  split; [done|]. exists (take n (b :: t) ++ pre). split.
  - rewrite <- app_assoc, <- Hrest. by rewrite take_drop.
  - rewrite length_app. lia.
Qed.

(** ** Stripping *)

Lemma decode_or_byte_consumed rest cp n :
  rest <> [] -> decode_or_byte rest = (cp, n) -> (1 <= n <= length rest)%nat.
Proof.
  intros Hne. unfold decode_or_byte.
  destruct (decode_cp rest) as [[cp' n']|] eqn:Hd.
  - intros [= <- <-]. by eapply decode_cp_consumed.
  - intros [= <- <-]. destruct rest; [done|]. cbn [length]. lia.
Qed.

(** A unit that was kept is decoded in the same way in front of any
    shorter continuation. *)
Lemma decode_or_byte_kept b t cp n suffix :
  decode_or_byte (b :: t) = (cp, n) ->
  (length suffix <= length (drop n (b :: t)))%nat ->
  decode_or_byte (take n (b :: t) ++ suffix) = (cp, n).
Proof.
  unfold decode_or_byte. intros Hd Hlen.
  destruct (decode_cp (b :: t)) as [[cp' n']|] eqn:Hc.
  - injection Hd as <- <-. by rewrite (decode_cp_prefix _ _ _ _ Hc).
  - injection Hd as <- <-. cbn [take app drop] in *.
    rewrite take_0. cbn [app].
    by rewrite (decode_cp_None_shorter b t suffix Hc Hlen).
Qed.

Lemma strip_loop_fixed fuel rest fuel' :
  (length rest <= fuel)%nat ->
  (length (strip_loop fuel rest) <= fuel')%nat ->
  strip_loop fuel' (strip_loop fuel rest) = strip_loop fuel rest.
Proof.
  revert rest fuel'. induction fuel as [|fuel IH]; intros rest fuel' Hfuel Hfuel'.
  { by destruct fuel'. }
  destruct rest as [|b t]; [by destruct fuel'|].
  cbn [strip_loop] in *.
  destruct (decode_or_byte (b :: t)) as [cp n] eqn:Hd.
  pose proof (decode_or_byte_consumed (b :: t) cp n ltac:(done) Hd) as Hn.
  assert (Hdrop : (length (drop n (b :: t)) <= fuel)%nat).
  { rewrite length_drop. cbn [length] in *. lia. }
  destruct (is_zero_width cp) eqn:Hzw.
  { cbn [app] in *. by apply IH. }
  set (s := strip_loop fuel (drop n (b :: t))) in *.
  assert (Hs : (length s <= length (drop n (b :: t)))%nat)
    by apply strip_loop_length.
  assert (Htake : take n (b :: t) ++ s
                  = b :: (take (n - 1) t ++ s)).
  { destruct n as [|n]; [lia|].
    replace (S n - 1)%nat with n by lia. done. }
  rewrite length_app, length_take in Hfuel'.
  destruct fuel' as [|fuel']; [lia|].
  rewrite Htake at 1. cbn [strip_loop]. rewrite <- Htake.
  rewrite (decode_or_byte_kept b t cp n s Hd Hs), Hzw.
  rewrite take_app_length', drop_app_length' by (rewrite length_take; lia).
  f_equal. apply IH; [done|]. fold s. lia.
Qed.

(** X7.  [StripZeroWidth] removes every zero-width code point it can
    decode: stripping a second time changes nothing. *)
Theorem strip_zero_width_idempotent payload :
  StripZeroWidth (StripZeroWidth payload) = StripZeroWidth payload.
Proof. unfold StripZeroWidth. by apply strip_loop_fixed. Qed.

Lemma strip_loop_zero_width fuel cp rest :
  is_zero_width cp = true ->
  strip_loop (S fuel) (utf8_encode cp ++ rest) = strip_loop fuel rest.
Proof.
  intros Hzw. unfold is_zero_width in Hzw.
  repeat (apply orb_prop in Hzw as [Hzw | Hzw]);
    apply Z.eqb_eq in Hzw; subst cp; reflexivity.
Qed.

Lemma strip_loop_zero_width_run cps rest fuel :
  Forall (fun cp => is_zero_width cp = true) cps ->
  (length (flat_map utf8_encode cps ++ rest) <= fuel)%nat ->
  strip_loop fuel (flat_map utf8_encode cps ++ rest)
    = strip_loop (length rest) rest.
Proof.
  intros Hzw. revert fuel. induction Hzw as [|cp cps Hcp _ IH]; intros fuel Hfuel.
  { cbn [flat_map app] in *. by apply strip_loop_fuel_ge. }
  cbn [flat_map] in *. rewrite <- app_assoc in *.
  rewrite length_app in Hfuel.
  assert (Hlen : length (utf8_encode cp) = 3%nat).
  { unfold is_zero_width in Hcp.
    repeat (apply orb_prop in Hcp as [Hcp | Hcp]);
      apply Z.eqb_eq in Hcp; subst cp; reflexivity. }
  destruct fuel as [|fuel]; [lia|].
  rewrite strip_loop_zero_width by done. apply IH. lia.
Qed.

Lemma EncodeZeroWidthBits_zero_width bits sentinels :
  exists cps,
    EncodeZeroWidthBits bits sentinels = flat_map utf8_encode cps /\
    Forall (fun cp => is_zero_width cp = true) cps.
Proof.
  unfold EncodeZeroWidthBits. eexists. split; [reflexivity|].
  assert (H : Forall (fun cp => is_zero_width cp = true)
            ((if sentinels then [kZeroWidthMetaStart] else []) ++
             map (fun bit => if bit =? 0 then kZeroWidthZero else kZeroWidthOne)
               bits ++
             (if sentinels then [kZeroWidthMetaEnd] else []))).
  { apply Forall_app. split; [destruct sentinels; by repeat constructor|].
    apply Forall_app. split; [|destruct sentinels; by repeat constructor].
    apply Forall_forall. intros cp (bit & -> & _)%list_elem_of_fmap.
    by destruct (bit =? 0). }
  done.
Qed.

Lemma strip_watermarked payload key seed :
  utf8_aligned payload = true ->
  StripZeroWidth (watermarked_text (TextEmbed payload key seed))
    = StripZeroWidth payload.
Proof.
  intros Hal. unfold TextEmbed. cbn [watermarked_text].
  set (cleaned := StripZeroWidth payload).
  set (fbits := TextComputeCombinedBits _ _ _).
  set (meta := mkMetadata _ _ _ _).
  rewrite embed_loop_weave. cbn [app in_token].
  set (body := weave fbits cleaned 0 false).
  assert (Hclean : clean cleaned) by (by apply strip_aligned_clean).
  unfold EncodeMetadata.
  destruct (EncodeZeroWidthBits_zero_width (bytes_to_bits (PackMetadata meta))
              true) as (cps & -> & Hzw).
  unfold StripZeroWidth at 1.
  rewrite strip_loop_zero_width_run by done.
  by apply strip_weave.
Qed.

(** X8.  For a payload whose multi-byte leads have their continuation
    bytes, stripping the watermarked text gives the stripped payload: the
    metadata frame and every mark go, and nothing else does. *)
Theorem text_strip_removes_watermark payload key seed :
  utf8_aligned payload = true ->
  StripZeroWidth (watermarked_text (TextEmbed payload key seed))
    = StripZeroWidth payload.
Proof. apply strip_watermarked. Qed.

(** X9.  Embedding into a watermarked text gives the result of embedding
    into the original payload: [Embed] starts from the stripped text, so a
    new watermark replaces the old one. *)
Theorem text_embed_replaces_watermark payload key seed key' seed' :
  utf8_aligned payload = true ->
  TextEmbed (watermarked_text (TextEmbed payload key seed)) key' seed'
    = TextEmbed payload key' seed'.
Proof.
  intros Hal. unfold TextEmbed at 1 3.
  by rewrite (strip_watermarked payload key seed Hal).
Qed.

Lemma text_strip_removes_watermark_witness :
  StripZeroWidth
    (watermarked_text (TextEmbed (list_ascii_of_string "two words") [] 7))
    = StripZeroWidth (list_ascii_of_string "two words").
Proof.
  apply (text_strip_removes_watermark (list_ascii_of_string "two words") [] 7).
  vm_compute. reflexivity.
Defined.

Lemma text_embed_replaces_watermark_witness :
  TextEmbed
    (watermarked_text (TextEmbed (list_ascii_of_string "two words") [] 7))
    (list_ascii_of_string "k") 9
    = TextEmbed (list_ascii_of_string "two words") (list_ascii_of_string "k") 9.
Proof.
  apply (text_embed_replaces_watermark (list_ascii_of_string "two words") [] 7
           (list_ascii_of_string "k") 9).
  vm_compute. reflexivity.
Defined.

(** ** Tokens *)

Definition no_space (token : list ascii) : Prop :=
  Forall (fun c => isspace (byte_val c) = false) token.

Lemma tokenize_loop_tokens payload current :
  no_space current ->
  Forall (fun token => token <> [] /\ no_space token)
    (tokenize_loop payload current) /\
  concat (tokenize_loop payload current) =
    current ++ List.filter (fun c => negb (isspace (byte_val c))) payload.
Proof.
  revert current. induction payload as [|c rest IH]; intros current Hcur.
  - cbn [tokenize_loop List.filter]. rewrite app_nil_r.
    destruct current as [|c0 current].
    + split; [constructor|done].
    + split; [|cbn [concat]; by rewrite app_nil_r].
      apply Forall_cons_2; [done|constructor].
  - cbn [tokenize_loop List.filter].
    destruct (isspace (byte_val c)) eqn:Hc; cbn [negb].
    + destruct (IH [] ltac:(constructor)) as [Htok Hcat].
      destruct current as [|c0 current]; [done|].
      split; [by apply Forall_cons_2|].
      cbn [concat]. by rewrite Hcat.
    + destruct (IH (current ++ [c])) as [Htok Hcat].
      { apply Forall_app. split; [done|]. by repeat constructor. }
      split; [done|]. rewrite Hcat, <- app_assoc. done.
Qed.

(** X10.  [Tokenize] returns non-empty tokens that contain no whitespace,
    and together, in order, they are the payload with its whitespace
    removed. *)
Theorem tokenize_tokens payload :
  Forall (fun token => token <> [] /\ no_space token) (Tokenize payload) /\
  concat (Tokenize payload) =
    List.filter (fun c => negb (isspace (byte_val c))) payload.
Proof. apply (tokenize_loop_tokens payload []). constructor. Qed.

(** ** Counters of a detection *)

Lemma count_matching_bounds xs ys n :
  0 <= count_matching xs ys n <= Z.of_nat n.
Proof.
  revert xs ys. induction n as [|n IH]; intros xs ys; [by destruct xs, ys|].
  destruct xs as [|x xs], ys as [|y ys]; cbn [count_matching]; try lia.
  specialize (IH xs ys). destruct (x =? y); lia.
Qed.

Lemma score_detection_range d extracted expected :
  let r := score_detection d extracted expected in
  total_bits r = Z.of_nat (Nat.min (length extracted) (length expected)) /\
  0 <= matching_bits r <= total_bits r /\
  (0 <= score r <= 1)%Q /\
  metadata_valid r = metadata_valid d.
Proof.
  unfold score_detection.
  set (total := Nat.min (length extracted) (length expected)).
  pose proof (count_matching_bounds extracted expected total) as Hm.
  destruct (Nat.eqb_spec total 0) as [H0 | H0];
    cbn [matching_bits total_bits score metadata_valid].
  - rewrite H0 in *. split; [done|]. split; [lia|]. done.
  - split; [done|]. split; [lia|]. split; [|done].
    assert (Hpos : Z.pos (Pos.of_nat total) = Z.of_nat total).
    { destruct total as [|k]; [done|].
      by rewrite <- Pos.of_nat_succ, Zpos_P_of_succ_nat, Nat2Z.inj_succ. }
    unfold Qle. cbn [Qnum Qden]. rewrite Hpos. lia.
Qed.

Lemma decode_or_byte_mark_consumed rest cp n :
  decode_or_byte rest = (cp, n) ->
  (cp =? kZeroWidthZero) || (cp =? kZeroWidthOne) = true -> n = 3%nat.
Proof.
  unfold decode_or_byte. intros Hd Hcp.
  assert (Hmark : cp = kZeroWidthZero \/ cp = kZeroWidthOne).
  { apply orb_prop in Hcp as [H | H]; apply Z.eqb_eq in H; auto. }
  destruct (decode_cp rest) as [[cp' n']|] eqn:Hc.
  - injection Hd as <- <-. by eapply decode_cp_mark_consumed.
  - injection Hd as <- <-. pose proof (byte_val_range (hd zero rest)).
    unfold kZeroWidthZero, kZeroWidthOne in Hmark. lia.
Qed.

Lemma detect_loop_bound fuel ntokens rest token_index current :
  (3 * length (detect_loop fuel ntokens rest token_index current)
     <= length rest)%nat.
Proof.
  revert rest token_index current.
  induction fuel as [|fuel IH]; intros rest token_index current;
    [cbn [detect_loop length]; lia|].
  destruct rest as [|first more]; [cbn [detect_loop length]; lia|].
  cbn [detect_loop].
  destruct (decode_or_byte (first :: more)) as [cp n] eqn:Hd.
  pose proof (decode_or_byte_consumed (first :: more) cp n ltac:(done) Hd) as Hn.
  assert (Hdrop : forall ti cur,
            (3 * length (detect_loop fuel ntokens (drop n (first :: more)) ti cur)
               <= length (first :: more) - n)%nat).
  { intros ti cur. specialize (IH (drop n (first :: more)) ti cur).
    by rewrite length_drop in IH. }
  destruct (isspace (byte_val first)).
  { specialize (Hdrop token_index []). lia. }
  destruct ((cp =? kZeroWidthZero) || (cp =? kZeroWidthOne)) eqn:Hcp.
  { rewrite (decode_or_byte_mark_consumed _ _ _ Hd Hcp) in *.
    destruct (decide (token_index < ntokens)%nat).
    - specialize (Hdrop (S token_index) current). cbn [length] in *. lia.
    - specialize (Hdrop token_index current). lia. }
  destruct (isspace (cp mod 256)).
  - specialize (Hdrop token_index current). lia.
  - specialize (Hdrop token_index (current ++ [to_byte cp])). lia.
Qed.

Lemma DecodeZeroWidthBits_rest payload with_sentinels :
  (length (DecodeZeroWidthBits payload with_sentinels).2 <= length payload)%nat.
Proof.
  unfold DecodeZeroWidthBits. destruct with_sentinels.
  2:{ pose proof (zero_width_loop_invariants (length payload) false payload) as H.
      destruct (zero_width_loop (length payload) false payload) as [bits rest].
      destruct H as (_ & pre & Hrest & _). cbn [snd].
      apply (f_equal length) in Hrest. rewrite length_app in Hrest. lia. }
  destruct payload as [|b t]; [done|].
  destruct (decode_cp (b :: t)) as [[cp n]|] eqn:Hd; [|done].
  destruct (negb (cp =? kZeroWidthMetaStart)); [done|].
  pose proof (zero_width_loop_invariants (length (b :: t)) true
                (drop n (b :: t))) as H.
  destruct (zero_width_loop (length (b :: t)) true (drop n (b :: t)))
    as [bits rest'].
  destruct H as (_ & pre & Hrest & _). cbn [snd].
  apply (f_equal length) in Hrest. rewrite length_drop, length_app in Hrest. lia.
Qed.

(** X11.  For every payload the counters of [Detect] are consistent: at
    most [total_bits] bits match, every compared bit stands for a
    three-byte mark of the payload, the score lies between 0 and 1, and
    without valid metadata nothing is compared and the false-positive rate
    is 1. *)
Theorem text_detect_counters payload :
  let r := TextDetect payload in
  0 <= matching_bits r <= total_bits r /\
  3 * total_bits r <= Z.of_nat (length payload) /\
  (0 <= score r <= 1)%Q /\
  (metadata_valid r = false ->
   total_bits r = 0 /\ false_positive_rate r = FpOne).
Proof.
  unfold TextDetect.
  destruct (DecodeMetadata payload) as [[meta rest] ok] eqn:Hmeta.
  destruct (negb ok || negb (version meta =? 1)) eqn:Hok.
  { cbn [matching_bits total_bits score metadata_valid false_positive_rate
         DetectionResult_default].
    split; [lia|]. split; [lia|]. done. }
  assert (Hrest : (length rest <= length payload)%nat).
  { unfold DecodeMetadata in Hmeta.
    pose proof (DecodeZeroWidthBits_rest payload true) as Hlen.
    destruct (DecodeZeroWidthBits payload true) as [bits rest0].
    cbn [snd] in Hlen.
    destruct (negb (length bits =? 24 * 8)%nat); [by injection Hmeta as _ <- _|].
    destruct (UnpackMetadata (bits_to_bytes bits));
      injection Hmeta as _ <- _; done. }
  set (d := mkDetectionResult _ _ _ _ true).
  set (expected := TextComputeCombinedBits _ _ _).
  set (extracted := detect_loop _ _ _ _ _).
  pose proof (score_detection_range d expected extracted)
    as (_ & Hm & Hs & _).
  pose proof (detect_loop_bound (length rest)
                (length (Tokenize (StripZeroWidth rest))) rest 0 []) as Hb.
  fold extracted in Hb.
  split; [done|]. split; [|split; [done|]].
  - unfold score_detection.
    destruct (_ =? _)%nat; cbn [total_bits]; lia.
  - unfold score_detection.
    destruct (_ =? _)%nat; cbn [metadata_valid d]; done.
Qed.

(** ** Image watermark: outcomes of [Embed] and [Detect] *)

Lemma is_empty_payload_spec p :
  is_empty_payload p = true <-> bytes p = [] \/ total_pixels p = 0.
Proof.
  unfold is_empty_payload, total_pixels.
  replace (wrap64 (width p * height p)) with (wrap64 (height p * width p))
    by (by rewrite (Z.mul_comm (width p))).
  rewrite orb_true_iff, bool_decide_eq_true, Z.eqb_eq. done.
Qed.

Lemma combined_loop_leaves_buffer bs idxs rng :
  Exists (fun idx => (length bs <= idx)%nat) idxs ->
  combined_loop bs idxs rng = Err OutOfBounds.
Proof.
  revert rng. induction idxs as [|idx idxs IH]; intros rng Hex.
  { by apply Exists_nil in Hex. }
  cbn [combined_loop]. unfold read.
  destruct (bs !! idx) as [b|] eqn:Hb; [|done].
  cbn [mbind result_bind]. destruct (MT.next rng) as [r rng'].
  apply Exists_cons in Hex as [Hex | Hex].
  { apply lookup_lt_Some in Hb. lia. }
  by rewrite IH.
Qed.

(** X12.  The outcomes of the image [Embed]: it succeeds exactly when the
    buffer is not empty and holds the more than 768 samples that the
    dimensions announce; it throws [std::invalid_argument] when the
    payload is empty or has at most 768 samples; and when the dimensions
    announce more samples than the buffer holds, its loops run past the
    end of the buffer. *)
Theorem image_embed_outcome payload key seed :
  match ImageEmbed payload key seed with
  | Ok r =>
      bytes payload <> [] /\
      Z.of_nat kMetadataPayloadBits < total_pixels payload
        <= Z.of_nat (length (bytes payload))
  | Err (InvalidArgument _) =>
      bytes payload = [] \/
      total_pixels payload <= Z.of_nat kMetadataPayloadBits
  | Err OutOfBounds =>
      bytes payload <> [] /\
      Z.of_nat kMetadataPayloadBits < total_pixels payload /\
      Z.of_nat (length (bytes payload)) < total_pixels payload
  | Err _ => False
  end.
Proof.
  change kMetadataPayloadBits with 768%nat. change (Z.of_nat 768) with 768.
  destruct (is_empty_payload payload) eqn:Hempty.
  { unfold ImageEmbed. rewrite Hempty.
    apply is_empty_payload_spec in Hempty as [H | H]; [by left|right; lia]. }
  assert (Hne : bytes payload <> [] /\ total_pixels payload <> 0).
  { split; intros H;
      (assert (is_empty_payload payload = true) as Ht
         by (apply is_empty_payload_spec; auto));
      congruence. }
  destruct Hne as [Hne Hnz].
  destruct (Z.leb_spec (total_pixels payload) 768) as [Hsmall | Hlarge].
  { unfold ImageEmbed. rewrite Hempty.
    change kMetadataPayloadBits with 768%nat. change (Z.of_nat 768) with 768.
    rewrite (proj2 (Z.leb_le _ _)) by done. by right. }
  destruct (Z.le_gt_cases (total_pixels payload)
              (Z.of_nat (length (bytes payload)))) as [Hfits | Hshort].
  { destruct (ImageEmbed_spec payload key seed) as (fbits & bs' & -> & _);
      [done..|]. done. }
  unfold ImageEmbed. rewrite Hempty.
  change kMetadataPayloadBits with 768%nat. change (Z.of_nat 768) with 768.
  rewrite (proj2 (Z.leb_gt _ _)) by done.
  unfold ImageComputeCombinedBits.
  change (Z.of_nat 768) with 768.
  rewrite (proj2 (Z.leb_gt _ _)) by done.
  rewrite combined_loop_leaves_buffer; [done|].
  apply Exists_exists. exists (Nat.max 768 (length (bytes payload))).
  split; [|lia]. apply elem_of_seq. lia.
Qed.

Lemma UnpackMetadata_length_range bs meta :
  UnpackMetadata bs = Some meta -> 0 <= fingerprint_length meta < 2 ^ 32.
Proof.
  unfold UnpackMetadata. destruct (decide _); [|done].
  intros [= <-]. apply read_u32_range.
Qed.

Lemma ExtractMetadata_length_range p meta :
  ExtractMetadata p = (meta, true) ->
  0 <= fingerprint_length meta < 2 ^ 32.
Proof.
  unfold ExtractMetadata. destruct (decide _); [done|].
  generalize (bits_to_bytes
    (map (majority_bit
            (map (fun i => Z.land (byte_val (nth i (bytes p) zero)) 1)
               (seq 0 (Nat.min kMetadataPayloadBits (length (bytes p))))))
       (seq 0 kMetadataBits))).
  intros bs. destruct (UnpackMetadata bs) as [m|] eqn:Hu; [|done].
  intros [= <-]. by eapply UnpackMetadata_length_range.
Qed.

(** X13.  When the buffer holds the samples that the dimensions announce,
    the image [Detect] stays inside it and returns a result, whatever the
    bytes are: at most [total_bits] bits match, no more bits are compared
    than there are samples after the metadata region, the score lies
    between 0 and 1, and without valid metadata nothing is compared. *)
Theorem image_detect_outcome payload :
  total_pixels payload <= Z.of_nat (length (bytes payload)) ->
  exists d,
    ImageDetect payload = Ok d /\
    0 <= matching_bits d <= total_bits d /\
    total_bits d <=
      Z.max 0 (total_pixels payload - Z.of_nat kMetadataPayloadBits) /\
    (0 <= score d <= 1)%Q /\
    (metadata_valid d = false -> total_bits d = 0).
Proof.
  change kMetadataPayloadBits with 768%nat. change (Z.of_nat 768) with 768.
  intros Hfits. unfold ImageDetect.
  assert (Hdefault : forall fp valid,
    exists d, Ok (mkDetectionResult 0 fp 0 0 valid) = Ok d /\
      0 <= matching_bits d <= total_bits d /\
      total_bits d <= Z.max 0 (total_pixels payload - 768) /\
      (0 <= score d <= 1)%Q /\
      (metadata_valid d = false -> total_bits d = 0)).
  { intros fp valid. eexists. split; [reflexivity|].
    cbn [matching_bits total_bits score]. split; [lia|]. split; [lia|]. done. }
  destruct (is_empty_payload payload); [apply Hdefault|].
  destruct (ExtractMetadata payload) as [meta ok] eqn:Hex.
  destruct (negb ok || negb (version meta =? 1)) eqn:Hok; [apply Hdefault|].
  apply orb_false_elim in Hok as [Hok _]. apply negb_false_iff in Hok. subst ok.
  pose proof (ExtractMetadata_length_range _ _ Hex) as Hfl.
  change kMetadataPayloadBits with 768%nat. change (Z.of_nat 768) with 768.
  destruct ((total_pixels payload <=? 768) ||
            (total_pixels payload - 768 <? fingerprint_length meta)) eqn:Hsize;
    [apply Hdefault|].
  apply orb_false_elim in Hsize as [Hlarge Hlen].
  apply Z.leb_gt in Hlarge. apply Z.ltb_ge in Hlen.
  unfold ImageComputeCombinedBits. change (Z.of_nat 768) with 768.
  rewrite (proj2 (Z.leb_gt _ _)) by done.
  destruct (combined_loop_ok (bytes payload)
              (seq 768 (Z.to_nat (total_pixels payload) - 768))
              (MT.seed (Z.lxor (state_seed meta) (key_hash meta))))
    as (expected & -> & Helen & _).
  { apply Forall_forall. intros i Hi%elem_of_seq. lia. }
  destruct (extract_lsbs_ok (bytes payload)
              (seq 0 (Z.to_nat (fingerprint_length meta))))
    as (extracted & -> & Hxlen & _).
  { apply Forall_forall. intros i Hi%elem_of_seq.
    change kMetadataPayloadBits with 768%nat. lia. }
  cbn [mbind result_bind]. eexists. split; [reflexivity|].
  rewrite length_seq in Helen, Hxlen.
  set (d := mkDetectionResult _ _ _ _ true).
  destruct (score_detection_range d extracted expected) as (Ht & Hm & Hs & Hv).
  cbv zeta in Ht, Hm, Hs, Hv.
  split; [done|]. split; [rewrite Ht; lia|]. split; [done|].
  rewrite Hv. done.
Qed.

Definition blank_image : ImagePayload :=
  mkImagePayload (replicate 770 zero) 1 770 1.

Lemma image_detect_outcome_witness :
  exists d,
    ImageDetect blank_image = Ok d /\
    0 <= matching_bits d <= total_bits d /\
    total_bits d <=
      Z.max 0 (total_pixels blank_image - Z.of_nat kMetadataPayloadBits) /\
    (0 <= score d <= 1)%Q /\
    (metadata_valid d = false -> total_bits d = 0).
Proof.
  apply (image_detect_outcome blank_image). vm_compute. discriminate.
Defined.

(** ** Image watermark: what [Embed] leaves for [Detect] *)

Lemma embedded_metadata_wf payload key seed :
  0 <= seed < 2 ^ 64 ->
  meta_wf (mkMetadata 1 seed (StableHash key)
             (wrap32 (total_pixels payload - Z.of_nat kMetadataPayloadBits))).
Proof.
  intros Hseed.
  unfold meta_wf; cbn [version state_seed key_hash fingerprint_length].
  pose proof (StableHash_range key).
  pose proof (wrap32_range (total_pixels payload - Z.of_nat kMetadataPayloadBits)).
  lia.
Qed.

(** X14.  [Detect] on the unmodified output of [Embed] finds the embedded
    metadata and compares as many bits as the metadata announce, the
    number of samples after the metadata region reduced to 32 bits. *)
Theorem image_embed_detect_metadata payload key seed :
  0 <= seed < 2 ^ 64 ->
  Z.of_nat kMetadataPayloadBits < total_pixels payload ->
  total_pixels payload <= Z.of_nat (length (bytes payload)) ->
  exists r d,
    ImageEmbed payload key seed = Ok r /\
    ExtractMetadata (ie_payload r) = (ie_metadata r, true) /\
    ImageDetect (ie_payload r) = Ok d /\
    metadata_valid d = true /\
    total_bits d = fingerprint_length (ie_metadata r) /\
    fingerprint_length (ie_metadata r) =
      wrap32 (total_pixels payload - Z.of_nat kMetadataPayloadBits).
Proof.
  intros Hseed Htotal Hbuffer.
  destruct (ImageEmbed_spec payload key seed Htotal Hbuffer)
    as (fbits & bs' & Hembed & Hlen & _ & _ & Hj).
  pose proof (embedded_metadata_wf payload key seed Hseed) as Hwf.
  set (meta := mkMetadata _ _ _ _) in *.
  set (p' := mkImagePayload bs' (height payload) (width payload)
               (channels payload)) in *.
  change kMetadataPayloadBits with 768%nat in *.
  change (Z.of_nat 768) with 768 in *.
  assert (Hex : ExtractMetadata p' = (meta, true)).
  { apply (ExtractMetadata_vote p' meta 768 Hwf).
    - change kMetadataPayloadBits with 768%nat. cbn [p' bytes]. lia.
    - change kMetadataPayloadBits with 768%nat. intros s Hs _.
      cbn [p' bytes]. destruct (Hj s) as (_ & Hin & _). by apply Hin. }
  pose proof (wrap32_range (total_pixels payload - 768)) as Hw.
  pose proof (wrap32_le (total_pixels payload - 768) ltac:(lia)) as Hle.
  destruct (ImageDetect_valid p' meta Hex eq_refl)
    as (expected & extracted & Hexp & Hext & Hd).
  { done. }
  { cbn [p' bytes]. rewrite Hlen. done. }
  { cbn [meta fingerprint_length].
    change kMetadataPayloadBits with 768%nat. change (Z.of_nat 768) with 768.
    change (total_pixels p') with (total_pixels payload). lia. }
  exists (mkImageEmbedResult p' meta fbits). eexists.
  split; [exact Hembed|]. cbn [ie_payload ie_metadata].
  split; [exact Hex|]. split; [exact Hd|].
  split; [apply score_detection_valid|]. split; [|reflexivity].
  assert (Helen : length expected = (Z.to_nat (total_pixels payload) - 768)%nat).
  { unfold ImageComputeCombinedBits in Hexp.
    change (total_pixels p') with (total_pixels payload) in Hexp.
    change kMetadataPayloadBits with 768%nat in Hexp.
    change (Z.of_nat 768) with 768 in Hexp.
    rewrite (proj2 (Z.leb_gt _ _)) in Hexp by lia.
    destruct (combined_loop_ok (bytes p')
                (seq 768 (Z.to_nat (total_pixels payload) - 768))
                (MT.seed (Z.lxor (state_seed meta) (key_hash meta))))
      as (bits & Hc & Hblen & _).
    { apply Forall_forall. intros i Hi%elem_of_seq. cbn [p' bytes]. lia. }
    rewrite Hc in Hexp. injection Hexp as <-. by rewrite Hblen, length_seq. }
  assert (Hxlen : length extracted
                  = Z.to_nat (wrap32 (total_pixels payload - 768))).
  { destruct (extract_lsbs_ok (bytes p')
                (seq 0 (Z.to_nat (fingerprint_length meta))))
      as (bits & Hx & Hblen & _).
    { apply Forall_forall. intros i Hi%elem_of_seq.
      change kMetadataPayloadBits with 768%nat.
      cbn [meta fingerprint_length] in Hi. cbn [p' bytes]. lia. }
    rewrite Hx in Hext. injection Hext as <-.
    by rewrite Hblen, length_seq. }
  destruct (score_detection_range (mkDetectionResult 0 FpOne 0 0 true)
              extracted expected) as (Ht & _).
  cbv zeta in Ht. rewrite Ht, Hxlen, Helen. cbn [meta fingerprint_length]. lia.
Qed.

(** X15.  The least-significant bits of the samples after the metadata
    region of the embedded image are the fingerprint bits that [Embed]
    returns, one for each remaining sample. *)
Theorem image_fingerprint_in_lsbs payload key seed :
  Z.of_nat kMetadataPayloadBits < total_pixels payload ->
  total_pixels payload <= Z.of_nat (length (bytes payload)) ->
  exists r,
    ImageEmbed payload key seed = Ok r /\
    Z.of_nat (length (ie_fingerprint_bits r))
      = total_pixels payload - Z.of_nat kMetadataPayloadBits /\
    extract_lsbs (bytes (ie_payload r))
      (seq 0 (length (ie_fingerprint_bits r))) = Ok (ie_fingerprint_bits r).
Proof.
  intros Htotal Hbuffer.
  destruct (ImageEmbed_spec payload key seed Htotal Hbuffer)
    as (fbits & bs' & Hembed & Hlen & Hflen & _ & Hj).
  change kMetadataPayloadBits with 768%nat in *.
  change (Z.of_nat 768) with 768 in *.
  eexists. split; [exact Hembed|].
  cbn [ie_payload ie_fingerprint_bits bytes].
  split; [lia|].
  destruct (extract_lsbs_ok bs' (seq 0 (length fbits)))
    as (bits & -> & Hblen & Hn).
  { apply Forall_forall. intros i Hi%elem_of_seq.
    change kMetadataPayloadBits with 768%nat. lia. }
  rewrite length_seq in Hblen, Hn. f_equal.
  apply (nth_ext _ _ 0 0); [done|]. intros n Hlt. rewrite Hblen in Hlt.
  rewrite Hn by done. rewrite seq_nth by done. cbn [Nat.add].
  change kMetadataPayloadBits with 768%nat.
  destruct (Hj (n + 768)%nat) as (_ & _ & Hin & _).
  rewrite Hin by lia. f_equal. lia.
Qed.

(** Majority vote with one damaged slot in every group of four. *)
Lemma ExtractMetadata_votes p meta (k : nat -> nat) :
  meta_wf meta ->
  (kMetadataPayloadBits <= length (bytes p))%nat ->
  (forall s, (s < kMetadataPayloadBits)%nat -> s <> k (s / 4)%nat ->
     Z.land (byte_val (nth s (bytes p) zero)) 1 =
       nth (s / 4) (bytes_to_bits (PackMetadata meta)) 0) ->
  ExtractMetadata p = (meta, true).
Proof.
  change kMetadataPayloadBits with 768%nat.
  intros Hwf Hlen Hs. unfold ExtractMetadata.
  change kMetadataPayloadBits with 768%nat.
  rewrite decide_False by lia.
  rewrite Nat.min_l by lia.
  set (bits := map _ (seq 0 768)).
  set (mbits := bytes_to_bits (PackMetadata meta)) in *.
  assert (Hmlen : length mbits = 192%nat)
    by (unfold mbits; by rewrite bytes_to_bits_length, PackMetadata_length).
  assert (Hmaj : map (majority_bit bits) (seq 0 kMetadataBits) = mbits).
  { change kMetadataBits with 192%nat.
    apply (nth_ext _ _ 0 0).
    - by rewrite length_map, length_seq, Hmlen.
    - intros j Hj. rewrite length_map, length_seq in Hj.
      rewrite nth_map_seq by done.
      apply (majority_bit_vote bits j (k j)).
      + unfold bits. rewrite length_map, length_seq. lia.
      + unfold bits. apply Forall_forall. intros x Hx%list_elem_of_In.
        apply in_map_iff in Hx as (i & <- & _). apply land_1_is_bit.
      + apply nth_is_bit, bytes_to_bits_is_bit.
      + intros s Hne Hdiv.
        assert (s < 768)%nat.
        { pose proof (Nat.div_mod_eq s 4).
          pose proof (Nat.mod_upper_bound s 4). lia. }
        unfold bits. rewrite nth_map_seq by done.
        rewrite Hs by (done || by rewrite Hdiv). by rewrite Hdiv. }
  rewrite Hmaj. unfold mbits.
  rewrite bits_to_bytes_to_bits by apply PackMetadata_length.
  by rewrite UnpackMetadata_PackMetadata.
Qed.

(** X16.  The metadata of an embedded image survive any damage that
    changes the least-significant bit of at most one sample in each group
    of four of the metadata region: [k g] is the sample of group [g] that
    may have changed, and the bytes after the region are arbitrary. *)
Theorem image_metadata_survives_one_flip_per_group
    payload key seed (k : nat -> nat) :
  0 <= seed < 2 ^ 64 ->
  Z.of_nat kMetadataPayloadBits < total_pixels payload ->
  total_pixels payload <= Z.of_nat (length (bytes payload)) ->
  exists r,
    ImageEmbed payload key seed = Ok r /\
    forall damaged,
      (kMetadataPayloadBits <= length damaged)%nat ->
      (forall s, (s < kMetadataPayloadBits)%nat -> s <> k (s / 4)%nat ->
         Z.land (byte_val (nth s damaged zero)) 1 =
           Z.land (byte_val (nth s (bytes (ie_payload r)) zero)) 1) ->
      ExtractMetadata (with_bytes (ie_payload r) damaged)
        = (ie_metadata r, true).
Proof.
  intros Hseed Htotal Hbuffer.
  destruct (ImageEmbed_spec payload key seed Htotal Hbuffer)
    as (fbits & bs' & Hembed & Hlen & _ & _ & Hj).
  eexists. split; [exact Hembed|].
  cbn [ie_payload ie_metadata bytes]. intros damaged Hdlen Hsame.
  apply (ExtractMetadata_votes _ _ k).
  - by apply embedded_metadata_wf.
  - done.
  - intros s Hs Hne. unfold with_bytes. cbn [bytes].
    rewrite Hsame by done. destruct (Hj s) as (_ & Hin & _). by apply Hin.
Qed.

(** X17.  [ExtractMetadata] reads back what [InjectMetadata] wrote into
    any buffer of at least 768 bytes, for metadata whose fields fit their
    types; the length of the buffer and every bit above the
    least-significant one are as before. *)
Theorem inject_extract_metadata p meta :
  meta_wf meta ->
  (kMetadataPayloadBits <= length (bytes p))%nat ->
  ExtractMetadata (InjectMetadata p meta) = (meta, true) /\
  length (bytes (InjectMetadata p meta)) = length (bytes p) /\
  forall j,
    Z.shiftr (byte_val (nth j (bytes (InjectMetadata p meta)) zero)) 1
      = Z.shiftr (byte_val (nth j (bytes p) zero)) 1.
Proof.
  change kMetadataPayloadBits with 768%nat. intros Hwf Hlen.
  pose proof (inject_loop_spec (bytes_to_bits (PackMetadata meta))
                metadata_slots (bytes p) (bytes_to_bits_is_bit _)) as Hinj.
  destruct Hinj as [Hilen Hij].
  { pose proof metadata_slots_rep as Hrep.
    apply Forall_forall. intros q Hq. split.
    - rewrite Forall_forall in Hrep. by apply Hrep.
    - assert (In (slot_of q) (map slot_of metadata_slots)) as Hin
        by (apply in_map; by apply list_elem_of_In).
      rewrite metadata_slots_positions in Hin. apply in_seq in Hin. lia. }
  unfold InjectMetadata at 2 3. cbn [bytes].
  split; [|split; [done|intros j; apply Hij]].
  apply (ExtractMetadata_vote _ meta 768 Hwf).
  - change kMetadataPayloadBits with 768%nat. cbn [InjectMetadata bytes]. lia.
  - change kMetadataPayloadBits with 768%nat. intros s Hs _.
    cbn [InjectMetadata bytes]. destruct (Hij s) as (_ & Hin & _).
    apply Hin. rewrite metadata_slots_positions. apply in_seq. lia.
Qed.

Lemma image_embed_detect_metadata_witness :
  exists r d,
    ImageEmbed blank_image [] 7 = Ok r /\
    ExtractMetadata (ie_payload r) = (ie_metadata r, true) /\
    ImageDetect (ie_payload r) = Ok d /\
    metadata_valid d = true /\
    total_bits d = fingerprint_length (ie_metadata r) /\
    fingerprint_length (ie_metadata r) =
      wrap32 (total_pixels blank_image - Z.of_nat kMetadataPayloadBits).
Proof.
  apply (image_embed_detect_metadata blank_image [] 7).
  - split; [discriminate|reflexivity].
  - vm_compute. reflexivity.
  - vm_compute. discriminate.
Defined.

Lemma image_fingerprint_in_lsbs_witness :
  exists r,
    ImageEmbed blank_image [] 7 = Ok r /\
    Z.of_nat (length (ie_fingerprint_bits r))
      = total_pixels blank_image - Z.of_nat kMetadataPayloadBits /\
    extract_lsbs (bytes (ie_payload r))
      (seq 0 (length (ie_fingerprint_bits r))) = Ok (ie_fingerprint_bits r).
Proof.
  apply (image_fingerprint_in_lsbs blank_image [] 7).
  - vm_compute. reflexivity.
  - vm_compute. discriminate.
Defined.

(** The damage of the instance below: the least-significant bit of the
    first sample of every group of four is flipped, 192 flips in the
    metadata region and one in every later group. *)
Definition flip_group_heads (bs : list ascii) : list ascii :=
  imap (fun i b =>
          if (i mod 4 =? 0)%nat then to_byte (Z.lxor (byte_val b) 1) else b)
    bs.

Lemma flip_group_heads_nth bs s :
  nth s (flip_group_heads bs) zero =
    if (s mod 4 =? 0)%nat && bool_decide (s < length bs)%nat
    then to_byte (Z.lxor (byte_val (nth s bs zero)) 1)
    else nth s bs zero.
Proof.
  unfold flip_group_heads. rewrite !nth_lookup, list_lookup_imap.
  destruct (bs !! s) as [b|] eqn:Hb; cbn [fmap option_fmap option_map default
    from_option id].
  - rewrite bool_decide_eq_true_2 by (by eapply lookup_lt_Some).
    by rewrite andb_true_r.
  - rewrite bool_decide_eq_false_2 by (apply lookup_ge_None in Hb; lia).
    by rewrite andb_false_r.
Qed.

Lemma flipped_lsb b :
  Z.land (byte_val (to_byte (Z.lxor (byte_val b) 1))) 1
    = 1 - Z.land (byte_val b) 1.
Proof. all_bytes b; reflexivity. Qed.

Lemma image_metadata_survives_one_flip_per_group_witness :
  exists r,
    ImageEmbed blank_image [] 7 = Ok r /\
    (forall g, (g < kMetadataBits)%nat ->
       Z.land (byte_val (nth (4 * g)
                           (flip_group_heads (bytes (ie_payload r))) zero)) 1
         = 1 - Z.land (byte_val (nth (4 * g) (bytes (ie_payload r)) zero)) 1) /\
    ExtractMetadata
      (with_bytes (ie_payload r) (flip_group_heads (bytes (ie_payload r))))
      = (ie_metadata r, true).
Proof.
  destruct (image_metadata_survives_one_flip_per_group blank_image [] 7
              (fun g => 4 * g)%nat) as (r & Hembed & Hsurvive).
  - split; [discriminate|reflexivity].
  - vm_compute. reflexivity.
  - vm_compute. discriminate.
  - assert (Hlen : length (bytes (ie_payload r)) = 770%nat).
    { destruct (ImageEmbed_spec blank_image [] 7)
        as (fbits & bs' & Hembed' & Hlen' & _);
        [vm_compute; reflexivity|vm_compute; discriminate|].
      rewrite Hembed in Hembed'. injection Hembed' as ->.
      cbn [ie_payload bytes]. rewrite Hlen'. reflexivity. }
    exists r. split; [exact Hembed|]. split.
    + change kMetadataBits with 192%nat. intros g Hg.
      rewrite flip_group_heads_nth.
      replace (4 * g)%nat with (g * 4)%nat by lia.
      rewrite Nat.Div0.mod_mul. cbn [Nat.eqb andb].
      rewrite bool_decide_eq_true_2 by lia.
      apply flipped_lsb.
    + apply Hsurvive.
      * change kMetadataPayloadBits with 768%nat.
        unfold flip_group_heads. rewrite length_imap. lia.
      * intros s _ Hne. rewrite flip_group_heads_nth.
        destruct (Nat.eqb_spec (s mod 4) 0) as [Hmod | _]; [|done].
        exfalso. apply Hne.
        pose proof (Nat.div_mod_eq s 4). lia.
Defined.

Lemma inject_extract_metadata_witness :
  ExtractMetadata (InjectMetadata blank_image (mkMetadata 1 7 99 2))
    = (mkMetadata 1 7 99 2, true) /\
  length (bytes (InjectMetadata blank_image (mkMetadata 1 7 99 2)))
    = length (bytes blank_image) /\
  forall j,
    Z.shiftr
      (byte_val
         (nth j (bytes (InjectMetadata blank_image (mkMetadata 1 7 99 2)))
            zero)) 1
      = Z.shiftr (byte_val (nth j (bytes blank_image) zero)) 1.
Proof.
  apply (inject_extract_metadata blank_image (mkMetadata 1 7 99 2)).
  - unfold meta_wf. cbn [version state_seed key_hash fingerprint_length]. lia.
  - vm_compute. lia.
Defined.

(** ** The field: representatives *)

(** X18.  A signed value within [floor(p/2)] of zero survives the passage
    through the field: [ToSigned] undoes [FromSigned]. *)
Theorem field_signed_round_trip v :
  - (kModulus / 2) <= v <= kModulus / 2 -> ToSigned (FromSigned v) = v.
Proof.
  intros Hv. destruct (FromSigned_spec v) as [Hcong Hcan].
  by apply ToSigned_centered.
Qed.

Lemma field_signed_round_trip_witness : ToSigned (FromSigned (-5)) = -5.
Proof. apply (field_signed_round_trip (-5)). split; discriminate. Defined.

Lemma ToSigned_spec a :
  canonical a ->
  ToSigned a ≅ a /\ - (kModulus / 2) <= ToSigned a <= kModulus / 2.
Proof.
  intros Ha. unfold canonical in Ha.
  change (kModulus / 2) with 1152921504606846975 in *.
  assert (Hk : kModulus = 2305843009213693951) by reflexivity.
  assert (Hi : forall z, 0 <= z < kModulus + 1 -> to_int64 z = z).
  { intros z Hz. unfold to_int64.
    rewrite Z.mod_small; [lia|]. rewrite Hk in Hz.
    change (2 ^ 63) with 9223372036854775808.
    change (2 ^ 64) with 18446744073709551616. lia. }
  unfold ToSigned. change (kModulus / 2) with 1152921504606846975.
  rewrite !Hi by lia.
  destruct (Z.ltb_spec 1152921504606846975 a) as [Hlt | Hle].
  - split; [|lia]. unfold eqp.
    rewrite <- (Z.mod_add (a - kModulus) 1) by lia. f_equal. ring.
  - split; [reflexivity|lia].
Qed.

(** X19.  Every field element is the image of its signed decoding:
    [FromSigned] undoes [ToSigned] on the values below [p], and the
    decoding lies within [floor(p/2)] of zero. *)
Theorem field_to_signed_from_signed a :
  0 <= a < kModulus ->
  FromSigned (ToSigned a) = a /\
  - (kModulus / 2) <= ToSigned a <= kModulus / 2.
Proof.
  intros Ha. destruct (ToSigned_spec a Ha) as [Hcong Hrange].
  split; [|done].
  destruct (FromSigned_spec (ToSigned a)) as [Hcong' Hcan].
  apply canonical_eq; [done|done|]. by rewrite Hcong'.
Qed.

Lemma field_to_signed_from_signed_witness :
  FromSigned (ToSigned (kModulus - 3)) = kModulus - 3 /\
  - (kModulus / 2) <= ToSigned (kModulus - 3) <= kModulus / 2.
Proof.
  apply (field_to_signed_from_signed (kModulus - 3)).
  split; [discriminate|reflexivity].
Defined.

(** X20.  Addition and subtraction undo each other on the values below
    [p], whatever the second operand. *)
Theorem field_add_sub_inverse a b :
  0 <= a < kModulus ->
  Sub (Add a b) b = a /\ Add (Sub a b) b = a.
Proof.
  intros Ha. split.
  - apply canonical_eq; [apply Sub_canonical|done|].
    rewrite Sub_spec, Add_spec. apply eqp_eq. ring.
  - apply canonical_eq; [apply Add_canonical|done|].
    rewrite Add_spec, Sub_spec. apply eqp_eq. ring.
Qed.

Lemma field_add_sub_inverse_witness :
  Sub (Add 7 (kModulus - 1)) (kModulus - 1) = 7 /\
  Add (Sub 7 (kModulus - 1)) (kModulus - 1) = 7.
Proof.
  apply (field_add_sub_inverse 7 (kModulus - 1)).
  split; [discriminate|reflexivity].
Defined.

(** ** Shamir sharing: polynomials and grids *)

(** X21.  [Evaluate] returns the value of the polynomial with the given
    coefficients, constant term first, reduced modulo [p]. *)
Theorem shamir_evaluate_polynomial coeffs x :
  Shamir.Evaluate coeffs x = peval coeffs x mod kModulus.
Proof.
  destruct (Evaluate_spec coeffs x) as [Hcong Hcan].
  apply canonical_eq; [done|apply mod_kModulus_range|].
  by rewrite Hcong, eqp_mod.
Qed.

Lemma share_components_threshold_one dist n comps (secret : list Z)
    (shares : list (list Z)) prng :
  snd (fold_left
         (fun st component =>
            Shamir.share_component dist n 1 st component
              (nth component secret 0))
         comps (shares, prng)) = prng.
Proof.
  revert shares. induction comps as [|c comps IH]; intros shares; [done|].
  cbn [fold_left]. unfold Shamir.share_component at 2.
  cbn [Nat.sub Shamir.BuildPolynomial Shamir.draws]. apply IH.
Qed.

(** X22.  With threshold 1 nothing is hidden: every participant's share
    is the secret itself, reduced modulo [p], and the generator is not
    advanced. *)
Theorem shamir_threshold_one_shares_secret
    (dist : MT.state -> Z * MT.state) (n : nat) (secret : list Z)
    (prng : MT.state) :
  (1 <= n)%nat ->
  Shamir.ShareVector dist 1 n secret prng =
    Ok (replicate n (map (fun s => s mod kModulus) secret), prng).
Proof.
  intros Hn.
  destruct (ShareVector_spec dist 1 n secret ltac:(lia) prng Hn)
    as (shares & prng' & Hshare & [Hlen Hrows] & Hcols).
  rewrite Hshare. f_equal. f_equal.
  - apply (nth_ext _ _ [] []); [by rewrite length_replicate|].
    intros i Hi. rewrite Hlen in Hi.
    rewrite (nth_lookup (replicate _ _)), lookup_replicate_2 by done.
    cbn [default from_option id].
    apply (nth_ext _ _ 0 0); [by rewrite Hrows, length_map|].
    intros c Hc. rewrite Hrows in Hc by done.
    destruct (Hcols c Hc) as (poly & Hpl & Hhd & Hev).
    rewrite Hev by done.
    destruct poly as [|c0 [|]]; [done| |done]. cbn [hd] in Hhd. subst c0.
    rewrite (nth_lookup (map _ _)).
    change (map ?f ?l) with (f <$> l). rewrite list_lookup_fmap.
    destruct (lookup_lt_is_Some_2 secret c Hc) as [s Hs].
    rewrite Hs, nth_lookup, Hs. cbn [fmap option_fmap option_map default
      from_option id].
    unfold Shamir.Evaluate. cbn [fold_left fst]. unfold Add, Mul.
    rewrite Z.mul_1_r, Z.add_0_l. by rewrite Z.mod_mod by done.
  - unfold Shamir.ShareVector in Hshare.
    rewrite decide_False in Hshare by lia.
    injection Hshare as Hfold.
    pose proof (share_components_threshold_one dist n
                  (seq 0 (length secret)) secret
                  (replicate n (replicate (length secret) 0)) prng) as Hprng.
    rewrite Hfold in Hprng. done.
Qed.

Lemma shamir_threshold_one_shares_secret_witness :
  Shamir.ShareVector sample_dist 1 3 [5; 7] (MT.seed 1) =
    Ok (replicate 3 (map (fun s => s mod kModulus) [5; 7]), MT.seed 1).
Proof.
  apply (shamir_threshold_one_shares_secret sample_dist 3 [5; 7] (MT.seed 1)).
  lia.
Defined.

(** X23.  [ShareVector] throws exactly when the threshold is 0 or exceeds
    the number of participants; otherwise it returns one row for each
    participant, as long as the secret, of values below [p]. *)
Theorem shamir_share_vector_shape
    (dist : MT.state -> Z * MT.state) (threshold n : nat) (secret : list Z)
    (prng : MT.state) :
  match Shamir.ShareVector dist threshold n secret prng with
  | Ok (shares, _) =>
      (1 <= threshold <= n)%nat /\
      length shares = n /\
      Forall (fun row => length row = length secret /\
                         Forall (fun s => 0 <= s < kModulus) row) shares
  | Err _ => threshold = 0%nat \/ (n < threshold)%nat
  end.
Proof.
  destruct (decide (threshold = 0%nat \/ (n < threshold)%nat)) as [Hbad | Hok].
  { unfold Shamir.ShareVector. by rewrite decide_True. }
  destruct (ShareVector_spec dist threshold n secret ltac:(lia) prng ltac:(lia))
    as (shares & prng' & -> & [Hlen Hrows] & Hcols).
  split; [lia|]. split; [done|].
  apply Forall_forall. intros row Hrow.
  apply list_elem_of_lookup in Hrow as [i Hi].
  pose proof (lookup_lt_Some _ _ _ Hi) as Hlt. rewrite Hlen in Hlt.
  assert (Hnth : nth i shares [] = row) by (by rewrite nth_lookup, Hi).
  split; [rewrite <- Hnth; by apply Hrows|].
  apply Forall_forall. intros s Hs.
  apply list_elem_of_lookup in Hs as [c Hc].
  pose proof (lookup_lt_Some _ _ _ Hc) as Hclt.
  rewrite <- Hnth, Hrows in Hclt by done.
  destruct (Hcols c Hclt) as (poly & _ & _ & Hev).
  specialize (Hev i Hlt). rewrite Hnth, nth_lookup, Hc in Hev.
  cbn [default from_option id] in Hev. subst s.
  apply Evaluate_spec.
Qed.

(** ** FTMA: registration and the answers of [Finalize] *)

Ltac bind_cases H :=
  repeat match type of H with
  | context [match ?x with _ => _ end] =>
      let E := fresh "E" in destruct x eqn:E; try discriminate H
  | context [mbind _ ?x] =>
      let E := fresh "E" in destruct x eqn:E;
      cbn [mbind result_bind] in H; try discriminate H
  end.

Lemma BuildPayload_num_clients dist double round_scaled c metrics id c' payload :
  Ftma.BuildPayload dist double round_scaled c metrics id = Ok (c', payload) ->
  Ftma.num_clients_ double c' = Ftma.num_clients_ double c.
Proof.
  unfold Ftma.BuildPayload. intros H. bind_cases H.
  injection H as <- _. reflexivity.
Qed.

(** What a successful [RegisterClient] leaves in the state of the
    client. *)
Lemma RegisterClient_stores dist double round_scaled c id metrics c' payload :
  Ftma.RegisterClient dist double round_scaled c id metrics = Ok (c', payload) ->
  (id < Ftma.num_clients_ double c)%nat /\
  Ftma.num_clients_ double c' = Ftma.num_clients_ double c /\
  exists s,
    Ftma.clients_ double c' !! id = Some s /\
    Ftma.registered double s = true /\
    Ftma.masked_payload double s = payload.
Proof.
  unfold Ftma.RegisterClient. intros H.
  destruct (decide _) as [|Hid]; [done|].
  destruct (read _ id) as [state|] eqn:Hstate; [|done].
  cbn [mbind result_bind] in H.
  destruct (Ftma.registered double state); [done|].
  destruct (Ftma.BuildPayload _ _ _ _ _ _) as [[c2 payload2]|] eqn:Hbuild;
    [|done].
  cbn [mbind result_bind] in H.
  destruct (read (Ftma.clients_ double c2) id) as [state2|] eqn:Hstate2; [|done].
  cbn [mbind result_bind] in H. injection H as <- <-.
  apply BuildPayload_num_clients in Hbuild.
  cbn [Ftma.num_clients_ Ftma.clients_] in *.
  split; [lia|]. split; [done|].
  eexists. split.
  - apply list_lookup_insert_eq. unfold read in Hstate2.
    destruct (Ftma.clients_ double c2 !! id) eqn:Hl; [|done].
    by eapply lookup_lt_Some.
  - done.
Qed.

(** X26.  The payload a client registers on a new coordinator: it is
    stored as the client's masked payload, it has twice the metric
    dimension, and in every metric component it is, modulo [p], the
    rounded scaled metric plus the client's personal mask plus the
    pairwise masks towards the other clients, added towards larger ids
    and subtracted towards smaller ones. *)
Theorem register_client_masks_metrics
    (dist : MT.state -> Z * MT.state) (double : Type)
    (round_scaled : double -> Z -> Z)
    (N t D : nat) (scale rd : Z) (metrics : list double) (id : nat) :
  (1 <= t <= N)%nat -> (0 < D)%nat -> scale <> 0 ->
  (id < N)%nat -> length metrics = D ->
  exists c0 c1 payload s,
    Ftma.FtmaCoordinator double N t D scale rd = Ok c0 /\
    Ftma.RegisterClient dist double round_scaled c0 id metrics
      = Ok (c1, payload) /\
    Ftma.clients_ double c1 !! id = Some s /\
    Ftma.registered double s = true /\
    Ftma.masked_payload double s = payload /\
    length payload = (D * 2)%nat /\
    length (Ftma.personal_mask double s) = (D * 2)%nat /\
    forall i, (i < D)%nat ->
      eqp kModulus (nth i payload 0)
        (scaled_value double round_scaled scale metrics i +
         nth i (Ftma.personal_mask double s) 0 +
         lsum (pair_term dist D scale i id) (seq 0 N)).
Proof.
  intros Ht HD Hscale Hid Hlen.
  destruct (FtmaCoordinator_inv dist double round_scaled N t D scale Ht
              (fun _ => metrics) rd HD Hscale) as (c0 & Hc0 & Hinv0).
  destruct (RegisterClient_inv dist double round_scaled N t D scale Ht
              (fun _ => metrics) c0 id [] Hinv0 Hid)
    as (c1 & payload & Hreg & Hinv1); [by intros []|done|].
  destruct (RegisterClient_stores _ _ _ _ _ _ _ _ Hreg)
    as (_ & _ & s & Hs & Hregistered & Hpayload).
  exists c0, c1, payload, s. split; [done|]. split; [done|].
  split; [done|]. split; [done|]. split; [done|].
  destruct Hinv1 as (_ & Hclients & _).
  destruct (Hclients id s Hs) as [Hok _].
  destruct (Hok ltac:(by left)) as (_ & (Hmask & Hplen & Hval) & _).
  rewrite Hpayload in Hplen, Hval. done.
Qed.

Lemma register_client_masks_metrics_witness :
  exists c0 c1 payload s,
    Ftma.FtmaCoordinator Z 3 2 1 1000 12345 = Ok c0 /\
    Ftma.RegisterClient sample_dist Z whole_round c0 1 [5]
      = Ok (c1, payload) /\
    Ftma.clients_ Z c1 !! 1%nat = Some s /\
    Ftma.registered Z s = true /\
    Ftma.masked_payload Z s = payload /\
    length payload = (1 * 2)%nat /\
    length (Ftma.personal_mask Z s) = (1 * 2)%nat /\
    forall i, (i < 1)%nat ->
      eqp kModulus (nth i payload 0)
        (scaled_value Z whole_round 1000 [5] i +
         nth i (Ftma.personal_mask Z s) 0 +
         lsum (pair_term sample_dist 1 1000 i 1) (seq 0 3)).
Proof.
  apply (register_client_masks_metrics sample_dist Z whole_round 3 2 1 1000
           12345 [5] 1).
  - lia.
  - lia.
  - discriminate.
  - lia.
  - reflexivity.
Defined.

(** X27.  After the clients of [order] have registered, the coordinator
    refuses a second registration of any of them and the registration of
    an id that is not below the number of clients; [Finalize] refuses a
    list of fewer active clients than the threshold and a list that names
    a client that has not registered. *)
Theorem ftma_run_rejections
    (dist : MT.state -> Z * MT.state) (double : Type)
    (round_scaled : double -> Z -> Z)
    (N t D : nat) (scale rd : Z) (metrics : nat -> list double)
    (order : list nat) :
  (1 <= t <= N)%nat -> (0 < D)%nat -> scale <> 0 ->
  NoDup order -> Forall (fun id => (id < N)%nat) order ->
  (forall id, (id < N)%nat -> length (metrics id) = D) ->
  exists c0 c,
    Ftma.FtmaCoordinator double N t D scale rd = Ok c0 /\
    register_all dist double round_scaled metrics c0 order = Ok c /\
    (forall id m, In id order ->
       Ftma.RegisterClient dist double round_scaled c id m
         = Err (RuntimeError "Client already registered")) /\
    (forall id m, (N <= id)%nat ->
       Ftma.RegisterClient dist double round_scaled c id m
         = Err (OutOfRange "Client id out of range")) /\
    (forall active, (length active < t)%nat ->
       Ftma.Finalize dist double c active
         = Err (RuntimeError "Not enough active clients to satisfy threshold")) /\
    (forall active id, (t <= length active)%nat ->
       In id active -> ~ In id order ->
       Ftma.Finalize dist double c active
         = Err (RuntimeError "Active client not registered")).
Proof.
  intros Ht HD Hscale Hnodup Horder Hmetrics.
  destruct (registered_run dist double round_scaled N t D scale rd metrics
              order Ht HD Hscale Hnodup Horder Hmetrics)
    as (c0 & c & Hc0 & Hc & Hinv).
  exists c0, c. split; [done|]. split; [done|].
  pose proof Hinv as ((HN & Hthr & _ & _ & _ & Hlen) & Hclients & _).
  split_and!.
  - intros id m Hin.
    pose proof (registered_inv_range _ _ _ _ _ _ _ _ _ _ _ Hinv Hin) as Hid.
    destruct (registered_inv_lookup dist double round_scaled N t D scale Ht
                metrics order c id Hinv Hid) as (s & Hs & _ & _ & Hreg).
    unfold Ftma.RegisterClient. rewrite HN, decide_False by lia.
    rewrite (read_lookup _ _ _ Hs). cbn [mbind result_bind].
    by rewrite Hreg.
  - intros id m Hid. unfold Ftma.RegisterClient.
    by rewrite HN, decide_True.
  - intros active Hshort. unfold Ftma.Finalize.
    by rewrite Hthr, decide_True.
  - intros active id Henough Hin Hout. unfold Ftma.Finalize.
    rewrite Hthr, decide_False by lia.
    assert (forallb (fun id => bool_decide (id < Ftma.num_clients_ double c)%nat &&
                               Ftma.client_registered double c id) active
            = false) as ->; [|done].
    apply not_true_is_false. intros Hall.
    rewrite forallb_forall in Hall. specialize (Hall id Hin).
    apply andb_prop in Hall as [Hid%bool_decide_eq_true Hreg].
    rewrite HN in Hid.
    destruct (registered_inv_lookup dist double round_scaled N t D scale Ht
                metrics order c id Hinv Hid) as (s & Hs & _ & Hreg' & _).
    unfold Ftma.client_registered in Hreg. rewrite Hs in Hreg.
    by destruct (Hreg' Hreg).
Qed.

Lemma ftma_run_rejections_witness :
  exists c0 c,
    Ftma.FtmaCoordinator Z 4 2 1 1000 12345 = Ok c0 /\
    register_all sample_dist Z whole_round sample_metrics c0 [0; 1; 2]%nat
      = Ok c /\
    (forall id m, In id [0; 1; 2]%nat ->
       Ftma.RegisterClient sample_dist Z whole_round c id m
         = Err (RuntimeError "Client already registered")) /\
    (forall id m, (4 <= id)%nat ->
       Ftma.RegisterClient sample_dist Z whole_round c id m
         = Err (OutOfRange "Client id out of range")) /\
    (forall active, (length active < 2)%nat ->
       Ftma.Finalize sample_dist Z c active
         = Err (RuntimeError "Not enough active clients to satisfy threshold")) /\
    (forall active id, (2 <= length active)%nat ->
       In id active -> ~ In id [0; 1; 2]%nat ->
       Ftma.Finalize sample_dist Z c active
         = Err (RuntimeError "Active client not registered")).
Proof.
  apply (ftma_run_rejections sample_dist Z whole_round 4 2 1 1000 12345
           sample_metrics [0; 1; 2]%nat).
  - lia.
  - lia.
  - discriminate.
  - apply (bool_decide_unpack _). vm_compute. exact I.
  - repeat (apply Forall_cons_2; [lia|]). apply Forall_nil_2.
  - intros id _. reflexivity.
Defined.

Lemma sum_payloads_participants double c ids aggregate participants
    aggregate' participants' :
  Ftma.sum_payloads double c ids aggregate participants
    = Ok (aggregate', participants') ->
  (participants <= participants' <= participants + length ids)%nat.
Proof.
  revert aggregate participants.
  induction ids as [|id ids IH]; intros aggregate participants H.
  { injection H as _ <-. cbn [length]. lia. }
  cbn [Ftma.sum_payloads] in H. cbn [length].
  destruct (read _ id) as [state|]; [|done]. cbn [mbind result_bind] in H.
  destruct (negb _).
  - apply IH in H. lia.
  - destruct (Ftma.elementwise _ _ _ _) as [agg|]; [|done].
    cbn [mbind result_bind] in H. apply IH in H. lia.
Qed.

Lemma Forall_zip_with_result (P : Z -> Prop) (f : Z -> Z -> Z) l k :
  (forall a b, P (f a b)) -> Forall P (zip_with f l k).
Proof.
  intros Hf. revert k. induction l as [|a l IH]; intros [|b k];
    cbn [zip_with]; constructor; auto.
Qed.

(** A step on an aggregate as long as [n] replaces every entry. *)
Lemma elementwise_canonical f n acc v r :
  (forall a b, canonical (f a b)) ->
  length acc = n ->
  Ftma.elementwise f n acc v = Ok r ->
  length r = n /\ Forall canonical r.
Proof.
  intros Hf Hlen. unfold Ftma.elementwise.
  destruct (decide _) as [[_ Hv]|]; [|done]. intros [= <-].
  rewrite drop_ge, app_nil_r by lia. split.
  - rewrite length_zip_with, !length_take. lia.
  - by apply Forall_zip_with_result.
Qed.

Definition field_vector (n : nat) (v : list Z) : Prop :=
  length v = n /\ Forall canonical v.

Lemma sum_payloads_field_vector double c ids aggregate participants
    aggregate' participants' :
  field_vector (Ftma.vector_dimension_ double c) aggregate ->
  Ftma.sum_payloads double c ids aggregate participants
    = Ok (aggregate', participants') ->
  field_vector (Ftma.vector_dimension_ double c) aggregate'.
Proof.
  revert aggregate participants.
  induction ids as [|id ids IH]; intros aggregate participants Hagg H.
  { by injection H as <- _. }
  cbn [Ftma.sum_payloads] in H.
  destruct (read _ id) as [state|]; [|done]. cbn [mbind result_bind] in H.
  destruct (negb _); [by eapply IH|].
  destruct (Ftma.elementwise _ _ _ _) as [agg|] eqn:Hstep; [|done].
  cbn [mbind result_bind] in H. eapply IH; [|exact H].
  eapply elementwise_canonical; [apply Add_canonical|apply Hagg|exact Hstep].
Qed.

Lemma subtract_active_masks_field_vector double c active aggregate aggregate' :
  field_vector (Ftma.vector_dimension_ double c) aggregate ->
  Ftma.subtract_active_masks double c active aggregate = Ok aggregate' ->
  field_vector (Ftma.vector_dimension_ double c) aggregate'.
Proof.
  revert aggregate. induction active as [|id active IH]; intros aggregate Hagg H.
  { by injection H as <-. }
  cbn [Ftma.subtract_active_masks] in H.
  destruct (read _ id) as [state|]; [|done]. cbn [mbind result_bind] in H.
  destruct (Ftma.elementwise _ _ _ _) as [agg|] eqn:Hstep; [|done].
  cbn [mbind result_bind] in H. eapply IH; [|exact H].
  eapply elementwise_canonical; [apply Sub_canonical|apply Hagg|exact Hstep].
Qed.

Lemma recover_dropouts_field_vector double c active is_active dropouts
    aggregate aggregate' :
  field_vector (Ftma.vector_dimension_ double c) aggregate ->
  Ftma.recover_dropouts double c active is_active dropouts aggregate
    = Ok aggregate' ->
  field_vector (Ftma.vector_dimension_ double c) aggregate'.
Proof.
  revert aggregate.
  induction dropouts as [|dropout dropouts IH]; intros aggregate Hagg H.
  { by injection H as <-. }
  cbn [Ftma.recover_dropouts] in H.
  destruct (read is_active dropout) as [flag|]; [|done].
  cbn [mbind result_bind] in H.
  destruct (read (Ftma.clients_ double c) dropout) as [state|]; [|done].
  cbn [mbind result_bind] in H.
  destruct (flag || negb _); [by eapply IH|].
  destruct (Ftma.collect_shares _ _ _ _) as [[collected coords]|]; [|done].
  cbn [mbind result_bind] in H.
  destruct (decide _); [done|].
  destruct (Shamir.Reconstruct _ _ _) as [mask|]; [|done].
  cbn [mbind result_bind] in H.
  destruct (Ftma.elementwise _ _ _ _) as [agg|] eqn:Hstep; [|done].
  cbn [mbind result_bind] in H. eapply IH; [|exact H].
  eapply elementwise_canonical; [apply Sub_canonical|apply Hagg|exact Hstep].
Qed.

Lemma cancel_missing_one_field_vector dist double c missing active aggregate
    aggregate' :
  field_vector (Ftma.vector_dimension_ double c) aggregate ->
  Ftma.cancel_missing_one dist double c missing active aggregate
    = Ok aggregate' ->
  field_vector (Ftma.vector_dimension_ double c) aggregate'.
Proof.
  revert aggregate. induction active as [|id active IH]; intros aggregate Hagg H.
  { by injection H as <-. }
  cbn [Ftma.cancel_missing_one] in H.
  destruct (read _ id) as [state|]; [|done]. cbn [mbind result_bind] in H.
  destruct (_ !! missing) as [seed|]; [|by eapply IH].
  destruct (Ftma.elementwise _ _ _ _) as [agg|] eqn:Hstep; [|done].
  cbn [mbind result_bind] in H. eapply IH; [|exact H].
  eapply elementwise_canonical; [|apply Hagg|exact Hstep].
  intros a b. destruct (bool_decide _); [apply Sub_canonical|apply Add_canonical].
Qed.

Lemma cancel_missing_field_vector dist double c active is_active missings
    aggregate aggregate' :
  field_vector (Ftma.vector_dimension_ double c) aggregate ->
  Ftma.cancel_missing dist double c active is_active missings aggregate
    = Ok aggregate' ->
  field_vector (Ftma.vector_dimension_ double c) aggregate'.
Proof.
  revert aggregate.
  induction missings as [|missing missings IH]; intros aggregate Hagg H.
  { by injection H as <-. }
  cbn [Ftma.cancel_missing] in H.
  destruct (read (Ftma.clients_ double c) missing) as [state|]; [|done].
  cbn [mbind result_bind] in H.
  destruct (read is_active missing) as [flag|]; [|done].
  cbn [mbind result_bind] in H.
  destruct (_ || flag); [by eapply IH|].
  destruct (Ftma.cancel_missing_one _ _ _ _ _ _) as [agg|] eqn:Hstep; [|done].
  cbn [mbind result_bind] in H. eapply IH; [|exact H].
  by eapply cancel_missing_one_field_vector.
Qed.

(** The three results of the last loop of [Finalize] for the metric [i]
    of an aggregate. *)
Definition decoded_sum double (c : Ftma.Coordinator double)
    (aggregate : list Z) (i : nat) : dbl :=
  dbl_div (dbl_of_int (ToSigned (nth i aggregate 0)))
          (dbl_of_int (Ftma.scale_ double c)).

Definition decoded_mean double (c : Ftma.Coordinator double)
    (participants : nat) (aggregate : list Z) (i : nat) : dbl :=
  dbl_div (decoded_sum double c aggregate i)
          (dbl_of_int (Z.of_nat participants)).

Definition decoded_variance double (c : Ftma.Coordinator double)
    (participants : nat) (aggregate : list Z) (i : nat) : dbl :=
  let sumsq_value :=
    dbl_div
      (dbl_of_int
         (ToSigned (nth (i + Ftma.metric_dimension_ double c) aggregate 0)))
      (dbl_mul (dbl_of_int (Ftma.scale_ double c))
               (dbl_of_int (Ftma.scale_ double c))) in
  dbl_max dbl_zero
    (dbl_sub (dbl_div sumsq_value (dbl_of_int (Z.of_nat participants)))
             (dbl_mul (decoded_mean double c participants aggregate i)
                      (decoded_mean double c participants aggregate i))).

Lemma decode_loop_shape double c participants aggregate idxs sums means
    variances :
  Ftma.decode_loop double c participants aggregate idxs
    = Ok (sums, means, variances) ->
  sums = map (decoded_sum double c aggregate) idxs /\
  means = map (decoded_mean double c participants aggregate) idxs /\
  variances = map (decoded_variance double c participants aggregate) idxs.
Proof.
  revert sums means variances.
  induction idxs as [|i idxs IH]; intros sums means variances H.
  { by injection H as <- <- <-. }
  cbn [Ftma.decode_loop] in H.
  destruct (read aggregate i) as [s|] eqn:Hs; [|done].
  cbn [mbind result_bind] in H.
  destruct (read aggregate (i + Ftma.metric_dimension_ double c)%nat)
    as [sq|] eqn:Hsq; [|done].
  cbn [mbind result_bind] in H.
  destruct (Ftma.decode_loop _ _ _ _ _) as [[[sums' means'] variances']|];
    [|done].
  cbn [mbind result_bind] in H. injection H as <- <- <-.
  destruct (IH _ _ _ eq_refl) as (-> & -> & ->).
  assert (Hnth : forall (v : list Z) k a, read v k = Ok a -> nth k v 0 = a).
  { intros v k a. unfold read. rewrite nth_lookup.
    destruct (v !! k); [by intros [= ->]|done]. }
  unfold decoded_variance, decoded_mean, decoded_sum. cbn [map].
  by rewrite (Hnth _ _ _ Hs), (Hnth _ _ _ Hsq).
Qed.

(** X28.  Whatever [Finalize] returns is decoded from one aggregate
    vector of field elements, all below [p]: there were at least
    [threshold] active clients, the counters are those of the call (at
    least one and at most [num_clients] participants), and for every
    metric [i] the sum is the [double] quotient of [ToSigned] of entry [i]
    by the scale, the mean is that sum divided by the converted number
    of participants, and the variance is the maximum of [0.0] and the
    mean square (from entry [i + metric_dimension], divided by the
    product of the converted scale with itself and by the participants)
    minus the product of the mean with itself. *)
Theorem finalize_result_shape
    (dist : MT.state -> Z * MT.state) (double : Type)
    (c : Ftma.Coordinator double) (active : list nat) :
  match Ftma.Finalize dist double c active with
  | Ok r =>
      (Ftma.threshold_ double c <= length active)%nat /\
      Ftma.survivors r = length active /\
      Ftma.threshold r = Ftma.threshold_ double c /\
      (1 <= Ftma.participants r <= Ftma.num_clients_ double c)%nat /\
      exists aggregate,
        length aggregate = Ftma.vector_dimension_ double c /\
        Forall (fun a => 0 <= a < kModulus) aggregate /\
        let metrics := seq 0 (Ftma.metric_dimension_ double c) in
        Ftma.sum r = map (decoded_sum double c aggregate) metrics /\
        Ftma.mean r =
          map (decoded_mean double c (Ftma.participants r) aggregate)
            metrics /\
        Ftma.variance r =
          map (decoded_variance double c (Ftma.participants r) aggregate)
            metrics
  | Err _ => True
  end.
Proof.
  destruct (Ftma.Finalize dist double c active) as [r|] eqn:H; [|done].
  unfold Ftma.Finalize in H.
  destruct (decide _) as [|Henough]; [done|].
  destruct (negb _); [done|].
  destruct (Ftma.sum_payloads _ _ _ _ _) as [[agg1 participants]|] eqn:Hsum;
    [|done].
  cbn [mbind result_bind] in H.
  destruct (Ftma.subtract_active_masks _ _ _ _) as [agg2|] eqn:Hsub; [|done].
  cbn [mbind result_bind] in H.
  destruct (Ftma.mark_active _ _) as [flags|]; [|done].
  cbn [mbind result_bind] in H.
  destruct (Ftma.recover_dropouts _ _ _ _ _ _) as [agg3|] eqn:Hrec; [|done].
  cbn [mbind result_bind] in H.
  destruct (Ftma.cancel_missing _ _ _ _ _ _ _) as [agg4|] eqn:Hcan; [|done].
  cbn [mbind result_bind] in H.
  destruct (decide (participants = 0%nat)) as [|Hpos]; [done|].
  destruct (Ftma.decode_loop _ _ _ _ _) as [[[sums means] variances]|] eqn:Hdec;
    [|done].
  cbn [mbind result_bind] in H. injection H as <-.
  cbn [Ftma.survivors Ftma.threshold Ftma.participants Ftma.sum Ftma.mean
       Ftma.variance].
  assert (Hagg : field_vector (Ftma.vector_dimension_ double c) agg4).
  { eapply cancel_missing_field_vector; [|exact Hcan].
    eapply recover_dropouts_field_vector; [|exact Hrec].
    eapply subtract_active_masks_field_vector; [|exact Hsub].
    eapply sum_payloads_field_vector; [|exact Hsum].
    split; [apply length_replicate|].
    apply Forall_forall. intros a ->%elem_of_replicate_inv.
    split; [done|reflexivity]. }
  apply sum_payloads_participants in Hsum. rewrite length_seq in Hsum.
  apply decode_loop_shape in Hdec as (Hs & Hm & Hv).
  split; [lia|]. split; [done|]. split; [done|]. split; [lia|].
  exists agg4. destruct Hagg as [Hlen Hcanon]. by repeat split.
Qed.

(** An instance of the general aggregate: four clients, three registered,
    two active. *)

Lemma ftma_finalize_aggregate_witness :
  exists c0 c r,
    Ftma.FtmaCoordinator Z 4 2 1 1000 12345 = Ok c0 /\
    register_all sample_dist Z whole_round sample_metrics c0 [0; 1; 2]%nat
      = Ok c /\
    Ftma.Finalize sample_dist Z c [0; 1]%nat = Ok r /\
    Ftma.participants r = length [0; 1; 2]%nat /\
    Ftma.survivors r = length [0; 1]%nat /\
    Ftma.sum r =
      map (fun i =>
             dbl_div
               (dbl_of_int
                  (ToSigned
                     ((total_of Z whole_round 4 1000 sample_metrics
                         [0; 1; 2]%nat i +
                       residual_of sample_dist 4 1 1000 [0; 1; 2]%nat
                         [0; 1]%nat i)
                      mod kModulus)))
               (dbl_of_int 1000)) (seq 0 1).
Proof.
  apply (ftma_finalize_aggregate sample_dist Z whole_round 4 2 1 1000 12345
           sample_metrics [0; 1; 2]%nat [0; 1]%nat).
  - lia.
  - lia.
  - discriminate.
  - reflexivity.
  - apply (bool_decide_unpack _). vm_compute. exact I.
  - repeat (apply Forall_cons_2; [lia|]). apply Forall_nil_2.
  - apply (bool_decide_unpack _). vm_compute. exact I.
  - repeat (apply Forall_cons_2; [cbn; tauto|]). apply Forall_nil_2.
  - cbn [length]. lia.
  - intros id _. reflexivity.
Defined.

(** ** [line_word_count.c]: words and lines *)

Import LineWordCount.

Lemma is_blank_isspace c : is_blank c = isspace (byte_val c).
Proof. all_bytes c; reflexivity. Qed.

Lemma count_loop_tokens s junk count current :
  Forall (fun c => c <> zero) s ->
  count_loop (s ++ zero :: junk) count (in_token current)
    = Ok (count + Z.of_nat (length (tokenize_loop s current))
          - (if in_token current then 1 else 0)).
Proof.
  intros Hs. revert count current.
  induction Hs as [|c s Hc _ IH]; intros count current.
  - cbn [app count_loop tokenize_loop].
    change (byte_val zero =? 0) with true. cbn iota.
    destruct current; cbn [in_token length]; f_equal; lia.
  - cbn [app count_loop tokenize_loop].
    assert ((byte_val c =? 0) = false) as ->.
    { apply Z.eqb_neq. intros H0. apply Hc.
      rewrite <- (to_byte_val c), H0. reflexivity. }
    rewrite is_blank_isspace. destruct (isspace (byte_val c)).
    + change false with (in_token []). rewrite IH.
      destruct current; cbn [in_token length]; f_equal; lia.
    + destruct (in_token current) eqn:Hin; cbn [negb].
      * rewrite <- (in_token_snoc current c), IH, in_token_snoc. done.
      * rewrite <- (in_token_snoc current c), IH, in_token_snoc.
        f_equal. lia.
Qed.

Lemma tokenize_loop_bound s current :
  (2 * length (tokenize_loop s current)
     <= length s + (if in_token current then 2 else 1))%nat.
Proof.
  revert current. induction s as [|c s IH]; intros current.
  - destruct current; cbn [tokenize_loop in_token length]; lia.
  - cbn [tokenize_loop length]. destruct (isspace (byte_val c)).
    + specialize (IH []). cbn [in_token] in IH.
      destruct current; cbn [in_token length]; lia.
    + specialize (IH (current ++ [c])). rewrite in_token_snoc in IH.
      destruct (in_token current); lia.
Qed.

(** X29.  [count_words] on a string, that is on bytes without a NUL
    followed by the terminator: the count is the number of tokens into
    which [Tokenize] of the watermark splits the string on the same
    whitespace, no string gives more words than half its length rounded
    up, and the bytes behind the terminator are not looked at. *)
Theorem count_words_counts_tokens s junk :
  Forall (fun c => c <> zero) s ->
  count_words (s ++ zero :: junk) = Ok (Z.of_nat (length (Tokenize s))) /\
  (2 * length (Tokenize s) <= length s + 1)%nat.
Proof.
  intros Hs. split.
  - unfold count_words, Tokenize. change false with (in_token []).
    rewrite count_loop_tokens by done. cbn [in_token]. f_equal. lia.
  - apply (tokenize_loop_bound s []).
Qed.

Lemma count_words_counts_tokens_witness :
  count_words (list_ascii_of_string "two  words" ++ zero :: [])
    = Ok (Z.of_nat (length (Tokenize (list_ascii_of_string "two  words")))) /\
  (2 * length (Tokenize (list_ascii_of_string "two  words"))
     <= length (list_ascii_of_string "two  words") + 1)%nat.
Proof.
  apply (count_words_counts_tokens (list_ascii_of_string "two  words") []).
  repeat (apply Forall_cons_2; [discriminate|]). apply Forall_nil_2.
Defined.

Lemma fgets_rest room stream :
  (length (fgets room stream).2 <= length stream)%nat.
Proof.
  revert stream. induction room as [|room IH]; intros [|c rest];
    cbn [fgets snd length]; try lia.
  destruct (byte_val c =? 10); [cbn [snd length]; lia|].
  specialize (IH rest). destruct (fgets room rest) as [stored stream'].
  cbn [snd length] in *. lia.
Qed.

Lemma fgets_consumes room c rest :
  (length (fgets (S room) (c :: rest)).2 < length (c :: rest))%nat.
Proof.
  cbn [fgets]. destruct (byte_val c =? 10); [cbn [snd length]; lia|].
  pose proof (fgets_rest room rest) as Hle.
  destruct (fgets room rest) as [stored stream'].
  cbn [snd length] in *. lia.
Qed.

(** The loop of [main] ends by itself: any fuel that is at least the
    length of the stream gives the same run. *)
Lemma read_lines_fuel fuel fuel' stream line_number :
  (length stream <= fuel)%nat -> (length stream <= fuel')%nat ->
  read_lines fuel stream line_number = read_lines fuel' stream line_number.
Proof.
  revert fuel' stream line_number.
  induction fuel as [|fuel IH]; intros fuel' stream line_number H1 H2.
  - destruct stream; [by destruct fuel'|cbn [length] in H1; lia].
  - destruct stream as [|c rest]; [by destruct fuel'|].
    destruct fuel' as [|fuel']; [cbn [length] in H2; lia|].
    cbn [read_lines]. change (MAX_LINE_LENGTH - 1)%nat with (S 1022).
    pose proof (fgets_consumes 1022 c rest) as Hlt.
    destruct (fgets (S 1022) (c :: rest)) as [stored stream'].
    cbn [snd] in Hlt. destruct (_ <? _); [done|].
    destruct (count_words _) as [words|]; [|done].
    cbn [mbind result_bind].
    rewrite (IH fuel' stream') by (cbn [length] in *; lia). done.
Qed.

Lemma tokenize_loop_trailing_space s c current :
  isspace (byte_val c) = true ->
  tokenize_loop (s ++ [c]) current = tokenize_loop s current.
Proof.
  intros Hc. revert current. induction s as [|b s IH]; intros current.
  - cbn [app tokenize_loop]. rewrite Hc. by destruct current.
  - cbn [app tokenize_loop]. destruct (isspace (byte_val b)).
    + destruct current; by rewrite IH.
    + apply IH.
Qed.

Definition text_line (l : list ascii) : Prop :=
  (length l < MAX_LINE_LENGTH - 1)%nat /\
  Forall (fun c => c <> zero /\ byte_val c <> 10) l.

Lemma fgets_text_line room l rest :
  (length l < room)%nat ->
  Forall (fun c => c <> zero /\ byte_val c <> 10) l ->
  fgets room (l ++ newline ++ rest) = (l ++ newline, rest).
Proof.
  intros Hroom Hl. revert room Hroom.
  induction Hl as [|c l [_ Hc] _ IH]; intros room Hroom.
  - destruct room as [|room]; [cbn [length] in Hroom; lia|]. reflexivity.
  - destruct room as [|room]; [cbn [length] in Hroom; lia|].
    cbn [app fgets]. rewrite (proj2 (Z.eqb_neq _ _) Hc).
    rewrite IH by (cbn [length] in Hroom; lia). done.
Qed.

Lemma count_words_text_line l :
  Forall (fun c => c <> zero /\ byte_val c <> 10) l ->
  count_words ((l ++ newline) ++ [zero])
    = Ok (Z.of_nat (length (Tokenize l))).
Proof.
  intros Hl. unfold count_words, Tokenize. change false with (in_token []).
  rewrite count_loop_tokens.
  - unfold newline. rewrite tokenize_loop_trailing_space by reflexivity.
    cbn [in_token]. f_equal. lia.
  - apply Forall_app. split; [|by repeat constructor].
    eapply Forall_impl; [exact Hl|]. by intros c [? _].
Qed.

Lemma read_lines_text lines :
  Forall text_line lines ->
  forall fuel k,
    (length (flat_map (fun l => l ++ newline) lines) <= fuel)%nat ->
    0 <= k <= MAX_LINES ->
    read_lines fuel (flat_map (fun l => l ++ newline) lines) k =
      Ok (imap (fun i l =>
                  Stdout (line_report (k + Z.of_nat i + 1)
                            (Z.of_nat (length (Tokenize l)))))
            (take (Z.to_nat (MAX_LINES - k)) lines) ++
          (if (MAX_LINES - k <? Z.of_nat (length lines))
           then [Stderr limit_warning] else [])).
Proof.
  induction 1 as [|l lines [Hlen Hl] _ IH]; intros fuel k Hfuel Hk.
  { cbn [flat_map]. rewrite take_nil. cbn [imap app length].
    rewrite (proj2 (Z.ltb_ge _ _)) by lia. by destruct fuel. }
  cbn [flat_map] in *. rewrite length_app in Hfuel.
  assert (Hnl : length (l ++ newline) = S (length l))
    by (rewrite length_app; cbn [newline length]; lia).
  destruct fuel as [|fuel]; [lia|].
  assert (Hcons : exists b t,
            (l ++ newline) ++ flat_map (fun l => l ++ newline) lines = b :: t).
  { destruct l; cbn [app newline]; eauto. }
  destruct Hcons as (b & t & Hcons).
  cbn [read_lines]. rewrite Hcons at 1. cbn iota.
  rewrite <- app_assoc.
  rewrite (fgets_text_line _ l) by done.
  rewrite count_words_text_line by done.
  cbn [length]. unfold MAX_LINES in *.
  destruct (Z.ltb_spec 1000 (k + 1)) as [Hfull | Hroom].
  - assert (k = 1000) as -> by lia.
    change (Z.to_nat (1000 - 1000)) with 0%nat. rewrite take_0. cbn [imap app].
    rewrite (proj2 (Z.ltb_lt _ _)) by lia. done.
  - cbn [mbind result_bind].
    rewrite IH by lia. cbn [mbind result_bind].
    replace (Z.to_nat (1000 - k)) with (S (Z.to_nat (1000 - (k + 1)))) by lia.
    cbn [take imap app]. f_equal. f_equal.
    + by replace (k + Z.of_nat 0 + 1) with (k + 1) by lia.
    + f_equal.
      * apply imap_ext. intros i x _. cbn [compose].
        by replace (k + 1 + Z.of_nat i + 1) with (k + Z.of_nat (S i) + 1)
          by lia.
      * destruct (Z.ltb_spec (1000 - (k + 1)) (Z.of_nat (length lines))),
          (Z.ltb_spec (1000 - k) (Z.of_nat (S (length lines)))); done || lia.
Qed.

(** X30.  [main] on a readable text file whose lines end in a newline,
    contain no NUL and have fewer than 1023 bytes before the newline:
    the exit status is 0, the report of line [i] gives its number and the
    number of its whitespace-separated words, at most 1000 lines are
    reported, and the warning follows exactly when the file has more. *)
Theorem main_reports_each_line
    (program filename : list ascii)
    (fopen : list ascii -> option (list ascii)) (lines : list (list ascii)) :
  Forall text_line lines ->
  fopen filename = Some (flat_map (fun l => l ++ newline) lines) ->
  main [program; filename] fopen =
    Ok (0,
        imap (fun i l =>
                Stdout (line_report (Z.of_nat i + 1)
                          (Z.of_nat (length (Tokenize l)))))
          (take 1000 lines) ++
        (if (1000 <? Z.of_nat (length lines))
         then [Stderr limit_warning] else [])).
Proof.
  intros Hlines Hopen. unfold main. cbn [length Nat.eqb negb nth].
  rewrite Hopen.
  rewrite (read_lines_text lines Hlines _ 0) by (done || (unfold MAX_LINES; lia)).
  cbn [mbind result_bind]. done.
Qed.

Lemma main_reports_each_line_witness :
  main [list_ascii_of_string "wc"; list_ascii_of_string "f"]
    (fun _ => Some (flat_map (fun l => l ++ newline)
                      [list_ascii_of_string "two words"; []])) =
    Ok (0,
        imap (fun i l =>
                Stdout (line_report (Z.of_nat i + 1)
                          (Z.of_nat (length (Tokenize l)))))
          (take 1000 [list_ascii_of_string "two words"; []]) ++
        (if (1000 <? Z.of_nat (length [list_ascii_of_string "two words"; []]))
         then [Stderr limit_warning] else [])).
Proof.
  apply (main_reports_each_line (list_ascii_of_string "wc")
           (list_ascii_of_string "f")
           (fun _ => Some (flat_map (fun l => l ++ newline)
                             [list_ascii_of_string "two words"; []]))
           [list_ascii_of_string "two words"; []]).
  - repeat (apply Forall_cons_2;
              [split; [vm_compute; lia|
                       repeat (apply Forall_cons_2;
                                 [split; discriminate|]);
                       apply Forall_nil_2]|]).
    apply Forall_nil_2.
  - reflexivity.
Defined.
